(** * Similarity grouping of exam questions: a shallow embedding

    This development embeds [scripts/find_similar_questions.py] and proves
    properties of its two stages:

    - Stage 1 ([find_similarity_groups], [run_stage1]): density clustering
      of embeddings, pairwise verification, connected components;
    - Stage 2 ([try_split_group], [try_split_with_cross_encoder],
      [run_stage2]): refinement of large groups.

    The learned models and the numeric libraries (sentence embeddings,
    HDBSCAN, the cross-encoder, scipy's linkage and fcluster) are
    parameters of the development.  Python dictionaries that are iterated
    are association lists in insertion order; dictionaries and sets that
    are only looked up are [gmap] and [gset]. *)

From Stdlib Require Import QArith Ascii.
From stdpp Require Import gmap strings list fin_maps pretty relations.

Set Warnings "-clear-no-such-hyp".

Open Scope string_scope.
Open Scope list_scope.
Open Scope nat_scope.

(** ** Python values used by the script *)

(** A Python [str] holding free text, as its sequence of code points. *)
Definition text := list N.

(** [Py_UNICODE_ISSPACE]: the characters [str.strip()] removes. *)
Definition py_isspace (c : N) : bool :=
  ((9 <=? c) && (c <=? 13) || (28 <=? c) && (c <=? 32)
   || (c =? 133) || (c =? 160) || (c =? 5760)
   || (8192 <=? c) && (c <=? 8202)
   || (c =? 8232) || (c =? 8233) || (c =? 8239) || (c =? 8287)
   || (c =? 12288))%N.

Fixpoint lstrip (t : text) : text :=
  match t with
  | c :: t' => if py_isspace c then lstrip t' else t
  | [] => []
  end.

Definition rstrip (t : text) : text := reverse (lstrip (reverse t)).

(** [text.strip()] *)
Definition strip (t : text) : text := rstrip (lstrip t).

(** The code points of the literal ["query: "]. *)
Definition query_prefix : text := [113; 117; 101; 114; 121; 58; 32]%N.

(** [prepare_e5_text] *)
Definition prepare_e5_text (t : text) : text := query_prefix ++ t.

(** A record of the collection.  [data = None] is a record without the
    ["data"] key; the payload maps field names to their string values.
    [similarity_group_id = None] is a record without that key,
    [Some None] is the key holding [None] (JSON null). *)
Record question := Question {
  success : bool;
  data : option (gmap string text);
  similarity_group_id : option (option string);
}.

(** [q.get("data")] used as a condition: a non-empty payload. *)
Definition data_truthy (q : question) : bool :=
  match data q with
  | Some d => bool_decide (d ≠ ∅)
  | None => false
  end.

(** [get_question_text]: [question.get("data", {}).get("question_text", "")] *)
Definition get_question_text (q : question) : text :=
  match data q with
  | Some d => default [] (d !! "question_text")
  | None => []
  end.

(** [q.get("similarity_group_id")] *)
Definition get_group_id (q : question) : option string :=
  mjoin (similarity_group_id q).

(** [q["similarity_group_id"] = v] *)
Definition set_group_id (v : option string) (q : question) : question :=
  {| success := success q; data := data q; similarity_group_id := Some v |}.

(** [range(a, b)] *)
Definition py_range (a b : nat) : list nat := seq a (b - a).

(** [enumerate(l)] *)
Fixpoint enumerate_from {A} (n : nat) (l : list A) : list (nat * A) :=
  match l with
  | [] => []
  | x :: l' => (n, x) :: enumerate_from (S n) l'
  end.

Definition enumerate {A} (l : list A) : list (nat * A) := enumerate_from 0 l.

(** ** Insertion-ordered dictionaries *)

Section PyDict.
Context {K V : Type} `{EqDecision K}.

Fixpoint dict_get (k : K) (d : list (K * V)) : option V :=
  match d with
  | [] => None
  | (k', v) :: d' => if decide (k = k') then Some v else dict_get k d'
  end.

(** [d[k] = v]: an existing key keeps its position, a new key goes last. *)
Fixpoint dict_set (k : K) (v : V) (d : list (K * V)) : list (K * V) :=
  match d with
  | [] => [(k, v)]
  | (k', v') :: d' =>
      if decide (k = k') then (k, v) :: d' else (k', v') :: dict_set k v d'
  end.

Definition dict_keys (d : list (K * V)) : list K := d.*1.
Definition dict_values (d : list (K * V)) : list V := d.*2.
End PyDict.

(** [d[k].append(x)] on a [defaultdict(list)] *)
Definition dict_append {K A} `{EqDecision K} (k : K) (x : A)
    (d : list (K * list A)) : list (K * list A) :=
  dict_set k (default [] (dict_get k d) ++ [x]) d.

(** [d[k] += 1] on a [defaultdict(int)] *)
Definition dict_incr {K} `{EqDecision K} (k : K)
    (d : list (K * nat)) : list (K * nat) :=
  dict_set k (S (default 0 (dict_get k d))) d.

(** ** Effects: printed lines, calls to the models, exceptions *)

Record hdbscan_params := HdbscanParams {
  min_cluster_size : Z;
  min_samples : Z;
  leaf_selection : bool;   (* cluster_selection_method: 'leaf' or 'eom' *)
}.

Inductive event :=
| PrintLine (line : string)
| EncodeCall (texts : list text)
| FitPredictCall (p : hdbscan_params)
| PredictCall (pairs : list (text * text))
| LinkageCall (n : nat).

Inductive outcome (A : Type) :=
| Ok (a : A)
| IndexError
| OutOfFuel.
Arguments Ok {A} a.
Arguments IndexError {A}.
Arguments OutOfFuel {A}.

(** A computation: the events it performed, in order, and how it ended. *)
Definition M (A : Type) : Type := list event * outcome A.

Definition trace {A} (m : M A) : list event := m.1.
Definition result {A} (m : M A) : outcome A := m.2.

Definition ret {A} (a : A) : M A := ([], Ok a).

Definition bind {A B} (m : M A) (k : A → M B) : M B :=
  match m.2 with
  | Ok a => (m.1 ++ (k a).1, (k a).2)
  | IndexError => (m.1, IndexError)
  | OutOfFuel => (m.1, OutOfFuel)
  end.

Notation "x <- m ;; k" := (bind m (λ x, k))
  (at level 100, m at next level, right associativity).
Notation "m ;;; k" := (bind m (λ _, k))
  (at level 100, right associativity).

Definition emit (e : event) : M unit := ([e], Ok tt).

(** [l[i]]: raises [IndexError] out of range. *)
Definition index {A} (l : list A) (i : nat) : M A :=
  match l !! i with
  | Some a => ret a
  | None => ([], IndexError)
  end.

Definition of_fuel {A} (o : option A) : M A :=
  match o with
  | Some a => ret a
  | None => ([], OutOfFuel)
  end.

(** A [for] loop threading its state. *)
Fixpoint for_each {S X} (body : S → X → M S) (l : list X) (s : S) : M S :=
  match l with
  | [] => ret s
  | x :: l' => s' <- body s x ;; for_each body l' s'
  end.

(** A list comprehension whose element expression may raise. *)
Fixpoint comprehension {X A} (f : X → M A) (l : list X) : M (list A) :=
  match l with
  | [] => ret []
  | x :: l' => a <- f x ;; r <- comprehension f l' ;; ret (a :: r)
  end.

(** ** The verification graph and its traversal *)

(** [adjacency[i]] on a [defaultdict(set)] *)
Definition neighbours (adjacency : gmap nat (gset nat)) (i : nat) : gset nat :=
  default ∅ (adjacency !! i).

(** [adjacency[i].add(j)] *)
Definition adj_add (i j : nat) (adjacency : gmap nat (gset nat))
    : gmap nat (gset nat) :=
  <[i := {[j]} ∪ neighbours adjacency i]> adjacency.

(** The loop over [zip(pair_indices, scores)] that keeps the pairs scoring
    at least the threshold. *)
Definition build_adjacency (threshold : Q) (scored : list (nat * nat * Q))
    : gmap nat (gset nat) :=
  foldl (λ adjacency '(i, j, score),
           if Qle_bool threshold score
           then adj_add j i (adj_add i j adjacency)
           else adjacency)
        ∅ scored.

(** Stage 1 scores every unordered pair of positions. *)
Definition all_pairs (n : nat) : list (nat * nat) :=
  i ← py_range 0 n; j ← py_range (i + 1) n; [(i, j)].

(** Stage 2 pairs a position with at most the next 50 positions. *)
Definition bounded_pairs (n : nat) : list (nat * nat) :=
  i ← py_range 0 n; j ← py_range (i + 1) (n `min` (i + 51)); [(i, j)].

(** [[member_texts[i], member_texts[j]]] for each pair of positions. *)
Definition text_pairs (member_texts : list text)
    (pair_indices : list (nat * nat)) : list (text * text) :=
  (λ p : nat * nat, (member_texts !!! p.1, member_texts !!! p.2))
  <$> pair_indices.

(** The work left for the traversal: one unit per queued node, and for
    every unvisited node one unit plus its degree. *)
Definition unvisited_weight (adjacency : gmap nat (gset nat))
    (visited : gset nat) : nat :=
  sum_list ((λ e : nat * gset nat,
               if decide (e.1 ∈ visited) then 0 else S (size e.2))
            <$> map_to_list adjacency).

Definition bfs_fuel (adjacency : gmap nat (gset nat)) (visited : gset nat)
    (queue : list nat) : nat :=
  S (length queue + unvisited_weight adjacency visited).

Section Traversal.
(** The order in which Python enumerates a set of integers. *)
Variable set_iter : gset nat → list nat.

Context {A : Type}.
(** What is appended to [component] for a node: [members[node]]. *)
Variable member : nat → A.

(** The [while queue:] loop. *)
Fixpoint bfs_while (fuel : nat) (adjacency : gmap nat (gset nat))
    (visited : gset nat) (component : list A) (queue : list nat)
    : option (gset nat * list A) :=
  match fuel with
  | 0 => None
  | S fuel' =>
      match queue with
      | [] => Some (visited, component)
      | node :: queue' =>
          if decide (node ∈ visited)
          then bfs_while fuel' adjacency visited component queue'
          else
            let visited' := {[node]} ∪ visited in
            bfs_while fuel' adjacency visited' (component ++ [member node])
              (queue' ++ filter (λ n, n ∉ visited')
                                (set_iter (neighbours adjacency node)))
      end
  end.

(** [component = []; queue = [start]; while queue: ...] *)
Definition bfs (adjacency : gmap nat (gset nat)) (visited : gset nat)
    (start : nat) : option (gset nat * list A) :=
  bfs_while (bfs_fuel adjacency visited [start]) adjacency visited []
            [start].
End Traversal.

(** ** Stage 1 *)

Definition sim_group_label (cluster_id : nat) : string :=
  "sim_group_" +:+ pretty cluster_id.

(** The grouping of positions by cluster label, noise dropped. *)
Definition group_clusters (cluster_labels : list Z) : list (Z * list nat) :=
  foldl (λ clusters '(i, label),
           if decide (0 ≤ label)%Z then dict_append label i clusters
           else clusters)
        [] (enumerate cluster_labels).

Definition coarse_params (min_cluster_size : Z) : hdbscan_params :=
  {| min_cluster_size := min_cluster_size; min_samples := 1;
     leaf_selection := false |}.

Definition fine_params : hdbscan_params :=
  {| min_cluster_size := 2; min_samples := 2; leaf_selection := true |}.

(** ["=" * 60] and ["\n"] *)
Definition banner : string := String.concat "" (replicate 60 "=").
Definition newline : string := String (ascii_of_nat 10) "".

Section Stage1.
Context {embeddings : Type}.
(** [hdbscan.HDBSCAN(...).fit_predict(embeddings)] *)
Variable hdbscan_fit_predict : hdbscan_params → embeddings → list Z.
(** The order in which Python enumerates a set of integers. *)
Variable set_iter : gset nat → list nat.

Definition bi_encoder_encode (bi_encoder : list text → embeddings)
    (texts : list text) : M embeddings :=
  emit (EncodeCall texts) ;;; ret (bi_encoder texts).

Definition fit_predict (p : hdbscan_params) (e : embeddings) : M (list Z) :=
  emit (FitPredictCall p) ;;; ret (hdbscan_fit_predict p e).

Definition predict (cross_encoder : list (text * text) → list Q)
    (pairs : list (text * text)) : M (list Q) :=
  emit (PredictCall pairs) ;;; ret (cross_encoder pairs).

(** [for local_idx in component:
       verified_clusters[original_indices[local_idx]] = label] *)
Definition label_component (original_indices : list nat) (label : string)
    (verified : gmap nat string) (component : list nat)
    : M (gmap nat string) :=
  for_each (λ verified local_idx,
              k <- index original_indices local_idx ;;
              ret (<[k := label]> verified))
           component verified.

(** The body of [for start in range(len(members))]; the state is the
    visited set, then the counter and the assignment. *)
Definition stage1_start (members original_indices : list nat)
    (adjacency : gmap nat (gset nat))
    (st : gset nat * (nat * gmap nat string)) (start : nat)
    : M (gset nat * (nat * gmap nat string)) :=
  let '(visited, (cluster_id, verified)) := st in
  if decide (start ∈ visited ∨ neighbours adjacency start = ∅)
  then ret st
  else
    found <- of_fuel (bfs set_iter (λ node, members !!! node)
                          adjacency visited start) ;;
    let component := found.2 in
    if decide (2 ≤ length component)
    then
      let cluster_id' := S cluster_id in
      verified' <- label_component original_indices
                     (sim_group_label cluster_id') verified component ;;
      ret (found.1, (cluster_id', verified'))
    else ret (found.1, (cluster_id, verified)).

(** The body of [for label, members in clusters.items()] with the
    cross-encoder. *)
Definition stage1_cluster (cross_encoder : list (text * text) → list Q)
    (threshold : Q) (valid_texts : list text) (original_indices : list nat)
    (st : nat * gmap nat string) (entry : Z * list nat)
    : M (nat * gmap nat string) :=
  let members := entry.2 in
  if decide (length members < 2) then ret st
  else
    member_texts <- comprehension (index valid_texts) members ;;
    let pair_indices := all_pairs (length members) in
    let pairs := text_pairs member_texts pair_indices in
    match pairs with
    | [] => ret st
    | _ :: _ =>
        scores <- predict cross_encoder pairs ;;
        let adjacency :=
          build_adjacency threshold (zip pair_indices scores) in
        st' <- for_each (stage1_start members original_indices adjacency)
                 (py_range 0 (length members)) (∅, st) ;;
        ret st'.2
    end.

(** The body of the same loop without the cross-encoder. *)
Definition stage1_cluster_unverified (original_indices : list nat)
    (st : nat * gmap nat string) (entry : Z * list nat)
    : M (nat * gmap nat string) :=
  let members := entry.2 in
  if decide (2 ≤ length members)
  then
    let cluster_id := S st.1 in
    verified <- label_component original_indices
                  (sim_group_label cluster_id) st.2 members ;;
    ret (cluster_id, verified)
  else ret st.

(** The rows [(i, idx, text)] with a non-blank text. *)
Definition valid_rows (questions_with_indices : list (nat * question))
    : list (nat * nat * text) :=
  let indices := questions_with_indices.*1 in
  let texts := (λ e : nat * question, get_question_text e.2)
               <$> questions_with_indices in
  filter (λ d : nat * nat * text, strip d.2 ≠ [])
         ((λ e : nat * (nat * text), (e.1, e.2.1, e.2.2))
          <$> enumerate (zip indices texts)).

Definition find_similarity_groups
    (questions_with_indices : list (nat * question))
    (bi_encoder : list text → embeddings)
    (cross_encoder : option (list (text * text) → list Q))
    (min_cluster_size : Z) (cross_encoder_threshold : Q)
    (use_cross_encoder : bool) : M (gmap nat string) :=
  match questions_with_indices with
  | [] => ret ∅
  | _ :: _ =>
      let valid_data := valid_rows questions_with_indices in
      if decide (length valid_data < 2) then ret ∅
      else
        let original_indices := (λ d : nat * nat * text, d.1.2)
                                <$> valid_data in
        let valid_texts := (λ d : nat * nat * text, d.2) <$> valid_data in
        let prepared_texts := prepare_e5_text <$> valid_texts in
        embeddings <- bi_encoder_encode bi_encoder prepared_texts ;;
        cluster_labels <-
          fit_predict (coarse_params min_cluster_size) embeddings ;;
        let clusters := group_clusters cluster_labels in
        match use_cross_encoder, cross_encoder with
        | true, Some ce =>
            st <- for_each (stage1_cluster ce cross_encoder_threshold
                              valid_texts original_indices)
                    clusters (0, ∅) ;;
            ret st.2
        | _, _ =>
            st <- for_each (stage1_cluster_unverified original_indices)
                    clusters (0, ∅) ;;
            ret st.2
        end
  end.

(** [len(set(similarity_map.values()))] *)
Definition count_labels (similarity_map : gmap nat string) : nat :=
  size (list_to_set (map_to_list similarity_map).*2 : gset string).

(** [run_stage1]: the list is updated in place and the function returns
    [None]; the embedding returns the new list and that value. *)
Definition run_stage1 (questions : list question)
    (bi_encoder : list text → embeddings)
    (cross_encoder : option (list (text * text) → list Q))
    (min_cluster_size : Z) (cross_encoder_threshold : Q)
    (use_cross_encoder : bool) : M (list question * unit) :=
  emit (PrintLine (newline +:+ banner)) ;;;
  emit (PrintLine "STAGE 1: Initial Similarity Detection") ;;;
  emit (PrintLine banner) ;;;
  let questions_with_indices :=
    filter (λ e : nat * question, success e.2 && data_truthy e.2)
           (enumerate questions) in
  emit (PrintLine ("Processing " +:+ pretty (length questions_with_indices)
               +:+ " questions")) ;;;
  similarity_map <-
    find_similarity_groups questions_with_indices bi_encoder cross_encoder
      min_cluster_size cross_encoder_threshold use_cross_encoder ;;
  let questions' :=
    (λ e : nat * question, set_group_id (similarity_map !! e.1) e.2)
    <$> enumerate questions in
  let total_groups := count_labels similarity_map in
  emit (PrintLine (newline +:+ "Stage 1 complete: " +:+ pretty total_groups
               +:+ " groups, " +:+ pretty (size similarity_map)
               +:+ " questions assigned")) ;;;
  ret (questions', tt).
End Stage1.

(** ** Stage 2 *)

(** [find_large_groups] *)
Definition find_large_groups (questions : list question) (min_size : Z)
    : list (string * list nat) :=
  let groups :=
    foldl (λ groups '(idx, q),
             match get_group_id q with
             | Some group_id =>
                 if decide (group_id = "") then groups
                 else dict_append group_id idx groups
             | None => groups
             end)
          [] (enumerate questions) in
  filter (λ e : string * list nat, (min_size < Z.of_nat (length e.2))%Z)
         groups.

(** A dictionary comprehension over a list of items. *)
Definition dict_of_items {K V} `{EqDecision K} (items : list (K * V))
    : list (K * V) :=
  foldl (λ d '(k, v), dict_set k v d) [] items.

(** [len(set(d.values()))] *)
Definition distinct_values (d : list (nat * Z)) : nat :=
  size (list_to_set (dict_values d) : gset Z).

(** [questions[idx]["similarity_group_id"] = v] *)
Definition set_question_group (questions : list question) (idx : nat)
    (v : option string) : M (list question) :=
  q <- index questions idx ;;
  ret (<[idx := set_group_id v q]> questions).

Definition sub_group_label (group_id : string) (sub_group_num : Z) : string :=
  group_id +:+ "_sub" +:+ pretty sub_group_num.

Section Stage2.
Context {embeddings : Type}.
Variable hdbscan_fit_predict : hdbscan_params → embeddings → list Z.
(** [linkage(squareform(clip(1 - sim)), 'average')] followed by
    [fcluster(Z, t, 'distance')], as a function of the number of texts,
    of the scores that fill the similarity matrix and of the cut [t]. *)
Variable linkage_fcluster : nat → list Q → Q → list Z.
Variable set_iter : gset nat → list nat.

Definition linkage_cut (n : nat) (scores : list Q) (t : Q) : M (list Z) :=
  emit (LinkageCall n) ;;; ret (linkage_fcluster n scores t).

(** [try_split_with_cross_encoder] *)
Definition try_split_with_cross_encoder (questions : list question)
    (indices : list nat) (texts : list text)
    (cross_encoder : list (text * text) → list Q) (threshold : Q)
    : M (option (list (nat * Z))) :=
  let n := length indices in
  if decide (n < 4) then ret None
  else
    pairs <- comprehension
               (λ p : nat * nat,
                  a <- index texts p.1 ;; b <- index texts p.2 ;;
                  ret (a, b))
               (all_pairs n) ;;
    scores <- predict cross_encoder pairs ;;
    cluster_labels <- linkage_cut n scores (1 - threshold)%Q ;;
    if decide (size (list_to_set cluster_labels : gset Z) ≤ 1)
    then ret None
    else
      assignments <-
        for_each (λ d '(i, label),
                    k <- index indices i ;; ret (dict_set k label d))
                 (enumerate cluster_labels) [] ;;
      let group_counts :=
        foldl (λ counts label, dict_incr label counts) []
              (dict_values assignments) in
      let valid_groups : gset Z :=
        list_to_set (filter (λ e : Z * nat, 2 ≤ e.2) group_counts).*1 in
      if decide (size valid_groups ≤ 1) then ret None
      else
        let filtered :=
          dict_of_items
            (filter (λ e : nat * Z, e.2 ∈ valid_groups) assignments) in
        if decide (1 < distinct_values filtered)
        then ret (Some filtered) else ret None.

(** The body of [for start in range(len(members))] in [try_split_group];
    the state is the visited set, then the counter and the assignment. *)
Definition stage2_start (members indices : list nat)
    (adjacency : gmap nat (gset nat))
    (st : gset nat * (Z * list (nat * Z))) (start : nat)
    : M (gset nat * (Z * list (nat * Z))) :=
  let '(visited, (sub_group_counter, verified)) := st in
  if decide (start ∈ visited) then ret st
  else
    found <- of_fuel (bfs set_iter (λ node, members !!! node)
                          adjacency visited start) ;;
    let component := found.2 in
    if decide (2 ≤ length component)
    then
      let sub_group_counter' := (sub_group_counter + 1)%Z in
      verified' <-
        for_each (λ verified local_idx,
                    k <- index indices local_idx ;;
                    ret (dict_set k sub_group_counter' verified))
                 component verified ;;
      ret (found.1, (sub_group_counter', verified'))
    else ret (found.1, (sub_group_counter, verified)).

(** The body of [for label, members in clusters.items()] in
    [try_split_group]. *)
Definition stage2_cluster (cross_encoder : list (text * text) → list Q)
    (threshold : Q) (texts : list text) (indices : list nat)
    (st : Z * list (nat * Z)) (entry : Z * list nat)
    : M (Z * list (nat * Z)) :=
  let members := entry.2 in
  if decide (length members < 2) then ret st
  else
    member_texts <- comprehension (index texts) members ;;
    let pair_indices := bounded_pairs (length members) in
    let pairs := text_pairs member_texts pair_indices in
    match pairs with
    | [] => ret st
    | _ :: _ =>
        scores <- predict cross_encoder pairs ;;
        let adjacency :=
          build_adjacency threshold (zip pair_indices scores) in
        st' <- for_each (stage2_start members indices adjacency)
                 (py_range 0 (length members)) (∅, st) ;;
        ret st'.2
    end.

(** [try_split_group] *)
Definition try_split_group (questions : list question) (indices : list nat)
    (bi_encoder : list text → embeddings)
    (cross_encoder : list (text * text) → list Q)
    (cross_encoder_threshold : Q) : M (option (list (nat * Z))) :=
  if decide (length indices < 4) then ret None
  else
    texts <- comprehension
               (λ i, q <- index questions i ;; ret (get_question_text q))
               indices ;;
    let prepared_texts := prepare_e5_text <$> texts in
    embeddings <- bi_encoder_encode bi_encoder prepared_texts ;;
    cluster_labels <- fit_predict hdbscan_fit_predict fine_params
                        embeddings ;;
    let unique_labels : gset Z := list_to_set cluster_labels ∖ {[(-1)%Z]} in
    if decide (size unique_labels ≤ 1)
    then try_split_with_cross_encoder questions indices texts
           cross_encoder cross_encoder_threshold
    else
      let clusters := group_clusters cluster_labels in
      st <- for_each (stage2_cluster cross_encoder cross_encoder_threshold
                        texts indices)
              clusters (0%Z, []) ;;
      let verified_assignments := st.2 in
      if decide (1 < distinct_values verified_assignments)
      then ret (Some verified_assignments) else ret None.

(** The two relabelling loops of a split. *)
Definition apply_split (group_id : string) (indices : list nat)
    (split_result : list (nat * Z)) (questions : list question)
    : M (list question) :=
  questions' <-
    for_each (λ questions '(idx, sub_group_num),
                set_question_group questions idx
                  (Some (sub_group_label group_id sub_group_num)))
             split_result questions ;;
  for_each (λ questions idx,
              match dict_get idx split_result with
              | None => set_question_group questions idx None
              | Some _ => ret questions
              end)
           indices questions'.

(** The body of [for group_id, indices in large_groups.items()]; the
    state is the list and the two counters. *)
Definition stage2_group (bi_encoder : list text → embeddings)
    (cross_encoder : list (text * text) → list Q)
    (refine_cross_encoder_threshold : Q)
    (st : list question * nat * nat) (entry : string * list nat)
    : M (list question * nat * nat) :=
  let '(questions, groups_split, groups_kept) := st in
  let '(group_id, indices) := entry in
  split_result <- try_split_group questions indices bi_encoder
                    cross_encoder refine_cross_encoder_threshold ;;
  match split_result with
  | Some (item :: items) =>
      let d := item :: items in
      if decide (1 < distinct_values d)
      then
        questions' <- apply_split group_id indices d questions ;;
        ret (questions', S groups_split, groups_kept)
      else ret (questions, groups_split, S groups_kept)
  | _ => ret (questions, groups_split, S groups_kept)
  end.

(** The loop of [run_stage2] over the large groups. *)
Definition refine_groups (questions : list question)
    (large_groups : list (string * list nat))
    (bi_encoder : list text → embeddings)
    (cross_encoder : list (text * text) → list Q)
    (refine_cross_encoder_threshold : Q) : M (list question * nat * nat) :=
  for_each (stage2_group bi_encoder cross_encoder
              refine_cross_encoder_threshold)
           large_groups (questions, 0, 0).

(** [run_stage2]: the list is updated in place and the function returns
    [None]; the embedding returns the new list and that value. *)
Definition run_stage2 (questions : list question)
    (bi_encoder : list text → embeddings)
    (cross_encoder : list (text * text) → list Q)
    (refine_threshold : Z) (refine_cross_encoder_threshold : Q)
    : M (list question * unit) :=
  let large_groups := find_large_groups questions refine_threshold in
  match large_groups with
  | [] =>
      emit (PrintLine (newline +:+ "No groups larger than "
                   +:+ pretty refine_threshold
                   +:+ " items. Skipping refinement.")) ;;;
      ret (questions, tt)
  | _ :: _ =>
      emit (PrintLine (newline +:+ banner)) ;;;
      emit (PrintLine "STAGE 2: Refining Large Groups") ;;;
      emit (PrintLine banner) ;;;
      emit (PrintLine ("Found " +:+ pretty (length large_groups)
                   +:+ " groups to refine (>" +:+ pretty refine_threshold
                   +:+ " items)")) ;;;
      st <- refine_groups questions large_groups bi_encoder cross_encoder
              refine_cross_encoder_threshold ;;
      let '(questions', groups_split, groups_kept) := st in
      emit (PrintLine (newline +:+ "Refinement complete: "
                   +:+ pretty groups_split +:+ " split, "
                   +:+ pretty groups_kept +:+ " kept as-is")) ;;;
      ret (questions', tt)
  end.
End Stage2.

(** [main], from the first stage to the second; loading the collection,
    the statistics and saving are left out. *)
Definition run_stages {embeddings : Type}
    (hdbscan_fit_predict : hdbscan_params → embeddings → list Z)
    (linkage_fcluster : nat → list Q → Q → list Z)
    (set_iter : gset nat → list nat)
    (questions : list question) (bi_encoder : list text → embeddings)
    (cross_encoder : list (text * text) → list Q)
    (no_cross_encoder no_refine : bool)
    (min_cluster_size : Z) (cross_encoder_threshold : Q)
    (refine_threshold : Z) (refine_cross_encoder_threshold : Q)
    : M (list question) :=
  let cross_encoder' :=
    if no_cross_encoder then None else Some cross_encoder in
  r1 <- run_stage1 hdbscan_fit_predict set_iter questions bi_encoder
          cross_encoder' min_cluster_size cross_encoder_threshold
          (negb no_cross_encoder) ;;
  match no_refine, cross_encoder' with
  | false, Some ce =>
      r2 <- run_stage2 hdbscan_fit_predict linkage_fcluster set_iter r1.1
              bi_encoder ce refine_threshold refine_cross_encoder_threshold ;;
      ret r2.1
  | _, _ => ret r1.1
  end.

(** ** Statistics and the whole run *)

(** The loop of [print_stats] that collects the positions of every label
    that is not empty; [find_large_groups] runs the same loop. *)
Definition similarity_groups (questions : list question)
    : list (string * list nat) :=
  foldl (λ groups '(idx, q),
           match get_group_id q with
           | Some gid =>
               if decide (gid = "") then groups
               else dict_append gid idx groups
           | None => groups
           end)
        [] (enumerate questions).

(** [max(group_sizes)] and [min(group_sizes)]; [print_stats] calls them on
    a list that is not empty. *)
Definition py_max (l : list nat) : nat := foldr Nat.max 0 l.

Definition py_min (l : list nat) : nat :=
  match l with
  | [] => 0
  | x :: l' => foldr Nat.min x l'
  end.

Section Statistics.
(** [f"{a / b:.2f}"]: the quotient of two integers as a float, printed
    with two decimals. *)
Variable format_average : nat → nat → string.

(** [print_stats] *)
Definition print_stats (questions : list question) (title : string)
    : M unit :=
  let groups := similarity_groups questions in
  match groups with
  | [] => emit (PrintLine (newline +:+ title +:+ ": No groups found"))
  | _ :: _ =>
      let group_sizes := (λ e : string * list nat, length e.2) <$> groups in
      emit (PrintLine (newline +:+ banner)) ;;;
      emit (PrintLine title) ;;;
      emit (PrintLine banner) ;;;
      emit (PrintLine ("Total questions: "
                   +:+ pretty (length questions))) ;;;
      emit (PrintLine ("Questions with similarity group: "
                   +:+ pretty (sum_list group_sizes))) ;;;
      emit (PrintLine ("Questions without group: "
                   +:+ pretty (Z.of_nat (length questions)
                               - Z.of_nat (sum_list group_sizes))%Z)) ;;;
      emit (PrintLine ("Total unique groups: "
                   +:+ pretty (length groups))) ;;;
      emit (PrintLine ("Largest group: " +:+ pretty (py_max group_sizes))) ;;;
      emit (PrintLine ("Smallest group: "
                   +:+ pretty (py_min group_sizes))) ;;;
      emit (PrintLine ("Average group size: "
                   +:+ format_average (sum_list group_sizes)
                         (length groups)))
  end.

(** [main] with the statistics, from the first stage to the last
    statistics; parsing the arguments, loading the collection and the
    models, and saving are left out. *)
Definition main_stages {embeddings : Type}
    (hdbscan_fit_predict : hdbscan_params → embeddings → list Z)
    (linkage_fcluster : nat → list Q → Q → list Z)
    (set_iter : gset nat → list nat)
    (questions : list question) (bi_encoder : list text → embeddings)
    (cross_encoder : list (text * text) → list Q)
    (no_cross_encoder no_refine : bool)
    (min_cluster_size : Z) (cross_encoder_threshold : Q)
    (refine_threshold : Z) (refine_cross_encoder_threshold : Q)
    : M (list question) :=
  let cross_encoder' :=
    if no_cross_encoder then None else Some cross_encoder in
  r1 <- run_stage1 hdbscan_fit_predict set_iter questions bi_encoder
          cross_encoder' min_cluster_size cross_encoder_threshold
          (negb no_cross_encoder) ;;
  print_stats r1.1 "After Stage 1" ;;;
  match no_refine, cross_encoder' with
  | false, Some ce =>
      r2 <- run_stage2 hdbscan_fit_predict linkage_fcluster set_iter r1.1
              bi_encoder ce refine_threshold refine_cross_encoder_threshold ;;
      print_stats r2.1 "After Stage 2 (Final)" ;;;
      ret r2.1
  | _, _ => ret r1.1
  end.
End Statistics.

(** * Properties *)

(** ** Computations *)

Lemma result_bind {A B} (m : M A) (k : A → M B) :
  result (bind m k) =
  match result m with
  | Ok a => result (k a)
  | IndexError => IndexError
  | OutOfFuel => OutOfFuel
  end.
Proof. unfold bind, result. by destruct (m.2). Qed.

Lemma trace_bind {A B} (m : M A) (k : A → M B) :
  trace (bind m k) =
  match result m with
  | Ok a => trace m ++ trace (k a)
  | _ => trace m
  end.
Proof. unfold bind, result, trace. by destruct (m.2). Qed.

Lemma bind_ok {A B} (m : M A) (k : A → M B) a :
  result m = Ok a → result (bind m k) = result (k a).
Proof. intros H. by rewrite result_bind, H. Qed.

Lemma bind_ok_inv {A B} (m : M A) (k : A → M B) b :
  result (bind m k) = Ok b → ∃ a, result m = Ok a ∧ result (k a) = Ok b.
Proof. rewrite result_bind. destruct (result m); naive_solver. Qed.

Lemma result_ret {A} (a : A) : result (ret a) = Ok a.
Proof. done. Qed.

Lemma result_index {A} (l : list A) i a :
  l !! i = Some a → result (index l i) = Ok a.
Proof. unfold index. by intros ->. Qed.

Lemma result_index_inv {A} (l : list A) i a :
  result (index l i) = Ok a → l !! i = Some a.
Proof. unfold index. destruct (l !! i); naive_solver. Qed.

Lemma result_emit_bind {A} e (k : M A) :
  result (emit e ;;; k) = result k.
Proof. by rewrite result_bind. Qed.

(** A loop whose body always succeeds on a pure step is a fold. *)
Lemma for_each_pure {S X} (body : S → X → M S) (step : S → X → S)
    (P : X → Prop) (l : list X) (s : S) :
  (∀ s x, P x → result (body s x) = Ok (step s x)) →
  Forall P l →
  result (for_each body l s) = Ok (foldl step s l).
Proof.
  intros Hb Hl. revert s. induction Hl as [|x l Hx _ IH]; intros s; [done|].
  simpl. rewrite (bind_ok _ _ _ (Hb s x Hx)). apply IH.
Qed.

Lemma comprehension_index `{Inhabited A} (l : list A) (js : list nat) :
  Forall (λ i, i < length l) js →
  result (comprehension (index l) js) = Ok ((λ i, l !!! i) <$> js).
Proof.
  induction 1 as [|i js Hi _ IH]; [done|]. simpl.
  destruct (lookup_lt_is_Some_2 l i Hi) as [a Ha].
  rewrite (bind_ok _ _ a) by by apply result_index.
  rewrite (bind_ok _ _ _ IH). simpl.
  by rewrite (list_lookup_total_correct _ _ _ Ha).
Qed.

(** ** Traversal *)

Lemma sum_list_fmap_le {X} (f g : X → nat) (l : list X) :
  (∀ x, x ∈ l → f x ≤ g x) → sum_list (f <$> l) ≤ sum_list (g <$> l).
Proof.
  induction l as [|y l IH]; intros Hle; csimpl; [done|].
  pose proof (Hle y (list_elem_of_here _ _)).
  assert (sum_list (f <$> l) ≤ sum_list (g <$> l)); [|lia].
  apply IH. intros x Hx. apply Hle. by apply list_elem_of_further.
Qed.

Lemma sum_list_fmap_gap {X} (f g : X → nat) (l : list X) x d :
  (∀ y, y ∈ l → f y ≤ g y) → x ∈ l → f x + d ≤ g x →
  sum_list (f <$> l) + d ≤ sum_list (g <$> l).
Proof.
  intros Hle Hx Hd. induction l as [|y l IH]; csimpl.
  { by apply elem_of_nil in Hx. }
  pose proof (Hle y (list_elem_of_here _ _)).
  assert (∀ z, z ∈ l → f z ≤ g z) as Hle'.
  { intros z Hz. apply Hle. by apply list_elem_of_further. }
  apply elem_of_cons in Hx as [->|Hx].
  - pose proof (sum_list_fmap_le f g l Hle'). lia.
  - specialize (IH Hle' Hx). lia.
Qed.

(** One step along an edge of the adjacency structure. *)
Definition adj_step (adjacency : gmap nat (gset nat)) (x y : nat) : Prop :=
  y ∈ neighbours adjacency x.

Lemma unvisited_weight_mono adjacency (v1 v2 : gset nat) :
  v1 ⊆ v2 → unvisited_weight adjacency v2 ≤ unvisited_weight adjacency v1.
Proof.
  intros Hsub. apply sum_list_fmap_le. intros [k s] _. simpl.
  repeat case_decide; try lia. set_solver.
Qed.

Lemma unvisited_weight_visit adjacency (visited : gset nat) node :
  node ∉ visited →
  unvisited_weight adjacency ({[node]} ∪ visited)
    + (if decide (node ∈ dom adjacency)
       then S (size (neighbours adjacency node)) else 0)
  ≤ unvisited_weight adjacency visited.
Proof.
  intros Hnode. case_decide as Hdom.
  - apply elem_of_dom in Hdom as [s Hs].
    unfold neighbours. rewrite Hs. simpl.
    apply (sum_list_fmap_gap _ _ _ (node, s)).
    + intros [k s'] _. simpl. repeat case_decide; try lia. set_solver.
    + by apply elem_of_map_to_list.
    + simpl. rewrite decide_True by set_solver. rewrite decide_False by done.
      lia.
  - rewrite Nat.add_0_r. apply unvisited_weight_mono. set_solver.
Qed.

Lemma neighbours_not_dom adjacency node :
  node ∉ dom adjacency → neighbours adjacency node = ∅.
Proof.
  intros H. apply not_elem_of_dom in H. unfold neighbours. by rewrite H.
Qed.

Section TraversalFacts.
Variable set_iter : gset nat → list nat.
Hypothesis set_iter_perm : ∀ s, set_iter s ≡ₚ elements s.
Context {A : Type} (member : nat → A).

Lemma elem_of_set_iter s x : x ∈ set_iter s ↔ x ∈ s.
Proof. by rewrite set_iter_perm, elem_of_elements. Qed.

Lemma length_set_iter s : length (set_iter s) = size s.
Proof. by rewrite set_iter_perm. Qed.

Lemma bfs_while_terminates fuel adjacency visited component queue :
  length queue + unvisited_weight adjacency visited < fuel →
  is_Some (bfs_while set_iter member fuel adjacency visited component
                     queue).
Proof.
  revert visited component queue.
  induction fuel as [|fuel IH]; intros visited component queue Hf; [lia|].
  destruct queue as [|node queue]; cbn [bfs_while]; [done|].
  case_decide as Hv.
  - apply IH. rewrite length_cons in Hf. lia.
  - apply IH. rewrite length_cons in Hf.
    pose proof (unvisited_weight_visit adjacency visited node Hv) as Hw.
    rewrite length_app.
    pose proof (length_filter (λ n, n ∉ {[node]} ∪ visited)
                  (set_iter (neighbours adjacency node))) as Hlen.
    rewrite length_set_iter in Hlen.
    case_decide as Hdom.
    + lia.
    + assert (size (neighbours adjacency node) = 0) as Hz
        by by rewrite (neighbours_not_dom _ _ Hdom).
      lia.
Qed.

Lemma bfs_terminates adjacency visited start :
  is_Some (bfs set_iter member adjacency visited start).
Proof. apply bfs_while_terminates. unfold bfs_fuel. lia. Qed.

(** What the loop computes, in terms of the nodes it visits. *)
Lemma bfs_while_nodes fuel adjacency visited component queue visited'
    component' :
  bfs_while set_iter member fuel adjacency visited component queue
    = Some (visited', component') →
  ∃ nodes,
    component' = component ++ (member <$> nodes)
    ∧ visited' = visited ∪ list_to_set nodes
    ∧ NoDup nodes
    ∧ (∀ x, x ∈ nodes → x ∉ visited)
    ∧ (∀ x, x ∈ nodes → ∃ q, q ∈ queue ∧ rtc (adj_step adjacency) q x)
    ∧ (∀ q, q ∈ queue → q ∈ visited')
    ∧ (∀ x y, x ∈ nodes → adj_step adjacency x y → y ∈ visited')
    ∧ (∀ q, head queue = Some q → q ∉ visited → head nodes = Some q).
Proof.
  revert visited component queue.
  induction fuel as [|fuel IH]; intros visited component queue; [done|].
  destruct queue as [|node queue]; simpl.
  { intros [= <- <-]. exists []. rewrite app_nil_r.
    split_and!; try done.
    - by rewrite list_to_set_nil, (right_id_L ∅ (∪)).
    - constructor.
    - by intros x ?%elem_of_nil.
    - by intros x ?%elem_of_nil.
    - by intros x ?%elem_of_nil.
    - by intros x y ?%elem_of_nil. }
  case_decide as Hv.
  - intros Hrun. destruct (IH _ _ _ Hrun)
      as (nodes & Hc & Hvis & Hnd & Hnv & Hreach & Hq & Hclosed & _).
    exists nodes. split_and!; try done.
    + intros x Hx. destruct (Hreach x Hx) as (q & Hq' & Hr).
      exists q. split; [by apply list_elem_of_further|done].
    + intros q [->|Hq']%elem_of_cons; [set_solver|by apply Hq].
    + intros q [= ->] ?. done.
  - intros Hrun. destruct (IH _ _ _ Hrun)
      as (nodes & Hc & Hvis & Hnd & Hnv & Hreach & Hq & Hclosed & _).
    exists (node :: nodes). split_and!.
    + by rewrite Hc, <-app_assoc.
    + rewrite Hvis. set_solver.
    + constructor; [|done]. intros Hin. apply Hnv in Hin. set_solver.
    + intros x [->|Hx]%elem_of_cons; [done|]. apply Hnv in Hx. set_solver.
    + intros x [->|Hx]%elem_of_cons.
      { exists node. split; [apply list_elem_of_here|done]. }
      destruct (Hreach x Hx) as (q & Hq' & Hr).
      apply elem_of_app in Hq' as [Hq'|Hq'].
      { exists q. split; [by apply list_elem_of_further|done]. }
      apply list_elem_of_filter in Hq' as [_ Hq'].
      apply elem_of_set_iter in Hq'.
      exists node. split; [apply list_elem_of_here|]. by eapply rtc_l.
    + intros q [->|Hq']%elem_of_cons.
      * rewrite Hvis. set_solver.
      * apply Hq. apply elem_of_app. by left.
    + intros x y [->|Hx]%elem_of_cons Hstep; [|by eapply Hclosed].
      destruct (decide (y ∈ {[node]} ∪ visited)) as [Hy|Hy].
      { rewrite Hvis. set_solver. }
      apply Hq. apply elem_of_app. right.
      apply list_elem_of_filter. split; [done|]. by apply elem_of_set_iter.
    + by intros q [= ->] _.
Qed.
End TraversalFacts.

(** ** Connected components found by the traversal *)

Definition adj_symmetric (adjacency : gmap nat (gset nat)) : Prop :=
  ∀ x y, adj_step adjacency x y → adj_step adjacency y x.

Definition adj_closed (adjacency : gmap nat (gset nat)) (visited : gset nat)
    : Prop :=
  ∀ x y, x ∈ visited → adj_step adjacency x y → y ∈ visited.

Definition adj_below (adjacency : gmap nat (gset nat)) (n : nat) : Prop :=
  ∀ x y, adj_step adjacency x y → x < n ∧ y < n.

(** [connected adjacency x y]: a path of edges leads from [x] to [y]. *)
Definition connected (adjacency : gmap nat (gset nat)) : relation nat :=
  rtc (adj_step adjacency).

(** A list of nodes that is the connected component of each of its
    elements. *)
Definition is_component (adjacency : gmap nat (gset nat)) (nodes : list nat)
    : Prop :=
  nodes ≠ [] ∧ NoDup nodes
  ∧ ∀ x, x ∈ nodes → ∀ y, y ∈ nodes ↔ connected adjacency x y.

Lemma connected_sym adjacency x y :
  adj_symmetric adjacency → connected adjacency x y → connected adjacency y x.
Proof.
  intros Hsym Hxy. induction Hxy as [|x y z Hstep _ IH]; [done|].
  eapply rtc_trans; [apply IH|]. apply rtc_once. by apply Hsym.
Qed.

Lemma connected_below adjacency n x y :
  adj_below adjacency n → x < n → connected adjacency x y → y < n.
Proof.
  intros Hb Hx Hxy. induction Hxy as [|x y z Hstep _ IH]; [done|].
  apply IH. by apply (Hb x y).
Qed.

Section ComponentFacts.
Variable set_iter : gset nat → list nat.
Hypothesis set_iter_perm : ∀ s, set_iter s ≡ₚ elements s.
Context {A : Type} (member : nat → A).

Lemma bfs_component adjacency visited start visited' component :
  adj_symmetric adjacency → adj_closed adjacency visited →
  start ∉ visited →
  bfs set_iter member adjacency visited start
    = Some (visited', component) →
  ∃ nodes,
    component = member <$> nodes
    ∧ visited' = visited ∪ list_to_set nodes
    ∧ (∀ x, x ∈ nodes → x ∉ visited)
    ∧ start ∈ nodes
    ∧ is_component adjacency nodes
    ∧ adj_closed adjacency visited'.
Proof.
  intros Hsym Hclosed Hstart Hrun. unfold bfs in Hrun.
  destruct (bfs_while_nodes set_iter set_iter_perm member _ _ _ _ _ _ _
              Hrun)
    as (nodes & Hc & Hvis & Hnd & Hnv & Hreach & Hq & Hcl & Hhd).
  assert (start ∈ nodes) as Hin.
  { specialize (Hhd start eq_refl Hstart).
    destruct nodes; simplify_eq/=. apply list_elem_of_here. }
  assert (∀ x, x ∈ nodes ↔ connected adjacency start x) as Hchar.
  { intros x. split.
    - intros Hx. destruct (Hreach x Hx) as (q & Hq' & Hr).
      apply list_elem_of_singleton in Hq' as ->. exact Hr.
    - revert x. apply (rtc_ind_r (λ x, x ∈ nodes) start); [done|].
      intros y z _ Hstep IH.
      assert (z ∈ visited') as Hz by by eapply Hcl.
      rewrite Hvis in Hz. apply elem_of_union in Hz as [Hz|Hz].
      + exfalso. apply (Hnv y IH).
        apply (Hclosed z y Hz). by apply Hsym.
      + by apply elem_of_list_to_set in Hz. }
  exists nodes. split_and!; try done.
  - split_and!; [by destruct nodes; [apply elem_of_nil in Hin|]|done|].
    intros x Hx y. rewrite Hchar. apply Hchar in Hx. split; intros Hy.
    + eapply rtc_trans; [|exact Hy]. by apply connected_sym.
    + eapply rtc_trans; [exact Hx|exact Hy].
  - intros x y Hx Hstep. rewrite Hvis in Hx.
    apply elem_of_union in Hx as [Hx|Hx].
    + rewrite Hvis. apply elem_of_union. left. by eapply Hclosed.
    + apply elem_of_list_to_set in Hx. by eapply Hcl.
Qed.
End ComponentFacts.

(** The loop over the start nodes, for both stages: [skip] is the extra
    test of Stage 1, [on_component] what is done with a component of two
    or more members. *)
Section StartLoop.
Variable set_iter : gset nat → list nat.
Hypothesis set_iter_perm : ∀ s, set_iter s ≡ₚ elements s.
Context {T : Type}.
Variables (members : list nat) (adjacency : gmap nat (gset nat)).
Variable skip : nat → Prop.
Context `{∀ s, Decision (skip s)}.
Variable on_component : T → list nat → M T.
Variable on_pure : T → list nat → T.
Variable valid : nat → Prop.
Hypothesis on_component_ok :
  ∀ t comp, Forall valid comp →
            result (on_component t comp) = Ok (on_pure t comp).
Hypothesis members_valid : Forall valid members.
Hypothesis adjacency_symmetric : adj_symmetric adjacency.
Hypothesis adjacency_below : adj_below adjacency (length members).

Definition start_body (st : gset nat * T) (start : nat) : M (gset nat * T) :=
  if decide (start ∈ st.1 ∨ skip start) then ret st
  else
    found <- of_fuel (bfs set_iter (λ node, members !!! node)
                          adjacency st.1 start) ;;
    if decide (2 ≤ length found.2)
    then (t' <- on_component st.2 found.2 ;; ret (found.1, t'))
    else ret (found.1, st.2).

Definition members_of (nodes : list nat) : list nat :=
  (λ node, members !!! node) <$> nodes.

Definition kept_components (nodess : list (list nat)) : list (list nat) :=
  filter (λ c, 2 ≤ length c) (members_of <$> nodess).

Lemma members_of_valid nodes :
  Forall (λ x, x < length members) nodes → Forall valid (members_of nodes).
Proof.
  intros Hn. unfold members_of. apply Forall_fmap.
  eapply Forall_impl; [exact Hn|]. intros x Hx. simpl.
  rewrite Forall_forall in members_valid. apply members_valid.
  apply list_elem_of_lookup_total_2. done.
Qed.

Lemma start_loop_spec starts visited t :
  Forall (λ s, s < length members) starts →
  adj_closed adjacency visited →
  ∃ nodess visited',
    result (for_each start_body starts (visited, t))
      = Ok (visited', foldl on_pure t (kept_components nodess))
    ∧ visited' = visited ∪ list_to_set (concat nodess)
    ∧ adj_closed adjacency visited'
    ∧ NoDup (concat nodess)
    ∧ (∀ x, x ∈ concat nodess → (x ∉ visited) ∧ (x < length members))
    ∧ Forall (is_component adjacency) nodess
    ∧ (∀ s, s ∈ starts → s ∈ visited' ∨ skip s).
Proof.
  intros Hstarts. revert visited t.
  induction Hstarts as [|start starts Hs _ IH]; intros visited t Hclosed.
  { exists [], visited. split_and!; try done.
    - cbn [concat]. by rewrite list_to_set_nil, (right_id_L ∅ (∪)).
    - constructor.
    - by intros x ?%elem_of_nil.
    - by intros x ?%elem_of_nil. }
  cbn [for_each]. unfold start_body at 1. cbn [fst snd].
  case_decide as Hskip.
  { rewrite (bind_ok _ _ (visited, t)) by done.
    destruct (IH visited t Hclosed)
      as (nodess & visited' & Hres & Hvis & Hcl & Hnd & Hnv & Hcomp & Hdone).
    exists nodess, visited'. split_and!; try done.
    intros s [->|Hs']%elem_of_cons; [|by apply Hdone].
    destruct Hskip as [Hv|Hk]; [left|by right].
    rewrite Hvis. by apply elem_of_union_l. }
  assert (start ∉ visited) as Hstart by tauto.
  destruct (bfs_terminates set_iter set_iter_perm
              (λ node, members !!! node) adjacency visited start)
    as [[visited1 component] Hrun].
  destruct (bfs_component set_iter set_iter_perm _ _ _ _ _ _
              adjacency_symmetric Hclosed Hstart Hrun)
    as (nodes & Hc & Hvis1 & Hnv1 & Hin1 & Hcomp1 & Hcl1).
  change (component = members_of nodes) in Hc.
  assert (Forall (λ x, x < length members) nodes) as Hbelow.
  { apply Forall_forall. intros x Hx.
    destruct Hcomp1 as (_ & _ & Hchar).
    apply (connected_below adjacency _ start); [done..|].
    by apply (Hchar start Hin1). }
  set (t1 := if decide (2 ≤ length component)
             then on_pure t component else t).
  assert (result
            (found <- of_fuel (bfs set_iter (λ node, members !!! node)
                                 adjacency visited start) ;;
             if decide (2 ≤ length found.2)
             then (t' <- on_component t found.2 ;; ret (found.1, t'))
             else ret (found.1, t))
          = Ok (visited1, t1)) as Hbody.
  { rewrite Hrun. rewrite (bind_ok _ _ (visited1, component)) by done.
    cbn [fst snd]. unfold t1. case_decide; [|done].
    rewrite (bind_ok _ _ (on_pure t component)); [done|].
    apply on_component_ok. rewrite Hc. by apply members_of_valid. }
  rewrite (bind_ok _ _ _ Hbody).
  destruct (IH visited1 t1 Hcl1)
    as (nodess & visited' & Hres & Hvis & Hcl & Hnd & Hnv & Hcomp & Hdone).
  exists (nodes :: nodess), visited'. split_and!.
  - rewrite Hres. do 2 f_equal. unfold kept_components.
    rewrite fmap_cons, filter_cons.
    unfold t1. rewrite <-Hc. by case_decide.
  - rewrite Hvis, Hvis1. simpl. rewrite list_to_set_app_L. set_solver.
  - done.
  - simpl. apply NoDup_app. split_and!; [by destruct Hcomp1 as (_&?&_)| |done].
    intros x Hx Hx'. apply Hnv in Hx' as [Hx' _]. apply Hx'.
    rewrite Hvis1. apply elem_of_union_r. by apply elem_of_list_to_set.
  - intros x. simpl. rewrite elem_of_app. intros [Hx|Hx].
    + split; [by apply Hnv1|]. rewrite Forall_forall in Hbelow. auto.
    + destruct (Hnv x Hx) as [Hx1 Hx2]. split; [|done].
      intros Hv. apply Hx1. rewrite Hvis1. by apply elem_of_union_l.
  - by constructor.
  - intros s [->|Hs']%elem_of_cons; [|by apply Hdone]. left.
    rewrite Hvis, Hvis1. apply elem_of_union_l, elem_of_union_r.
    by apply elem_of_list_to_set.
Qed.
End StartLoop.

(** ** The pairs that are scored and the graph built from them *)

Lemma elem_of_py_range a b x : x ∈ py_range a b ↔ a ≤ x < b.
Proof. unfold py_range. rewrite elem_of_seq. lia. Qed.

Lemma elem_of_all_pairs n i j : (i, j) ∈ all_pairs n ↔ i < j < n.
Proof.
  unfold all_pairs. rewrite list_elem_of_bind. split.
  - intros (i' & Hj & Hi). apply list_elem_of_bind in Hj as (j' & Hp & Hj).
    apply list_elem_of_singleton in Hp as [= -> ->].
    apply elem_of_py_range in Hi, Hj. lia.
  - intros Hij. exists i. split; [|apply elem_of_py_range; lia].
    apply list_elem_of_bind. exists j.
    split; [apply list_elem_of_here|apply elem_of_py_range; lia].
Qed.

Lemma elem_of_bounded_pairs n i j :
  (i, j) ∈ bounded_pairs n ↔ i < j < n ∧ j ≤ i + 50.
Proof.
  unfold bounded_pairs. rewrite list_elem_of_bind. split.
  - intros (i' & Hj & Hi). apply list_elem_of_bind in Hj as (j' & Hp & Hj).
    apply list_elem_of_singleton in Hp as [= -> ->].
    apply elem_of_py_range in Hi, Hj. lia.
  - intros Hij. exists i. split; [|apply elem_of_py_range; lia].
    apply list_elem_of_bind. exists j.
    split; [apply list_elem_of_here|apply elem_of_py_range; lia].
Qed.

Lemma NoDup_py_range a b : NoDup (py_range a b).
Proof. apply NoDup_seq. Qed.

Lemma NoDup_pairs_from (bound : nat → nat) n :
  NoDup (i ← py_range 0 n; j ← py_range (i + 1) (bound i); [(i, j)]).
Proof.
  apply NoDup_bind; [| |apply NoDup_py_range].
  - intros i1 i2 [i j] _ _ H1 H2.
    apply list_elem_of_bind in H1 as (? & [= -> ->]%list_elem_of_singleton & _).
    by apply list_elem_of_bind in H2
      as (? & [= -> ->]%list_elem_of_singleton & _).
  - intros i _. apply NoDup_bind; [| |apply NoDup_py_range].
    + intros j1 j2 [i' j] _ _ H1 H2.
      apply list_elem_of_singleton in H1 as [= -> ->].
      by apply list_elem_of_singleton in H2 as [= ->].
    + intros j _. apply NoDup_singleton.
Qed.

Lemma NoDup_all_pairs n : NoDup (all_pairs n).
Proof. apply (NoDup_pairs_from (λ _, n)). Qed.

Lemma NoDup_bounded_pairs n : NoDup (bounded_pairs n).
Proof. apply (NoDup_pairs_from (λ i, n `min` (i + 51))). Qed.

(** [accepted threshold scored x y]: the pair of [x] and [y], in either
    order, was given a score of at least the threshold. *)
Definition accepted (threshold : Q) (scored : list (nat * nat * Q))
    (x y : nat) : Prop :=
  ∃ s, ((x, y, s) ∈ scored ∨ (y, x, s) ∈ scored)
       ∧ Qle_bool threshold s = true.

Lemma adj_step_add i j adjacency x y :
  adj_step (adj_add i j adjacency) x y
  ↔ (x = i ∧ y = j) ∨ adj_step adjacency x y.
Proof.
  unfold adj_step, adj_add, neighbours.
  destruct (decide (x = i)) as [->|Hne].
  - rewrite lookup_insert_eq. simpl. rewrite elem_of_union, elem_of_singleton.
    naive_solver.
  - rewrite lookup_insert_ne by done. naive_solver.
Qed.

Lemma build_adjacency_from threshold scored adjacency x y :
  adj_step
    (foldl (λ adjacency '(i, j, score),
              if Qle_bool threshold score
              then adj_add j i (adj_add i j adjacency)
              else adjacency)
           adjacency scored) x y
  ↔ adj_step adjacency x y ∨ accepted threshold scored x y.
Proof.
  revert adjacency.
  induction scored as [|[[i j] s] scored IH]; intros adjacency.
  { simpl. split; [by left|]. intros [?|(s & [H|H] & _)]; [done|..];
      by apply elem_of_nil in H. }
  cbn [foldl]. rewrite IH. unfold accepted.
  setoid_rewrite elem_of_cons.
  destruct (Qle_bool threshold s) eqn:Hs.
  - rewrite !adj_step_add. split.
    + intros [[[-> ->]|[[-> ->]|H]]|(s' & H & Hs')].
      * right. exists s. naive_solver.
      * right. exists s. naive_solver.
      * by left.
      * right. exists s'. naive_solver.
    + intros [H|(s' & [[[= -> -> ->]|H]|[[= -> -> ->]|H]] & Hs')].
      * left. naive_solver.
      * left. naive_solver.
      * right. exists s'. naive_solver.
      * left. naive_solver.
      * right. exists s'. naive_solver.
  - split.
    + intros [H|(s' & H & Hs')]; [by left|]. right. exists s'. naive_solver.
    + intros [H|(s' & [[[= -> -> ->]|H]|[[= -> -> ->]|H]] & Hs')];
        [by left|congruence| |congruence|].
      * right. exists s'. naive_solver.
      * right. exists s'. naive_solver.
Qed.

Lemma build_adjacency_step threshold scored x y :
  adj_step (build_adjacency threshold scored) x y
  ↔ accepted threshold scored x y.
Proof.
  unfold build_adjacency. rewrite build_adjacency_from.
  unfold adj_step, neighbours. rewrite lookup_empty. simpl.
  rewrite elem_of_empty. naive_solver.
Qed.

Lemma build_adjacency_symmetric threshold scored :
  adj_symmetric (build_adjacency threshold scored).
Proof.
  intros x y. rewrite !build_adjacency_step.
  intros (s & H & Hs). exists s. naive_solver.
Qed.

Lemma build_adjacency_below threshold scored n :
  (∀ i j s, (i, j, s) ∈ scored → i < j < n) →
  adj_below (build_adjacency threshold scored) n.
Proof.
  intros Hr x y. rewrite build_adjacency_step.
  intros (s & [H|H] & _); apply Hr in H; lia.
Qed.

Lemma build_adjacency_irreflexive threshold scored n x :
  (∀ i j s, (i, j, s) ∈ scored → i < j < n) →
  ¬ adj_step (build_adjacency threshold scored) x x.
Proof.
  intros Hr. rewrite build_adjacency_step.
  intros (s & [H|H] & _); apply Hr in H; lia.
Qed.

Lemma zip_pairs_below {B} (pairs : list (nat * nat)) (scores : list B) n :
  (∀ i j, (i, j) ∈ pairs → i < j < n) →
  ∀ i j s, (i, j, s) ∈ zip pairs scores → i < j < n.
Proof. intros Hp i j s H. apply Hp. by apply elem_of_zip_l in H. Qed.

(** ** Dictionaries *)

Section PyDictFacts.
Context {K V : Type} `{EqDecision K}.
Implicit Types (d : list (K * V)) (k : K) (v : V).

Lemma dict_get_set k k' v d :
  dict_get k' (dict_set k v d)
  = if decide (k' = k) then Some v else dict_get k' d.
Proof.
  induction d as [|[k0 v0] d IH]; simpl.
  - by case_decide.
  - destruct (decide (k = k0)) as [->|Hne]; simpl.
    + repeat case_decide; congruence.
    + rewrite IH. repeat case_decide; congruence.
Qed.

Lemma dict_get_None k d : dict_get k d = None ↔ k ∉ dict_keys d.
Proof.
  unfold dict_keys. induction d as [|[k0 v0] d IH]; simpl.
  - split; [intros _ ?%elem_of_nil|]; done.
  - rewrite not_elem_of_cons. case_decide; naive_solver.
Qed.

Lemma dict_get_Some_elem k v d : dict_get k d = Some v → (k, v) ∈ d.
Proof.
  induction d as [|[k0 v0] d IH]; simpl; [done|].
  case_decide as Hk.
  - intros [= ->]. subst. apply list_elem_of_here.
  - intros H. by apply list_elem_of_further, IH.
Qed.

Lemma elem_of_dict k v d :
  NoDup (dict_keys d) → (k, v) ∈ d ↔ dict_get k d = Some v.
Proof.
  intros Hnd. split; [|apply dict_get_Some_elem].
  unfold dict_keys in Hnd.
  induction d as [|[k0 v0] d IH]; simpl.
  { by intros ?%elem_of_nil. }
  apply NoDup_cons in Hnd as [Hk0 Hnd].
  intros [[= -> ->]|Hin]%elem_of_cons.
  - by rewrite decide_True.
  - rewrite decide_False; [by apply IH|].
    intros ->. apply Hk0. apply list_elem_of_fmap. by exists (k0, v).
Qed.

Lemma dict_keys_set k v d :
  dict_keys (dict_set k v d)
  = if decide (k ∈ dict_keys d) then dict_keys d else dict_keys d ++ [k].
Proof.
  unfold dict_keys. induction d as [|[k0 v0] d IH]; simpl.
  - by repeat case_decide.
  - destruct (decide (k = k0)) as [->|Hne]; csimpl.
    + rewrite decide_True; [done|]. apply list_elem_of_here.
    + rewrite IH. case_decide as Hin.
      * rewrite decide_True; [done|]. by apply list_elem_of_further.
      * rewrite decide_False; [done|].
        intros [?|?]%elem_of_cons; done.
Qed.

Lemma NoDup_dict_set k v d :
  NoDup (dict_keys d) → NoDup (dict_keys (dict_set k v d)).
Proof.
  intros Hnd. rewrite dict_keys_set. case_decide as Hin; [done|].
  apply NoDup_app. split_and!; [done| |apply NoDup_singleton].
  by intros x Hx ->%list_elem_of_singleton.
Qed.

Lemma elem_of_dict_keys_set k k' v d :
  k' ∈ dict_keys (dict_set k v d) ↔ k' = k ∨ k' ∈ dict_keys d.
Proof.
  rewrite dict_keys_set. case_decide.
  - naive_solver.
  - rewrite elem_of_app, list_elem_of_singleton. naive_solver.
Qed.
End PyDictFacts.

Lemma foldl_ext_in {A B} (f g : A → B → A) (l : list B) (a : A) :
  (∀ a b, b ∈ l → f a b = g a b) → foldl f a l = foldl g a l.
Proof.
  revert a. induction l as [|b l IH]; intros a Hfg; [done|]. simpl.
  rewrite Hfg by apply list_elem_of_here. apply IH.
  intros a' b' Hb'. apply Hfg. by apply list_elem_of_further.
Qed.

Lemma enumerate_from_app {A} n (l1 l2 : list A) :
  enumerate_from n (l1 ++ l2)
  = enumerate_from n l1 ++ enumerate_from (n + length l1) l2.
Proof.
  revert n. induction l1 as [|x l1 IH]; intros n; simpl.
  - by rewrite Nat.add_0_r.
  - rewrite IH. do 3 f_equal. lia.
Qed.

Lemma enumerate_snoc {A} (l : list A) x :
  enumerate (l ++ [x]) = enumerate l ++ [(length l, x)].
Proof. unfold enumerate. by rewrite enumerate_from_app. Qed.

Lemma elem_of_enumerate_from {A} n (l : list A) i x :
  (i, x) ∈ enumerate_from n l ↔ n ≤ i ∧ l !! (i - n) = Some x.
Proof.
  revert n. induction l as [|y l IH]; intros n; simpl.
  - split; [by intros ?%elem_of_nil|]. by intros [_ ?].
  - rewrite elem_of_cons, IH. split.
    + intros [[= -> ->]|[Hle Hl]].
      * rewrite Nat.sub_diag. split; [lia|done].
      * split; [lia|]. by replace (i - n) with (S (i - S n)) by lia.
    + intros [Hle Hl]. destruct (decide (i = n)) as [->|Hne].
      * rewrite Nat.sub_diag in Hl. left. naive_solver.
      * right. split; [lia|].
        by replace (i - n) with (S (i - S n)) in Hl by lia.
Qed.

Lemma elem_of_enumerate {A} (l : list A) i x :
  (i, x) ∈ enumerate l ↔ l !! i = Some x.
Proof.
  unfold enumerate. rewrite elem_of_enumerate_from, Nat.sub_0_r.
  split; [naive_solver|]. split; [lia|done].
Qed.

Lemma length_enumerate_from {A} n (l : list A) :
  length (enumerate_from n l) = length l.
Proof. revert n. induction l; intros n; simpl; [done|]. by f_equal. Qed.

(** ** Grouping positions by a key *)

Section GroupBy.
Context {K X : Type} `{EqDecision K} (key : X → option K).

Definition group_step (groups : list (K * list nat)) (e : nat * X)
    : list (K * list nat) :=
  match key e.2 with
  | Some k => dict_append k e.1 groups
  | None => groups
  end.

(** [groups] holds, for every key, the positions of [l] with that key. *)
Definition grouped (l : list X) (groups : list (K * list nat)) : Prop :=
  NoDup (dict_keys groups)
  ∧ ∀ k,
      NoDup (default [] (dict_get k groups))
      ∧ (∀ i, i ∈ default [] (dict_get k groups)
              ↔ ∃ x, l !! i = Some x ∧ key x = Some k)
      ∧ (is_Some (dict_get k groups)
         → default [] (dict_get k groups) ≠ []).

Lemma grouped_nil : grouped [] [].
Proof.
  split; [constructor|]. intros k. simpl. split_and!.
  - constructor.
  - intros i. split; [by intros ?%elem_of_nil|]. by intros (x & ? & _).
  - by intros [? ?].
Qed.

Lemma grouped_snoc l x groups :
  grouped l groups →
  grouped (l ++ [x]) (group_step groups (length l, x)).
Proof.
  intros [Hkeys Hall]. unfold group_step. simpl.
  destruct (key x) as [k|] eqn:Hk.
  - split; [by apply NoDup_dict_set|]. intros k'.
    unfold dict_append. rewrite dict_get_set.
    destruct (Hall k') as (Hnd & Hmem & Hne).
    case_decide as Hkk; [subst k'|].
    + simpl. split_and!.
      * apply NoDup_app. split_and!; [done| |apply NoDup_singleton].
        intros i Hi ->%list_elem_of_singleton.
        apply Hmem in Hi as (y & Hy & _).
        apply lookup_lt_Some in Hy. lia.
      * intros i. rewrite elem_of_app, list_elem_of_singleton, Hmem.
        setoid_rewrite lookup_snoc_Some. split.
        -- intros [(y & Hy & Hky)| ->].
           ++ exists y. split; [left|done].
              split; [by eapply lookup_lt_Some|done].
           ++ exists x. split; [by right|done].
        -- intros (y & [[_ Hy]|[-> <-]] & Hky); [left|by right].
           by exists y.
      * intros _. by destruct (default [] (dict_get k groups)).
    + split_and!; [done| |done].
      intros i. rewrite Hmem. setoid_rewrite lookup_snoc_Some. split.
      * intros (y & Hy & Hky). exists y. split; [left|done].
        split; [by eapply lookup_lt_Some|done].
      * intros (y & [[_ Hy]|[-> <-]] & Hky); [by exists y|congruence].
  - split; [done|]. intros k.
    destruct (Hall k) as (Hnd & Hmem & Hne). split_and!; [done| |done].
    intros i. rewrite Hmem. setoid_rewrite lookup_snoc_Some. split.
    + intros (y & Hy & Hky). exists y. split; [left|done].
      split; [by eapply lookup_lt_Some|done].
    + intros (y & [[_ Hy]|[-> <-]] & Hky); [by exists y|congruence].
Qed.

Lemma grouped_foldl l : grouped l (foldl group_step [] (enumerate l)).
Proof.
  induction l as [|x l IH] using rev_ind; [apply grouped_nil|].
  rewrite enumerate_snoc, foldl_app. simpl. by apply grouped_snoc.
Qed.

(** The entries of a grouping. *)
Lemma grouped_entry l groups k ms :
  grouped l groups → (k, ms) ∈ groups →
  NoDup ms ∧ ms ≠ []
  ∧ ∀ i, i ∈ ms ↔ ∃ x, l !! i = Some x ∧ key x = Some k.
Proof.
  intros [Hkeys Hall] Hin. apply (elem_of_dict _ _ _ Hkeys) in Hin.
  destruct (Hall k) as (Hnd & Hmem & Hne). rewrite Hin in *. simpl in *.
  split_and!; [done|by apply Hne|done].
Qed.

(** Two entries that share a position are the same entry. *)
Lemma grouped_entries_disjoint l groups k1 ms1 k2 ms2 i :
  grouped l groups → (k1, ms1) ∈ groups → (k2, ms2) ∈ groups →
  i ∈ ms1 → i ∈ ms2 → k1 = k2 ∧ ms1 = ms2.
Proof.
  intros Hg H1 H2 Hi1 Hi2.
  destruct (grouped_entry _ _ _ _ Hg H1) as (_ & _ & Hm1).
  destruct (grouped_entry _ _ _ _ Hg H2) as (_ & _ & Hm2).
  apply Hm1 in Hi1 as (x1 & Hx1 & Hk1).
  apply Hm2 in Hi2 as (x2 & Hx2 & Hk2).
  assert (k1 = k2) as -> by congruence. split; [done|].
  destruct Hg as [Hkeys _].
  apply (elem_of_dict _ _ _ Hkeys) in H1, H2. congruence.
Qed.
End GroupBy.

Definition cluster_key (label : Z) : option Z :=
  if decide (0 ≤ label)%Z then Some label else None.

Lemma group_clusters_grouped cluster_labels :
  grouped cluster_key cluster_labels (group_clusters cluster_labels).
Proof.
  unfold group_clusters.
  rewrite (foldl_ext_in _ (group_step cluster_key)).
  - apply grouped_foldl.
  - intros groups [i label] _. unfold group_step, cluster_key. simpl.
    by case_decide.
Qed.

Definition group_key (q : question) : option string :=
  match get_group_id q with
  | Some group_id => if decide (group_id = "") then None else Some group_id
  | None => None
  end.

Lemma find_large_groups_grouped questions min_size :
  ∃ groups,
    grouped group_key questions groups
    ∧ find_large_groups questions min_size
      = filter (λ e : string * list nat,
                  (min_size < Z.of_nat (length e.2))%Z) groups.
Proof.
  eexists. split; [|unfold find_large_groups; reflexivity].
  rewrite (foldl_ext_in _ (group_step group_key)).
  - apply grouped_foldl.
  - intros groups [i q] _. unfold group_step, group_key. simpl.
    destruct (get_group_id q); [|done]. by case_decide.
Qed.

Lemma bind_ret_l {A B} (a : A) (k : A → M B) : bind (ret a) k = k a.
Proof. unfold bind, ret. simpl. by destruct (k a). Qed.

Lemma bind_assoc {A B C} (m : M A) (k : A → M B) (h : B → M C) :
  bind (bind m k) h = bind m (λ a, bind (k a) h).
Proof.
  unfold bind. destruct m as [tr [a| |]]; simpl; [|done..].
  destruct (k a) as [tr' [b| |]]; simpl; [|done..].
  by rewrite app_assoc.
Qed.

Lemma bind_ext {A B} (m : M A) (k k' : A → M B) :
  (∀ a, k a = k' a) → bind m k = bind m k'.
Proof. intros Hk. unfold bind. destruct (m.2); by rewrite ?Hk. Qed.

(** ** Numbering the groups *)

(** Both stages hand out consecutive numbers to the components they keep
    and write the number of a component at the keys of its members. *)
Section Assign.
Context {Cnt V D : Type}.
Variables (next : Cnt → Cnt) (lab : Cnt → V).
Variables (get : nat → D → option V) (set : nat → V → D → D).
Hypothesis get_set : ∀ k k' v d,
  get k' (set k v d) = if decide (k' = k) then Some v else get k' d.

Definition write_keys (v : V) (d : D) (keys : list nat) : D :=
  foldl (λ d k, set k v d) d keys.

Definition assign_group (st : Cnt * D) (keys : list nat) : Cnt * D :=
  (next st.1, write_keys (lab (next st.1)) st.2 keys).

Lemma get_write_keys v d keys k :
  get k (write_keys v d keys)
  = if decide (k ∈ keys) then Some v else get k d.
Proof.
  unfold write_keys. revert d.
  induction keys as [|k0 keys IH]; intros d; simpl.
  - destruct (decide (k ∈ [])) as [?%elem_of_nil|]; done.
  - rewrite IH, get_set. repeat case_decide; try done.
    + exfalso. set_solver.
    + exfalso. set_solver.
    + exfalso. set_solver.
Qed.

Lemma assign_groups_counter st gs :
  (foldl assign_group st gs).1 = Nat.iter (length gs) next st.1.
Proof.
  revert st. induction gs as [|g gs IH]; intros st; [done|].
  cbn [foldl length]. rewrite IH. cbn [assign_group fst].
  by rewrite Nat.iter_succ_r.
Qed.

Lemma assign_groups_lookup st gs k v :
  NoDup (concat gs) →
  get k (foldl assign_group st gs).2 = Some v
  ↔ ((k ∉ concat gs) ∧ get k st.2 = Some v)
    ∨ ∃ i g, gs !! i = Some g ∧ k ∈ g
             ∧ v = lab (Nat.iter (S i) next st.1).
Proof.
  revert st. induction gs as [|g gs IH]; intros st Hnd.
  { simpl. split; [intros ?; left; split; [by intros ?%elem_of_nil|done]|].
    intros [[_ ?]|(i & g & Hi & _)]; [done|]. by destruct i. }
  cbn [concat] in Hnd. apply NoDup_app in Hnd as (Hg & Hdisj & Hnd).
  cbn [foldl]. rewrite (IH _ Hnd). cbn [assign_group fst snd].
  rewrite get_write_keys. cbn [concat]. rewrite elem_of_app. split.
  - intros [[Hk Hget]|(i & g' & Hi & Hkg & ->)].
    + case_decide as Hkg.
      * right. exists 0, g. simplify_eq. by split_and!.
      * left. split; [tauto|done].
    + right. exists (S i), g'. split_and!; [done..|].
      by rewrite <-!Nat.iter_succ_r.
  - intros [[Hk Hget]|(i & g' & Hi & Hkg & ->)].
    + left. split; [tauto|]. rewrite decide_False by tauto. done.
    + destruct i as [|i]; simplify_eq/=.
      * left. split; [by apply Hdisj|]. by rewrite decide_True.
      * right. exists i, g'. split_and!; [done..|].
        by rewrite <-!Nat.iter_succ_r.
Qed.
End Assign.

(** ** Stage 1: the loops as folds *)

Definition gmap_set (k : nat) (v : string) (d : gmap nat string)
    : gmap nat string := <[k := v]> d.

Lemma gmap_get_set (k k' : nat) (v : string) (d : gmap nat string) :
  gmap_set k v d !! k' = if decide (k' = k) then Some v else d !! k'.
Proof.
  unfold gmap_set. case_decide as H; [subst; apply lookup_insert_eq|].
  by apply lookup_insert_ne.
Qed.

(** The record indices of a list of positions. *)
Definition keys_of (original_indices : list nat) (positions : list nat)
    : list nat :=
  (λ p, original_indices !!! p) <$> positions.

Definition stage1_assign (original_indices : list nat)
    (st : nat * gmap nat string) (component : list nat)
    : nat * gmap nat string :=
  assign_group S sim_group_label gmap_set st
    (keys_of original_indices component).

Lemma label_component_pure original_indices label verified component :
  Forall (λ p, p < length original_indices) component →
  result (label_component original_indices label verified component)
  = Ok (write_keys gmap_set label verified
          (keys_of original_indices component)).
Proof.
  intros Hc. unfold label_component, write_keys, keys_of.
  rewrite (for_each_pure _
             (λ verified p, gmap_set (original_indices !!! p) label verified)
             (λ p, p < length original_indices)); [|..|done].
  - by rewrite foldl_fmap.
  - intros vc p Hp. destruct (lookup_lt_is_Some_2 _ _ Hp) as [k Hk].
    rewrite (bind_ok _ _ k) by by apply result_index.
    by rewrite (list_lookup_total_correct _ _ _ Hk).
Qed.

Section Stage1Loops.
Variable set_iter : gset nat → list nat.
Hypothesis set_iter_perm : ∀ s, set_iter s ≡ₚ elements s.

(** What Stage 1 does with a component of two or more members. *)
Definition stage1_on_component (original_indices : list nat)
    (st : nat * gmap nat string) (component : list nat)
    : M (nat * gmap nat string) :=
  verified' <- label_component original_indices
                 (sim_group_label (S st.1)) st.2 component ;;
  ret (S st.1, verified').

Lemma stage1_on_component_pure original_indices st component :
  Forall (λ p, p < length original_indices) component →
  result (stage1_on_component original_indices st component)
  = Ok (stage1_assign original_indices st component).
Proof.
  intros Hc. unfold stage1_on_component.
  by rewrite (bind_ok _ _ _ (label_component_pure _ _ _ _ Hc)).
Qed.

Lemma stage1_start_body members original_indices adjacency st start :
  stage1_start set_iter members original_indices adjacency st start
  = start_body set_iter members adjacency
      (λ s, neighbours adjacency s = ∅)
      (stage1_on_component original_indices) st start.
Proof.
  destruct st as [visited [cluster_id verified]].
  unfold stage1_start, start_body, stage1_on_component. cbn [fst snd].
  case_decide; [done|].
  destruct (bfs set_iter _ adjacency visited start) as [found|]; [|done].
  cbn [of_fuel]. rewrite !bind_ret_l. case_decide; [|done].
  rewrite bind_assoc. apply bind_ext. intros v. by rewrite bind_ret_l.
Qed.
End Stage1Loops.

Lemma for_each_ext {S X} (f g : S → X → M S) (l : list X) (s : S) :
  (∀ s x, f s x = g s x) → for_each f l s = for_each g l s.
Proof.
  intros Hfg. revert s. induction l as [|x l IH]; intros s; [done|].
  simpl. rewrite Hfg. by apply bind_ext.
Qed.

Lemma result_predict ce pairs : result (predict ce pairs) = Ok (ce pairs).
Proof. done. Qed.

Lemma all_pairs_small n : n < 2 → all_pairs n = [].
Proof. intros Hn. by destruct n as [|[|n]]; [..|lia]. Qed.

Lemma bounded_pairs_small n : n < 2 → bounded_pairs n = [].
Proof. intros Hn. by destruct n as [|[|n]]; [..|lia]. Qed.

Lemma neighbours_empty x : neighbours ∅ x = ∅.
Proof. unfold neighbours. by rewrite lookup_empty. Qed.

(** The graph Stage 1 builds for a candidate cluster. *)
Definition stage1_scored (ce : list (text * text) → list Q)
    (valid_texts : list text) (members : list nat) : list (nat * nat * Q) :=
  let pair_indices := all_pairs (length members) in
  zip pair_indices
      (ce (text_pairs ((λ i, valid_texts !!! i) <$> members) pair_indices)).

Definition stage1_graph (ce : list (text * text) → list Q) (threshold : Q)
    (valid_texts : list text) (members : list nat) : gmap nat (gset nat) :=
  build_adjacency threshold (stage1_scored ce valid_texts members).

(** The components found in a graph on the nodes below [n]: they are
    disjoint, and every node with a neighbour lies in one of them. *)
Definition found_components (adjacency : gmap nat (gset nat)) (n : nat)
    (nodess : list (list nat)) : Prop :=
  NoDup (concat nodess)
  ∧ (∀ x, x ∈ concat nodess → x < n)
  ∧ Forall (is_component adjacency) nodess
  ∧ (∀ x, x < n → x ∈ concat nodess ∨ neighbours adjacency x = ∅).

Lemma found_components_nil adjacency n :
  (∀ x, neighbours adjacency x = ∅) → found_components adjacency n [].
Proof.
  intros He. split_and!; [constructor|by intros x ?%elem_of_nil|done|].
  intros x _. right. apply He.
Qed.

Section Stage1Cluster.
Variable set_iter : gset nat → list nat.
Hypothesis set_iter_perm : ∀ s, set_iter s ≡ₚ elements s.

Lemma start_loop_found {T} members adjacency (skip : nat → Prop)
    `{∀ s, Decision (skip s)}
    (on_component : T → list nat → M T) (on_pure : T → list nat → T)
    (valid : nat → Prop) (t : T) :
  (∀ t comp, Forall valid comp →
             result (on_component t comp) = Ok (on_pure t comp)) →
  Forall valid members →
  adj_symmetric adjacency →
  adj_below adjacency (length members) →
  (∀ s, skip s → neighbours adjacency s = ∅) →
  ∃ nodess st',
    result (for_each (start_body set_iter members adjacency skip
                        on_component)
              (py_range 0 (length members)) (∅, t)) = Ok st'
    ∧ st'.2 = foldl on_pure t (kept_components members nodess)
    ∧ found_components adjacency (length members) nodess.
Proof.
  intros Hok Hvalid Hsym Hbelow Hskip.
  assert (Forall (λ s, s < length members) (py_range 0 (length members)))
    as Hstarts.
  { rewrite Forall_forall. intros s Hs. apply elem_of_py_range in Hs. lia. }
  assert (adj_closed adjacency ∅) as Hclosed.
  { by intros x y ?%elem_of_empty. }
  destruct (start_loop_spec set_iter set_iter_perm members adjacency skip
              on_component on_pure valid Hok Hvalid Hsym Hbelow
              (py_range 0 (length members)) ∅ t Hstarts Hclosed)
    as (nodess & visited' & Hres & Hvis & _ & Hnd & Hnv & Hcomp & Hdone).
  exists nodess, (visited', foldl on_pure t (kept_components members nodess)).
  split_and!; [done..|].
  unfold found_components. split_and!; [done|by intros x [_ ?]%Hnv|done|].
  intros x Hx. destruct (Hdone x) as [Hv|Hs].
  - apply elem_of_py_range. lia.
  - left. rewrite Hvis in Hv. apply elem_of_union in Hv as [Hv|Hv].
    + by apply elem_of_empty in Hv.
    + by apply elem_of_list_to_set in Hv.
  - right. by apply Hskip.
Qed.

Lemma stage1_cluster_spec ce threshold valid_texts original_indices st
    entry :
  Forall (λ p, p < length valid_texts) entry.2 →
  length original_indices = length valid_texts →
  ∃ nodess,
    found_components (stage1_graph ce threshold valid_texts entry.2)
      (length entry.2) nodess
    ∧ result (stage1_cluster set_iter ce threshold valid_texts
                original_indices st entry)
      = Ok (foldl (stage1_assign original_indices) st
              (kept_components entry.2 nodess)).
Proof.
  intros Hmem Hlen. set (members := entry.2) in *.
  unfold stage1_cluster. fold members. case_decide as Hn.
  { exists []. split; [|done]. apply found_components_nil. intros x.
    unfold stage1_graph, stage1_scored.
    rewrite (all_pairs_small _ Hn). apply neighbours_empty. }
  rewrite (bind_ok _ _ _ (comprehension_index valid_texts members Hmem)).
  destruct (text_pairs _ (all_pairs (length members))) as [|p ps] eqn:Hp.
  { apply fmap_nil_inv in Hp.
    assert ((0, 1) ∈ all_pairs (length members)) as Hin
      by (apply elem_of_all_pairs; lia).
    rewrite Hp in Hin. by apply elem_of_nil in Hin. }
  rewrite <-Hp. rewrite (bind_ok _ _ _ (result_predict _ _)).
  fold (stage1_scored ce valid_texts members).
  fold (stage1_graph ce threshold valid_texts members).
  rewrite (for_each_ext _ _ _ _
             (stage1_start_body set_iter members original_indices
                (stage1_graph ce threshold valid_texts members))).
  destruct (start_loop_found members
              (stage1_graph ce threshold valid_texts members)
              (λ s, neighbours
                      (stage1_graph ce threshold valid_texts members) s = ∅)
              (stage1_on_component original_indices)
              (stage1_assign original_indices)
              (λ p, p < length original_indices) st)
    as (nodess & st' & Hres & Hst & Hfound).
  - apply stage1_on_component_pure.
  - by rewrite Hlen.
  - apply build_adjacency_symmetric.
  - apply build_adjacency_below, zip_pairs_below.
    intros i j. by rewrite elem_of_all_pairs.
  - done.
  - exists nodess. split; [done|].
    rewrite (bind_ok _ _ _ Hres). by rewrite <-Hst.
Qed.
End Stage1Cluster.

(** ** Lists of lists *)

Lemma elem_of_concat {A} (x : A) (ls : list (list A)) :
  x ∈ concat ls ↔ ∃ l, x ∈ l ∧ l ∈ ls.
Proof.
  induction ls as [|l ls IH]; simpl.
  - split; [by intros ?%elem_of_nil|]. by intros (l & _ & ?%elem_of_nil).
  - rewrite elem_of_app, IH. setoid_rewrite elem_of_cons. naive_solver.
Qed.

Lemma concat_fmap_fmap {A B} (f : A → B) (ls : list (list A)) :
  concat ((λ l : list A, f <$> l) <$> ls) = f <$> concat ls.
Proof.
  induction ls as [|l ls IH]; [done|]. csimpl. by rewrite IH, fmap_app.
Qed.

Lemma sublist_concat_filter {A} (P : list A → Prop) `{∀ l, Decision (P l)}
    (ls : list (list A)) :
  sublist (concat (filter P ls)) (concat ls).
Proof.
  induction ls as [|l ls IH]; [done|]. rewrite filter_cons. simpl.
  case_decide; simpl.
  - by apply sublist_app.
  - by apply sublist_inserts_l.
Qed.

Lemma NoDup_two {A} (l : list A) x y :
  x ∈ l → y ∈ l → x ≠ y → 2 ≤ length l.
Proof.
  intros Hx Hy Hne. destruct l as [|a [|b l]]; simpl; [| |lia].
  - by apply elem_of_nil in Hx.
  - apply list_elem_of_singleton in Hx, Hy. congruence.
Qed.

Lemma two_elements {A} (l : list A) x :
  NoDup l → 2 ≤ length l → x ∈ l → ∃ y, y ∈ l ∧ y ≠ x.
Proof.
  intros Hnd Hlen Hx. destruct l as [|a [|b l]]; simpl in Hlen; [lia..|].
  apply NoDup_cons in Hnd as [Hab _].
  apply elem_of_cons in Hx as [->|Hx].
  - exists b. split; [apply list_elem_of_further, list_elem_of_here|].
    intros ->. apply Hab, list_elem_of_here.
  - exists a. split; [apply list_elem_of_here|]. by intros ->.
Qed.

(** ** Components with two or more members *)

Lemma component_with_edge adjacency nodes x y :
  is_component adjacency nodes → x ∈ nodes → adj_step adjacency x y →
  x ≠ y → 2 ≤ length nodes.
Proof.
  intros (_ & _ & Hchar) Hx Hstep Hne. apply (NoDup_two nodes x y); [done| |done].
  apply (Hchar x Hx). by apply rtc_once.
Qed.

Lemma component_large_edge adjacency nodes x :
  is_component adjacency nodes → 2 ≤ length nodes → x ∈ nodes →
  neighbours adjacency x ≠ ∅.
Proof.
  intros (_ & Hnd & Hchar) Hlen Hx.
  destruct (two_elements nodes x Hnd Hlen Hx) as (y & Hy & Hne).
  apply (Hchar x Hx) in Hy. apply rtc_inv in Hy as [->|(z & Hz & _)]; [done|].
  intros He. unfold adj_step in Hz. rewrite He in Hz.
  by apply elem_of_empty in Hz.
Qed.

Lemma elem_of_kept_components members nodess g :
  g ∈ kept_components members nodess
  ↔ ∃ nodes, nodes ∈ nodess ∧ 2 ≤ length nodes
             ∧ g = members_of members nodes.
Proof.
  unfold kept_components. rewrite list_elem_of_filter, list_elem_of_fmap.
  split.
  - intros (Hlen & nodes & -> & Hin). exists nodes.
    unfold members_of in Hlen. rewrite length_fmap in Hlen. done.
  - intros (nodes & Hin & Hlen & ->). split; [|by exists nodes].
    unfold members_of. by rewrite length_fmap.
Qed.

Lemma members_of_inj members nodes1 nodes2 :
  NoDup members →
  Forall (λ x, x < length members) nodes1 →
  Forall (λ x, x < length members) nodes2 →
  members_of members nodes1 = members_of members nodes2 → nodes1 = nodes2.
Proof.
  intros Hnd H1. revert nodes2.
  induction H1 as [|x nodes1 Hx _ IH]; intros nodes2 H2 Heq.
  { destruct nodes2; [done|]. discriminate. }
  destruct H2 as [|y nodes2 Hy H2]; [discriminate|].
  injection Heq as Hxy Heq. f_equal; [|by apply IH].
  destruct (lookup_lt_is_Some_2 _ _ Hx) as [a Ha].
  destruct (lookup_lt_is_Some_2 _ _ Hy) as [b Hb].
  rewrite (list_lookup_total_correct _ _ _ Ha) in Hxy.
  rewrite (list_lookup_total_correct _ _ _ Hb) in Hxy. subst b.
  by apply (NoDup_lookup members x y a).
Qed.

Lemma lookup_total_inj (l : list nat) x y :
  NoDup l → x < length l → y < length l → l !!! x = l !!! y → x = y.
Proof.
  intros Hnd Hx Hy Heq.
  destruct (lookup_lt_is_Some_2 _ _ Hx) as [a Ha].
  destruct (lookup_lt_is_Some_2 _ _ Hy) as [b Hb].
  rewrite (list_lookup_total_correct _ _ _ Ha) in Heq.
  rewrite (list_lookup_total_correct _ _ _ Hb) in Heq. subst b.
  by apply (NoDup_lookup l x y a).
Qed.

(** The positions of the kept components of a cluster are distinct
    members of the cluster. *)
Lemma kept_components_positions adjacency members nodess :
  NoDup members →
  found_components adjacency (length members) nodess →
  NoDup (concat (kept_components members nodess))
  ∧ ∀ p, p ∈ concat (kept_components members nodess) → p ∈ members.
Proof.
  intros Hnd (Hndn & Hbelow & _ & _). split.
  - eapply sublist_NoDup; [|apply sublist_concat_filter].
    unfold members_of. rewrite concat_fmap_fmap.
    apply NoDup_fmap_2_strong; [|done].
    intros x y Hx Hy. apply lookup_total_inj; auto.
  - intros p (g & Hp & Hg)%elem_of_concat.
    apply elem_of_kept_components in Hg as (nodes & Hin & _ & ->).
    apply list_elem_of_fmap in Hp as (x & -> & Hx).
    apply list_elem_of_lookup_total_2. apply Hbelow.
    apply elem_of_concat. by exists nodes.
Qed.

Lemma NoDup_concat {A} (ls : list (list A)) :
  (∀ l, l ∈ ls → NoDup l) →
  (∀ i j li lj x, ls !! i = Some li → ls !! j = Some lj →
                  x ∈ li → x ∈ lj → i = j) →
  NoDup (concat ls).
Proof.
  induction ls as [|l ls IH]; intros Hnd Hdisj; [constructor|].
  simpl. apply NoDup_app. split_and!.
  - apply Hnd, list_elem_of_here.
  - intros x Hx (l' & Hx' & Hl')%elem_of_concat.
    apply list_elem_of_lookup in Hl' as [j Hj].
    by specialize (Hdisj 0 (S j) l l' x eq_refl Hj Hx Hx').
  - apply IH.
    + intros l' Hl'. by apply Hnd, list_elem_of_further.
    + intros i j li lj x Hi Hj Hxi Hxj.
      by specialize (Hdisj (S i) (S j) li lj x Hi Hj Hxi Hxj) as [= ->].
Qed.

(** The members of the entries of a grouping, taken together, are
    distinct. *)
Lemma grouped_NoDup {K X} `{EqDecision K} (key : X → option K) l groups :
  grouped key l groups → NoDup (concat groups.*2).
Proof.
  intros Hg. apply NoDup_concat.
  - intros ms (e & -> & He)%list_elem_of_fmap. destruct e as [k ms].
    by destruct (grouped_entry key _ _ _ _ Hg He) as (? & _).
  - intros i j li lj x Hi Hj Hxi Hxj.
    rewrite list_lookup_fmap in Hi, Hj.
    destruct (groups !! i) as [[ki mi]|] eqn:Hgi; [|done].
    destruct (groups !! j) as [[kj mj]|] eqn:Hgj; [|done].
    simpl in Hi, Hj. injection Hi as <-. injection Hj as <-.
    destruct (grouped_entries_disjoint key l groups ki mi kj mj x Hg)
      as [-> ->]; [by eapply list_elem_of_lookup_2..|done|done|].
    destruct Hg as [Hkeys _]. unfold dict_keys in Hkeys.
    apply (NoDup_lookup _ i j kj Hkeys); by rewrite list_lookup_fmap, ?Hgi, ?Hgj.
Qed.

(** ** The keys written for the kept components of all clusters *)

Definition key_groups (original_indices : list nat)
    (clusters : list (Z * list nat)) (nss : list (list (list nat)))
    : list (list nat) :=
  concat (zip_with (λ (e : Z * list nat) nodess,
                      keys_of original_indices
                      <$> kept_components e.2 nodess)
                   clusters nss).

Definition kept_positions (clusters : list (Z * list nat))
    (nss : list (list (list nat))) : list nat :=
  concat (zip_with (λ (e : Z * list nat) nodess,
                      concat (kept_components e.2 nodess))
                   clusters nss).

Lemma key_groups_positions original_indices clusters nss :
  concat (key_groups original_indices clusters nss)
  = keys_of original_indices (kept_positions clusters nss).
Proof.
  unfold key_groups, kept_positions. revert nss.
  induction clusters as [|e clusters IH]; intros [|nodess nss]; try done.
  cbn [zip_with concat]. rewrite concat_app, IH.
  unfold keys_of at 3. rewrite fmap_app. f_equal.
  unfold keys_of. by rewrite concat_fmap_fmap.
Qed.

Lemma kept_positions_spec (graph : list nat → gmap nat (gset nat))
    clusters nss :
  NoDup (concat clusters.*2) →
  Forall2 (λ e nodess, found_components (graph e.2) (length e.2) nodess)
          clusters nss →
  NoDup (kept_positions clusters nss)
  ∧ ∀ p, p ∈ kept_positions clusters nss → p ∈ concat clusters.*2.
Proof.
  intros Hnd Hall. unfold kept_positions.
  induction Hall as [|e nodess clusters nss He _ IH]; [by split; [constructor|]|].
  csimpl in Hnd. apply NoDup_app in Hnd as (Hnde & Hdisj & Hnd).
  destruct (IH Hnd) as [IH1 IH2].
  destruct (kept_components_positions _ _ _ Hnde He) as [Hk1 Hk2].
  cbn [zip_with concat]. split.
  - apply NoDup_app. split_and!; [done| |done].
    intros p Hp Hp'. apply (Hdisj p); auto.
  - csimpl. intros p [Hp|Hp]%elem_of_app; apply elem_of_app; auto.
Qed.

Section Stage1Master.
Context {embeddings : Type}.
Variable hdbscan_fit_predict : hdbscan_params → embeddings → list Z.
Variable set_iter : gset nat → list nat.
Hypothesis set_iter_perm : ∀ s, set_iter s ≡ₚ elements s.

Lemma stage1_clusters_spec ce threshold valid_texts original_indices
    clusters st :
  Forall (λ e : Z * list nat,
            Forall (λ p, p < length valid_texts) e.2) clusters →
  length original_indices = length valid_texts →
  ∃ nss,
    Forall2 (λ e nodess,
               found_components
                 (stage1_graph ce threshold valid_texts e.2)
                 (length e.2) nodess)
            clusters nss
    ∧ result (for_each (stage1_cluster set_iter ce threshold valid_texts
                          original_indices) clusters st)
      = Ok (foldl (assign_group S sim_group_label gmap_set) st
              (key_groups original_indices clusters nss)).
Proof.
  intros Hall Hlen. revert st.
  induction Hall as [|e clusters He _ IH]; intros st.
  { exists []. split; [constructor|done]. }
  destruct (stage1_cluster_spec set_iter set_iter_perm ce threshold
              valid_texts original_indices st e He Hlen)
    as (nodess & Hfound & Hres).
  destruct (IH (foldl (stage1_assign original_indices) st
                  (kept_components e.2 nodess)))
    as (nss & Hall' & Hres').
  exists (nodess :: nss). split; [by constructor|].
  cbn [for_each]. rewrite (bind_ok _ _ _ Hres), Hres'.
  unfold key_groups. cbn [zip_with concat].
  by rewrite foldl_app, foldl_fmap.
Qed.
End Stage1Master.

Lemma elem_of_concat_zip_with {A B C} (f : A → B → list C) l k z :
  z ∈ concat (zip_with f l k)
  ↔ ∃ i x y, l !! i = Some x ∧ k !! i = Some y ∧ z ∈ f x y.
Proof.
  revert k. induction l as [|x l IH]; intros [|y k]; cbn [zip_with concat].
  - split; [by intros ?%elem_of_nil|]. by intros (i & ? & ? & ? & _).
  - split; [by intros ?%elem_of_nil|]. by intros (i & ? & ? & ? & _).
  - split; [by intros ?%elem_of_nil|]. by intros ([|i] & ? & ? & _ & ? & _).
  - rewrite elem_of_app, IH. split.
    + intros [Hz|(i & x' & y' & Hx & Hy & Hz)].
      * by exists 0, x, y.
      * by exists (S i), x', y'.
    + intros ([|i] & x' & y' & Hx & Hy & Hz); simplify_eq/=; [by left|].
      right. by exists i, x', y'.
Qed.

Lemma sim_group_label_inj a b :
  sim_group_label a = sim_group_label b → a = b.
Proof.
  unfold sim_group_label. intros H.
  apply (inj (String.append "sim_group_")) in H. by apply (inj pretty) in H.
Qed.

Lemma iter_S n k : Nat.iter n S k = n + k.
Proof. induction n as [|n IH]; simpl; [done|]. by rewrite IH. Qed.

Lemma result_encode {embeddings} (bi : list text → embeddings) texts :
  result (bi_encoder_encode bi texts) = Ok (bi texts).
Proof. done. Qed.

Lemma result_fit_predict {embeddings}
    (hdb : hdbscan_params → embeddings → list Z) p e :
  result (fit_predict hdb p e) = Ok (hdb p e).
Proof. done. Qed.

Lemma stage1_graph_irreflexive ce threshold valid_texts members x :
  ¬ adj_step (stage1_graph ce threshold valid_texts members) x x.
Proof.
  apply (build_adjacency_irreflexive _ _ (length members)).
  apply zip_pairs_below. intros i j. by rewrite elem_of_all_pairs.
Qed.

(** A node with a neighbour lies in a found component of two or more
    nodes, and conversely. *)
Lemma found_component_of adjacency n nodess x :
  (∀ y, ¬ adj_step adjacency y y) →
  found_components adjacency n nodess → x < n →
  neighbours adjacency x ≠ ∅ →
  ∃ nodes, nodes ∈ nodess ∧ x ∈ nodes ∧ 2 ≤ length nodes
           ∧ is_component adjacency nodes.
Proof.
  intros Hirr (_ & _ & Hcomp & Hcover) Hx Hne.
  destruct (Hcover x Hx) as [Hin|He]; [|done].
  apply elem_of_concat in Hin as (nodes & Hxn & Hn).
  rewrite Forall_forall in Hcomp. specialize (Hcomp nodes Hn).
  exists nodes. split_and!; [done..| |done].
  apply set_choose_L in Hne as [y Hy].
  apply (component_with_edge adjacency nodes x y); [done..|].
  intros ->. by apply (Hirr y).
Qed.

Lemma found_component_large adjacency n nodess nodes x :
  found_components adjacency n nodess → nodes ∈ nodess →
  2 ≤ length nodes → x ∈ nodes →
  x < n ∧ neighbours adjacency x ≠ ∅ ∧ is_component adjacency nodes.
Proof.
  intros (_ & Hbelow & Hcomp & _) Hn Hlen Hx.
  rewrite Forall_forall in Hcomp. specialize (Hcomp nodes Hn).
  split_and!; [|by eapply component_large_edge|done].
  apply Hbelow, elem_of_concat. by exists nodes.
Qed.

Section Stage1Spec.
Context {embeddings : Type}.
Variable hdbscan_fit_predict : hdbscan_params → embeddings → list Z.
Variable set_iter : gset nat → list nat.
Hypothesis set_iter_perm : ∀ s, set_iter s ≡ₚ elements s.

(** The intermediate values of [find_similarity_groups]. *)
Definition stage1_original_indices (qwi : list (nat * question))
    : list nat :=
  (λ d : nat * nat * text, d.1.2) <$> valid_rows qwi.

Definition stage1_valid_texts (qwi : list (nat * question)) : list text :=
  (λ d : nat * nat * text, d.2) <$> valid_rows qwi.

Definition stage1_cluster_labels (bi_encoder : list text → embeddings)
    (min_cluster_size : Z) (qwi : list (nat * question)) : list Z :=
  hdbscan_fit_predict (coarse_params min_cluster_size)
    (bi_encoder (prepare_e5_text <$> stage1_valid_texts qwi)).

Definition stage1_clusters (bi_encoder : list text → embeddings)
    (min_cluster_size : Z) (qwi : list (nat * question))
    : list (Z * list nat) :=
  group_clusters (stage1_cluster_labels bi_encoder min_cluster_size qwi).

Lemma stage1_lengths qwi :
  length (stage1_original_indices qwi) = length (stage1_valid_texts qwi).
Proof.
  unfold stage1_original_indices, stage1_valid_texts.
  by rewrite !length_fmap.
Qed.

Lemma stage1_clusters_below bi mcs qwi e p :
  length (stage1_cluster_labels bi mcs qwi)
    = length (stage1_valid_texts qwi) →
  e ∈ stage1_clusters bi mcs qwi → p ∈ e.2 →
  p < length (stage1_valid_texts qwi).
Proof.
  intros Hlen He Hp. destruct e as [lbl ms].
  destruct (grouped_entry cluster_key _ _ _ _
              (group_clusters_grouped _) He) as (_ & _ & Hm).
  apply Hm in Hp as (l & Hl & _). apply lookup_lt_Some in Hl.
  by rewrite <-Hlen.
Qed.

Lemma find_similarity_groups_run qwi bi ce mcs threshold :
  2 ≤ length (valid_rows qwi) →
  length (stage1_cluster_labels bi mcs qwi)
    = length (stage1_valid_texts qwi) →
  ∃ nss,
    Forall2 (λ e nodess,
               found_components
                 (stage1_graph ce threshold (stage1_valid_texts qwi) e.2)
                 (length e.2) nodess)
            (stage1_clusters bi mcs qwi) nss
    ∧ result (find_similarity_groups hdbscan_fit_predict set_iter qwi bi
                (Some ce) mcs threshold true)
      = Ok (foldl (assign_group S sim_group_label gmap_set) (0, ∅)
              (key_groups (stage1_original_indices qwi)
                 (stage1_clusters bi mcs qwi) nss)).2.
Proof.
  intros Hrows Hlen.
  destruct (stage1_clusters_spec set_iter set_iter_perm ce threshold
              (stage1_valid_texts qwi) (stage1_original_indices qwi)
              (stage1_clusters bi mcs qwi) (0, ∅))
    as (nss & Hall & Hres).
  { apply Forall_forall. intros e He. apply Forall_forall. intros p Hp.
    by eapply stage1_clusters_below. }
  { apply stage1_lengths. }
  exists nss. split; [done|].
  unfold find_similarity_groups.
  destruct qwi as [|q0 qwi0] eqn:Hq.
  { simpl in Hrows. lia. }
  rewrite <-Hq in *. rewrite decide_False by lia.
  fold (stage1_valid_texts qwi). fold (stage1_original_indices qwi).
  rewrite (bind_ok _ _ _ (result_encode _ _)).
  rewrite (bind_ok _ _ _ (result_fit_predict _ _ _)).
  fold (stage1_cluster_labels bi mcs qwi). fold (stage1_clusters bi mcs qwi).
  by rewrite (bind_ok _ _ _ Hres).
Qed.
End Stage1Spec.

Lemma NoDup_enumerate_from {A} n (l : list A) : NoDup (enumerate_from n l).
Proof.
  revert n. induction l as [|x l IH]; intros n; simpl; [constructor|].
  apply NoDup_cons. split; [|apply IH].
  intros [Hle _]%elem_of_enumerate_from. lia.
Qed.

Lemma valid_rows_elem qwi d :
  d ∈ valid_rows qwi →
  strip d.2 ≠ [] ∧ qwi.*1 !! d.1.1 = Some d.1.2
  ∧ ∃ q, qwi !! d.1.1 = Some (d.1.2, q) ∧ d.2 = get_question_text q.
Proof.
  unfold valid_rows. intros [Hs Hd]%list_elem_of_filter. split; [done|].
  apply list_elem_of_fmap in Hd as ([i [idx t]] & -> & Hd). simpl.
  apply elem_of_enumerate in Hd. apply lookup_zip_with_Some in Hd
    as (idx' & t' & [= <- <-] & Hi & Ht).
  split; [done|]. rewrite list_lookup_fmap in Hi.
  rewrite list_lookup_fmap in Ht.
  destruct (qwi !! i) as [[idx' q]|]; simplify_eq/=. by exists q.
Qed.

Lemma NoDup_valid_rows qwi : NoDup (valid_rows qwi).
Proof.
  unfold valid_rows. apply NoDup_filter. apply NoDup_fmap_2_strong.
  - by intros [i [idx t]] [i' [idx' t']] _ _ [= -> -> ->].
  - apply NoDup_enumerate_from.
Qed.

Section Stage1Records.
Context {embeddings : Type}.
Variable hdbscan_fit_predict : hdbscan_params → embeddings → list Z.

Lemma NoDup_stage1_original_indices qwi :
  NoDup qwi.*1 → NoDup (stage1_original_indices qwi).
Proof.
  intros Hnd. unfold stage1_original_indices.
  apply NoDup_fmap_2_strong; [|apply NoDup_valid_rows].
  intros d1 d2 H1 H2 Heq.
  apply valid_rows_elem in H1 as (_ & Hi1 & q1 & Hq1 & Ht1).
  apply valid_rows_elem in H2 as (_ & Hi2 & q2 & Hq2 & Ht2).
  rewrite <-Heq in Hi2, Hq2.
  pose proof (NoDup_lookup _ _ _ _ Hnd Hi1 Hi2) as Hi.
  rewrite <-Hi in Hq2. assert (q1 = q2) as <- by congruence.
  destruct d1 as [[i1 k1] t1], d2 as [[i2 k2] t2]. simpl in *. congruence.
Qed.

Lemma stage1_original_indices_elem qwi k :
  k ∈ stage1_original_indices qwi → k ∈ qwi.*1.
Proof.
  unfold stage1_original_indices.
  intros (d & -> & Hd)%list_elem_of_fmap.
  apply valid_rows_elem in Hd as (_ & Hi & _).
  by eapply list_elem_of_lookup_2.
Qed.
End Stage1Records.

(** ** Groups as connected components *)

(** The key behind the node [x] of a cluster: [keys[members[x]]]. *)
Definition key_of (keys members : list nat) (x : nat) : nat :=
  keys !!! (members !!! x).

(** What an assignment [m] read with [get] is, cluster by cluster, when its
    groups are the connected components of two or more nodes: a node
    without a neighbour has no number; a node with a neighbour has a number
    that is carried by exactly the keys of the nodes connected to it;
    nothing else has a number. *)
Definition grouped_by_components {V D : Type} (get : nat → D → option V)
    (keys : list nat) (clusters : list (Z * list nat))
    (graph : list nat → gmap nat (gset nat)) (m : D) : Prop :=
  (∀ e x, e ∈ clusters → x < length e.2 →
     (neighbours (graph e.2) x = ∅ → get (key_of keys e.2 x) m = None)
     ∧ (neighbours (graph e.2) x ≠ ∅ →
        ∃ L, get (key_of keys e.2 x) m = Some L
             ∧ ∀ k, get k m = Some L
                    ↔ ∃ y, connected (graph e.2) x y
                           ∧ k = key_of keys e.2 y))
  ∧ (∀ k L, get k m = Some L →
       ∃ e x, e ∈ clusters ∧ x < length e.2
              ∧ neighbours (graph e.2) x ≠ ∅
              ∧ k = key_of keys e.2 x).

Lemma elem_of_component_keys keys members nodes k :
  k ∈ keys_of keys (members_of members nodes)
  ↔ ∃ y, y ∈ nodes ∧ k = key_of keys members y.
Proof.
  unfold keys_of, members_of, key_of.
  rewrite list_elem_of_fmap. split.
  - intros (p & -> & (y & -> & Hy)%list_elem_of_fmap). by exists y.
  - intros (y & Hy & ->). eexists. split; [done|].
    apply list_elem_of_fmap. by exists y.
Qed.

Section ComponentGroups.
Context {Cnt V D : Type}.
Variables (next : Cnt → Cnt) (lab : Cnt → V).
Variables (get : nat → D → option V) (set : nat → V → D → D).
Hypothesis get_set : ∀ k k' v d,
  get k' (set k v d) = if decide (k' = k) then Some v else get k' d.
Variables (c0 : Cnt) (d0 : D).
Hypothesis d0_empty : ∀ k, get k d0 = None.
Hypothesis lab_inj : ∀ i j,
  lab (Nat.iter (S i) next c0) = lab (Nat.iter (S j) next c0) → i = j.
Variables (labels : list Z) (keys : list nat).
Variable graph : list nat → gmap nat (gset nat).
Hypothesis keys_NoDup : NoDup keys.
Hypothesis positions_below :
  ∀ e p, e ∈ group_clusters labels → p ∈ e.2 → p < length keys.
Hypothesis graph_irreflexive : ∀ ms y, ¬ adj_step (graph ms) y y.

(** Distinct nodes of the clusters have distinct keys. *)
Lemma key_of_inj e e' x x' :
  e ∈ group_clusters labels → e' ∈ group_clusters labels →
  x < length e.2 → x' < length e'.2 →
  key_of keys e.2 x = key_of keys e'.2 x' → e = e' ∧ x = x'.
Proof.
  intros He He' Hx Hx' Heq. unfold key_of in Heq.
  assert (e.2 !!! x ∈ e.2) as Hp by by apply list_elem_of_lookup_total_2.
  assert (e'.2 !!! x' ∈ e'.2) as Hp'
    by by apply list_elem_of_lookup_total_2.
  apply lookup_total_inj in Heq;
    [|done|by apply (positions_below e)|by apply (positions_below e')].
  destruct e as [k ms], e' as [k' ms']. simpl in *.
  rewrite <-Heq in Hp'.
  destruct (grouped_entries_disjoint cluster_key _ _ _ _ _ _ _
              (group_clusters_grouped _) He He' Hp Hp') as [-> ->].
  split; [done|].
  destruct (grouped_entry cluster_key _ _ _ _
              (group_clusters_grouped _) He) as (Hndm & _).
  by apply (lookup_total_inj ms').
Qed.

Lemma key_groups_grouped nss :
  Forall2 (λ e nodess, found_components (graph e.2) (length e.2) nodess)
          (group_clusters labels) nss →
  grouped_by_components get keys (group_clusters labels) graph
    (foldl (assign_group next lab set) (c0, d0)
       (key_groups keys (group_clusters labels) nss)).2.
Proof.
  intros Hall.
  set (clusters := group_clusters labels) in *.
  set (gs := key_groups keys clusters nss) in *.
  set (m := (foldl (assign_group next lab set) (c0, d0) gs).2).
  (* the keys written are pairwise distinct *)
  assert (NoDup (concat gs)) as Hgs.
  { unfold gs. rewrite key_groups_positions.
    destruct (kept_positions_spec graph clusters nss) as [Hp1 Hp2];
      [by eapply grouped_NoDup, group_clusters_grouped|done|].
    apply NoDup_fmap_2_strong; [|done].
    assert (∀ p, p ∈ kept_positions clusters nss → p < length keys)
      as Hb.
    { intros p (ms & Hp & (e & -> & He)%list_elem_of_fmap)%Hp2%elem_of_concat.
      by eapply positions_below. }
    intros p p' Hp Hp'. apply lookup_total_inj; auto. }
  (* which keys carry which number *)
  assert (∀ k L, get k m = Some L
                 ↔ ∃ i g, gs !! i = Some g ∧ k ∈ g
                          ∧ L = lab (Nat.iter (S i) next c0)) as Hlook.
  { intros k L. unfold m.
    rewrite (assign_groups_lookup next lab get set get_set _ _ _ _ Hgs).
    cbn [fst snd]. rewrite d0_empty. naive_solver. }
  (* the groups are the kept components *)
  assert (∀ g, g ∈ gs
               ↔ ∃ i e nodess nodes,
                   clusters !! i = Some e ∧ nss !! i = Some nodess
                   ∧ nodes ∈ nodess ∧ 2 ≤ length nodes
                   ∧ g = keys_of keys (members_of e.2 nodes)) as Hgroups.
  { intros g. unfold gs, key_groups.
    rewrite elem_of_concat_zip_with. split.
    - intros (i & e & nodess & He & Hn & Hg).
      apply list_elem_of_fmap in Hg as (c & -> & Hc).
      apply elem_of_kept_components in Hc as (nodes & Hin & Hl & ->).
      by exists i, e, nodess, nodes.
    - intros (i & e & nodess & nodes & He & Hn & Hin & Hl & ->).
      exists i, e, nodess. split_and!; [done..|].
      apply list_elem_of_fmap_2, elem_of_kept_components.
      by exists nodes. }
  assert (∀ i e nodess, clusters !! i = Some e → nss !! i = Some nodess →
            found_components (graph e.2) (length e.2) nodess) as Hfound.
  { intros i e nodess He Hn. by eapply (Forall2_lookup_lr _ _ _ _ _ _ Hall). }
  (* every key with a number is a node with a neighbour *)
  assert (∀ k L, get k m = Some L →
            ∃ e x, e ∈ clusters ∧ x < length e.2
                   ∧ neighbours (graph e.2) x ≠ ∅
                   ∧ k = key_of keys e.2 x) as Hlabelled.
  { intros k L (j & g & Hj & Hk & _)%Hlook.
    apply list_elem_of_lookup_2, Hgroups in Hj
      as (i & e & nodess & nodes & He & Hn & Hin & Hl & ->).
    apply elem_of_component_keys in Hk as (y & Hy & ->).
    destruct (found_component_large _ _ _ _ y (Hfound _ _ _ He Hn) Hin Hl Hy)
      as (Hylt & Hyn & _).
    exists e, y. split_and!; try done. by eapply list_elem_of_lookup_2. }
  split; [|exact Hlabelled].
  intros e x He Hx. split.
  - intros Hiso. destruct (get (key_of keys e.2 x) m) as [L|] eqn:Hm; [|done].
    destruct (Hlabelled _ _ Hm) as (e' & x' & He' & Hx' & Hne & Heq).
    destruct (key_of_inj e e' x x') as [<- <-]; done.
  - intros Hne. pose proof He as He0.
    apply list_elem_of_lookup in He as [i He].
    destruct (Forall2_lookup_l _ _ _ _ _ Hall He) as (nodess & Hn & Hf).
    destruct (found_component_of _ _ _ x (graph_irreflexive _) Hf Hx Hne)
      as (nodes & Hin & Hxn & Hl & Hcomp).
    assert (keys_of keys (members_of e.2 nodes) ∈ gs) as Hg.
    { apply Hgroups. by exists i, e, nodess, nodes. }
    apply list_elem_of_lookup in Hg as [j Hj].
    exists (lab (Nat.iter (S j) next c0)). split.
    + apply Hlook. exists j, (keys_of keys (members_of e.2 nodes)).
      split_and!; [done| |done].
      apply elem_of_component_keys. by exists x.
    + intros k. rewrite Hlook. split.
      * intros (j' & g' & Hj' & Hk & <-%lab_inj).
        rewrite Hj in Hj'. injection Hj' as <-.
        apply elem_of_component_keys in Hk as (y & Hy & ->).
        exists y. split; [|done].
        destruct Hcomp as (_ & _ & Hchar). by apply (Hchar x Hxn).
      * intros (y & Hy & ->).
        exists j, (keys_of keys (members_of e.2 nodes)).
        split_and!; [done| |done].
        apply elem_of_component_keys. exists y. split; [|done].
        destruct Hcomp as (_ & _ & Hchar). by apply (Hchar x Hxn).
Qed.
End ComponentGroups.

Section Stage1Verified.
Context {embeddings : Type}.
Variable hdbscan_fit_predict : hdbscan_params → embeddings → list Z.
Variable set_iter : gset nat → list nat.
Hypothesis set_iter_perm : ∀ s, set_iter s ≡ₚ elements s.

(** The verified assignment of Stage 1 for a threshold. *)
Definition verified_groups (bi : list text → embeddings)
    (ce : list (text * text) → list Q) (mcs : Z) (threshold : Q)
    (qwi : list (nat * question)) (m : gmap nat string) : Prop :=
  grouped_by_components (λ k (m : gmap nat string), m !! k)
    (stage1_original_indices qwi)
    (stage1_clusters hdbscan_fit_predict bi mcs qwi)
    (stage1_graph ce threshold (stage1_valid_texts qwi)) m.

Lemma find_similarity_groups_verified qwi bi ce mcs threshold :
  NoDup qwi.*1 →
  2 ≤ length (valid_rows qwi) →
  length (stage1_cluster_labels hdbscan_fit_predict bi mcs qwi)
    = length (stage1_valid_texts qwi) →
  ∃ m,
    result (find_similarity_groups hdbscan_fit_predict set_iter qwi bi
              (Some ce) mcs threshold true) = Ok m
    ∧ verified_groups bi ce mcs threshold qwi m.
Proof.
  intros Hnd Hrows Hlen.
  destruct (find_similarity_groups_run hdbscan_fit_predict set_iter
              set_iter_perm qwi bi ce mcs threshold Hrows Hlen)
    as (nss & Hall & Hres).
  eexists. split; [exact Hres|].
  unfold verified_groups, stage1_clusters.
  apply (key_groups_grouped S sim_group_label
           (λ k (m : gmap nat string), m !! k) gmap_set gmap_get_set 0 ∅).
  - intros k. apply lookup_empty.
  - intros i j Heq%sim_group_label_inj. rewrite !iter_S in Heq. lia.
  - by apply NoDup_stage1_original_indices.
  - intros e p He Hp. rewrite stage1_lengths.
    by eapply stage1_clusters_below.
  - intros ms y. apply stage1_graph_irreflexive.
  - exact Hall.
Qed.
End Stage1Verified.

(** ** Scores and edges *)

Lemma scored_pairs_lookup {B} (pairs : list (nat * nat)) (scores : list B)
    x y :
  NoDup pairs → length scores = length pairs → (x, y) ∈ pairs →
  ∃ s, dict_get (x, y) (zip pairs scores) = Some s
       ∧ ∀ s', (x, y, s') ∈ zip pairs scores ↔ s' = s.
Proof.
  intros Hnd Hlen Hin.
  assert (dict_keys (zip pairs scores) = pairs) as Hkeys.
  { unfold dict_keys. apply fst_zip. lia. }
  destruct (dict_get (x, y) (zip pairs scores)) as [s|] eqn:Hget.
  - exists s. split; [done|]. intros s'.
    rewrite (elem_of_dict (x, y) s' (zip pairs scores)) by by rewrite Hkeys.
    rewrite Hget. naive_solver.
  - apply dict_get_None in Hget. by rewrite Hkeys in Hget.
Qed.

Lemma Qle_bool_trans t1 t2 s :
  (t1 <= t2)%Q → Qle_bool t2 s = true → Qle_bool t1 s = true.
Proof.
  rewrite !Qle_bool_iff. intros H1 H2. by eapply Qle_trans.
Qed.

Lemma accepted_mono t1 t2 scored x y :
  (t1 <= t2)%Q → accepted t2 scored x y → accepted t1 scored x y.
Proof.
  intros Ht (s & Hs & Hle). exists s. split; [done|].
  by eapply Qle_bool_trans.
Qed.

Lemma stage1_graph_mono ce t1 t2 valid_texts members x y :
  (t1 <= t2)%Q →
  adj_step (stage1_graph ce t2 valid_texts members) x y →
  adj_step (stage1_graph ce t1 valid_texts members) x y.
Proof.
  unfold stage1_graph. rewrite !build_adjacency_step. apply accepted_mono.
Qed.

Lemma stage1_graph_below ce threshold valid_texts members x y :
  adj_step (stage1_graph ce threshold valid_texts members) x y →
  x ≠ y ∧ x < length members ∧ y < length members.
Proof.
  intros Hstep. split.
  - intros ->. by eapply stage1_graph_irreflexive.
  - eapply build_adjacency_below; [|exact Hstep].
    apply zip_pairs_below. intros i j. by rewrite elem_of_all_pairs.
Qed.

(** With one score per pair, the edges of the Stage 1 graph are the pairs
    whose score is at least the threshold. *)
Lemma stage1_graph_edge ce threshold valid_texts members x y :
  (∀ pairs, length (ce pairs) = length pairs) →
  x < y < length members →
  ∃ s, dict_get (x, y) (stage1_scored ce valid_texts members) = Some s
       ∧ (adj_step (stage1_graph ce threshold valid_texts members) x y
          ↔ (threshold <= s)%Q)
       ∧ (adj_step (stage1_graph ce threshold valid_texts members) y x
          ↔ (threshold <= s)%Q).
Proof.
  intros Hce Hxy. unfold stage1_graph, stage1_scored.
  set (pairs := all_pairs (length members)).
  set (scores := ce _).
  destruct (scored_pairs_lookup pairs scores x y) as (s & Hget & Huniq).
  { apply NoDup_all_pairs. }
  { unfold scores, text_pairs. by rewrite Hce, length_fmap. }
  { by apply elem_of_all_pairs. }
  assert (∀ s', (y, x, s') ∉ zip pairs scores) as Hrev.
  { intros s' Hin%elem_of_zip_l%elem_of_all_pairs. lia. }
  exists s. split; [done|].
  rewrite !build_adjacency_step. unfold accepted.
  setoid_rewrite Qle_bool_iff. split; split.
  - intros (s' & [Hin|Hin] & Hle); [|by apply Hrev in Hin].
    by apply Huniq in Hin as ->.
  - intros Hle. exists s. split; [|done]. left. by apply Huniq.
  - intros (s' & [Hin|Hin] & Hle); [by apply Hrev in Hin|].
    by apply Huniq in Hin as ->.
  - intros Hle. exists s. split; [|done]. right. by apply Huniq.
Qed.

(** The position of a pair in the list of pairs is the position of its
    score. *)
Lemma scored_pairs_position {B} (pairs : list (nat * nat)) (scores : list B)
    x y :
  NoDup pairs → length scores = length pairs → (x, y) ∈ pairs →
  ∃ k s, pairs !! k = Some (x, y) ∧ scores !! k = Some s
         ∧ dict_get (x, y) (zip pairs scores) = Some s.
Proof.
  intros Hnd Hlen Hin.
  apply list_elem_of_lookup in Hin as [k Hk].
  destruct (lookup_lt_is_Some_2 scores k) as [s Hs].
  { rewrite Hlen. by eapply lookup_lt_Some. }
  exists k, s. split_and!; [done..|].
  apply elem_of_dict.
  { unfold dict_keys. rewrite fst_zip by lia. done. }
  apply list_elem_of_lookup. exists k.
  apply lookup_zip_with_Some. by exists (x, y), s.
Qed.

(** The pairs of texts of a cluster, read from the texts of the rows. *)
Lemma text_pairs_members (texts : list text) (members : list nat)
    (positions : list (nat * nat)) :
  (∀ i j, (i, j) ∈ positions → i < length members ∧ j < length members) →
  text_pairs ((λ i, texts !!! i) <$> members) positions
  = (λ p : nat * nat,
       (texts !!! (members !!! p.1), texts !!! (members !!! p.2)))
    <$> positions.
Proof.
  intros Hpos. unfold text_pairs. apply list_fmap_ext.
  intros k [i j] Hk. simpl.
  destruct (Hpos i j) as [Hi Hj]; [by eapply list_elem_of_lookup_2|].
  by rewrite (list_lookup_total_fmap (λ i, texts !!! i) members i Hi),
    (list_lookup_total_fmap (λ i, texts !!! i) members j Hj).
Qed.

(** The score that decides the edge between two members of a cluster of
    Stage 1 is the one the scorer returns at the position of the pair of
    their texts. *)
Lemma stage1_graph_score ce threshold valid_texts members x y :
  (∀ pairs, length (ce pairs) = length pairs) →
  x < y < length members →
  let pairs :=
    (λ p : nat * nat,
       (valid_texts !!! (members !!! p.1), valid_texts !!! (members !!! p.2)))
    <$> all_pairs (length members) in
  ∃ k s,
    pairs !! k = Some (valid_texts !!! (members !!! x),
                       valid_texts !!! (members !!! y))
    ∧ ce pairs !! k = Some s
    ∧ (adj_step (stage1_graph ce threshold valid_texts members) x y
       ↔ (threshold <= s)%Q)
    ∧ (adj_step (stage1_graph ce threshold valid_texts members) y x
       ↔ (threshold <= s)%Q).
Proof.
  intros Hce Hxy pairs.
  destruct (stage1_graph_edge ce threshold valid_texts members x y Hce Hxy)
    as (s & Hget & Hxy' & Hyx').
  unfold stage1_scored in Hget. cbv zeta in Hget.
  rewrite text_pairs_members in Hget
    by (intros i j Hij%elem_of_all_pairs; lia).
  fold pairs in Hget.
  destruct (scored_pairs_position (all_pairs (length members)) (ce pairs)
              x y) as (k & s' & Hk & Hs & Hget').
  { apply NoDup_all_pairs. }
  { unfold pairs. by rewrite Hce, length_fmap. }
  { by apply elem_of_all_pairs. }
  assert (s' = s) as -> by congruence.
  exists k, s. split_and!; [|done..].
  unfold pairs. by rewrite list_lookup_fmap, Hk.
Qed.

(** A set has two elements or more exactly when it has two different
    elements. *)
Lemma size_two_elements (s : gset Z) :
  2 ≤ size s ↔ ∃ a b, a ≠ b ∧ a ∈ s ∧ b ∈ s.
Proof.
  split.
  - intros Hsize.
    destruct (elements s) as [|a [|b l]] eqn:He.
    + apply elements_empty_inv in He. apply leibniz_equiv in He.
      subst. rewrite size_empty in Hsize. lia.
    + unfold size, set_size in Hsize. simpl in Hsize.
      rewrite He in Hsize. simpl in Hsize. lia.
    + pose proof (NoDup_elements s) as Hnd. rewrite He in Hnd.
      exists a, b. split_and!.
      * intros ->. apply NoDup_cons in Hnd as [Hnd _]. set_solver.
      * apply elem_of_elements. rewrite He. set_solver.
      * apply elem_of_elements. rewrite He. set_solver.
  - intros (a & b & Hne & Ha & Hb).
    assert (({[a; b]} : gset Z) ⊆ s) as Hsub by set_solver.
    apply subseteq_size in Hsub.
    rewrite size_union in Hsub by set_solver.
    by rewrite !size_singleton in Hsub.
Qed.

(** [len(set(d.values())) > 1]: two entries have different values. *)
Lemma distinct_values_gt_one (d : list (nat * Z)) :
  1 < distinct_values d
  ↔ ∃ k k' v v', (k, v) ∈ d ∧ (k', v') ∈ d ∧ v ≠ v'.
Proof.
  unfold distinct_values, dict_values.
  change (1 < ?n) with (2 ≤ n). rewrite size_two_elements. split.
  - intros (a & b & Hne & Ha & Hb).
    apply elem_of_list_to_set, list_elem_of_fmap in Ha as ([k v] & -> & Ha).
    apply elem_of_list_to_set, list_elem_of_fmap in Hb as ([k' v'] & -> & Hb).
    by exists k, k', v, v'.
  - intros (k & k' & v & v' & Hv & Hv' & Hne). exists v, v'.
    split_and!; [done| |]; apply elem_of_list_to_set, list_elem_of_fmap.
    + by exists (k, v).
    + by exists (k', v').
Qed.

Section Stage1Claims.
Context {embeddings : Type}.
Variable hdbscan_fit_predict : hdbscan_params → embeddings → list Z.
Variable set_iter : gset nat → list nat.
Hypothesis set_iter_perm : ∀ s, set_iter s ≡ₚ elements s.

(** C6.  With the same candidate clusters and scores, every group found
    with the higher threshold lies inside one group found with the lower
    threshold. *)
Theorem stage1_threshold_monotone qwi bi ce mcs t1 t2 :
  NoDup qwi.*1 →
  2 ≤ length (valid_rows qwi) →
  length (stage1_cluster_labels hdbscan_fit_predict bi mcs qwi)
    = length (stage1_valid_texts qwi) →
  (t1 <= t2)%Q →
  ∃ m1 m2,
    result (find_similarity_groups hdbscan_fit_predict set_iter qwi bi
              (Some ce) mcs t1 true) = Ok m1
    ∧ result (find_similarity_groups hdbscan_fit_predict set_iter qwi bi
                (Some ce) mcs t2 true) = Ok m2
    ∧ ∀ k L2, m2 !! k = Some L2 →
        ∃ L1, ∀ k', m2 !! k' = Some L2 → m1 !! k' = Some L1.
Proof.
  intros Hnd Hrows Hlen Ht.
  destruct (find_similarity_groups_verified hdbscan_fit_predict set_iter
              set_iter_perm qwi bi ce mcs t1 Hnd Hrows Hlen)
    as (m1 & Hres1 & Hm1 & _).
  destruct (find_similarity_groups_verified hdbscan_fit_predict set_iter
              set_iter_perm qwi bi ce mcs t2 Hnd Hrows Hlen)
    as (m2 & Hres2 & Hm2 & Hlab2).
  exists m1, m2. split_and!; [done..|].
  intros k L2 Hk.
  destruct (Hlab2 k L2 Hk) as (e & x & He & Hx & Hne2 & ->).
  destruct (Hm2 e x He Hx) as [_ Hgroup2].
  destruct (Hgroup2 Hne2) as (L2' & HL2 & Hchar2).
  assert (L2' = L2) as -> by congruence.
  destruct (Hm1 e x He Hx) as [_ Hgroup1].
  assert (neighbours (stage1_graph ce t1 (stage1_valid_texts qwi) e.2) x
          ≠ ∅) as Hne1.
  { apply set_choose_L in Hne2 as [y Hy].
    apply (stage1_graph_mono ce t1 t2) in Hy; [|done].
    intros He1. unfold adj_step in Hy. rewrite He1 in Hy.
    by apply elem_of_empty in Hy. }
  destruct (Hgroup1 Hne1) as (L1 & HL1 & Hchar1).
  exists L1. intros k' (y & Hy & ->)%Hchar2. apply Hchar1.
  exists y. split; [|done].
  eapply rtc_subrel; [|exact Hy].
  intros a b. by apply stage1_graph_mono.
Qed.
End Stage1Claims.

(** ** A small collection: five questions in two candidate clusters *)

Definition example_question (t : text) : question :=
  {| success := true; data := Some {[ "question_text" := t ]};
     similarity_group_id := None |}.

(** The texts A, B, C, D and E. *)
Definition example_questions : list question :=
  example_question <$> [[65]; [66]; [67]; [68]; [69]]%N.

(** A clusterer that puts the first three texts in one cluster and the
    other two in a second one. *)
Definition example_hdbscan (p : hdbscan_params) (e : list text) : list Z :=
  take (length e) [0; 0; 0; 1; 1]%Z.

(** A scorer that finds every pair similar except A and C. *)
Definition example_cross_encoder (pairs : list (text * text)) : list Q :=
  (λ p : text * text,
     if decide (p = ([65]%N, [67]%N)) then (1 # 2)%Q else (9 # 10)%Q)
  <$> pairs.

Lemma example_cross_encoder_length pairs :
  length (example_cross_encoder pairs) = length pairs.
Proof. unfold example_cross_encoder. by rewrite length_fmap. Qed.

Lemma elements_perm (s : gset nat) : elements s ≡ₚ elements s.
Proof. done. Qed.

Lemma stage1_threshold_monotone_witness :
  ∃ m1 m2,
    result (find_similarity_groups example_hdbscan elements
              (enumerate example_questions) id
              (Some example_cross_encoder) 2 (7 # 10) true) = Ok m1
    ∧ result (find_similarity_groups example_hdbscan elements
                (enumerate example_questions) id
                (Some example_cross_encoder) 2 (95 # 100) true) = Ok m2
    ∧ ∀ k L2, m2 !! k = Some L2 →
        ∃ L1, ∀ k', m2 !! k' = Some L2 → m1 !! k' = Some L1.
Proof.
  apply (stage1_threshold_monotone example_hdbscan elements elements_perm
           (enumerate example_questions) id example_cross_encoder 2
           (7 # 10) (95 # 100)).
  - compute_done.
  - vm_compute. lia.
  - by vm_compute.
  - by vm_compute.
Defined.

(** ** Stage 1 without the cross-encoder, and Stage 1 as a whole *)

(** Every label of the assignment is carried by two keys or more. *)
Definition map_min_group_size (m : gmap nat string) : Prop :=
  ∀ k L, m !! k = Some L → ∃ k', k' ≠ k ∧ m !! k' = Some L.

Lemma NoDup_concat_fmap_filter (keys : list nat) (groups : list (list nat)) :
  NoDup keys → NoDup (concat groups) →
  (∀ p, p ∈ concat groups → p < length keys) →
  NoDup (concat (keys_of keys <$> filter (λ c, 2 ≤ length c) groups)).
Proof.
  intros Hk Hg Hb. unfold keys_of. rewrite concat_fmap_fmap.
  pose proof (sublist_concat_filter (λ c : list nat, 2 ≤ length c) groups)
    as Hsub.
  apply NoDup_fmap_2_strong.
  - intros p p' Hp Hp'.
    apply lookup_total_inj; [done|apply Hb..]; by eapply elem_of_sublist.
  - by eapply sublist_NoDup.
Qed.

Lemma NoDup_concat_elem {A} (ls : list (list A)) l :
  NoDup (concat ls) → l ∈ ls → NoDup l.
Proof.
  intros Hnd Hl. induction Hl as [l ls|l l' ls _ IH]; simpl in Hnd;
    apply NoDup_app in Hnd as (? & _ & ?); auto.
Qed.

(** The assignment written for a list of pairwise disjoint groups of two
    or more keys. *)
Lemma assigned_groups_min_size (gs : list (list nat)) :
  NoDup (concat gs) → Forall (λ g, 2 ≤ length g) gs →
  map_min_group_size
    (foldl (assign_group S sim_group_label gmap_set) (0, ∅) gs).2
  ∧ ∀ k, is_Some ((foldl (assign_group S sim_group_label gmap_set)
                     (0, ∅) gs).2 !! k) → k ∈ concat gs.
Proof.
  intros Hnd Hbig.
  assert (∀ k L, (foldl (assign_group S sim_group_label gmap_set)
                    (0, ∅) gs).2 !! k = Some L
                 ↔ ∃ i g, gs !! i = Some g ∧ k ∈ g
                          ∧ L = sim_group_label (Nat.iter (S i) S 0))
    as Hlook.
  { intros k L.
    rewrite (assign_groups_lookup S sim_group_label
               (λ k (d : gmap nat string), d !! k) gmap_set
               gmap_get_set _ _ _ _ Hnd).
    cbn [fst snd]. rewrite lookup_empty. naive_solver. }
  split.
  - intros k L (i & g & Hi & Hk & ->)%Hlook.
    assert (g ∈ gs) as Hg by by eapply list_elem_of_lookup_2.
    rewrite Forall_forall in Hbig.
    destruct (two_elements g k) as (k' & Hk' & Hne);
      [by eapply NoDup_concat_elem|by apply Hbig|done|].
    exists k'. split; [done|]. apply Hlook. by exists i, g.
  - intros k [L (i & g & Hi & Hk & _)%Hlook].
    apply elem_of_concat. exists g. split; [done|].
    by eapply list_elem_of_lookup_2.
Qed.

Section Stage1Total.
Context {embeddings : Type}.
Variable hdbscan_fit_predict : hdbscan_params → embeddings → list Z.
Variable set_iter : gset nat → list nat.
Hypothesis set_iter_perm : ∀ s, set_iter s ≡ₚ elements s.

Lemma stage1_unverified_run original_indices clusters st :
  Forall (λ e : Z * list nat,
            Forall (λ p, p < length original_indices) e.2) clusters →
  result (for_each (stage1_cluster_unverified original_indices)
            clusters st)
  = Ok (foldl (assign_group S sim_group_label gmap_set) st
          (keys_of original_indices
           <$> filter (λ c, 2 ≤ length c) clusters.*2)).
Proof.
  intros Hall. revert st. induction Hall as [|e clusters He _ IH];
    intros st; [done|].
  cbn [for_each]. unfold stage1_cluster_unverified at 1.
  rewrite fmap_cons, filter_cons. case_decide as Hlen.
  - rewrite (bind_ok _ _ _
               (stage1_on_component_pure original_indices st e.2 He)).
    rewrite IH. by rewrite fmap_cons.
  - rewrite (bind_ok _ _ st) by done. apply IH.
Qed.

Lemma verified_groups_min_size qwi bi ce mcs threshold m :
  NoDup qwi.*1 →
  length (stage1_cluster_labels hdbscan_fit_predict bi mcs qwi)
    = length (stage1_valid_texts qwi) →
  verified_groups hdbscan_fit_predict bi ce mcs threshold qwi m →
  map_min_group_size m
  ∧ ∀ k, is_Some (m !! k) → k ∈ stage1_original_indices qwi.
Proof.
  intros Hnd Hlen [Hm Hlab].
  assert (∀ (e : Z * list nat) p,
            e ∈ stage1_clusters hdbscan_fit_predict bi mcs qwi →
            p ∈ e.2 → p < length (stage1_original_indices qwi)) as Hb.
  { intros e p He Hp. rewrite stage1_lengths.
    by eapply stage1_clusters_below. }
  split.
  - intros k L Hk. destruct (Hlab k L Hk) as (e & x & He & Hx & Hne & ->).
    destruct (Hm e x He Hx) as [_ Hgroup].
    destruct (Hgroup Hne) as (L' & HL & Hchar).
    assert (L' = L) as -> by congruence.
    apply set_choose_L in Hne as [y Hy].
    destruct (stage1_graph_below _ _ _ _ _ _ Hy) as (Hxy & _ & Hylt).
    exists (key_of (stage1_original_indices qwi) e.2 y). split.
    + intros Heq.
      destruct (key_of_inj
                  (stage1_cluster_labels hdbscan_fit_predict bi mcs qwi)
                  (stage1_original_indices qwi)
                  (NoDup_stage1_original_indices qwi Hnd) Hb
                  e e y x He He Hylt Hx Heq) as [_ ->].
      done.
    + apply Hchar. exists y. split; [by apply rtc_once|done].
  - intros k [L Hk]. destruct (Hlab k L Hk) as (e & x & He & Hx & _ & ->).
    apply list_elem_of_lookup_total_2. apply (Hb e); [done|].
    by apply list_elem_of_lookup_total_2.
Qed.

Lemma stage1_clusters_in_range bi mcs qwi :
  length (stage1_cluster_labels hdbscan_fit_predict bi mcs qwi)
    = length (stage1_valid_texts qwi) →
  Forall (λ e : Z * list nat,
            Forall (λ p, p < length (stage1_original_indices qwi)) e.2)
         (stage1_clusters hdbscan_fit_predict bi mcs qwi).
Proof.
  intros Hlen. apply Forall_forall. intros e He. apply Forall_forall.
  intros p Hp. rewrite stage1_lengths. by eapply stage1_clusters_below.
Qed.

Lemma unverified_groups_min_size bi mcs qwi :
  NoDup qwi.*1 →
  length (stage1_cluster_labels hdbscan_fit_predict bi mcs qwi)
    = length (stage1_valid_texts qwi) →
  map_min_group_size
    (foldl (assign_group S sim_group_label gmap_set) (0, ∅)
       (keys_of (stage1_original_indices qwi)
        <$> filter (λ c, 2 ≤ length c)
              (stage1_clusters hdbscan_fit_predict bi mcs qwi).*2)).2
  ∧ ∀ k, is_Some
           ((foldl (assign_group S sim_group_label gmap_set) (0, ∅)
               (keys_of (stage1_original_indices qwi)
                <$> filter (λ c, 2 ≤ length c)
                      (stage1_clusters hdbscan_fit_predict bi mcs
                         qwi).*2)).2 !! k) →
         k ∈ stage1_original_indices qwi.
Proof.
  intros Hnd Hlen.
  set (clusters := stage1_clusters hdbscan_fit_predict bi mcs qwi).
  set (orig := stage1_original_indices qwi).
  assert (∀ p, p ∈ concat clusters.*2 → p < length orig) as Hb.
  { intros p (ms & Hp & (e & -> & He)%list_elem_of_fmap)%elem_of_concat.
    unfold orig. rewrite stage1_lengths. by eapply stage1_clusters_below. }
  destruct (assigned_groups_min_size
              (keys_of orig <$> filter (λ c, 2 ≤ length c) clusters.*2))
    as [Hmin Hkeys].
  - apply NoDup_concat_fmap_filter; [|by eapply grouped_NoDup,
      group_clusters_grouped|done].
    by apply NoDup_stage1_original_indices.
  - apply Forall_forall. intros g (c & -> & Hc)%list_elem_of_fmap.
    apply list_elem_of_filter in Hc as [Hc _].
    unfold keys_of. by rewrite length_fmap.
  - split; [done|]. intros k Hk%Hkeys.
    apply elem_of_concat in Hk as (g & Hk & (c & -> & Hc)%list_elem_of_fmap).
    apply list_elem_of_fmap in Hk as (p & -> & Hp).
    apply list_elem_of_lookup_total_2, Hb, elem_of_concat.
    exists c. split; [done|]. by apply list_elem_of_filter in Hc as [_ ?].
Qed.

(** Stage 1 always returns an assignment when the clusterer gives one
    label per text, whichever way it is called. *)
Lemma find_similarity_groups_total qwi bi cross_encoder mcs threshold
    use_cross_encoder :
  NoDup qwi.*1 →
  length (stage1_cluster_labels hdbscan_fit_predict bi mcs qwi)
    = length (stage1_valid_texts qwi) →
  ∃ m,
    result (find_similarity_groups hdbscan_fit_predict set_iter qwi bi
              cross_encoder mcs threshold use_cross_encoder) = Ok m
    ∧ map_min_group_size m
    ∧ ∀ k, is_Some (m !! k) → k ∈ stage1_original_indices qwi.
Proof.
  intros Hnd Hlen.
  assert (map_min_group_size ∅
          ∧ ∀ k, is_Some ((∅ : gmap nat string) !! k) →
                 k ∈ stage1_original_indices qwi) as Hempty.
  { split; [by intros k L ?|]. intros k [L HL].
    by rewrite lookup_empty in HL. }
  destruct (decide (length (valid_rows qwi) < 2)) as [Hrows|Hrows].
  { exists ∅. split; [|done]. unfold find_similarity_groups.
    destruct qwi; [done|]. by rewrite decide_True. }
  destruct use_cross_encoder, cross_encoder as [ce|].
  { destruct (find_similarity_groups_verified hdbscan_fit_predict set_iter
                set_iter_perm qwi bi ce mcs threshold Hnd) as (m & Hres & Hm);
      [lia|done|].
    exists m. split; [done|]. by eapply verified_groups_min_size. }
  all: assert (length (valid_rows qwi) ≠ 0) as Hne by lia.
  all: assert (∃ m,
      result (st <- for_each
                      (stage1_cluster_unverified
                         (stage1_original_indices qwi))
                      (stage1_clusters hdbscan_fit_predict bi mcs qwi)
                      (0, ∅) ;; ret st.2) = Ok m
      ∧ map_min_group_size m
      ∧ ∀ k, is_Some (m !! k) → k ∈ stage1_original_indices qwi)
    as (m & Hres & Hm).
  1,3,5: (
    rewrite (bind_ok _ _ _
               (stage1_unverified_run (stage1_original_indices qwi)
                  (stage1_clusters hdbscan_fit_predict bi mcs qwi) (0, ∅)
                  (stage1_clusters_in_range bi mcs qwi Hlen)));
    eexists; split; [reflexivity|];
    apply (unverified_groups_min_size bi mcs qwi Hnd Hlen)).
  all: exists m; split; [|done].
  all: unfold find_similarity_groups.
  all: destruct qwi as [|q0 qwi0] eqn:Hq; [done|]; rewrite <-Hq in *.
  all: rewrite decide_False by lia.
  all: rewrite (bind_ok _ _ _ (result_encode _ _)).
  all: rewrite (bind_ok _ _ _ (result_fit_predict _ _ _)).
  all: exact Hres.
Qed.
End Stage1Total.

(** ** [run_stage1] *)

(** The records [run_stage1] passes on: successful ones with a payload. *)
Definition stage1_candidates (questions : list question)
    : list (nat * question) :=
  filter (λ e : nat * question, success e.2 && data_truthy e.2)
         (enumerate questions).

(** The loop that writes the assignment onto the records. *)
Definition relabel (similarity_map : gmap nat string)
    (questions : list question) : list question :=
  (λ e : nat * question, set_group_id (similarity_map !! e.1) e.2)
  <$> enumerate questions.

(** A record that takes part in the grouping: successful, with a payload
    and a text that is not blank. *)
Definition eligible (q : question) : bool :=
  success q && data_truthy q
  && bool_decide (strip (get_question_text q) ≠ []).

(** The invariant of the labels: every label on a record is on another
    record as well. *)
Definition min_group_size (questions : list question) : Prop :=
  ∀ i q L, questions !! i = Some q → get_group_id q = Some L →
    ∃ j q', j ≠ i ∧ questions !! j = Some q' ∧ get_group_id q' = Some L.

Lemma lookup_enumerate_from {A} n (l : list A) i :
  enumerate_from n l !! i = (λ x, (n + i, x)) <$> l !! i.
Proof.
  revert n i. induction l as [|x l IH]; intros n [|i]; simpl; try done.
  - by rewrite Nat.add_0_r.
  - rewrite IH. by replace (S n + i) with (n + S i) by lia.
Qed.

Lemma lookup_relabel m questions i :
  relabel m questions !! i = set_group_id (m !! i) <$> questions !! i.
Proof.
  unfold relabel, enumerate. rewrite list_lookup_fmap, lookup_enumerate_from.
  by destruct (questions !! i).
Qed.

Lemma length_relabel m questions :
  length (relabel m questions) = length questions.
Proof.
  unfold relabel, enumerate. by rewrite length_fmap, length_enumerate_from.
Qed.

Lemma relabel_empty questions :
  relabel ∅ questions = set_group_id None <$> questions.
Proof.
  apply list_eq. intros i. rewrite lookup_relabel, list_lookup_fmap.
  by rewrite lookup_empty.
Qed.

Lemma elem_of_stage1_candidates questions i q :
  (i, q) ∈ stage1_candidates questions
  ↔ questions !! i = Some q ∧ success q && data_truthy q = true.
Proof.
  unfold stage1_candidates. rewrite list_elem_of_filter, elem_of_enumerate.
  simpl. rewrite Is_true_true. naive_solver.
Qed.

Lemma NoDup_stage1_candidates questions :
  NoDup (stage1_candidates questions).*1.
Proof.
  apply NoDup_fmap_2_strong.
  - intros [i q] [i' q'] [Hq _]%elem_of_stage1_candidates
      [Hq' _]%elem_of_stage1_candidates. simpl. intros <-. congruence.
  - apply NoDup_filter, NoDup_enumerate_from.
Qed.

Lemma length_valid_rows qwi :
  length (valid_rows qwi)
  = length (filter (λ e : nat * question,
                      strip (get_question_text e.2) ≠ []) qwi).
Proof.
  unfold valid_rows, enumerate. generalize 0.
  induction qwi as [|[idx q] qwi IH]; intros n; [done|].
  csimpl. rewrite !filter_cons. simpl.
  case_decide; simpl; by rewrite IH.
Qed.

Lemma length_filter_enumerate_from {A} (P : A → Prop)
    `{∀ x, Decision (P x)} n (l : list A) :
  length (filter (λ e : nat * A, P e.2) (enumerate_from n l))
  = length (filter P l).
Proof.
  revert n. induction l as [|x l IH]; intros n; [done|].
  simpl. rewrite !filter_cons. simpl. case_decide; simpl; by rewrite IH.
Qed.

Lemma length_stage1_rows questions :
  length (valid_rows (stage1_candidates questions))
  = length (filter (λ q, eligible q) questions).
Proof.
  rewrite length_valid_rows. unfold stage1_candidates.
  rewrite list_filter_filter.
  rewrite <-(length_filter_enumerate_from (λ q, eligible q) 0 questions).
  f_equal. apply list_filter_iff. intros [i q]. simpl. unfold eligible.
  rewrite !andb_True, bool_decide_spec. tauto.
Qed.

Section RunStage1.
Context {embeddings : Type}.
Variable hdbscan_fit_predict : hdbscan_params → embeddings → list Z.
Variable set_iter : gset nat → list nat.
Hypothesis set_iter_perm : ∀ s, set_iter s ≡ₚ elements s.

Lemma run_stage1_result questions bi cross_encoder mcs threshold use :
  result (run_stage1 hdbscan_fit_predict set_iter questions bi
            cross_encoder mcs threshold use)
  = match result (find_similarity_groups hdbscan_fit_predict set_iter
                    (stage1_candidates questions) bi cross_encoder mcs
                    threshold use) with
    | Ok m => Ok (relabel m questions, tt)
    | IndexError => IndexError
    | OutOfFuel => OutOfFuel
    end.
Proof.
  unfold run_stage1. rewrite !result_emit_bind, result_bind.
  fold (stage1_candidates questions).
  by destruct (result (find_similarity_groups _ _ _ _ _ _ _ _)).
Qed.

Lemma find_similarity_groups_few_rows qwi bi cross_encoder mcs threshold
    use :
  length (valid_rows qwi) < 2 →
  find_similarity_groups hdbscan_fit_predict set_iter qwi bi cross_encoder
    mcs threshold use = ret ∅.
Proof.
  intros Hrows. unfold find_similarity_groups.
  destruct qwi; [done|]. by rewrite decide_True.
Qed.

Lemma relabel_min_group_size questions (m : gmap nat string) :
  map_min_group_size m →
  (∀ k, is_Some (m !! k) →
        k ∈ stage1_original_indices (stage1_candidates questions)) →
  min_group_size (relabel m questions).
Proof.
  intros Hmin Hkeys i q L Hq HL. rewrite lookup_relabel in Hq.
  destruct (questions !! i) as [q0|] eqn:Hq0; simplify_eq/=.
  destruct (Hmin i L HL) as (j & Hne & Hj).
  assert (is_Some (questions !! j)) as [q1 Hq1].
  { assert (j ∈ (stage1_candidates questions).*1) as Hj'.
    { apply stage1_original_indices_elem, Hkeys. by eexists. }
    apply list_elem_of_fmap in Hj' as ([j' q1] & -> & Hin).
    apply elem_of_stage1_candidates in Hin as [Hin _]. by eexists. }
  exists j, (set_group_id (m !! j) q1). split_and!; [done| |done].
  by rewrite lookup_relabel, Hq1.
Qed.
End RunStage1.

(** ** Stage 1 reads the records' content only *)

(** Two records that differ at most in their label. *)
Definition same_content (q q' : question) : Prop :=
  success q = success q' ∧ data q = data q'.

Lemma enumerate_from_fmap {A B} (h : A → B) n (l : list A) :
  enumerate_from n (h <$> l)
  = (λ e : nat * A, (e.1, h e.2)) <$> enumerate_from n l.
Proof.
  revert n. induction l as [|x l IH]; intros n; [done|].
  csimpl. by rewrite IH.
Qed.

Lemma filter_fmap_commute {A B} (f : A → B) (P : B → Prop) (Q : A → Prop)
    `{∀ x, Decision (P x)} `{∀ x, Decision (Q x)} (l : list A) :
  (∀ x, P (f x) ↔ Q x) → filter P (f <$> l) = f <$> filter Q l.
Proof.
  intros HPQ. induction l as [|x l IH]; [done|].
  csimpl. rewrite !filter_cons.
  destruct (decide (P (f x))) as [HP|HP], (decide (Q x)) as [HQ|HQ];
    csimpl; rewrite ?IH; try done; exfalso; naive_solver.
Qed.

Lemma stage1_candidates_fmap (h : question → question) questions :
  (∀ q, success (h q) = success q) → (∀ q, data (h q) = data q) →
  stage1_candidates (h <$> questions)
  = (λ e : nat * question, (e.1, h e.2)) <$> stage1_candidates questions.
Proof.
  intros Hs Hd. unfold stage1_candidates, enumerate.
  rewrite enumerate_from_fmap. apply filter_fmap_commute.
  intros [i q]. simpl. unfold data_truthy. by rewrite Hs, Hd.
Qed.

Lemma valid_rows_fmap (h : question → question) qwi :
  (∀ q, data (h q) = data q) →
  valid_rows ((λ e : nat * question, (e.1, h e.2)) <$> qwi) = valid_rows qwi.
Proof.
  intros Hd. unfold valid_rows. do 4 f_equal.
  - rewrite <-list_fmap_compose. by apply list_fmap_ext.
  - rewrite <-list_fmap_compose. apply list_fmap_ext. intros _ [i q] _. simpl.
    unfold get_question_text. by rewrite Hd.
Qed.

Section Stage1Content.
Context {embeddings : Type}.
Variable hdbscan_fit_predict : hdbscan_params → embeddings → list Z.
Variable set_iter : gset nat → list nat.

Lemma find_similarity_groups_fmap (h : question → question) qwi bi
    cross_encoder mcs threshold use :
  (∀ q, data (h q) = data q) →
  find_similarity_groups hdbscan_fit_predict set_iter
    ((λ e : nat * question, (e.1, h e.2)) <$> qwi) bi cross_encoder mcs
    threshold use
  = find_similarity_groups hdbscan_fit_predict set_iter qwi bi
      cross_encoder mcs threshold use.
Proof.
  intros Hd. unfold find_similarity_groups.
  rewrite (valid_rows_fmap h qwi Hd). by destruct qwi.
Qed.

Lemma run_stage1_erased questions bi cross_encoder mcs threshold use :
  run_stage1 hdbscan_fit_predict set_iter
    (set_group_id None <$> questions) bi cross_encoder mcs threshold use
  = run_stage1 hdbscan_fit_predict set_iter questions bi cross_encoder
      mcs threshold use.
Proof.
  unfold run_stage1. fold (stage1_candidates questions).
  fold (stage1_candidates (set_group_id None <$> questions)).
  rewrite (stage1_candidates_fmap (set_group_id None)) by done.
  rewrite length_fmap.
  rewrite (find_similarity_groups_fmap (set_group_id None)) by done.
  do 4 (apply bind_ext; intros _).
  apply bind_ext. intros m. apply bind_ext. intros _. do 2 f_equal.
  fold (relabel m questions).
  fold (relabel m (set_group_id None <$> questions)).
  apply list_eq. intros i.
  rewrite !lookup_relabel, list_lookup_fmap.
  by destruct (questions !! i).
Qed.

Lemma run_stage1_same_content questions questions' bi cross_encoder mcs
    threshold use :
  Forall2 same_content questions questions' →
  run_stage1 hdbscan_fit_predict set_iter questions' bi cross_encoder mcs
    threshold use
  = run_stage1 hdbscan_fit_predict set_iter questions bi cross_encoder mcs
      threshold use.
Proof.
  intros Hsame.
  rewrite <-(run_stage1_erased questions), <-(run_stage1_erased questions').
  f_equal. induction Hsame as [|q q' l l' [Hs Hd] _ IH]; [done|].
  csimpl. rewrite IH. f_equal. unfold set_group_id. by rewrite Hs, Hd.
Qed.
End Stage1Content.

(** ** Stage 1 on the whole collection *)

(** Seven records: the five texts (the first with a label left by an
    earlier run), a failed record and a record with a blank text. *)
Definition example_collection : list question :=
  [ {| success := true; data := Some {[ "question_text" := [65%N] ]};
       similarity_group_id := Some (Some "old") |};
    example_question [66%N]; example_question [67%N];
    example_question [68%N]; example_question [69%N];
    {| success := false; data := None; similarity_group_id := None |};
    example_question [32%N] ].

(** Three records, one of them eligible. *)
Definition example_small_collection : list question :=
  [ example_question [65%N];
    {| success := false; data := None; similarity_group_id := None |};
    example_question [32%N] ].

Section Stage1Collection.
Context {embeddings : Type}.
Variable hdbscan_fit_predict : hdbscan_params → embeddings → list Z.
Variable set_iter : gset nat → list nat.
Hypothesis set_iter_perm : ∀ s, set_iter s ≡ₚ elements s.

(** C5.  Stage 1 recomputes every label: each record ends with the one
    label the assignment of this run gives its position, or with the
    label cleared when the assignment has none for it, and what the
    records carried before has no influence on the run. *)
Theorem run_stage1_recomputes questions bi cross_encoder mcs threshold
    use :
  length (stage1_cluster_labels hdbscan_fit_predict bi mcs
            (stage1_candidates questions))
    = length (stage1_valid_texts (stage1_candidates questions)) →
  ∃ m,
    result (find_similarity_groups hdbscan_fit_predict set_iter
              (stage1_candidates questions) bi cross_encoder mcs threshold
              use) = Ok m
    ∧ result (run_stage1 hdbscan_fit_predict set_iter questions bi
                cross_encoder mcs threshold use)
      = Ok (relabel m questions, tt)
    ∧ (∀ i q, questions !! i = Some q →
         ∃ q', relabel m questions !! i = Some q'
               ∧ similarity_group_id q' = Some (m !! i)
               ∧ get_group_id q' = m !! i
               ∧ same_content q q')
    ∧ (∀ questions', Forall2 same_content questions questions' →
         run_stage1 hdbscan_fit_predict set_iter questions' bi
           cross_encoder mcs threshold use
         = run_stage1 hdbscan_fit_predict set_iter questions bi
             cross_encoder mcs threshold use).
Proof.
  intros Hlen.
  destruct (find_similarity_groups_total hdbscan_fit_predict set_iter
              set_iter_perm (stage1_candidates questions) bi cross_encoder
              mcs threshold use (NoDup_stage1_candidates questions) Hlen)
    as (m & Hres & _).
  exists m. split_and!; [done| | |].
  - by rewrite run_stage1_result, Hres.
  - intros i q Hq. exists (set_group_id (m !! i) q).
    rewrite lookup_relabel, Hq. by split_and!.
  - intros questions'. apply run_stage1_same_content.
Qed.

(** C8.  With fewer than two eligible records Stage 1 calls no model,
    returns the empty assignment and clears every label; it raises
    nothing. *)
Theorem stage1_insufficient_data questions bi cross_encoder mcs threshold
    use :
  length (filter (λ q, eligible q) questions) < 2 →
  find_similarity_groups hdbscan_fit_predict set_iter
    (stage1_candidates questions) bi cross_encoder mcs threshold use
    = ret ∅
  ∧ result (run_stage1 hdbscan_fit_predict set_iter questions bi
              cross_encoder mcs threshold use)
    = Ok (set_group_id None <$> questions, tt).
Proof.
  intros Hfew. rewrite <-length_stage1_rows in Hfew.
  pose proof (find_similarity_groups_few_rows hdbscan_fit_predict set_iter
                (stage1_candidates questions) bi cross_encoder mcs
                threshold use Hfew) as Hret.
  split; [done|].
  by rewrite run_stage1_result, Hret, <-relabel_empty.
Qed.

(** C9.  After Stage 1 every record has the label field: it holds the
    label of the assignment, and the absent value for a record outside
    every verified group, in particular for a record without the success
    flag or without a payload. *)
Theorem stage1_writes_every_label_field questions bi cross_encoder mcs
    threshold use :
  length (stage1_cluster_labels hdbscan_fit_predict bi mcs
            (stage1_candidates questions))
    = length (stage1_valid_texts (stage1_candidates questions)) →
  ∃ m questions',
    result (find_similarity_groups hdbscan_fit_predict set_iter
              (stage1_candidates questions) bi cross_encoder mcs threshold
              use) = Ok m
    ∧ result (run_stage1 hdbscan_fit_predict set_iter questions bi
                cross_encoder mcs threshold use) = Ok (questions', tt)
    ∧ length questions' = length questions
    ∧ (∀ i q', questions' !! i = Some q' →
         similarity_group_id q' = Some (m !! i))
    ∧ (∀ i q, questions !! i = Some q →
         success q && data_truthy q = false →
         m !! i = None
         ∧ questions' !! i = Some (set_group_id None q)).
Proof.
  intros Hlen.
  destruct (find_similarity_groups_total hdbscan_fit_predict set_iter
              set_iter_perm (stage1_candidates questions) bi cross_encoder
              mcs threshold use (NoDup_stage1_candidates questions) Hlen)
    as (m & Hres & _ & Hkeys).
  exists m, (relabel m questions). split_and!; [done| | | |].
  - by rewrite run_stage1_result, Hres.
  - apply length_relabel.
  - intros i q'. rewrite lookup_relabel.
    destruct (questions !! i); [|done]. by intros [= <-].
  - intros i q Hq Hno.
    assert (m !! i = None) as Hm.
    { destruct (m !! i) as [L|] eqn:Hi; [|done].
      assert (i ∈ (stage1_candidates questions).*1) as Hin.
      { apply stage1_original_indices_elem, Hkeys. by eexists. }
      apply list_elem_of_fmap in Hin as ([i' q1] & -> & Hin).
      apply elem_of_stage1_candidates in Hin as [Hq1 Hyes].
      simpl in *. congruence. }
    split; [done|]. by rewrite lookup_relabel, Hq, Hm.
Qed.
End Stage1Collection.

Lemma run_stage1_recomputes_witness :
  ∃ m,
    result (run_stage1 example_hdbscan elements example_collection id
              (Some example_cross_encoder) 2 (7 # 10) true)
    = Ok (relabel m example_collection, tt).
Proof.
  destruct (run_stage1_recomputes example_hdbscan elements elements_perm
              example_collection id (Some example_cross_encoder) 2 (7 # 10)
              true) as (m & _ & Hrun & _).
  - by vm_compute.
  - by exists m.
Defined.

Lemma stage1_insufficient_data_witness :
  result (run_stage1 example_hdbscan elements example_small_collection id
            (Some example_cross_encoder) 2 (7 # 10) true)
  = Ok (set_group_id None <$> example_small_collection, tt).
Proof.
  apply (stage1_insufficient_data example_hdbscan elements
           example_small_collection id (Some example_cross_encoder) 2
           (7 # 10) true).
  vm_compute. lia.
Defined.

Lemma stage1_writes_every_label_field_witness :
  ∃ (m : gmap nat string) questions',
    result (run_stage1 example_hdbscan elements example_collection id
              (Some example_cross_encoder) 2 (7 # 10) true)
    = Ok (questions', tt)
    ∧ ∀ i q', questions' !! i = Some q' →
        similarity_group_id q' = Some (m !! i).
Proof.
  destruct (stage1_writes_every_label_field example_hdbscan elements
              elements_perm example_collection id
              (Some example_cross_encoder) 2 (7 # 10) true)
    as (m & questions' & _ & Hrun & _ & Hfield & _).
  - by vm_compute.
  - by exists m, questions'.
Defined.

(** ** The hierarchical fallback *)

Lemma dict_set_fresh {K V} `{EqDecision K} (k : K) (v : V) d :
  k ∉ dict_keys d → dict_set k v d = d ++ [(k, v)].
Proof.
  unfold dict_keys. induction d as [|[k0 v0] d IH]; csimpl; [done|].
  intros [Hne Hin]%not_elem_of_cons.
  rewrite decide_False by done. by rewrite IH.
Qed.

Lemma dict_of_items_from {K V} `{EqDecision K} (d items : list (K * V)) :
  NoDup (dict_keys (d ++ items)) →
  foldl (λ d '(k, v), dict_set k v d) d items = d ++ items.
Proof.
  revert d. induction items as [|[k v] items IH]; intros d Hnd.
  { by rewrite app_nil_r. }
  cbn [foldl]. rewrite dict_set_fresh.
  - rewrite IH; rewrite <-app_assoc; done.
  - unfold dict_keys in *. rewrite fmap_app in Hnd.
    apply NoDup_app in Hnd as (_ & Hdisj & _). intros Hin.
    apply (Hdisj k Hin). csimpl. apply list_elem_of_here.
Qed.

Lemma dict_of_items_NoDup {K V} `{EqDecision K} (items : list (K * V)) :
  NoDup (dict_keys items) → dict_of_items items = items.
Proof. intros Hnd. unfold dict_of_items. by rewrite dict_of_items_from. Qed.

(** How often a number occurs among the labels. *)
Definition occurrences (l : Z) (labels : list Z) : nat :=
  length (filter (λ v, v = l) labels).

Lemma group_counts_from (counts : list (Z * nat)) (labels : list Z) :
  NoDup (dict_keys counts) →
  NoDup (dict_keys (foldl (λ counts label, dict_incr label counts)
                          counts labels))
  ∧ ∀ l, default 0 (dict_get l (foldl (λ counts label,
                                          dict_incr label counts)
                                       counts labels))
         = default 0 (dict_get l counts) + occurrences l labels.
Proof.
  revert counts. induction labels as [|x labels IH]; intros counts Hnd.
  { split; [done|]. intros l. unfold occurrences. simpl. lia. }
  cbn [foldl]. destruct (IH (dict_incr x counts)) as [IH1 IH2].
  { by apply NoDup_dict_set. }
  split; [done|]. intros l. rewrite IH2. unfold dict_incr.
  rewrite dict_get_set. unfold occurrences. rewrite filter_cons.
  destruct (decide (l = x)) as [->|Hne].
  - rewrite decide_True by done. simpl. lia.
  - rewrite decide_False by congruence. done.
Qed.

(** The numbers that occur twice or more. *)
Definition surviving (labels : list Z) : gset Z :=
  list_to_set (filter (λ l, 2 ≤ occurrences l labels) labels).

Lemma elem_of_surviving l labels :
  l ∈ surviving labels ↔ 2 ≤ occurrences l labels.
Proof.
  unfold surviving. rewrite elem_of_list_to_set, list_elem_of_filter.
  split; [by intros [? _]|]. intros Hocc. split; [done|].
  unfold occurrences in Hocc.
  destruct (filter (λ v, v = l) labels) as [|v vs] eqn:Hf;
    [simpl in Hocc; lia|].
  assert (v ∈ filter (λ v, v = l) labels) as Hv
    by (rewrite Hf; apply list_elem_of_here).
  by apply list_elem_of_filter in Hv as [-> ?].
Qed.

Lemma valid_groups_surviving (labels : list Z) :
  (list_to_set (filter (λ e : Z * nat, 2 ≤ e.2)
                  (foldl (λ counts label, dict_incr label counts)
                         [] labels)).*1 : gset Z)
  = surviving labels.
Proof.
  destruct (group_counts_from [] labels) as [Hnd Hcount]; [constructor|].
  apply set_eq. intros l.
  rewrite elem_of_surviving, elem_of_list_to_set, list_elem_of_fmap.
  specialize (Hcount l). simpl in Hcount. split.
  - intros ([l' c] & -> & [Hc Hin]%list_elem_of_filter). simpl in *.
    apply (elem_of_dict _ _ _ Hnd) in Hin. rewrite Hin in Hcount.
    simpl in Hcount. lia.
  - intros Hocc.
    destruct (dict_get l _) as [c|] eqn:Hget; simpl in Hcount; [|lia].
    exists (l, c). split; [done|]. apply list_elem_of_filter.
    split; [simpl; lia|]. by apply dict_get_Some_elem.
Qed.

Lemma comprehension_pairs (texts : list text) (pairs : list (nat * nat)) :
  Forall (λ p : nat * nat, p.1 < length texts ∧ p.2 < length texts) pairs →
  result (comprehension
            (λ p : nat * nat,
               a <- index texts p.1 ;; b <- index texts p.2 ;; ret (a, b))
            pairs)
  = Ok (text_pairs texts pairs).
Proof.
  induction 1 as [|p pairs [H1 H2] _ IH]; [done|]. cbn [comprehension].
  destruct (lookup_lt_is_Some_2 _ _ H1) as [a Ha].
  destruct (lookup_lt_is_Some_2 _ _ H2) as [b Hb].
  rewrite (bind_ok _ _ (a, b)).
  - rewrite (bind_ok _ _ _ IH). unfold text_pairs. csimpl.
    by rewrite (list_lookup_total_correct _ _ _ Ha),
      (list_lookup_total_correct _ _ _ Hb).
  - rewrite (bind_ok _ _ a) by by apply result_index.
    by rewrite (bind_ok _ _ b) by by apply result_index.
Qed.

(** The dictionary comprehension [{indices[i]: label for i, label in
    enumerate(cluster_labels)}] over distinct indices. *)
Lemma assignments_from (indices : list nat) (labels : list Z) n
    (d : list (nat * Z)) :
  NoDup (dict_keys d ++ drop n indices) →
  length labels ≤ length (drop n indices) →
  result (for_each (λ d '(i, label),
                      k <- index indices i ;; ret (dict_set k label d))
            (enumerate_from n labels) d)
  = Ok (d ++ zip (drop n indices) labels).
Proof.
  revert n d. induction labels as [|x labels IH]; intros n d Hnd Hlen.
  { simpl. by rewrite zip_with_nil_r, app_nil_r. }
  destruct (drop n indices) as [|k rest] eqn:Hdrop; [simpl in Hlen; lia|].
  assert (indices !! n = Some k) as Hk.
  { rewrite <-(Nat.add_0_r n), <-lookup_drop. by rewrite Hdrop. }
  assert (drop (S n) indices = rest) as Hrest.
  { rewrite (drop_S _ _ _ Hk) in Hdrop. by injection Hdrop. }
  cbn [enumerate_from for_each].
  rewrite (bind_ok _ _ (dict_set k x d)).
  2:{ by rewrite (bind_ok _ _ k) by by apply result_index. }
  rewrite dict_set_fresh.
  2:{ apply NoDup_app in Hnd as (_ & Hdisj & _). intros Hin.
      apply (Hdisj k Hin). apply list_elem_of_here. }
  rewrite IH.
  - rewrite Hrest. csimpl. by rewrite <-app_assoc.
  - rewrite Hrest. unfold dict_keys. rewrite fmap_app. csimpl.
    rewrite <-app_assoc. done.
  - rewrite Hrest. simpl in Hlen. lia.
Qed.

Lemma assignments_result (indices : list nat) (labels : list Z) :
  NoDup indices → length labels = length indices →
  result (for_each (λ d '(i, label),
                      k <- index indices i ;; ret (dict_set k label d))
            (enumerate labels) [])
  = Ok (zip indices labels).
Proof.
  intros Hnd Hlen. unfold enumerate.
  rewrite (assignments_from indices labels 0 []).
  - by rewrite drop_0.
  - by rewrite drop_0.
  - rewrite drop_0. lia.
Qed.

Lemma distinct_values_filtered (indices : list nat) (labels : list Z) :
  length labels = length indices →
  distinct_values (filter (λ e : nat * Z, e.2 ∈ surviving labels)
                     (zip indices labels))
  = size (surviving labels).
Proof.
  intros Hlen. unfold distinct_values. f_equal. apply set_eq. intros l.
  rewrite elem_of_list_to_set. unfold dict_values.
  rewrite list_elem_of_fmap. split.
  - intros ([k l'] & -> & [Hs _]%list_elem_of_filter). done.
  - intros Hs. assert (l ∈ labels) as Hl.
    { unfold surviving in Hs. apply elem_of_list_to_set in Hs.
      by apply list_elem_of_filter in Hs as [_ ?]. }
    apply list_elem_of_lookup in Hl as [i Hi].
    destruct (lookup_lt_is_Some_2 indices i) as [k Hk].
    { rewrite <-Hlen. by eapply lookup_lt_Some. }
    exists (k, l). split; [done|]. apply list_elem_of_filter. split; [done|].
    apply list_elem_of_lookup. exists i. apply lookup_zip_with_Some.
    by exists k, l.
Qed.

Section Fallback.
Variable linkage_fcluster : nat → list Q → Q → list Z.

(** The numbers the cut gives the texts of a group. *)
Definition fallback_labels (ce : list (text * text) → list Q)
    (threshold : Q) (texts : list text) (n : nat) : list Z :=
  linkage_fcluster n (ce (text_pairs texts (all_pairs n)))
    (1 - threshold)%Q.

(** What the fallback returns: no split for fewer than four texts or
    fewer than two surviving numbers, and otherwise every index whose
    number survives, with that number. *)
Definition fallback_split (ce : list (text * text) → list Q)
    (threshold : Q) (indices : list nat) (texts : list text)
    : option (list (nat * Z)) :=
  let labels := fallback_labels ce threshold texts (length indices) in
  if decide (length indices < 4 ∨ size (surviving labels) ≤ 1) then None
  else Some (filter (λ e : nat * Z, e.2 ∈ surviving labels)
               (zip indices labels)).

Lemma size_surviving_le (labels : list Z) :
  size (surviving labels) ≤ size (list_to_set labels : gset Z).
Proof.
  apply subseteq_size. intros l. unfold surviving.
  rewrite !elem_of_list_to_set, list_elem_of_filter. tauto.
Qed.

Lemma try_split_with_cross_encoder_result questions indices texts ce
    threshold :
  NoDup indices → length texts = length indices →
  length (fallback_labels ce threshold texts (length indices))
    = length indices →
  result (try_split_with_cross_encoder linkage_fcluster questions indices
            texts ce threshold)
  = Ok (fallback_split ce threshold indices texts).
Proof.
  intros Hnd Htexts Hlen. unfold try_split_with_cross_encoder,
    fallback_split.
  set (labels := fallback_labels ce threshold texts (length indices))
    in *.
  case_decide as Hn.
  { by rewrite decide_True by by left. }
  assert (Forall (λ p : nat * nat,
                    p.1 < length texts ∧ p.2 < length texts)
                 (all_pairs (length indices))) as Hpairs.
  { apply Forall_forall. intros [i j] Hij%elem_of_all_pairs. simpl. lia. }
  rewrite (bind_ok _ _ _ (comprehension_pairs texts _ Hpairs)).
  rewrite (bind_ok _ _ _ (result_predict _ _)).
  rewrite (bind_ok _ _ labels) by done.
  pose proof (size_surviving_le labels) as Hle.
  case_decide as Hone.
  { rewrite decide_True; [done|]. right. lia. }
  rewrite (bind_ok _ _ _ (assignments_result indices labels Hnd Hlen)).
  assert (dict_values (zip indices labels) = labels) as Hvals.
  { unfold dict_values. apply snd_zip. lia. }
  rewrite Hvals, valid_groups_surviving.
  case_decide as Hvalid.
  { rewrite decide_True; [done|]. by right. }
  rewrite dict_of_items_NoDup.
  2:{ unfold dict_keys. eapply sublist_NoDup;
        [|apply fmap_sublist, sublist_filter].
      rewrite fst_zip by lia. done. }
  rewrite distinct_values_filtered by done.
  rewrite decide_True by lia. by rewrite decide_False by tauto.
Qed.
End Fallback.

(** The sub-group numbers of a split are 1, ..., k for some k. *)
Definition contiguous_numbers (d : list (nat * Z)) : Prop :=
  ∃ k : Z, ∀ v, v ∈ dict_values d ↔ (1 ≤ v ≤ k)%Z.

(** A cut of five texts into the clusters 1, 1, 2, 3, 3. *)
Definition example_fcluster (n : nat) (scores : list Q) (t : Q) : list Z :=
  [1; 1; 2; 3; 3]%Z.

Definition example_texts : list text := [[65]; [66]; [67]; [68]; [69]]%N.

(** Two numbers survive the filter exactly when two different numbers
    each occur twice or more. *)
Lemma surviving_two (labels : list Z) :
  2 ≤ size (surviving labels)
  ↔ ∃ v v', v ≠ v' ∧ 2 ≤ occurrences v labels
            ∧ 2 ≤ occurrences v' labels.
Proof.
  rewrite size_two_elements. by setoid_rewrite elem_of_surviving.
Qed.

Lemma occurrences_two (labels : list Z) v v' :
  v ≠ v' → occurrences v labels + occurrences v' labels ≤ length labels.
Proof.
  intros Hne. unfold occurrences.
  induction labels as [|x labels IH]; [done|].
  rewrite !filter_cons. repeat case_decide; simpl; subst; (done || lia).
Qed.

(** Six texts A to F.  A and B are similar, D and E are similar, C is
    nearer to A and B, and F nearer to D and E, than to anything else. *)
Definition example_six_texts : list text :=
  [[65]; [66]; [67]; [68]; [69]; [70]]%N.

Definition example_graded_cross_encoder (pairs : list (text * text))
    : list Q :=
  (λ p : text * text,
     if decide (p = ([65], [66])%N ∨ p = ([68], [69])%N) then (9 # 10)%Q
     else if decide (p = ([65], [67])%N ∨ p = ([66], [67])%N)
     then (1 # 2)%Q
     else if decide (p = ([68], [70])%N ∨ p = ([69], [70])%N)
     then (2 # 5)%Q
     else (1 # 10)%Q)
  <$> pairs.

(** The cut of these texts at the distance 0.3.  Average linkage on the
    distances [1 - score] joins A with B and D with E at 0.1, then C with
    A and B at 0.5, F with D and E at 0.6, and the two halves at 0.9.
    Below 0.3 only the two pairs are joined, and [fcluster] numbers the
    clusters as it walks down the tree: under the node of A, B and C the
    pair is 1 and C is 2, under the node of D, E and F the pair is 3 and
    F is 4. *)
Definition example_tree_fcluster (n : nat) (scores : list Q) (t : Q)
    : list Z :=
  [1; 1; 2; 3; 3; 4]%Z.

Section FallbackClaims.
Variable linkage_fcluster : nat → list Q → Q → list Z.

(** C3, as the code has it.  The fallback scores every pair of texts of
    the group and cuts the tree built from the scores.  It discards the
    clusters of the cut with fewer than two members and keeps the others
    under the numbers the cut gave them: when two numbers or more
    survive, it returns exactly the indices whose number survives, each
    with that number, and otherwise it reports that no split is
    possible. *)
Theorem fallback_keeps_cut_numbers questions indices texts ce threshold :
  NoDup indices → length texts = length indices →
  let n := length indices in
  let pairs :=
    (λ p : nat * nat, (texts !!! p.1, texts !!! p.2)) <$> all_pairs n in
  let labels := linkage_fcluster n (ce pairs) (1 - threshold)%Q in
  length labels = n →
  let survives v := 2 ≤ occurrences v labels in
  let two_survive := ∃ v v', v ≠ v' ∧ survives v ∧ survives v' in
  ∃ r,
    result (try_split_with_cross_encoder linkage_fcluster questions
              indices texts ce threshold) = Ok r
    ∧ (¬ two_survive → r = None)
    ∧ (two_survive →
       ∃ d, r = Some d
            ∧ NoDup d.*1
            ∧ ∀ k v, (k, v) ∈ d
                     ↔ ∃ i, indices !! i = Some k ∧ labels !! i = Some v
                            ∧ survives v).
Proof.
  intros Hnd Htexts n pairs labels Hlen survives two_survive.
  change labels
    with (fallback_labels linkage_fcluster ce threshold texts
            (length indices)) in *.
  exists (fallback_split linkage_fcluster ce threshold indices texts).
  split; [by apply try_split_with_cross_encoder_result|].
  unfold fallback_split.
  set (labels' := fallback_labels linkage_fcluster ce threshold texts
                    (length indices)) in *.
  split.
  - intros Hnone. rewrite decide_True; [done|]. right.
    destruct (decide (size (surviving labels') ≤ 1)) as [|Hs]; [done|].
    destruct Hnone. apply surviving_two. lia.
  - intros Htwo. pose proof Htwo as (v & v' & Hne & Hv & Hv').
    pose proof (occurrences_two labels' v v' Hne) as Hocc.
    unfold survives in Hv, Hv'. fold n in Hlen.
    rewrite decide_False.
    2:{ intros [Hn|Hs]; [fold n in Hn; lia|].
        apply surviving_two in Htwo. lia. }
    eexists. split; [done|]. split.
    + eapply sublist_NoDup; [|apply fmap_sublist, sublist_filter].
      rewrite fst_zip by (fold n; lia). done.
    + intros k w.
      rewrite list_elem_of_filter, elem_of_surviving. simpl.
      rewrite list_elem_of_lookup. setoid_rewrite lookup_zip_with_Some.
      split.
      * intros (Hw & i & k' & w' & [= <- <-] & Hk & Hl). by exists i.
      * intros (i & Hk & Hl & Hw). split; [done|]. exists i.
        by exists k, w.
Qed.
End FallbackClaims.

Lemma fallback_keeps_cut_numbers_witness :
  ∃ d,
    result (try_split_with_cross_encoder example_tree_fcluster []
              [0; 1; 2; 3; 4; 5] example_six_texts
              example_graded_cross_encoder (7 # 10)) = Ok (Some d)
    ∧ ∀ k v, (k, v) ∈ d
             ↔ ∃ i, [0; 1; 2; 3; 4; 5] !! i = Some k
                    ∧ [1; 1; 2; 3; 3; 4]%Z !! i = Some v
                    ∧ 2 ≤ occurrences v [1; 1; 2; 3; 3; 4]%Z.
Proof.
  destruct (fallback_keeps_cut_numbers example_tree_fcluster []
              [0; 1; 2; 3; 4; 5] example_six_texts
              example_graded_cross_encoder (7 # 10))
    as (r & Hres & _ & Hsome).
  - compute_done.
  - reflexivity.
  - reflexivity.
  - destruct Hsome as (d & -> & _ & Hchar).
    + exists 1%Z, 3%Z. split_and!; [done|vm_compute; lia..].
    + exists d. split; [exact Hres|exact Hchar].
Defined.

(** C3 as stated fails: the surviving clusters 1 and 3 are not renumbered
    to 1 and 2. *)
Lemma fallback_numbers_not_contiguous :
  ∃ d,
    result (try_split_with_cross_encoder example_tree_fcluster []
              [0; 1; 2; 3; 4; 5] example_six_texts
              example_graded_cross_encoder (7 # 10)) = Ok (Some d)
    ∧ d = [(0, 1%Z); (1, 1%Z); (3, 3%Z); (4, 3%Z)]
    ∧ ¬ contiguous_numbers d.
Proof.
  exists [(0, 1%Z); (1, 1%Z); (3, 3%Z); (4, 3%Z)].
  split; [by vm_compute|]. split; [done|].
  intros [k Hk]. cbn in Hk.
  assert (1 ≤ 3 ≤ k)%Z as H3 by (apply Hk; set_solver).
  assert ((2 : Z) ∈ [1; 1; 3; 3]%Z) as H2 by (apply Hk; lia).
  set_solver.
Qed.

(** ** What a computation prints and calls *)

(** Every event of the computation satisfies [P]. *)
Definition traced {A} (P : event → Prop) (m : M A) : Prop :=
  Forall P (trace m).

Lemma trace_bind_ok {A B} (m : M A) (k : A → M B) a :
  result m = Ok a → trace (bind m k) = trace m ++ trace (k a).
Proof. intros H. by rewrite trace_bind, H. Qed.

Lemma traced_ret {A} P (a : A) : traced P (ret a).
Proof. constructor. Qed.

Lemma traced_bind {A B} P (m : M A) (k : A → M B) :
  traced P m → (∀ a, traced P (k a)) → traced P (bind m k).
Proof.
  intros Hm Hk. unfold traced. rewrite trace_bind.
  destruct (result m); [|done..]. apply Forall_app. split; [done|apply Hk].
Qed.

Lemma traced_emit P e : P e → traced P (emit e).
Proof. intros He. by constructor. Qed.

Lemma traced_index {A} P (l : list A) i : traced P (index l i).
Proof. unfold index. destruct (l !! i); constructor. Qed.

Lemma traced_of_fuel {A} P (o : option A) : traced P (of_fuel o).
Proof. destruct o; constructor. Qed.

Lemma traced_for_each {S X} P (body : S → X → M S) (l : list X) (s : S) :
  (∀ s x, traced P (body s x)) → traced P (for_each body l s).
Proof.
  intros Hb. revert s. induction l as [|x l IH]; intros s; simpl.
  - apply traced_ret.
  - apply traced_bind; [apply Hb|apply IH].
Qed.

Lemma traced_comprehension {X A} P (f : X → M A) (l : list X) :
  (∀ x, traced P (f x)) → traced P (comprehension f l).
Proof.
  intros Hf. induction l as [|x l IH]; simpl.
  - apply traced_ret.
  - apply traced_bind; [apply Hf|]. intros a.
    apply traced_bind; [apply IH|]. intros r. apply traced_ret.
Qed.

Lemma traced_nothing {A} (m : M A) : traced (λ _, False) m → trace m = [].
Proof.
  unfold traced. destruct (trace m) as [|e tr]; [done|].
  by intros [[] _]%Forall_cons.
Qed.

Lemma traced_impl {A} (P P' : event → Prop) (m : M A) :
  (∀ e, P e → P' e) → traced P m → traced P' m.
Proof. intros HP Hm. by eapply Forall_impl. Qed.

(** ** Stage 2: the density pass *)

#[global] Instance question_inhabited : Inhabited question :=
  populate {| success := false; data := None; similarity_group_id := None |}.

Definition stage2_assign (indices : list nat) (st : Z * list (nat * Z))
    (component : list nat) : Z * list (nat * Z) :=
  assign_group (λ c, (c + 1)%Z) id dict_set st (keys_of indices component).

(** The graph Stage 2 builds for a candidate cluster. *)
Definition stage2_scored (ce : list (text * text) → list Q)
    (texts : list text) (members : list nat) : list (nat * nat * Q) :=
  let pair_indices := bounded_pairs (length members) in
  zip pair_indices
      (ce (text_pairs ((λ i, texts !!! i) <$> members) pair_indices)).

Definition stage2_graph (ce : list (text * text) → list Q) (threshold : Q)
    (texts : list text) (members : list nat) : gmap nat (gset nat) :=
  build_adjacency threshold (stage2_scored ce texts members).

Lemma stage2_graph_irreflexive ce threshold texts members x :
  ¬ adj_step (stage2_graph ce threshold texts members) x x.
Proof.
  apply (build_adjacency_irreflexive _ _ (length members)).
  apply zip_pairs_below. intros i j Hij%elem_of_bounded_pairs. lia.
Qed.

Lemma NoDup_write_keys (v : Z) (d : list (nat * Z)) keys :
  NoDup (dict_keys d) → NoDup (dict_keys (write_keys dict_set v d keys)).
Proof.
  unfold write_keys. revert d. induction keys as [|k keys IH]; intros d Hd;
    [done|]. simpl. by apply IH, NoDup_dict_set.
Qed.

Lemma NoDup_stage2_assign (st : Z * list (nat * Z)) comps :
  NoDup (dict_keys st.2) →
  NoDup (dict_keys (foldl (assign_group (λ c, (c + 1)%Z) id dict_set) st
                      comps).2).
Proof.
  revert st. induction comps as [|c comps IH]; intros st Hd; [done|].
  simpl. apply IH. simpl. by apply NoDup_write_keys.
Qed.

Section Stage2Loops.
Variable set_iter : gset nat → list nat.
Hypothesis set_iter_perm : ∀ s, set_iter s ≡ₚ elements s.

(** What Stage 2 does with a component of two or more members. *)
Definition stage2_on_component (indices : list nat)
    (st : Z * list (nat * Z)) (component : list nat)
    : M (Z * list (nat * Z)) :=
  verified' <-
    for_each (λ verified local_idx,
                k <- index indices local_idx ;;
                ret (dict_set k (st.1 + 1)%Z verified))
             component st.2 ;;
  ret ((st.1 + 1)%Z, verified').

Lemma stage2_on_component_pure indices st component :
  Forall (λ p, p < length indices) component →
  result (stage2_on_component indices st component)
  = Ok (stage2_assign indices st component).
Proof.
  intros Hc. unfold stage2_on_component.
  rewrite (bind_ok _ _ (write_keys dict_set (st.1 + 1)%Z st.2
                          (keys_of indices component))); [done|].
  unfold write_keys, keys_of.
  rewrite (for_each_pure _
             (λ verified p, dict_set (indices !!! p) (st.1 + 1)%Z verified)
             (λ p, p < length indices)); [|..|done].
  - by rewrite foldl_fmap.
  - intros d p Hp. destruct (lookup_lt_is_Some_2 _ _ Hp) as [k Hk].
    rewrite (bind_ok _ _ k) by by apply result_index.
    by rewrite (list_lookup_total_correct _ _ _ Hk).
Qed.

Lemma stage2_start_body members indices adjacency st start :
  stage2_start set_iter members indices adjacency st start
  = start_body set_iter members adjacency (λ _, False)
      (stage2_on_component indices) st start.
Proof.
  destruct st as [visited [counter verified]].
  unfold stage2_start, start_body, stage2_on_component. cbn [fst snd].
  destruct (decide (start ∈ visited)) as [Hv|Hv].
  { rewrite decide_True; [done|]. by left. }
  rewrite decide_False by tauto.
  destruct (bfs set_iter _ adjacency visited start) as [found|]; [|done].
  cbn [of_fuel]. rewrite !bind_ret_l. case_decide; [|done].
  rewrite bind_assoc. apply bind_ext. intros v. by rewrite bind_ret_l.
Qed.

Lemma stage2_cluster_spec ce threshold texts indices st entry :
  Forall (λ p, p < length texts) entry.2 →
  length indices = length texts →
  ∃ nodess,
    found_components (stage2_graph ce threshold texts entry.2)
      (length entry.2) nodess
    ∧ result (stage2_cluster set_iter ce threshold texts indices st entry)
      = Ok (foldl (stage2_assign indices) st
              (kept_components entry.2 nodess)).
Proof.
  intros Hmem Hlen. set (members := entry.2) in *.
  unfold stage2_cluster. fold members. case_decide as Hn.
  { exists []. split; [|done]. apply found_components_nil. intros x.
    unfold stage2_graph, stage2_scored.
    rewrite (bounded_pairs_small _ Hn). apply neighbours_empty. }
  rewrite (bind_ok _ _ _ (comprehension_index texts members Hmem)).
  destruct (text_pairs _ (bounded_pairs (length members)))
    as [|p ps] eqn:Hp.
  { apply fmap_nil_inv in Hp.
    assert ((0, 1) ∈ bounded_pairs (length members)) as Hin
      by (apply elem_of_bounded_pairs; lia).
    rewrite Hp in Hin. by apply elem_of_nil in Hin. }
  rewrite <-Hp. rewrite (bind_ok _ _ _ (result_predict _ _)).
  fold (stage2_scored ce texts members).
  fold (stage2_graph ce threshold texts members).
  rewrite (for_each_ext _ _ _ _
             (stage2_start_body members indices
                (stage2_graph ce threshold texts members))).
  destruct (start_loop_found set_iter set_iter_perm members
              (stage2_graph ce threshold texts members)
              (λ _, False)
              (stage2_on_component indices)
              (stage2_assign indices)
              (λ p, p < length indices) st)
    as (nodess & st' & Hres & Hst & Hfound).
  - apply stage2_on_component_pure.
  - by rewrite Hlen.
  - apply build_adjacency_symmetric.
  - apply build_adjacency_below, zip_pairs_below.
    intros i j Hij%elem_of_bounded_pairs. lia.
  - done.
  - exists nodess. split; [done|].
    rewrite (bind_ok _ _ _ Hres). by rewrite <-Hst.
Qed.

Lemma stage2_clusters_spec ce threshold texts indices clusters st :
  Forall (λ e : Z * list nat,
            Forall (λ p, p < length texts) e.2) clusters →
  length indices = length texts →
  ∃ nss,
    Forall2 (λ e nodess,
               found_components (stage2_graph ce threshold texts e.2)
                 (length e.2) nodess)
            clusters nss
    ∧ result (for_each (stage2_cluster set_iter ce threshold texts
                          indices) clusters st)
      = Ok (foldl (assign_group (λ c, (c + 1)%Z) id dict_set) st
              (key_groups indices clusters nss)).
Proof.
  intros Hall Hlen. revert st.
  induction Hall as [|e clusters He _ IH]; intros st.
  { exists []. split; [constructor|done]. }
  destruct (stage2_cluster_spec ce threshold texts indices st e He Hlen)
    as (nodess & Hfound & Hres).
  destruct (IH (foldl (stage2_assign indices) st
                  (kept_components e.2 nodess)))
    as (nss & Hall' & Hres').
  exists (nodess :: nss). split; [by constructor|].
  cbn [for_each]. rewrite (bind_ok _ _ _ Hres), Hres'.
  unfold key_groups. cbn [zip_with concat].
  by rewrite foldl_app, foldl_fmap.
Qed.

Lemma stage2_start_silent members indices adjacency st start :
  traced (λ _, False)
    (stage2_start set_iter members indices adjacency st start).
Proof.
  destruct st as [visited [counter verified]]. unfold stage2_start.
  case_decide; [apply traced_ret|].
  apply traced_bind; [apply traced_of_fuel|]. intros found.
  case_decide; [|apply traced_ret].
  apply traced_bind; [|intros; apply traced_ret].
  apply traced_for_each. intros d p.
  apply traced_bind; [apply traced_index|]. intros; apply traced_ret.
Qed.
End Stage2Loops.

(** ** [try_split_group] *)

(** The texts of a group, its labels in the fine pass and the clusters
    among them. *)
Definition group_texts (questions : list question) (indices : list nat)
    : list text :=
  (λ i, get_question_text (questions !!! i)) <$> indices.

Definition unique_labels (cluster_labels : list Z) : gset Z :=
  list_to_set cluster_labels ∖ {[(-1)%Z]}.

(** A split is well formed: its keys are distinct indices of the group and
    every sub-group number is carried by two keys or more. *)
Definition split_ok (indices : list nat) (d : list (nat * Z)) : Prop :=
  NoDup (dict_keys d)
  ∧ (∀ k, k ∈ dict_keys d → k ∈ indices)
  ∧ (∀ k v, (k, v) ∈ d → ∃ k', k' ≠ k ∧ (k', v) ∈ d).

Lemma group_texts_result questions indices texts :
  result (comprehension
            (λ i, q <- index questions i ;; ret (get_question_text q))
            indices) = Ok texts
  ↔ Forall (λ i, i < length questions) indices
    ∧ texts = group_texts questions indices.
Proof.
  revert texts. induction indices as [|i indices IH]; intros texts.
  { simpl. split; [by intros [= <-]|]. by intros [_ ->]. }
  cbn [comprehension]. rewrite result_bind. split.
  - destruct (result (_ <- index questions i ;; _)) as [t| |] eqn:Ht;
      [|done..].
    apply bind_ok_inv in Ht as (q & Hq%result_index_inv & [= <-]).
    rewrite result_bind.
    destruct (result (comprehension _ indices)) as [ts| |] eqn:Hts;
      [|done..].
    destruct (proj1 (IH ts) eq_refl) as [Hall ->]. intros [= <-]. split.
    + constructor; [by eapply lookup_lt_Some|done].
    + unfold group_texts. csimpl.
      by rewrite (list_lookup_total_correct _ _ _ Hq).
  - intros [[Hi Hall]%Forall_cons ->].
    destruct (lookup_lt_is_Some_2 _ _ Hi) as [q Hq].
    rewrite (bind_ok _ _ q) by by apply result_index. simpl.
    rewrite result_bind.
    assert (result (comprehension
                      (λ i, q <- index questions i ;;
                            ret (get_question_text q)) indices)
            = Ok (group_texts questions indices)) as -> by by apply IH.
    simpl. unfold group_texts. csimpl.
    by rewrite (list_lookup_total_correct _ _ _ Hq).
Qed.

Lemma iter_Zsucc n (k : Z) :
  Nat.iter n (λ c, (c + 1)%Z) k = (k + Z.of_nat n)%Z.
Proof. induction n as [|n IH]; simpl; [lia|]. rewrite IH. lia. Qed.

Lemma occurrences_position (labels : list Z) v :
  1 ≤ occurrences v labels → ∃ j, labels !! j = Some v.
Proof.
  unfold occurrences. intros Hocc.
  destruct (filter (λ x, x = v) labels) as [|x xs] eqn:Hf;
    [simpl in Hocc; lia|].
  assert (x ∈ filter (λ x, x = v) labels) as Hx
    by (rewrite Hf; apply list_elem_of_here).
  apply list_elem_of_filter in Hx as [-> Hx].
  by apply list_elem_of_lookup in Hx.
Qed.

Lemma occurrences_other (labels : list Z) i v :
  labels !! i = Some v → 2 ≤ occurrences v labels →
  ∃ j, j ≠ i ∧ labels !! j = Some v.
Proof.
  revert i. induction labels as [|x labels IH]; intros i Hi Hocc; [done|].
  unfold occurrences in Hocc. rewrite filter_cons in Hocc.
  destruct i as [|i]; simplify_eq/=.
  - rewrite decide_True in Hocc by done. simpl in Hocc.
    destruct (occurrences_position labels v) as [j Hj].
    { unfold occurrences. lia. }
    by exists (S j).
  - destruct (decide (x = v)) as [->|Hne].
    + by exists 0.
    + destruct (IH i Hi) as (j & Hji & Hj); [done|].
      exists (S j). split; [lia|done].
Qed.

Section SplitFacts.
Variable linkage_fcluster : nat → list Q → Q → list Z.

Lemma fallback_split_ok ce threshold indices texts d :
  NoDup indices →
  length (fallback_labels linkage_fcluster ce threshold texts
            (length indices)) = length indices →
  fallback_split linkage_fcluster ce threshold indices texts = Some d →
  split_ok indices d ∧ 1 < distinct_values d.
Proof.
  intros Hnd Hlen. unfold fallback_split.
  set (labels := fallback_labels _ _ _ _ _) in *.
  case_decide as Hc; [done|]. intros [= <-].
  assert (dict_keys (filter (λ e : nat * Z, e.2 ∈ surviving labels)
                       (zip indices labels)) `sublist_of` indices)
    as Hsub.
  { unfold dict_keys. rewrite <-(fst_zip indices labels) at 2 by lia.
    apply fmap_sublist, sublist_filter. }
  split; [|rewrite distinct_values_filtered by done; lia].
  split_and!.
  - by eapply sublist_NoDup.
  - intros k Hk. by eapply elem_of_sublist.
  - intros k v [Hs Hin]%list_elem_of_filter. simpl in Hs.
    apply list_elem_of_lookup in Hin as [i Hi].
    apply lookup_zip_with_Some in Hi as (k0 & v0 & [= <- <-] & Hk & Hv).
    destruct (occurrences_other labels i v Hv) as (j & Hji & Hj).
    { by apply elem_of_surviving. }
    destruct (lookup_lt_is_Some_2 indices j) as [k' Hk'].
    { rewrite <-Hlen. by eapply lookup_lt_Some. }
    exists k'. split.
    + intros ->. apply Hji. by eapply NoDup_lookup.
    + apply list_elem_of_filter. split; [done|].
      apply list_elem_of_lookup. exists j. apply lookup_zip_with_Some.
      by exists k', v.
Qed.
End SplitFacts.

Lemma stage2_graph_below ce threshold texts members x y :
  adj_step (stage2_graph ce threshold texts members) x y →
  x ≠ y ∧ x < length members ∧ y < length members
  ∧ (x < y → y ≤ x + 50) ∧ (y < x → x ≤ y + 50).
Proof.
  intros Hstep. split; [intros ->; by eapply stage2_graph_irreflexive|].
  unfold stage2_graph in Hstep. apply build_adjacency_step in Hstep
    as (s & [Hin|Hin] & _);
    apply elem_of_zip_l, elem_of_bounded_pairs in Hin; lia.
Qed.

(** The components of a density pass make a well-formed split. *)
Lemma density_split_ok ce threshold texts labels indices
    (va : list (nat * Z)) :
  NoDup indices →
  (∀ (e : Z * list nat) p,
     e ∈ group_clusters labels → p ∈ e.2 → p < length indices) →
  grouped_by_components (λ k (d : list (nat * Z)), dict_get k d) indices
    (group_clusters labels) (stage2_graph ce threshold texts) va →
  NoDup (dict_keys va) →
  split_ok indices va.
Proof.
  intros Hnd Hb [Hm Hlab] Hkeys. split_and!; [done| |].
  - intros k Hk. destruct (dict_get k va) as [v|] eqn:Hget.
    + destruct (Hlab k v Hget) as (e & x & He & Hx & _ & ->).
      apply list_elem_of_lookup_total_2. apply (Hb e); [done|].
      by apply list_elem_of_lookup_total_2.
    + by apply dict_get_None in Hget.
  - intros k v Hin. apply (elem_of_dict _ _ _ Hkeys) in Hin.
    destruct (Hlab k v Hin) as (e & x & He & Hx & Hne & ->).
    destruct (Hm e x He Hx) as [_ Hgroup].
    destruct (Hgroup Hne) as (v' & Hv & Hchar).
    assert (v' = v) as -> by congruence.
    apply set_choose_L in Hne as [y Hy].
    destruct (stage2_graph_below _ _ _ _ _ _ Hy) as (Hxy & _ & Hylt & _).
    exists (key_of indices e.2 y). split.
    + intros Heq.
      destruct (key_of_inj labels indices Hnd Hb e e y x He He Hylt Hx Heq)
        as [_ ->].
      done.
    + apply (elem_of_dict _ _ _ Hkeys), Hchar.
      exists y. split; [by apply rtc_once|done].
Qed.

Lemma M_ret_eq {A} (m : M A) a : trace m = [] → result m = Ok a → m = ret a.
Proof. destruct m as [tr r]. unfold trace, result, ret. simpl. by intros -> ->. Qed.

Lemma trace_emit_bind {A} e (m : M A) : trace (emit e ;;; m) = e :: trace m.
Proof. done. Qed.

Lemma result_emit_then {A} e (m : M A) : result (emit e ;;; m) = result m.
Proof. done. Qed.

(** With one score per pair, the edges of the Stage 2 graph are the pairs
    at most 50 positions apart whose score is at least the threshold. *)
Lemma stage2_graph_edge ce threshold texts members x y :
  (∀ pairs, length (ce pairs) = length pairs) →
  x < y < length members → y ≤ x + 50 →
  ∃ s, dict_get (x, y) (stage2_scored ce texts members) = Some s
       ∧ (adj_step (stage2_graph ce threshold texts members) x y
          ↔ (threshold <= s)%Q)
       ∧ (adj_step (stage2_graph ce threshold texts members) y x
          ↔ (threshold <= s)%Q).
Proof.
  intros Hce Hxy Hnear. unfold stage2_graph, stage2_scored.
  set (pairs := bounded_pairs (length members)).
  set (scores := ce _).
  destruct (scored_pairs_lookup pairs scores x y) as (s & Hget & Huniq).
  { apply NoDup_bounded_pairs. }
  { unfold scores, text_pairs. by rewrite Hce, length_fmap. }
  { apply elem_of_bounded_pairs. lia. }
  assert (∀ s', (y, x, s') ∉ zip pairs scores) as Hrev.
  { intros s' Hin%elem_of_zip_l%elem_of_bounded_pairs. lia. }
  exists s. split; [done|].
  rewrite !build_adjacency_step. unfold accepted.
  setoid_rewrite Qle_bool_iff. split; split.
  - intros (s' & [Hin|Hin] & Hle); [|by apply Hrev in Hin].
    by apply Huniq in Hin as ->.
  - intros Hle. exists s. split; [|done]. left. by apply Huniq.
  - intros (s' & [Hin|Hin] & Hle); [by apply Hrev in Hin|].
    by apply Huniq in Hin as ->.
  - intros Hle. exists s. split; [|done]. right. by apply Huniq.
Qed.

(** The score that decides the edge between two members of a fine cluster
    of Stage 2, at most 50 positions apart, is the one the scorer returns
    at the position of the pair of their texts. *)
Lemma stage2_graph_score ce threshold texts members k x y :
  (∀ pairs, length (ce pairs) = length pairs) →
  bounded_pairs (length members) !! k = Some (x, y) →
  let pairs :=
    (λ p : nat * nat,
       (texts !!! (members !!! p.1), texts !!! (members !!! p.2)))
    <$> bounded_pairs (length members) in
  ∃ s,
    ce pairs !! k = Some s
    ∧ (adj_step (stage2_graph ce threshold texts members) x y
       ↔ (threshold <= s)%Q)
    ∧ (adj_step (stage2_graph ce threshold texts members) y x
       ↔ (threshold <= s)%Q).
Proof.
  intros Hce Hk pairs.
  assert ((x, y) ∈ bounded_pairs (length members)) as Hin
    by by eapply list_elem_of_lookup_2.
  pose proof (proj1 (elem_of_bounded_pairs _ _ _) Hin) as [Hxy Hnear].
  destruct (stage2_graph_edge ce threshold texts members x y Hce Hxy Hnear)
    as (s & Hget & Hxy' & Hyx').
  unfold stage2_scored in Hget. cbv zeta in Hget.
  rewrite text_pairs_members in Hget
    by (intros i j Hij%elem_of_bounded_pairs; lia).
  fold pairs in Hget.
  destruct (scored_pairs_position (bounded_pairs (length members))
              (ce pairs) x y)
    as (k' & s' & Hk' & Hs & Hget').
  { apply NoDup_bounded_pairs. }
  { unfold pairs. by rewrite Hce, length_fmap. }
  { done. }
  assert (s' = s) as -> by congruence.
  assert (k' = k) as ->
    by (eapply NoDup_lookup; [apply NoDup_bounded_pairs|done..]).
  by exists s.
Qed.

(** [len(set(cluster_labels) - {-1}) > 1]: two rows have different labels
    other than the noise label. *)
Lemma unique_labels_gt_one (labels : list Z) :
  2 ≤ size (unique_labels labels)
  ↔ ∃ c c', c ∈ labels ∧ c' ∈ labels
            ∧ c ≠ (-1)%Z ∧ c' ≠ (-1)%Z ∧ c ≠ c'.
Proof.
  rewrite size_two_elements. unfold unique_labels. split.
  - intros (a & b & Hne & Ha & Hb). exists a, b. set_solver.
  - intros (c & c' & Hc & Hc' & H1 & H2 & Hne). exists c, c'. set_solver.
Qed.

Section TrySplit.
Context {embeddings : Type}.
Variable hdbscan_fit_predict : hdbscan_params → embeddings → list Z.
Variable linkage_fcluster : nat → list Q → Q → list Z.
Variable set_iter : gset nat → list nat.
Hypothesis set_iter_perm : ∀ s, set_iter s ≡ₚ elements s.

(** The labels the fine density pass gives the texts of a group. *)
Definition fine_labels (bi : list text → embeddings)
    (questions : list question) (indices : list nat) : list Z :=
  hdbscan_fit_predict fine_params
    (bi (prepare_e5_text <$> group_texts questions indices)).

(** The loop of [try_split_group] over the fine clusters. *)
Definition density_pass (ce : list (text * text) → list Q) (threshold : Q)
    (bi : list text → embeddings) (questions : list question)
    (indices : list nat) : M (Z * list (nat * Z)) :=
  for_each (stage2_cluster set_iter ce threshold
              (group_texts questions indices) indices)
    (group_clusters (fine_labels bi questions indices)) (0%Z, []).

(** The calls a cluster of the fine pass makes. *)
Definition cluster_calls (ce : list (text * text) → list Q)
    (texts : list text) (e : Z * list nat) : list event :=
  if decide (length e.2 < 2) then []
  else [PredictCall (text_pairs ((λ i, texts !!! i) <$> e.2)
                       (bounded_pairs (length e.2)))].

Lemma stage2_cluster_trace ce threshold texts indices st e :
  Forall (λ p, p < length texts) e.2 →
  trace (stage2_cluster set_iter ce threshold texts indices st e)
  = cluster_calls ce texts e.
Proof.
  intros Hmem. unfold stage2_cluster, cluster_calls.
  case_decide as Hn; [done|].
  rewrite (M_ret_eq _ _
             (traced_nothing _
                (traced_comprehension _ _ _ (traced_index _ texts)))
             (comprehension_index texts e.2 Hmem)).
  rewrite bind_ret_l.
  destruct (text_pairs _ (bounded_pairs (length e.2)))
    as [|p ps] eqn:Hp.
  { apply fmap_nil_inv in Hp.
    assert ((0, 1) ∈ bounded_pairs (length e.2)) as Hin
      by (apply elem_of_bounded_pairs; lia).
    rewrite Hp in Hin. by apply elem_of_nil in Hin. }
  unfold predict. rewrite bind_assoc, trace_emit_bind, bind_ret_l.
  f_equal. rewrite trace_bind.
  rewrite (traced_nothing _
             (traced_for_each _ _ _ _
                (λ s x, stage2_start_silent set_iter _ _ _ s x))).
  by destruct (result _).
Qed.

Lemma density_pass_spec ce threshold bi questions indices :
  NoDup indices →
  length (fine_labels bi questions indices) = length indices →
  ∃ st,
    result (density_pass ce threshold bi questions indices) = Ok st
    ∧ grouped_by_components (λ k (d : list (nat * Z)), dict_get k d)
        indices (group_clusters (fine_labels bi questions indices))
        (stage2_graph ce threshold (group_texts questions indices)) st.2
    ∧ NoDup (dict_keys st.2)
    ∧ trace (density_pass ce threshold bi questions indices)
      = concat (cluster_calls ce (group_texts questions indices)
                <$> group_clusters (fine_labels bi questions indices)).
Proof.
  intros Hnd Hlen. unfold density_pass.
  set (texts := group_texts questions indices).
  set (labels := fine_labels bi questions indices) in *.
  assert (length indices = length texts) as Htexts
    by (unfold texts, group_texts; by rewrite length_fmap).
  assert (∀ (e : Z * list nat) p,
            e ∈ group_clusters labels → p ∈ e.2 → p < length indices)
    as Hbelow.
  { intros [k ms] p He Hp.
    destruct (grouped_entry cluster_key _ _ _ _
                (group_clusters_grouped labels) He) as (_ & _ & Hm).
    apply Hm in Hp as (x & Hx%lookup_lt_Some & _). lia. }
  assert (Forall (λ e : Z * list nat,
                    Forall (λ p, p < length texts) e.2)
                 (group_clusters labels)) as Hall.
  { apply Forall_forall. intros e He. apply Forall_forall. intros p Hp.
    rewrite <-Htexts. by apply (Hbelow e). }
  destruct (stage2_clusters_spec set_iter set_iter_perm ce threshold texts
              indices (group_clusters labels) (0%Z, []) Hall Htexts)
    as (nss & Hfound & Hres).
  eexists. split; [exact Hres|]. split_and!.
  - apply (key_groups_grouped (λ c, (c + 1)%Z) id
             (λ k (d : list (nat * Z)), dict_get k d) dict_set).
    + intros k k' v d. apply dict_get_set.
    + done.
    + intros i j. rewrite !iter_Zsucc. unfold id. lia.
    + done.
    + done.
    + intros ms y. apply stage2_graph_irreflexive.
    + done.
  - by apply NoDup_stage2_assign, NoDup_nil.
  - clear Hres Hfound Hbelow. generalize (0%Z, @nil (nat * Z)).
    induction Hall as [|e clusters He _ IH]; intros st; [done|].
    cbn [for_each]. csimpl.
    destruct (stage2_cluster_spec set_iter set_iter_perm ce threshold
                texts indices st e He Htexts) as (nodess & _ & Hr).
    rewrite (trace_bind_ok _ _ _ Hr), IH.
    by rewrite stage2_cluster_trace.
Qed.

(** [try_split_group] on a group of four or more records. *)
Lemma try_split_group_eq questions indices bi ce threshold :
  Forall (λ i, i < length questions) indices →
  ¬ length indices < 4 →
  try_split_group hdbscan_fit_predict linkage_fcluster set_iter questions
    indices bi ce threshold
  = (emit (EncodeCall (prepare_e5_text <$> group_texts questions indices))
     ;;; emit (FitPredictCall fine_params)
     ;;; if decide (size (unique_labels
                            (fine_labels bi questions indices)) ≤ 1)
         then try_split_with_cross_encoder linkage_fcluster questions
                indices (group_texts questions indices) ce threshold
         else
           st <- density_pass ce threshold bi questions indices ;;
           if decide (1 < distinct_values st.2)
           then ret (Some st.2) else ret None).
Proof.
  intros Hrange Hn. unfold try_split_group.
  rewrite decide_False by done.
  assert (comprehension
            (λ i, q <- index questions i ;; ret (get_question_text q))
            indices = ret (group_texts questions indices)) as ->.
  { apply M_ret_eq; [|by apply group_texts_result].
    apply traced_nothing, traced_comprehension. intros i.
    apply traced_bind; [apply traced_index|intros; apply traced_ret]. }
  rewrite bind_ret_l. unfold bi_encoder_encode, fit_predict.
  rewrite bind_assoc. apply bind_ext. intros _. rewrite bind_ret_l.
  rewrite bind_assoc. apply bind_ext. intros _. by rewrite bind_ret_l.
Qed.

(** [try_split_group] returns, and what it returns is a well-formed
    split with two sub-groups or more. *)
Lemma try_split_group_spec questions indices bi ce threshold :
  Forall (λ i, i < length questions) indices →
  NoDup indices →
  length (fine_labels bi questions indices) = length indices →
  length (fallback_labels linkage_fcluster ce threshold
            (group_texts questions indices) (length indices))
    = length indices →
  ∃ r,
    result (try_split_group hdbscan_fit_predict linkage_fcluster set_iter
              questions indices bi ce threshold) = Ok r
    ∧ ∀ d, r = Some d → split_ok indices d ∧ 1 < distinct_values d.
Proof.
  intros Hrange Hnd Hfine Hfall.
  destruct (decide (length indices < 4)) as [Hn|Hn].
  { exists None. split; [|done]. unfold try_split_group.
    by rewrite decide_True by done. }
  rewrite try_split_group_eq by done. rewrite !result_emit_then.
  case_decide as Hu.
  - rewrite try_split_with_cross_encoder_result;
      [|done|unfold group_texts; by rewrite length_fmap|done].
    eexists. split; [done|]. intros d Hd.
    by eapply fallback_split_ok.
  - destruct (density_pass_spec ce threshold bi questions indices Hnd
                Hfine) as (st & Hres & Hg & Hkeys & _).
    rewrite (bind_ok _ _ _ Hres). case_decide as Hd.
    + eexists. split; [done|]. intros d [= <-]. split; [|done].
      eapply density_split_ok; [done| |exact Hg|done].
      intros [k ms] p He Hp.
      destruct (grouped_entry cluster_key _ _ _ _
                  (group_clusters_grouped _) He) as (_ & _ & Hm).
      apply Hm in Hp as (x & Hx%lookup_lt_Some & _). lia.
    + by exists None.
Qed.
End TrySplit.

Lemma try_split_group_small {embeddings}
    (hdb : hdbscan_params → embeddings → list Z) linkage_fcluster set_iter
    questions indices bi ce threshold :
  length indices < 4 →
  try_split_group hdb linkage_fcluster set_iter questions indices bi ce
    threshold = ret None.
Proof. intros Hn. unfold try_split_group. by rewrite decide_True by done. Qed.

Section Stage2Claims.
Context {embeddings : Type}.
Variable hdbscan_fit_predict : hdbscan_params → embeddings → list Z.
Variable linkage_fcluster : nat → list Q → Q → list Z.
Variable set_iter : gset nat → list nat.
Hypothesis set_iter_perm : ∀ s, set_iter s ≡ₚ elements s.

(** C7.  In the density pass of Stage 2 a fine cluster of two or more
    members makes one call to the scorer, on the texts of the pairs of a
    position with one of the next 50 positions, each pair once, and a
    smaller cluster makes none; the score returned for such a pair
    decides the edge between the two positions, and no edge joins
    positions more than 50 apart; the sub-groups are the connected
    components with two or more members of these graphs, which
    [try_split_group] returns when two of them have different numbers,
    and otherwise it reports no split. *)
Theorem stage2_bounded_verification questions indices bi ce threshold :
  Forall (λ i, i < length questions) indices →
  NoDup indices →
  length (fine_labels hdbscan_fit_predict bi questions indices)
    = length indices →
  (∀ pairs, length (ce pairs) = length pairs) →
  let texts := group_texts questions indices in
  let labels := fine_labels hdbscan_fit_predict bi questions indices in
  let clusters := group_clusters labels in
  let graph := stage2_graph ce threshold texts in
  (∀ p idx, indices !! p = Some idx →
     ∃ q, questions !! idx = Some q
          ∧ texts !! p = Some (get_question_text q))
  ∧ (∀ (e : Z * list nat) st,
       e ∈ clusters →
       let n := length e.2 in
       let text x := texts !!! (e.2 !!! x) in
       let run := stage2_cluster set_iter ce threshold texts indices st e in
       (n < 2 → trace run = [])
       ∧ (2 ≤ n →
          ∃ positions,
            NoDup positions
            ∧ (∀ i j, (i, j) ∈ positions ↔ i < j < n ∧ j ≤ i + 50)
            ∧ let pairs :=
                (λ p : nat * nat, (text p.1, text p.2)) <$> positions in
              trace run = [PredictCall pairs]
              ∧ ∀ k x y, positions !! k = Some (x, y) →
                  ∃ s, ce pairs !! k = Some s
                       ∧ (adj_step (graph e.2) x y ↔ (threshold <= s)%Q)
                       ∧ (adj_step (graph e.2) y x ↔ (threshold <= s)%Q)))
  ∧ (∀ (e : Z * list nat) x y,
       adj_step (graph e.2) x y →
       x ≠ y ∧ x < length e.2 ∧ y < length e.2
       ∧ (x < y → y ≤ x + 50) ∧ (y < x → x ≤ y + 50))
  ∧ ∃ st,
      result (density_pass hdbscan_fit_predict set_iter ce threshold bi
                questions indices) = Ok st
      ∧ grouped_by_components (λ k (d : list (nat * Z)), dict_get k d)
          indices clusters graph st.2
      ∧ (4 ≤ length indices →
         (∃ c c', c ∈ labels ∧ c' ∈ labels
                  ∧ c ≠ (-1)%Z ∧ c' ≠ (-1)%Z ∧ c ≠ c') →
         let split :=
           result (try_split_group hdbscan_fit_predict linkage_fcluster
                     set_iter questions indices bi ce threshold) in
         let two_sub_groups :=
           ∃ k k' v v', (k, v) ∈ st.2 ∧ (k', v') ∈ st.2 ∧ v ≠ v' in
         (two_sub_groups → split = Ok (Some st.2))
         ∧ (¬ two_sub_groups → split = Ok None)).
Proof.
  intros Hrange Hnd Hlen Hce texts labels clusters graph.
  assert (∀ e : Z * list nat, e ∈ clusters →
            Forall (λ p, p < length texts) e.2) as Hmembers.
  { intros [k ms] He. apply Forall_forall. intros p Hp.
    destruct (grouped_entry cluster_key _ _ _ _
                (group_clusters_grouped labels) He) as (_ & _ & Hm).
    apply Hm in Hp as (x & Hx%lookup_lt_Some & _).
    unfold texts, group_texts. rewrite length_fmap.
    unfold labels in Hx. lia. }
  split_and!.
  - intros p idx Hp.
    assert (idx < length questions) as Hidx.
    { rewrite Forall_forall in Hrange. apply Hrange.
      by eapply list_elem_of_lookup_2. }
    destruct (lookup_lt_is_Some_2 questions idx Hidx) as [q Hq].
    exists q. split; [done|].
    unfold texts, group_texts. rewrite list_lookup_fmap, Hp. simpl.
    by rewrite (list_lookup_total_correct _ _ _ Hq).
  - intros e st He n text run.
    assert (trace run = cluster_calls ce texts e) as Htrace
      by (apply stage2_cluster_trace; by apply Hmembers).
    unfold cluster_calls in Htrace. split.
    + intros Hn. by rewrite Htrace, decide_True.
    + intros Hn. exists (bounded_pairs n).
      split_and!; [apply NoDup_bounded_pairs|apply elem_of_bounded_pairs|].
      cbv zeta. split.
      * rewrite Htrace, decide_False by (fold n; lia).
        rewrite text_pairs_members; [done|].
        intros i j Hij%elem_of_bounded_pairs. lia.
      * intros k x y Hk.
        apply (stage2_graph_score ce threshold texts e.2 k x y Hce Hk).
  - intros e x y. apply stage2_graph_below.
  - destruct (density_pass_spec hdbscan_fit_predict set_iter set_iter_perm
                ce threshold bi questions indices Hnd Hlen)
      as (st & Hres & Hg & _ & _).
    exists st. split_and!; [done..|]. intros Hn Hu split two_sub_groups.
    apply unique_labels_gt_one in Hu.
    assert (split = Ok (if decide (1 < distinct_values st.2)
                        then Some st.2 else None)) as ->.
    { unfold split. rewrite try_split_group_eq by (done || lia).
      rewrite !result_emit_then. fold labels.
      rewrite decide_False by lia. rewrite (bind_ok _ _ _ Hres).
      by case_decide. }
    unfold two_sub_groups. rewrite <-distinct_values_gt_one.
    split; intros Hd; [by rewrite decide_True|by rewrite decide_False].
Qed.

(** C10.  [try_split_group] calls the hierarchical fallback only when the
    fine density pass leaves at most one cluster besides the noise, and
    then the fallback decides the split.  With two clusters or more the
    outcome is that of the bounded verification alone: without two
    distinct sub-groups it reports no split, Stage 2 counts the group as
    kept and leaves the records as they are, and no fallback is run. *)
Theorem fallback_only_without_fine_clusters questions indices bi ce
    threshold :
  Forall (λ i, i < length questions) indices →
  let labels := fine_labels hdbscan_fit_predict bi questions indices in
  let split := try_split_group hdbscan_fit_predict linkage_fcluster
                 set_iter questions indices bi ce threshold in
  (∀ n, LinkageCall n ∈ trace split →
        4 ≤ length indices ∧ size (unique_labels labels) ≤ 1)
  ∧ (4 ≤ length indices → size (unique_labels labels) ≤ 1 →
     result split
     = result (try_split_with_cross_encoder linkage_fcluster questions
                 indices (group_texts questions indices) ce threshold))
  ∧ (4 ≤ length indices → 2 ≤ size (unique_labels labels) →
     ∀ st,
       result (density_pass hdbscan_fit_predict set_iter ce threshold bi
                 questions indices) = Ok st →
       result split
       = Ok (if decide (1 < distinct_values st.2) then Some st.2
             else None)
       ∧ (distinct_values st.2 ≤ 1 →
          ∀ group_id groups_split groups_kept,
            result (stage2_group hdbscan_fit_predict linkage_fcluster
                      set_iter bi ce threshold
                      (questions, groups_split, groups_kept)
                      (group_id, indices))
            = Ok (questions, groups_split, S groups_kept)
            ∧ ∀ n, LinkageCall n
                   ∉ trace (stage2_group hdbscan_fit_predict
                              linkage_fcluster set_iter bi ce threshold
                              (questions, groups_split, groups_kept)
                              (group_id, indices)))).
Proof.
  intros Hrange labels split.
  assert (4 ≤ length indices → 2 ≤ size (unique_labels labels) →
          ∀ n, LinkageCall n ∉ trace split) as Hsilent.
  { intros Hn Hu n. unfold split.
    rewrite try_split_group_eq by (done || lia).
    rewrite !trace_emit_bind. fold labels. rewrite decide_False by lia.
    rewrite !elem_of_cons. intros [?|[?|Hin]]; [done..|].
    revert Hin. set (m := bind _ _).
    enough (traced (λ e, ∀ n, e ≠ LinkageCall n) m) as Ht.
    { intros Hin. eapply Forall_forall in Ht; [|exact Hin]. by eapply Ht. }
    apply traced_bind.
    - unfold density_pass. apply traced_for_each. intros st e.
      unfold stage2_cluster. case_decide; [apply traced_ret|].
      apply traced_bind.
      { apply traced_comprehension. intros i. apply traced_index. }
      intros member_texts. destruct (text_pairs _ _); [apply traced_ret|].
      apply traced_bind.
      { unfold predict. apply traced_bind; [by apply traced_emit|].
        intros; apply traced_ret. }
      intros scores. apply traced_bind; [|intros; apply traced_ret].
      apply traced_for_each. intros s x.
      eapply traced_impl; [|apply stage2_start_silent]. done.
    - intros st. case_decide; apply traced_ret. }
  split_and!.
  - intros n Hin. destruct (decide (length indices < 4)) as [Hn|Hn].
    { unfold split in Hin. rewrite try_split_group_small in Hin by done.
      by apply elem_of_nil in Hin. }
    split; [lia|].
    destruct (decide (size (unique_labels labels) ≤ 1)) as [|Hu]; [done|].
    destruct (Hsilent ltac:(lia) ltac:(lia) n Hin).
  - intros Hn Hu. unfold split.
    rewrite try_split_group_eq by (done || lia).
    rewrite !result_emit_then. fold labels. by rewrite decide_True by done.
  - intros Hn Hu st Hres.
    assert (result split
            = Ok (if decide (1 < distinct_values st.2) then Some st.2
                  else None)) as Hsplit.
    { unfold split. rewrite try_split_group_eq by (done || lia).
      rewrite !result_emit_then. fold labels.
      rewrite decide_False by lia. rewrite (bind_ok _ _ _ Hres).
      by case_decide. }
    split; [done|]. intros Hd group_id groups_split groups_kept.
    rewrite decide_False in Hsplit by lia.
    unfold stage2_group. fold split. split.
    + by rewrite (bind_ok _ _ _ Hsplit).
    + intros n. rewrite (trace_bind_ok _ _ _ Hsplit). simpl.
      rewrite app_nil_r. by apply Hsilent.
Qed.
End Stage2Claims.

(** Five records, all in the group of the indices 0 to 4. *)
Definition example_indices : list nat := [0; 1; 2; 3; 4].

(** ** A group with a fine cluster wider than the bound *)

(** Fifty-four questions with different texts. *)
Definition example_wide_questions : list question :=
  (λ i, example_question [N.of_nat (200 + i)]) <$> seq 0 54.

Definition example_wide_indices : list nat := seq 0 54.

(** A clusterer that puts the first 52 texts in one cluster and the other
    two in a second one. *)
Definition example_wide_hdbscan (p : hdbscan_params) (e : list text)
    : list Z :=
  take (length e) (replicate 52 0%Z ++ [1; 1]%Z).

(** A scorer that finds every pair similar. *)
Definition example_accepting_cross_encoder (pairs : list (text * text))
    : list Q :=
  (λ _, (9 # 10)%Q) <$> pairs.

Lemma stage2_bounded_verification_witness :
  ∃ d L,
    result (try_split_group example_wide_hdbscan example_fcluster elements
              example_wide_questions example_wide_indices id
              example_accepting_cross_encoder (7 # 10)) = Ok (Some d)
    ∧ dict_get 0 d = Some L ∧ dict_get 51 d = Some L
    ∧ adj_step (stage2_graph example_accepting_cross_encoder (7 # 10)
                  (group_texts example_wide_questions example_wide_indices)
                  (seq 0 52)) 0 50
    ∧ ¬ adj_step (stage2_graph example_accepting_cross_encoder (7 # 10)
                    (group_texts example_wide_questions
                       example_wide_indices)
                    (seq 0 52)) 0 51.
Proof.
  destruct (stage2_bounded_verification example_wide_hdbscan
              example_fcluster elements elements_perm
              example_wide_questions example_wide_indices id
              example_accepting_cross_encoder (7 # 10))
    as (_ & Hcalls & Hedges & st & Hres & [Hgroups _] & Hsplit).
  - compute_done.
  - apply NoDup_seq.
  - reflexivity.
  - intros pairs. unfold example_accepting_cross_encoder.
    apply length_fmap.
  - set (graph := stage2_graph example_accepting_cross_encoder (7 # 10)
                    (group_texts example_wide_questions
                       example_wide_indices)) in *.
    set (clusters := group_clusters _) in *.
    assert ((0%Z, seq 0 52) ∈ clusters) as Hwide
      by (vm_compute; apply list_elem_of_here).
    assert ((1%Z, [52; 53]) ∈ clusters) as Hpair
      by (vm_compute; apply list_elem_of_further, list_elem_of_here).
    (* the scorer accepts every pair it is given *)
    assert (∀ e : Z * list nat, e ∈ clusters → ∀ x y,
              x < y < length e.2 → y ≤ x + 50 →
              adj_step (graph e.2) x y) as Hadj.
    { intros e He x y Hxy Hnear.
      destruct (Hcalls e (0%Z, []) He) as [_ Hcall].
      destruct Hcall as (positions & _ & Hpos & _ & Hscore); [lia|].
      pose proof (proj2 (Hpos x y) (conj Hxy Hnear)) as Hin.
      apply list_elem_of_lookup in Hin as [k Hk].
      destruct (Hscore k x y Hk) as (s & Hs & Hedge & _).
      apply Hedge. unfold example_accepting_cross_encoder in Hs.
      rewrite list_lookup_fmap in Hs.
      apply fmap_Some in Hs as (p & _ & ->).
      unfold Qle. simpl. lia. }
    assert (length (seq 0 52) = 52) as Hlen by apply length_seq.
    assert (adj_step (graph (seq 0 52)) 0 1) as H01
      by (apply (Hadj (0%Z, seq 0 52) Hwide); cbn [snd]; lia).
    assert (adj_step (graph (seq 0 52)) 1 51) as H151
      by (apply (Hadj (0%Z, seq 0 52) Hwide); cbn [snd]; lia).
    assert (adj_step (graph [52; 53]) 0 1) as Hp01
      by (apply (Hadj (1%Z, [52; 53]) Hpair); cbn [snd length]; lia).
    (* the numbers of the two clusters *)
    destruct (Hgroups (0%Z, seq 0 52) 0 Hwide) as [_ Hw];
      [cbn [snd]; lia|].
    destruct Hw as (L & HL & HLkeys).
    { cbn [snd]. unfold adj_step in H01. intros Hempty.
      rewrite Hempty in H01. by apply elem_of_empty in H01. }
    destruct (Hgroups (1%Z, [52; 53]) 0 Hpair) as [_ Hp];
      [cbn [snd length]; lia|].
    destruct Hp as (L' & HL' & HLkeys').
    { cbn [snd]. unfold adj_step in Hp01. intros Hempty.
      rewrite Hempty in Hp01. by apply elem_of_empty in Hp01. }
    cbn [snd] in HL, HLkeys, HL', HLkeys'.
    change (key_of example_wide_indices (seq 0 52) 0) with 0 in HL.
    change (key_of example_wide_indices [52; 53] 0) with 52 in HL'.
    assert (dict_get 51 st.2 = Some L) as H51.
    { apply HLkeys. exists 51. split; [|done].
      eapply rtc_l; [exact H01|]. exact (rtc_once _ _ H151). }
    assert (L ≠ L') as Hne.
    { intros <-. apply HLkeys' in HL as (y & Hy & Hkey).
      assert (y < 2) as Hy2.
      { apply (connected_below (graph [52; 53]) 2 0 y); [|lia|done].
        intros a b Hab. apply (Hedges (1%Z, [52; 53])) in Hab.
        cbn [snd length] in Hab. lia. }
      destruct y as [|[|y]]; [done|done|lia]. }
    exists st.2, L. split_and!; [|done|done| |].
    + apply Hsplit.
      * unfold example_wide_indices. rewrite length_seq. lia.
      * exists 0%Z, 1%Z. split_and!; [| |done..].
        -- apply list_elem_of_lookup. by exists 0.
        -- apply list_elem_of_lookup. by exists 52.
      * exists 0, 52, L, L'.
        split_and!; [by apply dict_get_Some_elem..|done].
    + apply (Hadj (0%Z, seq 0 52) Hwide); cbn [snd]; lia.
    + intros Hedge. apply (Hedges (0%Z, seq 0 52)) in Hedge. lia.
Defined.

Lemma fallback_only_without_fine_clusters_witness :
  result (stage2_group example_hdbscan example_fcluster elements id
            example_cross_encoder (95 # 100) (example_questions, 0, 0)
            ("sim_group_1", example_indices))
  = Ok (example_questions, 0, 1)
  ∧ ∀ n, LinkageCall n
         ∉ trace (stage2_group example_hdbscan example_fcluster elements id
                    example_cross_encoder (95 # 100)
                    (example_questions, 0, 0)
                    ("sim_group_1", example_indices)).
Proof.
  destruct (fallback_only_without_fine_clusters example_hdbscan
              example_fcluster elements example_questions example_indices
              id example_cross_encoder (95 # 100))
    as (_ & _ & Hkept).
  - compute_done.
  - apply (Hkept ltac:(vm_compute; lia) ltac:(vm_compute; lia) (0%Z, [])).
    + by vm_compute.
    + vm_compute. lia.
Defined.

(** ** Stage 2: writing a split onto the records *)

(** A sequence of writes [questions[k]["similarity_group_id"] = v]. *)
Definition write_labels (items : list (nat * option string))
    (questions : list question) : list question :=
  foldl (λ qs e, <[e.1 := set_group_id e.2 (qs !!! e.1)]> qs) questions items.

Lemma length_write_labels items questions :
  length (write_labels items questions) = length questions.
Proof.
  unfold write_labels. revert questions.
  induction items as [|e items IH]; intros questions; [done|].
  simpl. by rewrite IH, length_insert.
Qed.

Lemma lookup_write_labels items questions i :
  NoDup items.*1 →
  write_labels items questions !! i
  = match dict_get i items with
    | Some v => set_group_id v <$> questions !! i
    | None => questions !! i
    end.
Proof.
  unfold write_labels. revert questions.
  induction items as [|[k v] items IH]; intros questions Hnd; [done|].
  apply NoDup_cons in Hnd as [Hk Hnd]. cbn [foldl dict_get fst snd].
  rewrite IH by done. destruct (decide (i = k)) as [->|Hne].
  - assert (dict_get k items = None) as ->.
    { destruct (dict_get k items) eqn:Hget; [|done].
      by apply dict_get_Some_elem, (list_elem_of_fmap_2 fst) in Hget. }
    destruct (questions !! k) as [q|] eqn:Hq.
    + rewrite list_lookup_insert_eq by by eapply lookup_lt_Some.
      by rewrite (list_lookup_total_correct _ _ _ Hq).
    + apply lookup_ge_None. rewrite length_insert.
      by apply lookup_ge_None.
  - rewrite list_lookup_insert_ne by done. done.
Qed.

Lemma set_question_group_ret questions idx v q :
  questions !! idx = Some q →
  set_question_group questions idx v
  = ret (<[idx := set_group_id v q]> questions).
Proof.
  intros Hq. unfold set_question_group, index. rewrite Hq.
  by rewrite bind_ret_l.
Qed.

Lemma for_each_writes {X} (f : X → option (nat * option string))
    (l : list X) questions :
  (∀ x k v, x ∈ l → f x = Some (k, v) → k < length questions) →
  result (for_each (λ qs x,
                      match f x with
                      | Some (k, v) => set_question_group qs k v
                      | None => ret qs
                      end) l questions)
  = Ok (write_labels (omap f l) questions).
Proof.
  revert questions. induction l as [|x l IH]; intros questions Hb; [done|].
  cbn [for_each].
  change (omap f (x :: l))
    with (match f x with Some y => y :: omap f l | None => omap f l end).
  destruct (f x) as [[k v]|] eqn:Hf.
  - assert (k < length questions) as Hk
      by (eapply Hb; [apply list_elem_of_here|done]).
    destruct (lookup_lt_is_Some_2 _ _ Hk) as [q Hq].
    rewrite (set_question_group_ret _ _ _ _ Hq), bind_ret_l, IH.
    + unfold write_labels. cbn [foldl fst snd].
      by rewrite (list_lookup_total_correct _ _ _ Hq).
    + intros x' k' v' Hx' Hf'. rewrite length_insert.
      eapply Hb; [by apply list_elem_of_further|done].
  - rewrite bind_ret_l. apply IH. intros x' k' v' Hx' Hf'.
    eapply Hb; [by apply list_elem_of_further|done].
Qed.

Lemma fmap_fst_pair {A B} (c : B) (l : list A) :
  ((λ x, (x, c)) <$> l).*1 = l.
Proof. induction l as [|x l IH]; [done|]. csimpl. by rewrite IH. Qed.

(** The record at a position after a split of the group [indices]. *)
Definition split_record (group_id : string) (indices : list nat)
    (split_result : list (nat * Z)) (i : nat) (q : question) : question :=
  match dict_get i split_result with
  | Some n => set_group_id (Some (sub_group_label group_id n)) q
  | None => if decide (i ∈ indices) then set_group_id None q else q
  end.

Lemma apply_split_spec group_id indices d questions :
  Forall (λ i, i < length questions) indices →
  NoDup indices → split_ok indices d →
  ∃ questions',
    result (apply_split group_id indices d questions) = Ok questions'
    ∧ ∀ i, questions' !! i
           = split_record group_id indices d i <$> questions !! i.
Proof.
  intros Hrange Hnd (Hkeys & Hsub & _).
  pose proof (proj1 (Forall_forall _ _) Hrange) as Hr.
  set (f1 := λ e : nat * Z,
         Some (e.1, Some (sub_group_label group_id e.2))).
  set (f2 := λ idx : nat,
         match dict_get idx d with
         | None => Some (idx, @None string)
         | Some _ => None
         end).
  assert (omap f1 d
          = (λ e : nat * Z, (e.1, Some (sub_group_label group_id e.2)))
            <$> d) as Hf1.
  { clear. induction d as [|e d IH]; [done|]. csimpl. by rewrite IH. }
  assert (omap f2 indices
          = (λ idx, (idx, @None string))
            <$> filter (λ idx, dict_get idx d = None) indices) as Hf2.
  { clear. induction indices as [|i indices IH]; [done|].
    rewrite filter_cons. csimpl. unfold f2 at 1.
    destruct (dict_get i d) eqn:Hget.
    - by rewrite decide_False by done.
    - rewrite decide_True by done. csimpl. by rewrite IH. }
  exists (write_labels (omap f2 indices) (write_labels (omap f1 d) questions)).
  split.
  - unfold apply_split.
    rewrite (for_each_ext _
               (λ qs x, match f1 x with
                        | Some (k, v) => set_question_group qs k v
                        | None => ret qs
                        end)) by by intros qs [idx n].
    assert (∀ x k v, x ∈ d → f1 x = Some (k, v) → k < length questions)
      as Hb1.
    { intros [k n] k' v' Hin [= <- <-]. simpl.
      apply Hr, Hsub. by apply (list_elem_of_fmap_2 fst) in Hin. }
    rewrite (bind_ok _ _ _ (for_each_writes f1 d questions Hb1)).
    rewrite (for_each_ext _
               (λ qs x, match f2 x with
                        | Some (k, v) => set_question_group qs k v
                        | None => ret qs
                        end)).
    2:{ intros qs idx. unfold f2. by destruct (dict_get idx d). }
    apply for_each_writes. intros idx k v Hin Hf.
    rewrite length_write_labels. unfold f2 in Hf.
    destruct (dict_get idx d); simplify_eq.
    by apply Hr.
  - intros i. rewrite !lookup_write_labels.
    + rewrite Hf1, Hf2. unfold split_record.
      destruct (dict_get i d) as [n|] eqn:Hget.
      * assert (dict_get i ((λ idx, (idx, @None string))
                            <$> filter (λ idx, dict_get idx d = None)
                                  indices) = None) as ->.
        { apply dict_get_None. unfold dict_keys.
          rewrite <-list_fmap_compose.
          intros (idx & -> & [Hn _]%list_elem_of_filter)%list_elem_of_fmap.
          simpl in *. congruence. }
        assert (dict_get i ((λ e : nat * Z,
                               (e.1, Some (sub_group_label group_id e.2)))
                            <$> d)
                = Some (Some (sub_group_label group_id n))) as ->; [|done].
        apply elem_of_dict.
        { unfold dict_keys. rewrite <-list_fmap_compose. exact Hkeys. }
        apply list_elem_of_fmap. exists (i, n). split; [done|].
        by apply dict_get_Some_elem.
      * assert (dict_get i ((λ e : nat * Z,
                               (e.1, Some (sub_group_label group_id e.2)))
                            <$> d) = None) as ->.
        { apply dict_get_None. unfold dict_keys.
          rewrite <-list_fmap_compose.
          intros Hin. by apply dict_get_None in Hget. }
        case_decide as Hi.
        -- assert (dict_get i ((λ idx, (idx, @None string))
                               <$> filter (λ idx, dict_get idx d = None)
                                     indices) = Some None) as ->; [|done].
           apply elem_of_dict.
           { unfold dict_keys. rewrite fmap_fst_pair.
             by apply NoDup_filter. }
           apply list_elem_of_fmap. exists i. split; [done|].
           by apply list_elem_of_filter.
        -- assert (dict_get i ((λ idx, (idx, @None string))
                               <$> filter (λ idx, dict_get idx d = None)
                                     indices) = None) as ->;
             [|by destruct (questions !! i)].
           apply dict_get_None. unfold dict_keys.
           rewrite <-list_fmap_compose.
           intros (idx & -> & [_ Hin]%list_elem_of_filter)%list_elem_of_fmap.
           done.
    + rewrite Hf1. rewrite <-list_fmap_compose. exact Hkeys.
    + rewrite Hf2, fmap_fst_pair. by apply NoDup_filter.
Qed.

Lemma length_lookup_fmap {A} (f : nat → A → A) (l l' : list A) :
  (∀ i, l' !! i = f i <$> l !! i) → length l' = length l.
Proof.
  intros Hl. destruct (Nat.lt_total (length l') (length l)) as [Hlt|[?|Hlt]];
    [|done|]; exfalso.
  - destruct (lookup_lt_is_Some_2 l _ Hlt) as [x Hx].
    specialize (Hl (length l')). rewrite Hx in Hl.
    rewrite (proj2 (lookup_ge_None l' (length l'))) in Hl by lia. done.
  - destruct (lookup_lt_is_Some_2 l' _ Hlt) as [x Hx].
    specialize (Hl (length l)). rewrite Hx in Hl.
    rewrite (proj2 (lookup_ge_None l (length l))) in Hl by lia. done.
Qed.

Lemma get_group_id_set v q : get_group_id (set_group_id v q) = v.
Proof. done. Qed.

(** The positions of the groups still to refine. *)
Definition pending (todo : list (string * list nat)) : list nat :=
  concat todo.*2.

Lemma elem_of_pending todo i :
  i ∈ pending todo ↔ ∃ g ms, (g, ms) ∈ todo ∧ i ∈ ms.
Proof.
  unfold pending. rewrite elem_of_concat. split.
  - intros (ms & Hi & ([g ms'] & -> & Hin)%list_elem_of_fmap).
    by exists g, ms'.
  - intros (g & ms & Hin & Hi). exists ms. split; [done|].
    by apply (list_elem_of_fmap_2 snd) in Hin.
Qed.

Lemma pending_filter_sublist (P : string * list nat → Prop)
    `{∀ e, Decision (P e)} groups :
  pending (filter P groups) `sublist_of` pending groups.
Proof.
  unfold pending. induction groups as [|e groups IH]; [done|].
  rewrite filter_cons. case_decide; csimpl.
  - by apply sublist_app.
  - by apply sublist_inserts_l.
Qed.

Section Refine.
Context {embeddings : Type}.
Variable hdbscan_fit_predict : hdbscan_params → embeddings → list Z.
Variable linkage_fcluster : nat → list Q → Q → list Z.
Variable set_iter : gset nat → list nat.
Hypothesis set_iter_perm : ∀ s, set_iter s ≡ₚ elements s.
Variable bi : list text → embeddings.
Variable ce : list (text * text) → list Q.
Variable threshold : Q.
Hypothesis fit_predict_length :
  ∀ texts, length (hdbscan_fit_predict fine_params (bi texts))
           = length texts.
Hypothesis fcluster_length :
  ∀ n scores t, length (linkage_fcluster n scores t) = n.

(** One group of the loop of [run_stage2]: it is kept, or each of its
    records receives a sub-group label that another record of the group
    receives too, or has its label cleared. *)
Lemma stage2_group_spec questions groups_split groups_kept group_id
    indices :
  Forall (λ i, i < length questions) indices →
  NoDup indices →
  ∃ questions' groups_split' groups_kept',
    result (stage2_group hdbscan_fit_predict linkage_fcluster set_iter bi
              ce threshold (questions, groups_split, groups_kept)
              (group_id, indices))
    = Ok (questions', groups_split', groups_kept')
    ∧ groups_split' + groups_kept' = S (groups_split + groups_kept)
    ∧ length questions' = length questions
    ∧ (∀ i, i ∉ indices → questions' !! i = questions !! i)
    ∧ (questions' = questions
       ∨ ∀ i q L, i ∈ indices → questions' !! i = Some q →
           get_group_id q = Some L →
           ∃ j q', j ≠ i ∧ j ∈ indices ∧ questions' !! j = Some q'
                   ∧ get_group_id q' = Some L).
Proof.
  intros Hrange Hnd.
  destruct (try_split_group_spec hdbscan_fit_predict linkage_fcluster
              set_iter set_iter_perm questions indices bi ce threshold
              Hrange Hnd) as (r & Hres & Hr).
  { unfold fine_labels, group_texts.
    by rewrite fit_predict_length, !length_fmap. }
  { unfold fallback_labels. apply fcluster_length. }
  unfold stage2_group. rewrite (bind_ok _ _ _ Hres).
  pose proof (proj1 (Forall_forall _ _) Hrange) as Hlt.
  destruct r as [[|item items]|].
  - exists questions, groups_split, (S groups_kept).
    split_and!; [done|lia|done|done|by left].
  - destruct (Hr _ eq_refl) as [Hok Hd]. cbv zeta.
    set (d := item :: items) in *.
    destruct (decide (1 < distinct_values d)) as [_|?]; [|done].
    destruct (apply_split_spec group_id indices d questions Hrange Hnd
                Hok) as (questions' & Hq' & Hlook).
    rewrite (bind_ok _ _ _ Hq').
    exists questions', (S groups_split), groups_kept.
    destruct Hok as (Hkeys & Hsub & Hpartner).
    assert (∀ k v, (k, v) ∈ d → dict_get k d = Some v) as Hdict
      by (intros k v; by apply elem_of_dict).
    split_and!; [done|lia|by eapply length_lookup_fmap| |right].
    + intros i Hi. rewrite Hlook. unfold split_record.
      assert (dict_get i d = None) as ->.
      { apply dict_get_None. intros Hin. by apply Hi, Hsub. }
      destruct (decide (i ∈ indices)); [done|].
      by destruct (questions !! i).
    + intros i q L Hi Hq HL. rewrite Hlook in Hq.
      destruct (questions !! i) as [q0|] eqn:Hq0; [|done].
      change (Some (split_record group_id indices d i q0) = Some q) in Hq.
      injection Hq as <-. unfold split_record in HL.
      destruct (dict_get i d) as [n|] eqn:Hget.
      2:{ by destruct (decide (i ∈ indices)). }
      rewrite get_group_id_set in HL. injection HL as <-.
      apply dict_get_Some_elem in Hget.
      destruct (Hpartner i n Hget) as (j & Hji & Hj).
      assert (j ∈ indices) as Hjin.
      { apply Hsub. by apply (list_elem_of_fmap_2 fst) in Hj. }
      destruct (lookup_lt_is_Some_2 questions j (Hlt j Hjin)) as [q1 Hq1].
      exists j, (split_record group_id indices d j q1).
      split_and!; [done|done|by rewrite Hlook, Hq1|].
      unfold split_record.
      by rewrite (Hdict _ _ Hj).
  - exists questions, groups_split, (S groups_kept).
    split_and!; [done|lia|done|done|by left].
Qed.

(** The loop of [run_stage2] over the groups still to refine. *)
Lemma refine_loop (questions0 : list question) todo :
  ∀ questions groups_split groups_kept,
  NoDup (pending todo) →
  (∀ i, i ∈ pending todo → i < length questions0) →
  length questions = length questions0 →
  (∀ i, i ∈ pending todo → questions !! i = questions0 !! i) →
  ∃ questions' groups_split' groups_kept',
    result (for_each (stage2_group hdbscan_fit_predict linkage_fcluster
                        set_iter bi ce threshold)
              todo (questions, groups_split, groups_kept))
    = Ok (questions', groups_split', groups_kept')
    ∧ groups_split' + groups_kept'
      = groups_split + groups_kept + length todo
    ∧ length questions' = length questions0
    ∧ (∀ i, i ∉ pending todo → questions' !! i = questions !! i)
    ∧ ((∀ g ms i q L,
          (g, ms) ∈ todo → i ∈ ms → questions0 !! i = Some q →
          get_group_id q = Some L →
          ∃ j q', j ≠ i ∧ j ∈ ms ∧ questions0 !! j = Some q'
                  ∧ get_group_id q' = Some L) →
       (∀ i q L,
          i ∉ pending todo → questions !! i = Some q →
          get_group_id q = Some L →
          ∃ j q', j ≠ i ∧ (j ∉ pending todo) ∧ questions !! j = Some q'
                  ∧ get_group_id q' = Some L) →
       min_group_size questions').
Proof.
  induction todo as [|[g ms] rest IH];
    intros questions groups_split groups_kept Hnd Hrange Hlen Hpend.
  { exists questions, groups_split, groups_kept.
    split_and!; [done|simpl; lia|done|done|].
    intros _ Hmin i q L Hq HL.
    destruct (Hmin i q L) as (j & q' & ? & _ & ? & ?); [|done..|].
    - by intros ?%elem_of_nil.
    - by exists j, q'. }
  change (pending ((g, ms) :: rest)) with (ms ++ pending rest) in *.
  apply NoDup_app in Hnd as (Hms & Hdisj & Hrest).
  destruct (stage2_group_spec questions groups_split groups_kept g ms)
    as (qs1 & s1 & k1 & Hres1 & Hcount1 & Hlen1 & Hout1 & Hin1).
  { apply Forall_forall. intros i Hi. rewrite Hlen.
    apply Hrange, elem_of_app. by left. }
  { done. }
  destruct (IH qs1 s1 k1) as (qs' & s' & k' & Hres & Hcount & Hlen' & Hout
                              & Hmin).
  { done. }
  { intros i Hi. apply Hrange, elem_of_app. by right. }
  { lia. }
  { intros i Hi. rewrite Hout1.
    - apply Hpend, elem_of_app. by right.
    - intros Hi'. by apply (Hdisj i). }
  exists qs', s', k'. split_and!.
  - cbn [for_each]. by rewrite (bind_ok _ _ _ Hres1).
  - simpl. lia.
  - done.
  - intros i [Hi1 Hi2]%not_elem_of_app. by rewrite Hout, Hout1.
  - intros Hpart Hlab. apply Hmin.
    { intros g' ms' i q L Hin. apply (Hpart g').
      by apply list_elem_of_further. }
    intros i q L Hi Hq HL. destruct (decide (i ∈ ms)) as [Hims|Hims].
    + destruct Hin1 as [->|Hsplit].
      * rewrite Hpend in Hq by (apply elem_of_app; by left).
        destruct (Hpart g ms i q L) as (j & q' & Hji & Hj & Hq' & HL');
          [apply list_elem_of_here|done..|].
        exists j, q'. split_and!; [done| | |done].
        -- intros Hj'. by apply (Hdisj j).
        -- rewrite Hpend by (apply elem_of_app; by left). done.
      * destruct (Hsplit i q L Hims Hq HL) as (j & q' & Hji & Hj & Hq' & HL').
        exists j, q'. split_and!; [done| |done..].
        intros Hj'. by apply (Hdisj j).
    + rewrite Hout1 in Hq by done.
      destruct (Hlab i q L) as (j & q' & Hji & Hj & Hq' & HL'); [|done..|].
      { apply not_elem_of_app. by split. }
      apply not_elem_of_app in Hj as [Hj1 Hj2].
      exists j, q'. split_and!; [done..| |done]. by rewrite Hout1.
Qed.
End Refine.

(** ** Stage 2 on a collection *)

(** The groups [find_large_groups] returns. *)
Lemma find_large_groups_spec questions min_size :
  NoDup (pending (find_large_groups questions min_size))
  ∧ ∀ g ms, (g, ms) ∈ find_large_groups questions min_size →
      (min_size < Z.of_nat (length ms))%Z
      ∧ g ≠ ""
      ∧ ∀ i, i ∈ ms ↔ ∃ q, questions !! i = Some q
                           ∧ get_group_id q = Some g.
Proof.
  destruct (find_large_groups_grouped questions min_size)
    as (groups & Hg & ->).
  split.
  - eapply sublist_NoDup; [|apply pending_filter_sublist].
    by eapply (grouped_NoDup group_key).
  - intros g ms [Hsize Hin]%list_elem_of_filter. simpl in Hsize.
    destruct (grouped_entry group_key _ _ _ _ Hg Hin) as (_ & Hne & Hm).
    assert (∀ q, group_key q = Some g ↔ get_group_id q = Some g ∧ g ≠ "")
      as Hkey.
    { intros q. unfold group_key. destruct (get_group_id q) as [g'|];
        [|naive_solver]. case_decide; naive_solver. }
    split_and!; [done| |].
    + destruct ms as [|i ms]; [done|].
      destruct (proj1 (Hm i)) as (q & _ & Hq); [apply list_elem_of_here|].
      by apply Hkey in Hq as [_ ?].
    + intros i. rewrite Hm. split.
      * intros (q & Hq & [? _]%Hkey). by exists q.
      * intros (q & Hq & HL). exists q. split; [done|]. apply Hkey.
        split; [done|]. destruct ms as [|i' ms]; [done|].
        destruct (proj1 (Hm i')) as (q' & _ & Hq');
          [apply list_elem_of_here|].
        by apply Hkey in Hq' as [_ ?].
Qed.

(** The line [run_stage2] prints last when it refined groups. *)
Definition refinement_report (groups_split groups_kept : nat) : event :=
  PrintLine (newline +:+ "Refinement complete: "
               +:+ pretty groups_split +:+ " split, "
               +:+ pretty groups_kept +:+ " kept as-is").

(** The line it prints when there is no group to refine. *)
Definition skip_notice (refine_threshold : Z) : event :=
  PrintLine (newline +:+ "No groups larger than "
               +:+ pretty refine_threshold
               +:+ " items. Skipping refinement.").

Section Stage2Collection.
Context {embeddings : Type}.
Variable hdbscan_fit_predict : hdbscan_params → embeddings → list Z.
Variable linkage_fcluster : nat → list Q → Q → list Z.
Variable set_iter : gset nat → list nat.
Hypothesis set_iter_perm : ∀ s, set_iter s ≡ₚ elements s.
Variable bi : list text → embeddings.
Variable ce : list (text * text) → list Q.
Hypothesis fit_predict_length :
  ∀ texts, length (hdbscan_fit_predict fine_params (bi texts))
           = length texts.
Hypothesis fcluster_length :
  ∀ n scores t, length (linkage_fcluster n scores t) = n.

Lemma run_stage2_spec questions refine_threshold threshold :
  let large_groups := find_large_groups questions refine_threshold in
  let run := run_stage2 hdbscan_fit_predict linkage_fcluster set_iter
               questions bi ce refine_threshold threshold in
  ∃ questions',
    result run = Ok (questions', tt)
    ∧ length questions' = length questions
    ∧ (∀ i, i ∉ pending large_groups → questions' !! i = questions !! i)
    ∧ (min_group_size questions → min_group_size questions')
    ∧ (large_groups = [] →
       questions' = questions ∧ trace run = [skip_notice refine_threshold])
    ∧ (large_groups ≠ [] →
       ∃ groups_split groups_kept,
         groups_split + groups_kept = length large_groups
         ∧ last (trace run)
           = Some (refinement_report groups_split groups_kept)).
Proof.
  intros large_groups run.
  destruct (find_large_groups_spec questions refine_threshold)
    as [Hnd Hlarge]. fold large_groups in Hnd, Hlarge.
  destruct (refine_loop hdbscan_fit_predict linkage_fcluster set_iter
              set_iter_perm bi ce threshold fit_predict_length
              fcluster_length questions large_groups questions 0 0)
    as (qs' & s' & k' & Hres & Hcount & Hlen & Hout & Hmin);
    [done| |done|done|].
  { intros i (g & ms & Hin & Hi)%elem_of_pending.
    destruct (Hlarge g ms Hin) as (_ & _ & Hm).
    apply Hm in Hi as (q & Hq & _). by eapply lookup_lt_Some. }
  unfold run, run_stage2. fold large_groups.
  destruct large_groups as [|e large] eqn:Hlg.
  { exists questions. split_and!; try done. }
  fold (refine_groups hdbscan_fit_predict linkage_fcluster set_iter
          questions (e :: large) bi ce threshold).
  unfold refine_groups.
  exists qs'. split_and!.
  - rewrite !result_emit_then. by rewrite (bind_ok _ _ _ Hres).
  - done.
  - done.
  - intros Hsrc. apply Hmin.
    + intros g ms i q L Hin Hi Hq HL.
      destruct (Hlarge g ms Hin) as (_ & _ & Hm).
      destruct (Hsrc i q L Hq HL) as (j & q' & Hji & Hq' & HL').
      exists j, q'. split_and!; [done| |done..].
      apply Hm in Hi as (q0 & Hq0 & Hg).
      assert (L = g) as -> by congruence.
      apply Hm. by exists q'.
    + intros i q L Hi Hq HL.
      destruct (Hsrc i q L Hq HL) as (j & q' & Hji & Hq' & HL').
      exists j, q'. split_and!; [done| |done..].
      intros (g & ms & Hin & Hj)%elem_of_pending.
      destruct (Hlarge g ms Hin) as (_ & _ & Hm).
      apply Hm in Hj as (q0 & Hq0 & Hg).
      assert (L = g) as -> by congruence.
      apply Hi, elem_of_pending. exists g, ms. split; [done|].
      apply Hm. by exists q.
  - done.
  - intros _. exists s', k'. split; [simpl in *; lia|].
    rewrite !trace_emit_bind, (trace_bind_ok _ _ _ Hres).
    rewrite trace_emit_bind.
    change (trace (ret (qs', tt))) with (@nil event).
    by rewrite !last_cons, last_snoc.
Qed.
End Stage2Collection.

(** The number of records that carry a label. *)
Definition group_size (questions : list question) (g : string) : nat :=
  length (filter (λ q, get_group_id q = Some g) questions).

Lemma large_group_size questions min_size g ms :
  (g, ms) ∈ find_large_groups questions min_size →
  length ms = group_size questions g.
Proof.
  intros Hin.
  destruct (find_large_groups_spec questions min_size) as [Hnd Hlarge].
  destruct (Hlarge g ms Hin) as (_ & _ & Hm).
  assert (NoDup ms) as Hms.
  { eapply NoDup_concat_elem; [exact Hnd|].
    by apply (list_elem_of_fmap_2 snd) in Hin. }
  unfold group_size.
  rewrite <-(length_filter_enumerate_from
               (λ q, get_group_id q = Some g) 0 questions).
  rewrite <-(length_fmap fst). apply Permutation_length.
  apply NoDup_Permutation; [done| |].
  - apply NoDup_fmap_2_strong.
    + intros [i q] [i' q'] [_ Hq%elem_of_enumerate]%list_elem_of_filter
        [_ Hq'%elem_of_enumerate]%list_elem_of_filter. simpl.
      intros <-. congruence.
    + apply NoDup_filter, NoDup_enumerate_from.
  - intros i. rewrite Hm, list_elem_of_fmap. split.
    + intros (q & Hq & Hg). exists (i, q). split; [done|].
      apply list_elem_of_filter. split; [done|]. by apply elem_of_enumerate.
    + intros ([i' q] & -> & [Hg Hq%elem_of_enumerate]%list_elem_of_filter).
      by exists q.
Qed.

(** A clusterer and a cut that label every row: the first five rows as in
    the examples above, the others as noise or as clusters of their own. *)
Definition example_total_hdbscan (p : hdbscan_params) (e : list text)
    : list Z :=
  take (length e) [0; 0; 0; 1; 1]%Z ++ replicate (length e - 5) (-1)%Z.

Definition example_total_fcluster (n : nat) (scores : list Q) (t : Q)
    : list Z :=
  take n [1; 1; 2; 3; 3]%Z ++ (Z.of_nat <$> seq 4 (n - 5)).

Lemma example_total_hdbscan_length p texts :
  length (example_total_hdbscan p (id texts)) = length texts.
Proof.
  unfold example_total_hdbscan, id.
  rewrite length_app, length_take, length_replicate. simpl. lia.
Qed.

Lemma example_total_fcluster_length n scores t :
  length (example_total_fcluster n scores t) = n.
Proof.
  unfold example_total_fcluster.
  rewrite length_app, length_take, length_fmap, length_seq. simpl. lia.
Qed.

(** Five records that carry the label of one group. *)
Definition example_group : list question :=
  set_group_id (Some "g") <$> example_questions.

Section StageClaims.
Context {embeddings : Type}.
Variable hdbscan_fit_predict : hdbscan_params → embeddings → list Z.
Variable linkage_fcluster : nat → list Q → Q → list Z.
Variable set_iter : gset nat → list nat.
Hypothesis set_iter_perm : ∀ s, set_iter s ≡ₚ elements s.

(** C2.  When the clusterer and the cut label every row, Stage 1 ends
    with every label on two records or more, and so does Stage 2, on the
    records of Stage 1 and on any records that start with this property.
    A record holds its label in one field, so it never has two. *)
Theorem groups_have_two_members questions bi ce cross_encoder
    min_cluster_size cross_encoder_threshold use_cross_encoder
    refine_threshold refine_cross_encoder_threshold :
  (∀ p texts, length (hdbscan_fit_predict p (bi texts)) = length texts) →
  (∀ n scores t, length (linkage_fcluster n scores t) = n) →
  (∃ questions1,
     result (run_stage1 hdbscan_fit_predict set_iter questions bi
               cross_encoder min_cluster_size cross_encoder_threshold
               use_cross_encoder) = Ok (questions1, tt)
     ∧ min_group_size questions1
     ∧ ∃ questions2,
         result (run_stage2 hdbscan_fit_predict linkage_fcluster set_iter
                   questions1 bi ce refine_threshold
                   refine_cross_encoder_threshold) = Ok (questions2, tt)
         ∧ min_group_size questions2)
  ∧ (∀ labelled,
       min_group_size labelled →
       ∃ questions2,
         result (run_stage2 hdbscan_fit_predict linkage_fcluster set_iter
                   labelled bi ce refine_threshold
                   refine_cross_encoder_threshold) = Ok (questions2, tt)
         ∧ min_group_size questions2).
Proof.
  intros Hfit Hcut.
  assert (∀ labelled,
            min_group_size labelled →
            ∃ questions2,
              result (run_stage2 hdbscan_fit_predict linkage_fcluster
                        set_iter labelled bi ce refine_threshold
                        refine_cross_encoder_threshold)
              = Ok (questions2, tt)
              ∧ min_group_size questions2) as Hstage2.
  { intros labelled Hmin.
    destruct (run_stage2_spec hdbscan_fit_predict linkage_fcluster
                set_iter set_iter_perm bi ce (Hfit fine_params) Hcut
                labelled refine_threshold refine_cross_encoder_threshold)
      as (questions2 & Hres & _ & _ & Hkeep & _).
    exists questions2. split; [done|]. by apply Hkeep. }
  split; [|done].
  destruct (find_similarity_groups_total hdbscan_fit_predict set_iter
              set_iter_perm (stage1_candidates questions) bi cross_encoder
              min_cluster_size cross_encoder_threshold use_cross_encoder
              (NoDup_stage1_candidates questions))
    as (m & Hres & Hmin & Hkeys).
  { unfold stage1_cluster_labels. by rewrite Hfit, length_fmap. }
  exists (relabel m questions). split_and!.
  - by rewrite run_stage1_result, Hres.
  - by apply relabel_min_group_size.
  - by apply Hstage2, relabel_min_group_size.
Qed.

End StageClaims.

Lemma groups_have_two_members_witness :
  ∃ questions1 questions2,
    result (run_stage1 example_total_hdbscan elements example_collection id
              (Some example_cross_encoder) 2 (7 # 10) true)
    = Ok (questions1, tt)
    ∧ min_group_size questions1
    ∧ result (run_stage2 example_total_hdbscan example_total_fcluster
                elements questions1 id example_cross_encoder 2 (7 # 10))
      = Ok (questions2, tt)
    ∧ min_group_size questions2.
Proof.
  destruct (groups_have_two_members example_total_hdbscan
              example_total_fcluster elements elements_perm
              example_collection id example_cross_encoder
              (Some example_cross_encoder) 2 (7 # 10) true 2 (7 # 10))
    as [(questions1 & Hres1 & Hmin1 & questions2 & Hres2 & Hmin2) _].
  - apply example_total_hdbscan_length.
  - apply example_total_fcluster_length.
  - by exists questions1, questions2.
Defined.



(** * More of the script *)

(** ** The groups of a collection *)

Lemma find_large_groups_similarity questions min_size :
  find_large_groups questions min_size
  = filter (λ e : string * list nat, (min_size < Z.of_nat (length e.2))%Z)
      (similarity_groups questions).
Proof. done. Qed.

Lemma similarity_groups_fold questions :
  similarity_groups questions
  = foldl (group_step group_key) [] (enumerate questions).
Proof.
  unfold similarity_groups. apply foldl_ext_in.
  intros groups [i q] _. unfold group_step, group_key. simpl.
  destruct (get_group_id q); [|done]. by case_decide.
Qed.

Lemma similarity_groups_grouped questions :
  grouped group_key questions (similarity_groups questions).
Proof. rewrite similarity_groups_fold. apply grouped_foldl. Qed.

Lemma group_key_Some q g :
  group_key q = Some g ↔ get_group_id q = Some g ∧ g ≠ "".
Proof.
  unfold group_key. destruct (get_group_id q) as [g'|]; [|naive_solver].
  case_decide; naive_solver.
Qed.

(** A list of positions in increasing order. *)
Definition increasing (l : list nat) : Prop :=
  ∀ a b x y, l !! a = Some x → l !! b = Some y → a < b → x < y.

Lemma elem_of_dict_set_inv {K V} `{EqDecision K} (k k' : K) (v v' : V) d :
  (k', v') ∈ dict_set k v d → (k' = k ∧ v' = v) ∨ (k', v') ∈ d.
Proof.
  induction d as [|[k0 v0] d IH]; simpl.
  - intros [= -> ->]%list_elem_of_singleton. by left.
  - case_decide as Hk.
    + intros [[= -> ->]|Hin]%elem_of_cons; [by left|].
      right. by apply list_elem_of_further.
    + intros [[= -> ->]|Hin]%elem_of_cons.
      * right. apply list_elem_of_here.
      * destruct (IH Hin) as [?|?]; [by left|].
        right. by apply list_elem_of_further.
Qed.

Lemma group_positions_increasing {K X} `{EqDecision K} (key : X → option K)
    (l : list X) k ms :
  (k, ms) ∈ foldl (group_step key) [] (enumerate l) → increasing ms.
Proof.
  revert k ms. induction l as [|x l IH] using rev_ind; intros k ms.
  { by intros ?%elem_of_nil. }
  rewrite enumerate_snoc, foldl_app. cbn [foldl].
  unfold group_step at 1. cbn [fst snd].
  destruct (key x) as [k0|]; [|apply IH].
  unfold dict_append. intros [[-> ->]|Hin]%elem_of_dict_set_inv;
    [|by eapply IH].
  pose proof (grouped_foldl key l) as Hg.
  intros a b y z Ha Hb Hab.
  destruct (dict_get k0 (foldl (group_step key) [] (enumerate l)))
    as [ms0|] eqn:Hget; cbn [default] in *.
  - apply dict_get_Some_elem in Hget.
    apply lookup_app_Some in Hb as [Hb|[Hlen Hb]].
    + rewrite lookup_app_l in Ha by (apply lookup_lt_Some in Hb; lia).
      by eapply (IH k0 ms0 Hget a b).
    + apply list_lookup_singleton_Some in Hb as [Hb0 <-].
      rewrite lookup_app_l in Ha by lia.
      destruct (grouped_entry key _ _ _ _ Hg Hget) as (_ & _ & Hm).
      apply list_elem_of_lookup_2, Hm in Ha as (? & ?%lookup_lt_Some & _).
      done.
  - destruct a, b; simplify_eq/=; lia.
Qed.

Lemma similarity_group_size questions g ms :
  (g, ms) ∈ similarity_groups questions →
  length ms = group_size questions g.
Proof.
  intros Hin. pose proof (similarity_groups_grouped questions) as Hg.
  destruct (grouped_entry group_key _ _ _ _ Hg Hin) as (Hms & Hne & Hm).
  assert (g ≠ "") as Hgne.
  { destruct ms as [|i ms]; [done|].
    destruct (proj1 (Hm i)) as (q & _ & Hq); [apply list_elem_of_here|].
    by apply group_key_Some in Hq as [_ ?]. }
  unfold group_size.
  rewrite <-(length_filter_enumerate_from
               (λ q, get_group_id q = Some g) 0 questions).
  rewrite <-(length_fmap fst). apply Permutation_length.
  apply NoDup_Permutation; [done| |].
  - apply NoDup_fmap_2_strong.
    + intros [i q] [i' q'] [_ Hq%elem_of_enumerate]%list_elem_of_filter
        [_ Hq'%elem_of_enumerate]%list_elem_of_filter. simpl.
      intros <-. congruence.
    + apply NoDup_filter, NoDup_enumerate_from.
  - intros i. rewrite Hm, list_elem_of_fmap. split.
    + intros (q & Hq & [Hk _]%group_key_Some). exists (i, q).
      split; [done|]. apply list_elem_of_filter.
      split; [done|]. by apply elem_of_enumerate.
    + intros ([i' q] & -> & [Hk Hq%elem_of_enumerate]%list_elem_of_filter).
      exists q. split; [done|]. by apply group_key_Some.
Qed.

Lemma group_size_pos questions g :
  0 < group_size questions g
  ↔ ∃ i q, questions !! i = Some q ∧ get_group_id q = Some g.
Proof.
  unfold group_size. split.
  - intros Hpos.
    destruct (filter (λ q, get_group_id q = Some g) questions)
      as [|q qs] eqn:Hf; [simpl in Hpos; lia|].
    assert (q ∈ filter (λ q, get_group_id q = Some g) questions) as Hq
      by (rewrite Hf; apply list_elem_of_here).
    apply list_elem_of_filter in Hq as [Hk Hq].
    apply list_elem_of_lookup in Hq as [i Hi]. by exists i, q.
  - intros (i & q & Hq & Hk).
    assert (q ∈ filter (λ q, get_group_id q = Some g) questions) as Hin.
    { apply list_elem_of_filter. split; [done|].
      by eapply list_elem_of_lookup_2. }
    destruct (filter _ questions); [by apply elem_of_nil in Hin|].
    simpl. lia.
Qed.

(** A label is a key of the groups when a record carries it. *)
Lemma similarity_groups_key questions g :
  g ∈ (similarity_groups questions).*1
  ↔ g ≠ "" ∧ 0 < group_size questions g.
Proof.
  pose proof (similarity_groups_grouped questions) as Hg.
  rewrite group_size_pos. split.
  - intros ([g' ms] & -> & Hin)%list_elem_of_fmap. simpl.
    destruct (grouped_entry group_key _ _ _ _ Hg Hin) as (_ & Hne & Hm).
    destruct ms as [|i ms]; [done|].
    destruct (proj1 (Hm i)) as (q & Hq & [Hk ?]%group_key_Some);
      [apply list_elem_of_here|].
    split; [done|]. by exists i, q.
  - intros (Hne & i & q & Hq & Hk). destruct Hg as [Hkeys Hall].
    destruct (Hall g) as (_ & Hm & _).
    destruct (dict_get g (similarity_groups questions)) as [ms|] eqn:Hget.
    + apply dict_get_Some_elem in Hget.
      by apply (list_elem_of_fmap_2 fst) in Hget.
    + exfalso. simpl in Hm.
      assert (i ∈ @nil nat) as Hi%elem_of_nil; [|done].
      apply Hm. exists q. split; [done|]. by apply group_key_Some.
Qed.

(** X1.  [find_large_groups] returns one entry for each label that is
    not empty and that more than [min_size] records carry: its positions
    are those of the records with the label, in increasing order. *)
Theorem find_large_groups_characterised questions min_size :
  let large := find_large_groups questions min_size in
  NoDup large.*1
  ∧ (∀ g, g ∈ large.*1
          ↔ g ≠ "" ∧ 0 < group_size questions g
            ∧ (min_size < Z.of_nat (group_size questions g))%Z)
  ∧ ∀ g ms, (g, ms) ∈ large →
      length ms = group_size questions g
      ∧ increasing ms
      ∧ ∀ i, i ∈ ms ↔ ∃ q, questions !! i = Some q
                           ∧ get_group_id q = Some g.
Proof.
  intros large. unfold large. rewrite find_large_groups_similarity.
  pose proof (similarity_groups_grouped questions) as Hg.
  split_and!.
  - eapply sublist_NoDup; [apply Hg|].
    apply fmap_sublist, sublist_filter.
  - intros g. split.
    + intros ([g' ms] & -> & [Hsize Hin]%list_elem_of_filter)%list_elem_of_fmap.
      simpl in *.
      rewrite <-(similarity_group_size questions g' ms Hin).
      destruct (proj1 (similarity_groups_key questions g')) as [Hne Hpos].
      { by apply (list_elem_of_fmap_2 fst) in Hin. }
      rewrite <-(similarity_group_size questions g' ms Hin) in Hpos.
      done.
    + intros (Hne & Hpos & Hsize).
      assert (g ∈ (similarity_groups questions).*1) as Hkey
        by by apply similarity_groups_key.
      apply list_elem_of_fmap in Hkey as ([g' ms] & -> & Hin).
      apply list_elem_of_fmap. exists (g', ms). split; [done|].
      apply list_elem_of_filter. split; [|done]. simpl in *.
      by rewrite (similarity_group_size questions g' ms Hin).
  - intros g ms [_ Hin]%list_elem_of_filter. split_and!.
    + by apply similarity_group_size.
    + rewrite similarity_groups_fold in Hin.
      by eapply group_positions_increasing.
    + destruct (grouped_entry group_key _ _ _ _ Hg Hin) as (_ & Hne & Hm).
      intros i. rewrite Hm.
      assert (g ≠ "") as Hgne.
      { destruct (proj1 (similarity_groups_key questions g)) as [? _];
          [|done]. by apply (list_elem_of_fmap_2 fst) in Hin. }
      split.
      * intros (q & Hq & [? _]%group_key_Some). by exists q.
      * intros (q & Hq & Hk). exists q. split; [done|].
        by apply group_key_Some.
Qed.

(** ** The statistics *)

(** The labels of a collection that are not empty. *)
Definition labels (questions : list question) : gset string :=
  list_to_set (omap group_key questions).

(** The number of records that carry such a label. *)
Definition labelled_records (questions : list question) : nat :=
  length (filter (λ q, is_Some (group_key q)) questions).

Lemma elem_of_labels questions g :
  g ∈ labels questions ↔ g ∈ (similarity_groups questions).*1.
Proof.
  rewrite similarity_groups_key, group_size_pos. unfold labels.
  rewrite elem_of_list_to_set, list_elem_of_omap. split.
  - intros (q & Hq & [Hk Hne]%group_key_Some).
    apply list_elem_of_lookup in Hq as [i Hi].
    split; [done|]. by exists i, q.
  - intros (Hne & i & q & Hq & Hk). exists q.
    split; [by eapply list_elem_of_lookup_2|]. by apply group_key_Some.
Qed.

Lemma length_similarity_groups questions :
  length (similarity_groups questions) = size (labels questions).
Proof.
  pose proof (similarity_groups_grouped questions) as [Hkeys _].
  unfold dict_keys in Hkeys.
  rewrite <-(length_fmap fst), <-(size_list_to_set (C:=gset string)) by done.
  f_equal. apply set_eq. intros g.
  by rewrite elem_of_list_to_set, elem_of_labels.
Qed.

Lemma sum_list_lengths {A} (ls : list (list A)) :
  sum_list (length <$> ls) = length (concat ls).
Proof.
  induction ls as [|l ls IH]; [done|]. csimpl.
  by rewrite length_app, IH.
Qed.

Lemma sum_group_sizes questions :
  sum_list ((λ e : string * list nat, length e.2)
            <$> similarity_groups questions)
  = labelled_records questions.
Proof.
  pose proof (similarity_groups_grouped questions) as Hg.
  assert ((λ e : string * list nat, length e.2)
          <$> similarity_groups questions
          = length <$> (similarity_groups questions).*2) as ->
    by by rewrite <-list_fmap_compose.
  rewrite sum_list_lengths.
  unfold labelled_records.
  rewrite <-(length_filter_enumerate_from
               (λ q, is_Some (group_key q)) 0 questions).
  rewrite <-(length_fmap fst). apply Permutation_length.
  apply NoDup_Permutation.
  - by eapply (grouped_NoDup group_key).
  - apply NoDup_fmap_2_strong.
    + intros [i q] [i' q'] [_ Hq%elem_of_enumerate]%list_elem_of_filter
        [_ Hq'%elem_of_enumerate]%list_elem_of_filter. simpl.
      intros <-. congruence.
    + apply NoDup_filter, NoDup_enumerate_from.
  - intros i. rewrite elem_of_concat, list_elem_of_fmap. split.
    + intros (ms & Hi & ([g ms'] & -> & Hin)%list_elem_of_fmap).
      destruct (grouped_entry group_key _ _ _ _ Hg Hin) as (_ & _ & Hm).
      apply Hm in Hi as (q & Hq & Hk). exists (i, q). split; [done|].
      apply list_elem_of_filter. split; [by eexists|].
      by apply elem_of_enumerate.
    + intros ([i' q] & -> & [[g Hk] Hq%elem_of_enumerate]%list_elem_of_filter).
      simpl in *. destruct Hg as [Hkeys Hall].
      destruct (Hall g) as (_ & Hm & _).
      destruct (dict_get g (similarity_groups questions)) as [ms|] eqn:Hget.
      * exists ms. split; [apply Hm; by exists q|].
        apply dict_get_Some_elem in Hget.
        by apply (list_elem_of_fmap_2 snd) in Hget.
      * exfalso. simpl in Hm.
        assert (i' ∈ @nil nat) as Hi%elem_of_nil; [|done].
        apply Hm. by exists q.
Qed.

Lemma labelled_records_le questions :
  labelled_records questions ≤ length questions.
Proof. apply length_filter. Qed.

Lemma py_max_spec (l : list nat) :
  l ≠ [] → py_max l ∈ l ∧ ∀ x, x ∈ l → x ≤ py_max l.
Proof.
  unfold py_max. induction l as [|x l IH]; [done|]. intros _.
  destruct l as [|y l].
  { simpl. rewrite Nat.max_0_r. split; [apply list_elem_of_here|].
    intros z ->%list_elem_of_singleton. done. }
  destruct IH as [Hin Hle]; [done|]. cbn [foldr] in *.
  set (m := Nat.max y (foldr Nat.max 0 l)) in *. split.
  - destruct (Nat.max_spec x m) as [[_ ->]|[_ ->]];
      [by apply list_elem_of_further|apply list_elem_of_here].
  - intros z [->|Hz]%elem_of_cons; [lia|]. specialize (Hle z Hz). lia.
Qed.

Lemma py_min_spec (l : list nat) :
  l ≠ [] → py_min l ∈ l ∧ ∀ x, x ∈ l → py_min l ≤ x.
Proof.
  destruct l as [|x l]; [done|]. intros _. unfold py_min.
  induction l as [|y l IH].
  { simpl. split; [apply list_elem_of_here|].
    intros z ->%list_elem_of_singleton. done. }
  destruct IH as [Hin Hle]. cbn [foldr].
  set (m := foldr Nat.min x l) in *. split.
  - destruct (Nat.min_spec y m) as [[_ ->]|[_ ->]].
    + apply list_elem_of_further, list_elem_of_here.
    + apply elem_of_cons in Hin as [->|Hin]; [apply list_elem_of_here|].
      by do 2 apply list_elem_of_further.
  - intros z [->|[->|Hz]%elem_of_cons]%elem_of_cons.
    + specialize (Hle x (list_elem_of_here _ _)). lia.
    + lia.
    + specialize (Hle z (list_elem_of_further _ _ _ Hz)). lia.
Qed.

Lemma similarity_groups_nil questions :
  similarity_groups questions = []
  ↔ Forall (λ q, group_key q = None) questions.
Proof.
  rewrite Forall_forall. split.
  - intros Hnil q Hq. destruct (group_key q) as [g|] eqn:Hk; [|done].
    assert (g ∈ labels questions) as Hg.
    { unfold labels. rewrite elem_of_list_to_set, list_elem_of_omap.
      by exists q. }
    apply elem_of_labels in Hg. rewrite Hnil in Hg.
    by apply elem_of_nil in Hg.
  - intros Hnone.
    destruct (similarity_groups questions) as [|[g ms] groups] eqn:Hs;
      [done|].
    assert (g ∈ labels questions) as Hg.
    { apply elem_of_labels. rewrite Hs. apply list_elem_of_here. }
    unfold labels in Hg.
    rewrite elem_of_list_to_set, list_elem_of_omap in Hg.
    destruct Hg as (q & Hq & Hk). by rewrite (Hnone q Hq) in Hk.
Qed.

Section StatisticsFacts.
Variable format_average : nat → nat → string.

(** X2.  When no record carries a label that is not empty (the field is
    missing, null or the empty string on every record), [print_stats]
    prints the one line that says so. *)
Theorem print_stats_no_groups questions title :
  Forall (λ q, group_key q = None) questions →
  print_stats format_average questions title
  = emit (PrintLine (newline +:+ title +:+ ": No groups found")).
Proof.
  intros Hnone%similarity_groups_nil. unfold print_stats.
  by rewrite Hnone.
Qed.

(** X3.  When some record carries a label, [print_stats] prints ten
    lines: the number of records, the number of records with a label,
    the number without (never negative), the number of distinct labels,
    the sizes of the largest and of the smallest group, both attained by
    a label, and the average of the two counts.  When every label is on
    two records or more, the smallest size printed is at least two. *)
Theorem print_stats_counts questions title :
  0 < labelled_records questions →
  ∃ largest smallest,
    trace (print_stats format_average questions title)
    = [ PrintLine (newline +:+ banner); PrintLine title; PrintLine banner;
        PrintLine ("Total questions: " +:+ pretty (length questions));
        PrintLine ("Questions with similarity group: "
                     +:+ pretty (labelled_records questions));
        PrintLine ("Questions without group: "
                     +:+ pretty (Z.of_nat (length questions
                                           - labelled_records questions)));
        PrintLine ("Total unique groups: "
                     +:+ pretty (size (labels questions)));
        PrintLine ("Largest group: " +:+ pretty largest);
        PrintLine ("Smallest group: " +:+ pretty smallest);
        PrintLine ("Average group size: "
                     +:+ format_average (labelled_records questions)
                           (size (labels questions))) ]
    ∧ labelled_records questions ≤ length questions
    ∧ (∀ g, g ∈ labels questions →
            smallest ≤ group_size questions g ≤ largest)
    ∧ (∃ g, g ∈ labels questions ∧ group_size questions g = largest)
    ∧ (∃ g, g ∈ labels questions ∧ group_size questions g = smallest)
    ∧ (min_group_size questions → 2 ≤ smallest).
Proof.
  intros Hpos. unfold print_stats.
  pose proof (sum_group_sizes questions) as Hsum.
  pose proof (length_similarity_groups questions) as Hlen.
  pose proof (labelled_records_le questions) as Hle.
  set (groups := similarity_groups questions) in *.
  set (sizes := (λ e : string * list nat, length e.2) <$> groups) in *.
  assert (∀ n, n ∈ sizes
               ↔ ∃ g, g ∈ labels questions ∧ group_size questions g = n)
    as Hsizes.
  { intros n. unfold sizes. rewrite list_elem_of_fmap. split.
    - intros ([g ms] & -> & Hin). exists g. split.
      + apply elem_of_labels. by apply (list_elem_of_fmap_2 fst) in Hin.
      + symmetry. by apply similarity_group_size.
    - intros (g & ([g' ms] & -> & Hin)%elem_of_labels%list_elem_of_fmap
              & <-).
      exists (g', ms). split; [|done]. simpl. symmetry.
      by apply similarity_group_size. }
  destruct groups as [|e groups'] eqn:Hgroups.
  { simpl in Hsum. lia. }
  assert (sizes ≠ []) as Hne by done.
  destruct (py_max_spec sizes Hne) as [Hmax_in Hmax].
  destruct (py_min_spec sizes Hne) as [Hmin_in Hmin].
  exists (py_max sizes), (py_min sizes). split_and!.
  - rewrite !trace_emit_bind, Hsum, Hlen.
    rewrite <-Nat2Z.inj_sub by done. done.
  - done.
  - intros g Hg. split; [apply Hmin|apply Hmax]; apply Hsizes; by exists g.
  - by apply Hsizes.
  - by apply Hsizes.
  - intros Hsrc. apply Hsizes in Hmin_in as (g & Hg & <-).
    apply elem_of_labels, similarity_groups_key in Hg as [Hgne Hgpos].
    apply group_size_pos in Hgpos as (i & q & Hq & Hk).
    destruct (Hsrc i q g Hq Hk) as (j & q' & Hji & Hq' & Hk').
    assert (g ∈ (similarity_groups questions).*1) as Hkey.
    { apply similarity_groups_key. split; [done|].
      apply group_size_pos. by exists i, q. }
    apply list_elem_of_fmap in Hkey as ([g' ms] & -> & Hin).
    simpl in *.
    rewrite <-(similarity_group_size questions g' ms Hin).
    destruct (grouped_entry group_key _ _ _ _
                (similarity_groups_grouped questions) Hin)
      as (Hnd & _ & Hm).
    apply (NoDup_two ms i j); [apply Hm|apply Hm|done].
    * exists q. split; [done|]. by apply group_key_Some.
    * exists q'. split; [done|]. by apply group_key_Some.
Qed.
End StatisticsFacts.

(** A stand-in for the formatting of the average: the two counts. *)
Definition example_format_average (a b : nat) : string :=
  pretty a +:+ "/" +:+ pretty b.

Lemma print_stats_no_groups_witness :
  print_stats example_format_average example_questions "After Stage 1"
  = emit (PrintLine (newline +:+ "After Stage 1" +:+ ": No groups found")).
Proof.
  apply (print_stats_no_groups example_format_average example_questions).
  by repeat constructor.
Defined.

Lemma print_stats_counts_witness :
  ∃ largest smallest,
    last (trace (print_stats example_format_average example_group
                   "After Stage 1"))
    = Some (PrintLine ("Average group size: "
                         +:+ example_format_average 5 1))
    ∧ (∀ g, g ∈ labels example_group →
            smallest ≤ group_size example_group g ≤ largest).
Proof.
  destruct (print_stats_counts example_format_average example_group
              "After Stage 1")
    as (largest & smallest & Htrace & _ & Hsizes & _).
  - vm_compute. lia.
  - exists largest, smallest. split; [|done]. by rewrite Htrace.
Defined.

(** ** Stage 1: which records it labels *)

Lemma lstrip_nil t : lstrip t = [] ↔ Forall (λ c, py_isspace c = true) t.
Proof.
  induction t as [|c t IH]; simpl; [by split; [constructor|]|].
  destruct (py_isspace c) eqn:Hc.
  - rewrite IH. split; [by constructor|]. by intros [_ ?]%Forall_cons.
  - split; [done|]. intros [? _]%Forall_cons. congruence.
Qed.

Lemma lstrip_head t c t' : lstrip t = c :: t' → py_isspace c = false.
Proof.
  induction t as [|c0 t IH]; simpl; [done|].
  destruct (py_isspace c0) eqn:Hc; [done|]. by intros [= <- _].
Qed.

(** [text.strip()] is empty exactly for a text of white space. *)
Lemma strip_nil t : strip t = [] ↔ Forall (λ c, py_isspace c = true) t.
Proof.
  unfold strip, rstrip. split.
  - intros Hs. apply (f_equal reverse) in Hs.
    rewrite reverse_involutive, reverse_nil in Hs.
    apply lstrip_nil in Hs. rewrite Forall_reverse in Hs.
    destruct (lstrip t) as [|c t'] eqn:Ht; [by apply lstrip_nil|].
    apply lstrip_head in Ht. apply Forall_cons in Hs as [? _]. congruence.
  - intros Ht%lstrip_nil. by rewrite Ht.
Qed.

Lemma stage1_original_indices_rows questions k :
  k ∈ stage1_original_indices (stage1_candidates questions) →
  ∃ q, questions !! k = Some q
       ∧ success q && data_truthy q = true
       ∧ strip (get_question_text q) ≠ [].
Proof.
  unfold stage1_original_indices.
  intros (d & -> & Hd)%list_elem_of_fmap.
  apply valid_rows_elem in Hd as (Hs & _ & q & Hq & Ht).
  apply list_elem_of_lookup_2, elem_of_stage1_candidates in Hq as [Hq Hok].
  exists q. split_and!; [done..|]. by rewrite <-Ht.
Qed.

Section Stage1Eligible.
Context {embeddings : Type}.
Variable hdbscan_fit_predict : hdbscan_params → embeddings → list Z.
Variable set_iter : gset nat → list nat.
Hypothesis set_iter_perm : ∀ s, set_iter s ≡ₚ elements s.

(** X4.  Stage 1 gives a label only to a record with the success flag,
    a payload that is not empty and a text that is not blank: a record
    whose text is missing, empty or all white space ends the stage with
    its label cleared, with or without the cross-encoder. *)
Theorem stage1_labels_only_eligible questions bi cross_encoder mcs
    threshold use :
  length (stage1_cluster_labels hdbscan_fit_predict bi mcs
            (stage1_candidates questions))
    = length (stage1_valid_texts (stage1_candidates questions)) →
  ∃ questions',
    result (run_stage1 hdbscan_fit_predict set_iter questions bi
              cross_encoder mcs threshold use) = Ok (questions', tt)
    ∧ (∀ i q q',
         questions !! i = Some q → questions' !! i = Some q' →
         is_Some (get_group_id q') →
         success q = true ∧ data_truthy q = true
         ∧ ¬ Forall (λ c, py_isspace c = true) (get_question_text q))
    ∧ (∀ i q,
         questions !! i = Some q →
         Forall (λ c, py_isspace c = true) (get_question_text q) →
         questions' !! i = Some (set_group_id None q)).
Proof.
  intros Hlen.
  destruct (find_similarity_groups_total hdbscan_fit_predict set_iter
              set_iter_perm (stage1_candidates questions) bi cross_encoder
              mcs threshold use (NoDup_stage1_candidates questions) Hlen)
    as (m & Hres & _ & Hkeys).
  assert (∀ i q, questions !! i = Some q → is_Some (m !! i) →
            success q = true ∧ data_truthy q = true
            ∧ ¬ Forall (λ c, py_isspace c = true) (get_question_text q))
    as Helig.
  { intros i q Hq Hi.
    destruct (stage1_original_indices_rows questions i (Hkeys i Hi))
      as (q0 & Hq0 & Hok & Hs).
    assert (q0 = q) as -> by congruence.
    apply andb_true_iff in Hok as [? ?]. split_and!; [done..|].
    by intros ?%strip_nil. }
  exists (relabel m questions). split_and!.
  - by rewrite run_stage1_result, Hres.
  - intros i q q' Hq Hq' Hlab. rewrite lookup_relabel, Hq in Hq'.
    injection Hq' as <-. rewrite get_group_id_set in Hlab.
    by apply (Helig i q).
  - intros i q Hq Hblank. rewrite lookup_relabel, Hq. simpl.
    destruct (m !! i) as [L|] eqn:Hm; [|done].
    destruct (Helig i q Hq) as (_ & _ & Hn); [by eexists|]. done.
Qed.
End Stage1Eligible.

Lemma stage1_labels_only_eligible_witness :
  ∃ questions',
    result (run_stage1 example_hdbscan elements example_collection id
              (Some example_cross_encoder) 2 (7 # 10) true)
    = Ok (questions', tt)
    ∧ questions' !! 6 = Some (set_group_id None (example_question [32%N])).
Proof.
  destruct (stage1_labels_only_eligible example_hdbscan elements
              elements_perm example_collection id
              (Some example_cross_encoder) 2 (7 # 10) true)
    as (questions' & Hres & _ & Hblank).
  - by vm_compute.
  - exists questions'. split; [done|]. apply Hblank; [done|].
    by repeat constructor.
Defined.

(** ** Stage 1: the numbers of the groups and the report *)

Lemma sim_group_label_nonempty j : sim_group_label j ≠ "".
Proof. done. Qed.

(** The assignment written for disjoint groups of keys, none empty: its
    labels are numbered from 1 to the number of groups. *)
Lemma assigned_labels (gs : list (list nat)) :
  NoDup (concat gs) → Forall (λ g, 2 ≤ length g) gs →
  let m := (foldl (assign_group S sim_group_label gmap_set) (0, ∅) gs).2 in
  (∀ L, (∃ k, m !! k = Some L)
        ↔ ∃ j, 1 ≤ j ≤ length gs ∧ L = sim_group_label j)
  ∧ count_labels m = length gs.
Proof.
  intros Hnd Hbig m.
  assert (∀ k L, m !! k = Some L
                 ↔ ∃ i g, gs !! i = Some g ∧ k ∈ g
                          ∧ L = sim_group_label (S i)) as Hlook.
  { intros k L. unfold m.
    rewrite (assign_groups_lookup S sim_group_label
               (λ k (d : gmap nat string), d !! k) gmap_set
               gmap_get_set _ _ _ _ Hnd).
    cbn [fst snd]. rewrite lookup_empty.
    setoid_rewrite iter_S. setoid_rewrite Nat.add_0_r. naive_solver. }
  assert (∀ L, (∃ k, m !! k = Some L)
               ↔ ∃ j, 1 ≤ j ≤ length gs ∧ L = sim_group_label j) as Hlabels.
  { intros L. split.
    - intros (k & (i & g & Hi & _ & ->)%Hlook). exists (S i).
      split; [|done]. apply lookup_lt_Some in Hi. lia.
    - intros (j & Hj & ->). destruct j as [|i]; [lia|].
      destruct (lookup_lt_is_Some_2 gs i) as [g Hg]; [lia|].
      rewrite Forall_forall in Hbig.
      assert (2 ≤ length g) as Hlen
        by by eapply Hbig, list_elem_of_lookup_2.
      destruct g as [|k g]; [simpl in Hlen; lia|].
      exists k. apply Hlook. exists i, (k :: g).
      split_and!; [done|apply list_elem_of_here|done]. }
  split; [done|]. unfold count_labels.
  assert ((list_to_set (map_to_list m).*2 : gset string)
          = list_to_set (sim_group_label <$> seq 1 (length gs))) as ->.
  { apply set_eq. intros L. rewrite !elem_of_list_to_set. split.
    - intros ([k L'] & -> & Hin%elem_of_map_to_list)%list_elem_of_fmap.
      destruct (proj1 (Hlabels L')) as (j & Hj & ->); [by exists k|].
      apply list_elem_of_fmap. exists j. split; [done|].
      apply elem_of_seq. lia.
    - intros (j & -> & Hj%elem_of_seq)%list_elem_of_fmap.
      destruct (proj2 (Hlabels (sim_group_label j))) as [k Hk].
      { exists j. split; [lia|done]. }
      apply list_elem_of_fmap. exists (k, sim_group_label j).
      split; [done|]. by apply elem_of_map_to_list. }
  rewrite size_list_to_set, length_fmap, length_seq; [done|].
  apply NoDup_fmap_2_strong; [|apply NoDup_seq].
  intros a b _ _. apply sim_group_label_inj.
Qed.

Section Stage1Groups.
Context {embeddings : Type}.
Variable hdbscan_fit_predict : hdbscan_params → embeddings → list Z.
Variable set_iter : gset nat → list nat.
Hypothesis set_iter_perm : ∀ s, set_iter s ≡ₚ elements s.

(** Whichever way it is called, Stage 1 numbers disjoint groups of two
    keys or more. *)
Lemma find_similarity_groups_groups qwi bi cross_encoder mcs threshold
    use :
  NoDup qwi.*1 →
  length (stage1_cluster_labels hdbscan_fit_predict bi mcs qwi)
    = length (stage1_valid_texts qwi) →
  ∃ gs,
    NoDup (concat gs) ∧ Forall (λ g, 2 ≤ length g) gs
    ∧ result (find_similarity_groups hdbscan_fit_predict set_iter qwi bi
                cross_encoder mcs threshold use)
      = Ok (foldl (assign_group S sim_group_label gmap_set) (0, ∅) gs).2.
Proof.
  intros Hnd Hlen.
  set (clusters := stage1_clusters hdbscan_fit_predict bi mcs qwi).
  set (orig := stage1_original_indices qwi).
  assert (∀ p, p ∈ concat clusters.*2 → p < length orig) as Hb.
  { intros p (ms & Hp & (e & -> & He)%list_elem_of_fmap)%elem_of_concat.
    unfold orig. rewrite stage1_lengths.
    by eapply stage1_clusters_below. }
  assert (NoDup orig) as Horig by by apply NoDup_stage1_original_indices.
  assert (NoDup (concat clusters.*2)) as Hclusters
    by by eapply grouped_NoDup, group_clusters_grouped.
  destruct (decide (length (valid_rows qwi) < 2)) as [Hrows|Hrows].
  { exists []. split_and!; [constructor|constructor|].
    by rewrite find_similarity_groups_few_rows. }
  assert (∃ gs,
            NoDup (concat gs) ∧ Forall (λ g, 2 ≤ length g) gs
            ∧ result (st <- for_each
                              (stage1_cluster_unverified orig) clusters
                              (0, ∅) ;; ret st.2)
              = Ok (foldl (assign_group S sim_group_label gmap_set)
                      (0, ∅) gs).2) as Hunverified.
  { exists (keys_of orig <$> filter (λ c, 2 ≤ length c) clusters.*2).
    split_and!.
    - by apply NoDup_concat_fmap_filter.
    - apply Forall_forall. intros g (c & -> & Hc)%list_elem_of_fmap.
      apply list_elem_of_filter in Hc as [Hc _].
      unfold keys_of. by rewrite length_fmap.
    - by rewrite (bind_ok _ _ _
                    (stage1_unverified_run orig clusters (0, ∅)
                       (stage1_clusters_in_range hdbscan_fit_predict bi
                          mcs qwi Hlen))). }
  assert (∀ ce' use',
            (use' = false ∨ ce' = None) →
            result (find_similarity_groups hdbscan_fit_predict set_iter
                      qwi bi ce' mcs threshold use')
            = result (st <- for_each
                              (stage1_cluster_unverified orig) clusters
                              (0, ∅) ;; ret st.2)) as Hmode.
  { intros ce' use' Hoff. unfold find_similarity_groups.
    destruct qwi as [|q0 qwi0] eqn:Hq; [simpl in Hrows; lia|].
    rewrite <-Hq in *. rewrite decide_False by lia.
    rewrite (bind_ok _ _ _ (result_encode _ _)).
    rewrite (bind_ok _ _ _ (result_fit_predict _ _ _)).
    destruct use', ce'; naive_solver. }
  destruct use, cross_encoder as [ce|];
    [|rewrite Hmode by auto; exact Hunverified..].
  destruct (find_similarity_groups_run hdbscan_fit_predict set_iter
              set_iter_perm qwi bi ce mcs threshold)
    as (nss & Hall & Hres); [lia|done|].
  fold clusters orig in Hall, Hres.
  exists (key_groups orig clusters nss). split_and!; [| |done].
  - rewrite key_groups_positions.
    destruct (kept_positions_spec
                (stage1_graph ce threshold (stage1_valid_texts qwi))
                clusters nss Hclusters Hall) as [Hp1 Hp2].
    apply NoDup_fmap_2_strong; [|done].
    intros p p' Hp Hp'. apply lookup_total_inj; auto.
  - apply Forall_forall. intros g Hg.
    apply elem_of_concat_zip_with in Hg as (i & e & nodess & _ & _ & Hg).
    apply list_elem_of_fmap in Hg as (c & -> & Hc).
    apply elem_of_kept_components in Hc as (nodes & _ & Hl & ->).
    unfold keys_of, members_of. by rewrite !length_fmap.
Qed.

(** The assignment of Stage 1 on a collection: its labels and where
    they go. *)
Lemma run_stage1_labels questions bi cross_encoder mcs threshold use :
  length (stage1_cluster_labels hdbscan_fit_predict bi mcs
            (stage1_candidates questions))
    = length (stage1_valid_texts (stage1_candidates questions)) →
  ∃ (m : gmap nat string) k,
    result (find_similarity_groups hdbscan_fit_predict set_iter
              (stage1_candidates questions) bi cross_encoder mcs threshold
              use) = Ok m
    ∧ (∀ L, (∃ i, m !! i = Some L)
            ↔ ∃ j, 1 ≤ j ≤ k ∧ L = sim_group_label j)
    ∧ count_labels m = k
    ∧ ∀ i, is_Some (m !! i) → i < length questions.
Proof.
  intros Hlen.
  destruct (find_similarity_groups_groups (stage1_candidates questions)
              bi cross_encoder mcs threshold use
              (NoDup_stage1_candidates questions) Hlen)
    as (gs & Hnd & Hbig & Hres).
  destruct (find_similarity_groups_total hdbscan_fit_predict set_iter
              set_iter_perm (stage1_candidates questions) bi cross_encoder
              mcs threshold use (NoDup_stage1_candidates questions) Hlen)
    as (m' & Hres' & _ & Hkeys).
  destruct (assigned_labels gs Hnd Hbig) as [Hlabels Hcount].
  rewrite Hres in Hres'. injection Hres' as <-.
  eexists _, (length gs). split_and!; [done..|].
  intros i Hi.
  destruct (stage1_original_indices_rows questions i (Hkeys i Hi))
    as (q & Hq & _). by eapply lookup_lt_Some.
Qed.


(** X6.  The last line [run_stage1] prints reports the number of
    distinct labels on the records it leaves and the number of records
    that carry one. *)
Theorem run_stage1_report questions bi cross_encoder mcs threshold use :
  length (stage1_cluster_labels hdbscan_fit_predict bi mcs
            (stage1_candidates questions))
    = length (stage1_valid_texts (stage1_candidates questions)) →
  ∃ questions',
    result (run_stage1 hdbscan_fit_predict set_iter questions bi
              cross_encoder mcs threshold use) = Ok (questions', tt)
    ∧ last (trace (run_stage1 hdbscan_fit_predict set_iter questions bi
                     cross_encoder mcs threshold use))
      = Some (PrintLine (newline +:+ "Stage 1 complete: "
                           +:+ pretty (size (labels questions'))
                           +:+ " groups, "
                           +:+ pretty (labelled_records questions')
                           +:+ " questions assigned")).
Proof.
  intros Hlen.
  destruct (run_stage1_labels questions bi cross_encoder mcs threshold
              use Hlen) as (m & k & Hres & Hlabels & Hcount & Hrange).
  exists (relabel m questions). split.
  { by rewrite run_stage1_result, Hres. }
  assert (∀ i L, m !! i = Some L → L ≠ "") as Hne.
  { intros i L Hi. destruct (proj1 (Hlabels L)) as (j & _ & ->);
      [by exists i|]. apply sim_group_label_nonempty. }
  assert (size (labels (relabel m questions)) = count_labels m) as ->.
  { unfold labels, count_labels. f_equal. apply set_eq. intros L.
    rewrite !elem_of_list_to_set, list_elem_of_omap. split.
    - intros (q' & Hq' & [HL _]%group_key_Some).
      apply list_elem_of_lookup in Hq' as [i Hi].
      rewrite lookup_relabel in Hi.
      destruct (questions !! i) as [q|]; simplify_eq/=.
      apply list_elem_of_fmap. exists (i, L). split; [done|].
      by apply elem_of_map_to_list.
    - intros ([i L'] & -> & Hin%elem_of_map_to_list)%list_elem_of_fmap.
      simpl. destruct (lookup_lt_is_Some_2 questions i) as [q Hq].
      { apply Hrange. by eexists. }
      exists (set_group_id (m !! i) q). split.
      + apply list_elem_of_lookup. exists i.
        by rewrite lookup_relabel, Hq.
      + apply group_key_Some. split; [done|]. by eapply Hne. }
  assert (labelled_records (relabel m questions) = size m) as ->.
  { unfold labelled_records.
    rewrite <-(length_filter_enumerate_from
                 (λ q, is_Some (group_key q)) 0 (relabel m questions)).
    rewrite <-(length_fmap fst), <-size_dom.
    rewrite <-(size_list_to_set (C:=gset nat)).
    - f_equal. apply set_eq. intros i.
      rewrite elem_of_list_to_set, elem_of_dom, list_elem_of_fmap. split.
      + intros ([i' q'] & -> & [Hk Hq'%elem_of_enumerate]%list_elem_of_filter).
        simpl in *. rewrite lookup_relabel in Hq'.
        destruct (questions !! i') as [q|]; simplify_eq/=.
        destruct Hk as [L [HL _]%group_key_Some]. by exists L.
      + intros [L HL].
        destruct (lookup_lt_is_Some_2 questions i) as [q Hq].
        { apply Hrange. by eexists. }
        exists (i, set_group_id (m !! i) q). split; [done|].
        apply list_elem_of_filter. split.
        * exists L. apply group_key_Some. split; [done|]. by eapply Hne.
        * apply elem_of_enumerate. by rewrite lookup_relabel, Hq.
    - apply NoDup_fmap_2_strong.
      + intros [i q] [i' q'] [_ Hq%elem_of_enumerate]%list_elem_of_filter
          [_ Hq'%elem_of_enumerate]%list_elem_of_filter. simpl.
        intros <-. congruence.
      + apply NoDup_filter, NoDup_enumerate_from. }
  unfold run_stage1. rewrite !trace_emit_bind.
  fold (stage1_candidates questions).
  rewrite (trace_bind_ok _ _ _ Hres), trace_emit_bind.
  change (trace (ret (?x, tt))) with (@nil event).
  by rewrite !last_cons, last_snoc.
Qed.
End Stage1Groups.


Lemma run_stage1_report_witness :
  ∃ questions',
    result (run_stage1 example_hdbscan elements example_collection id
              None 2 (7 # 10) false) = Ok (questions', tt)
    ∧ last (trace (run_stage1 example_hdbscan elements example_collection
                     id None 2 (7 # 10) false))
      = Some (PrintLine (newline +:+ "Stage 1 complete: "
                           +:+ pretty (size (labels questions'))
                           +:+ " groups, "
                           +:+ pretty (labelled_records questions')
                           +:+ " questions assigned")).
Proof.
  apply (run_stage1_report example_hdbscan elements elements_perm
           example_collection id None 2 (7 # 10) false).
  by vm_compute.
Defined.

(** ** Stage 1: the calls to the models *)

Lemma label_component_silent original_indices label verified component :
  traced (λ _, False)
    (label_component original_indices label verified component).
Proof.
  unfold label_component. apply traced_for_each. intros d p.
  apply traced_bind; [apply traced_index|]. intros; apply traced_ret.
Qed.

(** The call a cluster of Stage 1 makes to the cross-encoder. *)
Definition stage1_cluster_calls (ce : list (text * text) → list Q)
    (valid_texts : list text) (e : Z * list nat) : list event :=
  if decide (length e.2 < 2) then []
  else [PredictCall (text_pairs ((λ i, valid_texts !!! i) <$> e.2)
                       (all_pairs (length e.2)))].

Section Stage1Calls.
Context {embeddings : Type}.
Variable hdbscan_fit_predict : hdbscan_params → embeddings → list Z.
Variable set_iter : gset nat → list nat.
Hypothesis set_iter_perm : ∀ s, set_iter s ≡ₚ elements s.

Lemma stage1_start_silent members original_indices adjacency st start :
  traced (λ _, False)
    (stage1_start set_iter members original_indices adjacency st start).
Proof.
  destruct st as [visited [cluster_id verified]]. unfold stage1_start.
  case_decide; [apply traced_ret|].
  apply traced_bind; [apply traced_of_fuel|]. intros found.
  case_decide; [|apply traced_ret].
  apply traced_bind; [apply label_component_silent|].
  intros; apply traced_ret.
Qed.

Lemma stage1_cluster_unverified_silent original_indices st e :
  traced (λ _, False) (stage1_cluster_unverified original_indices st e).
Proof.
  unfold stage1_cluster_unverified. case_decide; [|apply traced_ret].
  apply traced_bind; [apply label_component_silent|].
  intros; apply traced_ret.
Qed.

Lemma stage1_cluster_trace ce threshold valid_texts original_indices st
    e :
  Forall (λ p, p < length valid_texts) e.2 →
  trace (stage1_cluster set_iter ce threshold valid_texts
           original_indices st e)
  = stage1_cluster_calls ce valid_texts e.
Proof.
  intros Hmem. unfold stage1_cluster, stage1_cluster_calls.
  case_decide as Hn; [done|].
  rewrite (M_ret_eq _ _
             (traced_nothing _
                (traced_comprehension _ _ _ (traced_index _ valid_texts)))
             (comprehension_index valid_texts e.2 Hmem)).
  rewrite bind_ret_l.
  destruct (text_pairs _ (all_pairs (length e.2))) as [|p ps] eqn:Hp.
  { apply fmap_nil_inv in Hp.
    assert ((0, 1) ∈ all_pairs (length e.2)) as Hin
      by (apply elem_of_all_pairs; lia).
    rewrite Hp in Hin. by apply elem_of_nil in Hin. }
  unfold predict. rewrite bind_assoc, trace_emit_bind, bind_ret_l.
  f_equal. rewrite trace_bind.
  rewrite (traced_nothing _
             (traced_for_each _ _ _ _
                (λ s x, stage1_start_silent _ _ _ s x))).
  by destruct (result _).
Qed.

(** The calls of Stage 1: one to the bi-encoder, one to the clusterer,
    and with the cross-encoder those of the clusters. *)
Lemma find_similarity_groups_calls qwi bi ce mcs threshold :
  2 ≤ length (valid_rows qwi) →
  length (stage1_cluster_labels hdbscan_fit_predict bi mcs qwi)
    = length (stage1_valid_texts qwi) →
  trace (find_similarity_groups hdbscan_fit_predict set_iter qwi bi
           (Some ce) mcs threshold true)
  = EncodeCall (prepare_e5_text <$> stage1_valid_texts qwi)
    :: FitPredictCall (coarse_params mcs)
    :: concat (stage1_cluster_calls ce (stage1_valid_texts qwi)
               <$> stage1_clusters hdbscan_fit_predict bi mcs qwi)
  ∧ ∀ cross_encoder use,
      use = false ∨ cross_encoder = None →
      trace (find_similarity_groups hdbscan_fit_predict set_iter qwi bi
               cross_encoder mcs threshold use)
      = [ EncodeCall (prepare_e5_text <$> stage1_valid_texts qwi);
          FitPredictCall (coarse_params mcs) ].
Proof.
  intros Hrows Hlen.
  assert (∀ ce' use',
            find_similarity_groups hdbscan_fit_predict set_iter qwi bi
              ce' mcs threshold use'
            = (emit (EncodeCall
                       (prepare_e5_text <$> stage1_valid_texts qwi))
               ;;; emit (FitPredictCall (coarse_params mcs))
               ;;; match use', ce' with
                   | true, Some ce =>
                       st <- for_each
                               (stage1_cluster set_iter ce threshold
                                  (stage1_valid_texts qwi)
                                  (stage1_original_indices qwi))
                               (stage1_clusters hdbscan_fit_predict bi mcs
                                  qwi) (0, ∅) ;;
                       ret st.2
                   | _, _ =>
                       st <- for_each
                               (stage1_cluster_unverified
                                  (stage1_original_indices qwi))
                               (stage1_clusters hdbscan_fit_predict bi mcs
                                  qwi) (0, ∅) ;;
                       ret st.2
                   end)) as Heq.
  { intros ce' use'. unfold find_similarity_groups.
    destruct qwi as [|q0 qwi0] eqn:Hq; [simpl in Hrows; lia|].
    rewrite <-Hq in *. rewrite decide_False by lia.
    unfold bi_encoder_encode, fit_predict.
    rewrite bind_assoc. apply bind_ext. intros _. rewrite bind_ret_l.
    rewrite bind_assoc. apply bind_ext. intros _. by rewrite bind_ret_l. }
  split.
  - rewrite Heq, !trace_emit_bind. do 2 f_equal.
    assert (Forall (λ e : Z * list nat,
                      Forall (λ p, p < length (stage1_valid_texts qwi))
                             e.2)
                   (stage1_clusters hdbscan_fit_predict bi mcs qwi))
      as Hall.
    { apply Forall_forall. intros e He. apply Forall_forall.
      intros p Hp. by eapply stage1_clusters_below. }
    rewrite trace_bind.
    assert (∀ st,
              trace (for_each
                       (stage1_cluster set_iter ce threshold
                          (stage1_valid_texts qwi)
                          (stage1_original_indices qwi))
                       (stage1_clusters hdbscan_fit_predict bi mcs qwi)
                       st)
              = concat (stage1_cluster_calls ce (stage1_valid_texts qwi)
                        <$> stage1_clusters hdbscan_fit_predict bi mcs
                              qwi)) as ->.
    { clear Heq. induction Hall as [|e clusters He _ IH]; intros st;
        [done|].
      cbn [for_each]. csimpl.
      destruct (stage1_cluster_spec set_iter set_iter_perm ce threshold
                  (stage1_valid_texts qwi) (stage1_original_indices qwi)
                  st e He (stage1_lengths qwi)) as (nodess & _ & Hr).
      rewrite (trace_bind_ok _ _ _ Hr), IH.
      by rewrite stage1_cluster_trace. }
    destruct (result _); [|done..]. by rewrite app_nil_r.
  - intros cross_encoder use Hoff. rewrite Heq, !trace_emit_bind.
    do 2 f_equal.
    assert (traced (λ _, False)
              (st <- for_each
                       (stage1_cluster_unverified
                          (stage1_original_indices qwi))
                       (stage1_clusters hdbscan_fit_predict bi mcs qwi)
                       (0, ∅) ;; ret st.2)) as Hsilent%traced_nothing.
    { apply traced_bind; [|intros; apply traced_ret].
      apply traced_for_each. intros st e.
      apply stage1_cluster_unverified_silent. }
    destruct use, cross_encoder; naive_solver.
Qed.
(** The call of a cluster, with the texts of its members written out. *)
Lemma stage1_cluster_calls_members bi ce mcs qwi e :
  length (stage1_cluster_labels hdbscan_fit_predict bi mcs qwi)
    = length (stage1_valid_texts qwi) →
  e ∈ stage1_clusters hdbscan_fit_predict bi mcs qwi →
  stage1_cluster_calls ce (stage1_valid_texts qwi) e
  = if decide (length e.2 < 2) then []
    else [PredictCall
            ((λ p : nat * nat,
                (stage1_valid_texts qwi !!! (e.2 !!! p.1),
                 stage1_valid_texts qwi !!! (e.2 !!! p.2)))
             <$> all_pairs (length e.2))].
Proof.
  intros Hlen He. unfold stage1_cluster_calls. case_decide; [done|].
  rewrite text_pairs_members; [done|].
  intros i j Hij%elem_of_all_pairs. lia.
Qed.


(** C1.  For every candidate cluster of two members or more and every
    threshold, Stage 1 calls the scorer on the texts of the pairs of
    members of the cluster; its graph has an edge between two members, in
    both directions, exactly when the score returned for the pair of
    their texts is at least the threshold; and the assignment it returns
    gives one label to each connected component of two or more members
    and no label to a member without a neighbour. *)
Theorem stage1_groups_are_components qwi bi ce mcs threshold :
  NoDup qwi.*1 →
  2 ≤ length (valid_rows qwi) →
  length (stage1_cluster_labels hdbscan_fit_predict bi mcs qwi)
    = length (stage1_valid_texts qwi) →
  (∀ pairs, length (ce pairs) = length pairs) →
  let valid_texts := stage1_valid_texts qwi in
  let run :=
    find_similarity_groups hdbscan_fit_predict set_iter qwi bi (Some ce)
      mcs threshold true in
  let graph := stage1_graph ce threshold valid_texts in
  ∃ m,
    result run = Ok m
    ∧ (∀ e : Z * list nat,
         e ∈ stage1_clusters hdbscan_fit_predict bi mcs qwi →
         2 ≤ length e.2 →
         let text x := valid_texts !!! (e.2 !!! x) in
         ∃ pairs,
           PredictCall pairs ∈ trace run
           ∧ (∀ p, p ∈ pairs
                   ↔ ∃ x y, x < y < length e.2 ∧ p = (text x, text y))
           ∧ ∀ x y, x < y < length e.2 →
               ∃ k s,
                 pairs !! k = Some (text x, text y)
                 ∧ ce pairs !! k = Some s
                 ∧ (adj_step (graph e.2) x y ↔ (threshold <= s)%Q)
                 ∧ (adj_step (graph e.2) y x ↔ (threshold <= s)%Q))
    ∧ (∀ (e : Z * list nat) x y,
         adj_step (graph e.2) x y →
         x ≠ y ∧ x < length e.2 ∧ y < length e.2)
    ∧ verified_groups hdbscan_fit_predict bi ce mcs threshold qwi m.
Proof.
  intros Hnd Hrows Hlen Hce valid_texts run graph.
  destruct (find_similarity_groups_verified hdbscan_fit_predict set_iter
              set_iter_perm qwi bi ce mcs threshold Hnd Hrows Hlen)
    as (m & Hres & Hm).
  exists m. split_and!; [done| | |done].
  - intros e He Hsize text.
    exists ((λ p : nat * nat, (text p.1, text p.2))
            <$> all_pairs (length e.2)).
    split_and!.
    + unfold run.
      rewrite (proj1 (find_similarity_groups_calls qwi bi ce mcs threshold
                        Hrows Hlen)).
      do 2 apply list_elem_of_further. apply elem_of_concat.
      exists (stage1_cluster_calls ce valid_texts e). split.
      * unfold valid_texts.
        rewrite (stage1_cluster_calls_members bi ce mcs qwi e Hlen He).
        rewrite decide_False by lia. apply list_elem_of_here.
      * by apply list_elem_of_fmap_2.
    + intros p. rewrite list_elem_of_fmap. split.
      * intros ([x y] & -> & Hxy%elem_of_all_pairs). by exists x, y.
      * intros (x & y & Hxy & ->). exists (x, y).
        split; [done|]. by apply elem_of_all_pairs.
    + intros x y Hxy.
      apply (stage1_graph_score ce threshold valid_texts e.2 x y Hce Hxy).
  - intros e x y. apply stage1_graph_below.
Qed.
End Stage1Calls.


Lemma stage1_groups_are_components_witness :
  ∃ m,
    result (find_similarity_groups example_hdbscan elements
              (enumerate example_questions) id
              (Some example_cross_encoder) 2 (7 # 10) true) = Ok m
    ∧ verified_groups example_hdbscan id example_cross_encoder 2 (7 # 10)
        (enumerate example_questions) m
    ∧ ∃ pairs,
        PredictCall pairs
        ∈ trace (find_similarity_groups example_hdbscan elements
                   (enumerate example_questions) id
                   (Some example_cross_encoder) 2 (7 # 10) true)
        ∧ ∀ p, p ∈ pairs
               ↔ ∃ x y, x < y < 3
                        ∧ p = ([N.of_nat (65 + x)], [N.of_nat (65 + y)]).
Proof.
  destruct (stage1_groups_are_components example_hdbscan elements
              elements_perm (enumerate example_questions) id
              example_cross_encoder 2 (7 # 10))
    as (m & Hres & Hcalls & _ & Hm).
  - compute_done.
  - vm_compute. lia.
  - reflexivity.
  - apply example_cross_encoder_length.
  - exists m. split_and!; [done..|].
    destruct (Hcalls (0%Z, [0; 1; 2])) as (pairs & Hcall & Hpairs & _).
    + vm_compute. apply list_elem_of_here.
    + simpl. lia.
    + exists pairs. split; [exact Hcall|]. intros p.
      rewrite (Hpairs p). simpl. split.
      * intros (x & y & Hxy & ->). exists x, y. split; [exact Hxy|].
        clear -Hxy.
        destruct x as [|[|[|x]]], y as [|[|[|y]]];
          first [lia|reflexivity].
      * intros (x & y & Hxy & ->). exists x, y. split; [exact Hxy|].
        clear -Hxy.
        destruct x as [|[|[|x]]], y as [|[|[|y]]];
          first [lia|reflexivity].
Defined.

(** ** Stage 2: what becomes of each group *)

(** The number of groups split, and kept, among the outcomes of a run. *)
Definition count_split (outcomes : list bool) : nat :=
  length (filter (λ b, b = true) outcomes).

Definition count_kept (outcomes : list bool) : nat :=
  length (filter (λ b, b = false) outcomes).

Lemma count_split_kept outcomes :
  count_split outcomes + count_kept outcomes = length outcomes.
Proof.
  unfold count_split, count_kept. induction outcomes as [|[] l IH];
    [done|..]; rewrite !filter_cons; simpl; lia.
Qed.

(** What a group of records looks like after its turn: split by some
    well-formed assignment [d] of sub-group numbers, or left as it was. *)
Definition group_outcome (group_id : string) (indices : list nat)
    (before after : list question) (split : bool) : Prop :=
  if split
  then ∃ d, split_ok indices d ∧ 1 < distinct_values d
            ∧ ∀ i, i ∈ indices →
                   after !! i
                   = split_record group_id indices d i <$> before !! i
  else ∀ i, i ∈ indices → after !! i = before !! i.

Lemma split_record_outside group_id indices d i q :
  split_ok indices d → i ∉ indices →
  split_record group_id indices d i q = q.
Proof.
  intros (_ & Hsub & _) Hi. unfold split_record.
  assert (dict_get i d = None) as ->.
  { apply dict_get_None. intros Hin. by apply Hi, Hsub. }
  by rewrite decide_False.
Qed.

Section RefineOutcomes.
Context {embeddings : Type}.
Variable hdbscan_fit_predict : hdbscan_params → embeddings → list Z.
Variable linkage_fcluster : nat → list Q → Q → list Z.
Variable set_iter : gset nat → list nat.
Hypothesis set_iter_perm : ∀ s, set_iter s ≡ₚ elements s.
Variable bi : list text → embeddings.
Variable ce : list (text * text) → list Q.
Variable threshold : Q.
Hypothesis fit_predict_length :
  ∀ texts, length (hdbscan_fit_predict fine_params (bi texts))
           = length texts.
Hypothesis fcluster_length :
  ∀ n scores t, length (linkage_fcluster n scores t) = n.

Lemma stage2_group_outcome questions groups_split groups_kept group_id
    indices :
  Forall (λ i, i < length questions) indices →
  NoDup indices →
  ∃ questions' (split : bool),
    result (stage2_group hdbscan_fit_predict linkage_fcluster set_iter bi
              ce threshold (questions, groups_split, groups_kept)
              (group_id, indices))
    = Ok (questions',
          if split then S groups_split else groups_split,
          if split then groups_kept else S groups_kept)
    ∧ length questions' = length questions
    ∧ (∀ i, i ∉ indices → questions' !! i = questions !! i)
    ∧ group_outcome group_id indices questions questions' split.
Proof.
  intros Hrange Hnd.
  destruct (try_split_group_spec hdbscan_fit_predict linkage_fcluster
              set_iter set_iter_perm questions indices bi ce threshold
              Hrange Hnd) as (r & Hres & Hr).
  { unfold fine_labels, group_texts.
    by rewrite fit_predict_length, !length_fmap. }
  { unfold fallback_labels. apply fcluster_length. }
  unfold stage2_group. rewrite (bind_ok _ _ _ Hres).
  destruct r as [[|item items]|].
  - exists questions, false. by split_and!.
  - destruct (Hr _ eq_refl) as [Hok Hd]. cbv zeta.
    set (d := item :: items) in *.
    destruct (decide (1 < distinct_values d)) as [_|?]; [|done].
    destruct (apply_split_spec group_id indices d questions Hrange Hnd
                Hok) as (questions' & Hq' & Hlook).
    rewrite (bind_ok _ _ _ Hq').
    exists questions', true. split_and!.
    + done.
    + by eapply length_lookup_fmap.
    + intros i Hi. rewrite Hlook.
      destruct (questions !! i) as [q|]; [|done]. simpl.
      by rewrite split_record_outside.
    + exists d. by split_and!.
  - exists questions, false. by split_and!.
Qed.

(** The loop of [run_stage2], with the outcome of each group. *)
Lemma refine_loop_outcomes (questions0 : list question) todo :
  ∀ questions groups_split groups_kept,
  NoDup (pending todo) →
  (∀ i, i ∈ pending todo → i < length questions0) →
  length questions = length questions0 →
  (∀ i, i ∈ pending todo → questions !! i = questions0 !! i) →
  ∃ questions' outcomes,
    result (for_each (stage2_group hdbscan_fit_predict linkage_fcluster
                        set_iter bi ce threshold)
              todo (questions, groups_split, groups_kept))
    = Ok (questions', groups_split + count_split outcomes,
          groups_kept + count_kept outcomes)
    ∧ length questions' = length questions0
    ∧ (∀ i, i ∉ pending todo → questions' !! i = questions !! i)
    ∧ Forall2 (λ (e : string * list nat) b,
                 group_outcome e.1 e.2 questions0 questions' b)
              todo outcomes.
Proof.
  induction todo as [|[g ms] rest IH];
    intros questions groups_split groups_kept Hnd Hrange Hlen Hpend.
  { exists questions, []. split_and!; [|done|done|constructor].
    unfold count_split, count_kept. simpl. by rewrite !Nat.add_0_r. }
  change (pending ((g, ms) :: rest)) with (ms ++ pending rest) in *.
  apply NoDup_app in Hnd as (Hms & Hdisj & Hrest).
  destruct (stage2_group_outcome questions groups_split groups_kept g ms)
    as (qs1 & b & Hres1 & Hlen1 & Hout1 & Hgroup1).
  { apply Forall_forall. intros i Hi. rewrite Hlen.
    apply Hrange, elem_of_app. by left. }
  { done. }
  destruct (IH qs1 (if b then S groups_split else groups_split)
              (if b then groups_kept else S groups_kept))
    as (qs' & outcomes & Hres & Hlen' & Hout & Hall).
  { done. }
  { intros i Hi. apply Hrange, elem_of_app. by right. }
  { lia. }
  { intros i Hi. rewrite Hout1.
    - apply Hpend, elem_of_app. by right.
    - intros Hi'. by apply (Hdisj i). }
  exists qs', (b :: outcomes). split_and!.
  - cbn [for_each]. rewrite (bind_ok _ _ _ Hres1), Hres.
    unfold count_split, count_kept. rewrite !filter_cons.
    destruct b; simpl; by rewrite ?Nat.add_succ_r.
  - done.
  - intros i [Hi1 Hi2]%not_elem_of_app. by rewrite Hout, Hout1.
  - constructor; [|done]. simpl.
    assert (∀ i, i ∈ ms → qs' !! i = qs1 !! i) as Hlater.
    { intros i Hi. apply Hout. intros Hi'. by apply (Hdisj i). }
    assert (∀ i, i ∈ ms → questions !! i = questions0 !! i) as Hfirst.
    { intros i Hi. apply Hpend, elem_of_app. by left. }
    destruct b; simpl in *.
    + destruct Hgroup1 as (d & Hok & Hd & Hlook). exists d.
      split_and!; [done..|]. intros i Hi.
      by rewrite Hlater, Hlook, Hfirst.
    + intros i Hi. by rewrite Hlater, Hgroup1, Hfirst.
Qed.

(** [run_stage2] with the outcome of each large group. *)
Lemma run_stage2_outcomes questions refine_threshold :
  let large_groups := find_large_groups questions refine_threshold in
  let run := run_stage2 hdbscan_fit_predict linkage_fcluster set_iter
               questions bi ce refine_threshold threshold in
  ∃ questions' outcomes,
    result run = Ok (questions', tt)
    ∧ length questions' = length questions
    ∧ (∀ i, i ∉ pending large_groups → questions' !! i = questions !! i)
    ∧ Forall2 (λ (e : string * list nat) b,
                 group_outcome e.1 e.2 questions questions' b)
              large_groups outcomes
    ∧ (large_groups ≠ [] →
       last (trace run)
       = Some (refinement_report (count_split outcomes)
                 (count_kept outcomes))).
Proof.
  intros large_groups run.
  destruct (find_large_groups_spec questions refine_threshold)
    as [Hnd Hlarge]. fold large_groups in Hnd, Hlarge.
  destruct (refine_loop_outcomes questions large_groups questions 0 0)
    as (qs' & outcomes & Hres & Hlen & Hout & Hall); [done| |done|done|].
  { intros i (g & ms & Hin & Hi)%elem_of_pending.
    destruct (Hlarge g ms Hin) as (_ & _ & Hm).
    apply Hm in Hi as (q & Hq & _). by eapply lookup_lt_Some. }
  simpl in Hres.
  unfold run, run_stage2. fold large_groups.
  destruct large_groups as [|e large] eqn:Hlg.
  { exists questions, []. split_and!; [done|done|done|constructor|done]. }
  fold (refine_groups hdbscan_fit_predict linkage_fcluster set_iter
          questions (e :: large) bi ce threshold).
  unfold refine_groups.
  exists qs', outcomes. split_and!; [|done..|].
  - rewrite !result_emit_then. by rewrite (bind_ok _ _ _ Hres).
  - intros _.
    rewrite !trace_emit_bind, (trace_bind_ok _ _ _ Hres).
    rewrite trace_emit_bind.
    change (trace (ret (qs', tt))) with (@nil event).
    by rewrite !last_cons, last_snoc.
Qed.
End RefineOutcomes.

(** ** Stage 2: the records it leaves *)

Lemma string_length_append (a b : string) :
  String.length (a +:+ b) = String.length a + String.length b.
Proof. induction a as [|c a IH]; simpl; [done|]. by rewrite IH. Qed.

(** The label of a sub-group is not the label of its group. *)
Lemma sub_group_label_fresh group_id n : sub_group_label group_id n ≠ group_id.
Proof.
  unfold sub_group_label. intros Heq.
  apply (f_equal String.length) in Heq.
  rewrite !string_length_append in Heq. simpl in Heq. lia.
Qed.

Lemma sub_group_label_inj group_id n n' :
  sub_group_label group_id n = sub_group_label group_id n' → n = n'.
Proof.
  unfold sub_group_label. intros Heq.
  apply (inj (String.append group_id)) in Heq.
  apply (inj (String.append "_sub")) in Heq.
  by apply (inj pretty) in Heq.
Qed.

Lemma same_content_split_record group_id indices d i q :
  same_content q (split_record group_id indices d i q).
Proof.
  unfold split_record. destruct (dict_get i d); [done|].
  by case_decide.
Qed.

(** A split with two sub-groups gives two of its keys different numbers. *)
Lemma distinct_values_two (d : list (nat * Z)) :
  1 < distinct_values d →
  ∃ k v k' v', (k, v) ∈ d ∧ (k', v') ∈ d ∧ v ≠ v'.
Proof.
  unfold distinct_values, dict_values. intros Hsize.
  destruct d as [|[k v] d].
  { change (1 < size (∅ : gset Z)) in Hsize.
    rewrite size_empty in Hsize. lia. }
  destruct (decide (Forall (λ e : nat * Z, e.2 = v) d)) as [Hall|Hex].
  - exfalso.
    assert ((list_to_set ((k, v) :: d).*2 : gset Z) ⊆ {[v]}) as Hsub.
    { intros x. rewrite elem_of_list_to_set, elem_of_singleton.
      intros ([k' v'] & -> & [[= -> ->]|Hin]%elem_of_cons)%list_elem_of_fmap;
        [done|].
      rewrite Forall_forall in Hall. by apply (Hall (k', v')). }
    apply subseteq_size in Hsub. rewrite size_singleton in Hsub. lia.
  - apply not_Forall_Exists in Hex; [|apply _].
    apply Exists_exists in Hex as ([k' v'] & Hin & Hne). simpl in Hne.
    exists k, v, k', v'.
    split_and!; [apply list_elem_of_here|by apply list_elem_of_further|done].
Qed.

(** The label of some record of the group changed. *)
Definition group_relabelled (before after : list question)
    (indices : list nat) : Prop :=
  Exists (λ i, (get_group_id <$> after !! i)
               ≠ (get_group_id <$> before !! i)) indices.

#[global] Instance group_relabelled_dec before after indices :
  Decision (group_relabelled before after indices).
Proof. unfold group_relabelled. apply _. Defined.

Lemma count_outcomes {A} (P : A → Prop) `{∀ x, Decision (P x)}
    (l : list A) (outcomes : list bool) :
  Forall2 (λ x (b : bool), b = true ↔ P x) l outcomes →
  count_split outcomes = length (filter P l)
  ∧ count_kept outcomes = length (filter (λ x, ¬ P x) l).
Proof.
  unfold count_split, count_kept.
  induction 1 as [|x b l outcomes Hb _ IH]; [done|].
  destruct IH as [IH1 IH2]. rewrite !filter_cons.
  repeat case_decide; simpl; rewrite ?IH1, ?IH2; try done;
    exfalso; destruct b; naive_solver.
Qed.

Section Stage2Records.
Context {embeddings : Type}.
Variable hdbscan_fit_predict : hdbscan_params → embeddings → list Z.
Variable linkage_fcluster : nat → list Q → Q → list Z.
Variable set_iter : gset nat → list nat.
Hypothesis set_iter_perm : ∀ s, set_iter s ≡ₚ elements s.
Variable bi : list text → embeddings.
Variable ce : list (text * text) → list Q.
Variable threshold : Q.
Hypothesis fit_predict_length :
  ∀ texts, length (hdbscan_fit_predict fine_params (bi texts))
           = length texts.
Hypothesis fcluster_length :
  ∀ n scores t, length (linkage_fcluster n scores t) = n.

(** Each record after Stage 2: as it was, or a record of a large group
    with its label cleared or replaced by the label of a sub-group. *)
Lemma run_stage2_records questions refine_threshold :
  ∃ questions',
    result (run_stage2 hdbscan_fit_predict linkage_fcluster set_iter
              questions bi ce refine_threshold threshold)
    = Ok (questions', tt)
    ∧ length questions' = length questions
    ∧ ∀ i q, questions !! i = Some q →
        ∃ q', questions' !! i = Some q'
              ∧ (q' = q
                 ∨ ∃ g, get_group_id q = Some g ∧ g ≠ ""
                        ∧ (refine_threshold
                           < Z.of_nat (group_size questions g))%Z
                        ∧ (q' = set_group_id None q
                           ∨ ∃ n, q' = set_group_id
                                         (Some (sub_group_label g n)) q)).
Proof.
  destruct (run_stage2_outcomes hdbscan_fit_predict linkage_fcluster
              set_iter set_iter_perm bi ce threshold fit_predict_length
              fcluster_length questions refine_threshold)
    as (questions' & outcomes & Hres & Hlen & Hout & Hall & _).
  destruct (find_large_groups_spec questions refine_threshold)
    as [_ Hlarge].
  exists questions'. split_and!; [done..|]. intros i q Hq.
  destruct (decide (i ∈ pending (find_large_groups questions
                                   refine_threshold))) as [Hi|Hi].
  2:{ exists q. split; [by rewrite Hout|by left]. }
  apply elem_of_pending in Hi as (g & ms & Hin & Hi).
  destruct (Hlarge g ms Hin) as (Hsize & Hgne & Hm).
  pose proof (large_group_size questions refine_threshold g ms Hin)
    as Hgs.
  apply list_elem_of_lookup in Hin as [n Hn].
  destruct (Forall2_lookup_l _ _ _ _ _ Hall Hn) as (b & Hb & Hgroup).
  simpl in Hgroup. destruct b; simpl in Hgroup.
  - destruct Hgroup as (d & Hok & Hd & Hlook).
    exists (split_record g ms d i q). split.
    { by rewrite Hlook, Hq. }
    apply Hm in Hi as (q0 & Hq0 & Hg).
    assert (q0 = q) as -> by congruence.
    unfold split_record. destruct (dict_get i d) as [v|].
    + right. exists g. split_and!; [done|done|lia|]. right. by exists v.
    + case_decide; [|by left].
      right. exists g. split_and!; [done|done|lia|]. by left.
  - exists q. split; [|by left]. by rewrite Hgroup.
Qed.

(** X8.  Stage 2 touches nothing but the label: the collection keeps
    its length, and every record keeps its success flag and its
    payload. *)
Theorem stage2_changes_labels_only questions refine_threshold :
  ∃ questions',
    result (run_stage2 hdbscan_fit_predict linkage_fcluster set_iter
              questions bi ce refine_threshold threshold)
    = Ok (questions', tt)
    ∧ Forall2 same_content questions questions'.
Proof.
  destruct (run_stage2_records questions refine_threshold)
    as (questions' & Hres & Hlen & Hrec).
  exists questions'. split; [done|].
  apply Forall2_same_length_lookup. split; [done|].
  intros i q q' Hq Hq'.
  destruct (Hrec i q Hq) as (q0 & Hq0 & Hcase).
  assert (q0 = q') as -> by congruence.
  destruct Hcase as [->|(g & _ & _ & _ & [->|[n ->]])]; done.
Qed.

(** X9.  After Stage 2 a record is as it was, or it belonged to a group
    of more than [refine_threshold] records and now has no label or a
    label made of the label of that group, ["_sub"] and a number.  Stage 2
    never gives a label to a record without one. *)
Theorem stage2_label_provenance questions refine_threshold :
  ∃ questions',
    result (run_stage2 hdbscan_fit_predict linkage_fcluster set_iter
              questions bi ce refine_threshold threshold)
    = Ok (questions', tt)
    ∧ (∀ i q, questions !! i = Some q →
         ∃ q', questions' !! i = Some q'
               ∧ (q' = q
                  ∨ ∃ g, get_group_id q = Some g ∧ g ≠ ""
                         ∧ (refine_threshold
                            < Z.of_nat (group_size questions g))%Z
                         ∧ (get_group_id q' = None
                            ∨ ∃ n : Z,
                                get_group_id q'
                                = Some (g +:+ "_sub" +:+ pretty n))))
    ∧ (∀ i q q', questions !! i = Some q → questions' !! i = Some q' →
         get_group_id q = None → q' = q).
Proof.
  destruct (run_stage2_records questions refine_threshold)
    as (questions' & Hres & Hlen & Hrec).
  exists questions'. split_and!; [done| |].
  - intros i q Hq. destruct (Hrec i q Hq) as (q' & Hq' & Hcase).
    exists q'. split; [done|].
    destruct Hcase as [->|(g & Hg & Hne & Hsize & Hnew)]; [by left|].
    right. exists g. split_and!; [done..|].
    destruct Hnew as [->|[n ->]]; [by left|]. right. by exists n.
  - intros i q q' Hq Hq' Hnone.
    destruct (Hrec i q Hq) as (q0 & Hq0 & Hcase).
    assert (q0 = q') as -> by congruence.
    destruct Hcase as [->|(g & Hg & _)]; [done|congruence].
Qed.


(** X11.  The line [run_stage2] prints last counts as split exactly the
    large groups in which the label of some record changed, and as kept
    exactly those left as they were. *)
Theorem stage2_report_counts questions refine_threshold :
  find_large_groups questions refine_threshold ≠ [] →
  ∃ questions',
    result (run_stage2 hdbscan_fit_predict linkage_fcluster set_iter
              questions bi ce refine_threshold threshold)
    = Ok (questions', tt)
    ∧ last (trace (run_stage2 hdbscan_fit_predict linkage_fcluster
                     set_iter questions bi ce refine_threshold threshold))
      = Some (refinement_report
                (length (filter (λ e : string * list nat,
                                   group_relabelled questions questions'
                                     e.2)
                           (find_large_groups questions refine_threshold)))
                (length (filter (λ e : string * list nat,
                                   ¬ group_relabelled questions questions'
                                       e.2)
                           (find_large_groups questions
                              refine_threshold)))).
Proof.
  intros Hne.
  destruct (run_stage2_outcomes hdbscan_fit_predict linkage_fcluster
              set_iter set_iter_perm bi ce threshold fit_predict_length
              fcluster_length questions refine_threshold)
    as (questions' & outcomes & Hres & Hlen & Hout & Hall & Hlast).
  destruct (find_large_groups_spec questions refine_threshold)
    as [_ Hlarge].
  exists questions'. split; [done|]. rewrite (Hlast Hne).
  destruct (count_outcomes
              (λ e : string * list nat,
                 group_relabelled questions questions' e.2)
              (find_large_groups questions refine_threshold) outcomes)
    as [-> ->]; [|done].
  apply Forall2_same_length_lookup. split; [by eapply Forall2_length|].
  intros n [g ms] b Hn Hb.
  pose proof (Forall2_lookup_lr _ _ _ _ _ _ Hall Hn Hb) as Hgroup.
  assert ((g, ms) ∈ find_large_groups questions refine_threshold) as Hin
    by by eapply list_elem_of_lookup_2.
  destruct (Hlarge g ms Hin) as (_ & Hgne & Hm).
  simpl in *. unfold group_relabelled. rewrite Exists_exists.
  destruct b; simpl in Hgroup.
  - split; [intros _|done].
    destruct Hgroup as (d & (Hkeys & Hsub & _) & Hd & Hlook).
    destruct (distinct_values_two d Hd) as (k & v & _ & _ & Hkv & _).
    assert (k ∈ ms) as Hk
      by (apply Hsub; by apply (list_elem_of_fmap_2 fst) in Hkv).
    exists k. split; [done|].
    destruct (proj1 (Hm k) Hk) as (q & Hq & Hg).
    rewrite (Hlook k Hk), Hq. simpl. unfold split_record.
    rewrite (proj1 (elem_of_dict _ _ _ Hkeys) Hkv).
    rewrite get_group_id_set, Hg. intros [= Heq].
    by apply sub_group_label_fresh in Heq.
  - split; [done|]. intros (i & Hi & Hchanged).
    by rewrite (Hgroup i Hi) in Hchanged.
Qed.
End Stage2Records.

Lemma stage2_changes_labels_only_witness :
  ∃ questions',
    result (run_stage2 example_total_hdbscan example_total_fcluster elements
              example_group id example_cross_encoder 3 (7 # 10))
    = Ok (questions', tt)
    ∧ Forall2 same_content example_group questions'.
Proof.
  apply (stage2_changes_labels_only example_total_hdbscan
           example_total_fcluster elements elements_perm id
           example_cross_encoder (7 # 10)
           (example_total_hdbscan_length fine_params)
           example_total_fcluster_length example_group 3).
Defined.

(** Five records of the group ["g"] and two records that already carry
    the label ["g_sub1"]. *)
Definition example_labelled_collection : list question :=
  example_group
  ++ (set_group_id (Some "g_sub1")
      <$> [example_question [70%N]; example_question [71%N]]).

Lemma stage2_label_provenance_witness :
  ∃ questions',
    result (run_stage2 example_total_hdbscan example_total_fcluster elements
              example_labelled_collection id example_cross_encoder 3
              (7 # 10))
    = Ok (questions', tt)
    ∧ get_group_id <$> questions'
      = [Some "g_sub1"; Some "g_sub1"; Some "g_sub1"; Some "g_sub2";
         Some "g_sub2"; Some "g_sub1"; Some "g_sub1"]
    ∧ ∀ i q, example_labelled_collection !! i = Some q →
        ∃ q', questions' !! i = Some q'
              ∧ (q' = q ∨ get_group_id q' = None
                 ∨ ∃ n : Z, get_group_id q'
                            = Some ("g" +:+ "_sub" +:+ pretty n)).
Proof.
  destruct (stage2_label_provenance example_total_hdbscan
              example_total_fcluster elements elements_perm id
              example_cross_encoder (7 # 10)
              (example_total_hdbscan_length fine_params)
              example_total_fcluster_length example_labelled_collection 3)
    as (questions' & Hres & Hrec & _).
  exists questions'. split_and!; [exact Hres| |].
  - assert (match result (run_stage2 example_total_hdbscan
                            example_total_fcluster elements
                            example_labelled_collection id
                            example_cross_encoder 3 (7 # 10))
            with
            | Ok (qs, _) =>
                get_group_id <$> qs
                = [Some "g_sub1"; Some "g_sub1"; Some "g_sub1";
                   Some "g_sub2"; Some "g_sub2"; Some "g_sub1";
                   Some "g_sub1"]
            | _ => False
            end) as Hrun by by vm_compute.
    by rewrite Hres in Hrun.
  - intros i q Hq. destruct (Hrec i q Hq) as (q' & Hq' & Hcase).
    exists q'. split; [exact Hq'|].
    destruct Hcase as [->|(g & Hg & _ & Hlarge & Hnew)]; [by left|].
    right.
    assert (g = "g") as ->.
    { apply list_elem_of_lookup_2 in Hq.
      unfold example_labelled_collection, example_group in Hq.
      apply elem_of_app in Hq as [Hq|Hq].
      - apply list_elem_of_fmap in Hq as (q0 & -> & _).
        rewrite get_group_id_set in Hg. congruence.
      - exfalso. apply list_elem_of_fmap in Hq as (q0 & -> & _).
        rewrite get_group_id_set in Hg. injection Hg as <-.
        vm_compute in Hlarge. done. }
    exact Hnew.
Defined.


Lemma stage2_report_counts_witness :
  ∃ questions',
    result (run_stage2 example_total_hdbscan example_total_fcluster elements
              example_group id example_cross_encoder 3 (7 # 10))
    = Ok (questions', tt)
    ∧ last (trace (run_stage2 example_total_hdbscan example_total_fcluster
                     elements example_group id example_cross_encoder 3
                     (7 # 10)))
      = Some (refinement_report
                (length (filter (λ e : string * list nat,
                                   group_relabelled example_group questions'
                                     e.2)
                           (find_large_groups example_group 3)))
                (length (filter (λ e : string * list nat,
                                   ¬ group_relabelled example_group
                                       questions' e.2)
                           (find_large_groups example_group 3)))).
Proof.
  apply (stage2_report_counts example_total_hdbscan example_total_fcluster
           elements elements_perm id example_cross_encoder (7 # 10)
           (example_total_hdbscan_length fine_params)
           example_total_fcluster_length example_group 3).
  by vm_compute.
Defined.

(** ** The pairs that are scored *)

Lemma length_pairs_with (i start len : nat) :
  length (j ← seq start len; [(i, j)]) = len.
Proof.
  revert start. induction len as [|len IH]; intros start; [done|].
  cbn [seq]. csimpl. by rewrite IH.
Qed.

Lemma length_pairs_from (bound : nat → nat) (l : list nat) :
  length (i ← l; j ← py_range (i + 1) (bound i); [(i, j)])
  = sum_list ((λ i, bound i - (i + 1)) <$> l).
Proof.
  induction l as [|i l IH]; [done|]. csimpl.
  rewrite length_app, IH. f_equal.
  unfold py_range. apply length_pairs_with.
Qed.

Lemma sum_list_bounded (f : nat → nat) (c : nat) (l : list nat) :
  (∀ i, f i ≤ c) → sum_list (f <$> l) ≤ c * length l.
Proof.
  intros Hf. induction l as [|i l IH]; csimpl; [lia|].
  specialize (Hf i). nia.
Qed.

Lemma sum_list_descending (m n : nat) :
  n ≤ S m →
  2 * sum_list ((λ i, m - i) <$> seq 0 n) = n * (2 * m + 1 - n).
Proof.
  induction n as [|n IH]; intros Hn; [done|].
  rewrite seq_S, fmap_app, sum_list_with_app. simpl.
  specialize (IH ltac:(lia)). nia.
Qed.

Lemma pairs_from_ext (f g : nat → nat) (l : list nat) :
  (∀ i, i ∈ l → f i = g i) →
  (i ← l; j ← py_range (i + 1) (f i); [(i, j)])
  = (i ← l; j ← py_range (i + 1) (g i); [(i, j)]).
Proof.
  intros Hfg. induction l as [|i l IH]; [done|]. csimpl.
  rewrite (Hfg i) by apply list_elem_of_here.
  rewrite IH; [done|]. intros i' Hi'. by apply Hfg, list_elem_of_further.
Qed.

(** X12.  The bounded pass of Stage 2 scores at most 50 pairs for each
    member of a cluster, and for a cluster of at most 51 members it scores
    the same pairs as Stage 1 and the fallback, which score every pair:
    [n * (n - 1) / 2] of them. *)
Theorem bounded_pairs_work n :
  length (bounded_pairs n) ≤ 50 * n
  ∧ (n ≤ 51 → bounded_pairs n = all_pairs n)
  ∧ 2 * length (all_pairs n) = n * (n - 1)
  ∧ ∀ i j, (i, j) ∈ bounded_pairs n → (i, j) ∈ all_pairs n.
Proof.
  split_and!.
  - unfold bounded_pairs. rewrite length_pairs_from.
    etransitivity; [apply (sum_list_bounded _ 50)|].
    + intros i. lia.
    + unfold py_range. by rewrite length_seq, Nat.sub_0_r.
  - intros Hn. unfold bounded_pairs, all_pairs. apply pairs_from_ext.
    intros i Hi%elem_of_py_range. lia.
  - unfold all_pairs. rewrite (length_pairs_from (λ _, n)).
    unfold py_range. rewrite Nat.sub_0_r.
    destruct n as [|m]; [done|].
    rewrite (list_fmap_ext _ (λ i, m - i) (seq 0 (S m)))
      by (intros ? i _; lia).
    rewrite sum_list_descending by lia. nia.
  - intros i j. rewrite elem_of_bounded_pairs, elem_of_all_pairs. lia.
Qed.

(** ** The fallback and the groups of fewer than four records *)

Section FallbackCalls.
Variable linkage_fcluster : nat → list Q → Q → list Z.

(** X13.  On a group of four records or more the fallback makes two
    calls: one to the cross-encoder, on every pair of texts of the
    group, and one to the hierarchical clustering; on a smaller group
    it returns at once that no split is possible. *)
Theorem fallback_calls questions indices texts ce threshold :
  length texts = length indices →
  (4 ≤ length indices →
   trace (try_split_with_cross_encoder linkage_fcluster questions indices
            texts ce threshold)
   = [ PredictCall (text_pairs texts (all_pairs (length indices)));
       LinkageCall (length indices) ])
  ∧ (length indices < 4 →
     try_split_with_cross_encoder linkage_fcluster questions indices
       texts ce threshold = ret None).
Proof.
  intros Htexts. unfold try_split_with_cross_encoder. split.
  - intros Hn. rewrite decide_False by lia.
    assert (Forall (λ p : nat * nat,
                      p.1 < length texts ∧ p.2 < length texts)
                   (all_pairs (length indices))) as Hpairs.
    { apply Forall_forall. intros [i j] Hij%elem_of_all_pairs.
      simpl. lia. }
    assert (trace (comprehension
                     (λ p : nat * nat,
                        a <- index texts p.1 ;; b <- index texts p.2 ;;
                        ret (a, b))
                     (all_pairs (length indices))) = []) as Hsilent.
    { apply traced_nothing, traced_comprehension. intros p.
      apply traced_bind; [apply traced_index|]. intros a.
      apply traced_bind; [apply traced_index|]. intros b.
      apply traced_ret. }
    rewrite (M_ret_eq _ _ Hsilent (comprehension_pairs texts _ Hpairs)).
    rewrite bind_ret_l. unfold predict, linkage_cut.
    rewrite bind_assoc, trace_emit_bind, bind_ret_l.
    rewrite bind_assoc, trace_emit_bind, bind_ret_l.
    do 2 f_equal. apply traced_nothing.
    case_decide; [apply traced_ret|].
    apply traced_bind.
    { apply traced_for_each. intros d [i label].
      apply traced_bind; [apply traced_index|]. intros; apply traced_ret. }
    intros assignments. cbv zeta.
    repeat case_decide; apply traced_ret.
  - intros Hn. by rewrite decide_True by done.
Qed.
End FallbackCalls.

Section SmallGroups.
Context {embeddings : Type}.
Variable hdbscan_fit_predict : hdbscan_params → embeddings → list Z.
Variable linkage_fcluster : nat → list Q → Q → list Z.
Variable set_iter : gset nat → list nat.

Lemma refine_small_groups bi ce threshold todo questions groups_split
    groups_kept :
  Forall (λ e : string * list nat, length e.2 < 4) todo →
  for_each (stage2_group hdbscan_fit_predict linkage_fcluster set_iter bi
              ce threshold) todo (questions, groups_split, groups_kept)
  = ret (questions, groups_split, groups_kept + length todo).
Proof.
  intros Hall. revert groups_kept.
  induction Hall as [|[g ms] todo Hlen _ IH]; intros groups_kept.
  { simpl. by rewrite Nat.add_0_r. }
  cbn [for_each]. unfold stage2_group at 1.
  rewrite try_split_group_small by done. rewrite !bind_ret_l, IH.
  simpl. do 3 f_equal. lia.
Qed.

(** X14.  A group of fewer than four records is never split, however
    small the threshold: when every group larger than the threshold has
    fewer than four records, [run_stage2] calls no model, leaves the
    collection as it is and reports every such group as kept. *)
Theorem stage2_keeps_groups_below_four questions bi ce refine_threshold
    threshold :
  Forall (λ e : string * list nat, length e.2 < 4)
         (find_large_groups questions refine_threshold) →
  let run := run_stage2 hdbscan_fit_predict linkage_fcluster set_iter
               questions bi ce refine_threshold threshold in
  result run = Ok (questions, tt)
  ∧ Forall (λ e, ∃ line, e = PrintLine line) (trace run)
  ∧ (find_large_groups questions refine_threshold ≠ [] →
     last (trace run)
     = Some (refinement_report 0
               (length (find_large_groups questions refine_threshold)))).
Proof.
  intros Hsmall run. unfold run, run_stage2.
  destruct (find_large_groups questions refine_threshold)
    as [|e large] eqn:Hlarge.
  { split_and!; [done| |done]. repeat constructor. by eexists. }
  fold (refine_groups hdbscan_fit_predict linkage_fcluster set_iter
          questions (e :: large) bi ce threshold).
  unfold refine_groups. rewrite refine_small_groups by done.
  rewrite bind_ret_l. split_and!.
  - done.
  - repeat constructor; by eexists.
  - done.
Qed.
End SmallGroups.

Lemma fallback_calls_witness :
  trace (try_split_with_cross_encoder example_fcluster [] [0; 1; 2; 3; 4]
           example_texts example_cross_encoder (7 # 10))
  = [ PredictCall (text_pairs example_texts (all_pairs 5)); LinkageCall 5 ].
Proof.
  apply (fallback_calls example_fcluster [] [0; 1; 2; 3; 4] example_texts
           example_cross_encoder (7 # 10)).
  - reflexivity.
  - simpl. lia.
Defined.

(** Three records that carry the label of one group. *)
Definition example_small_group : list question :=
  set_group_id (Some "g") <$> take 3 example_questions.

Lemma stage2_keeps_groups_below_four_witness :
  result (run_stage2 example_hdbscan example_fcluster elements
            example_small_group id example_cross_encoder 2 (7 # 10))
  = Ok (example_small_group, tt).
Proof.
  apply (stage2_keeps_groups_below_four example_hdbscan example_fcluster
           elements example_small_group id example_cross_encoder 2
           (7 # 10)).
  repeat constructor.
Defined.

(** ** The numbers of the sub-groups of the density pass *)

Section DensityNumbers.
Context {embeddings : Type}.
Variable hdbscan_fit_predict : hdbscan_params → embeddings → list Z.
Variable linkage_fcluster : nat → list Q → Q → list Z.
Variable set_iter : gset nat → list nat.
Hypothesis set_iter_perm : ∀ s, set_iter s ≡ₚ elements s.

(** The density pass numbers disjoint groups of two keys or more. *)
Lemma density_pass_groups ce threshold bi questions indices :
  NoDup indices →
  length (fine_labels hdbscan_fit_predict bi questions indices)
    = length indices →
  ∃ gs,
    NoDup (concat gs) ∧ Forall (λ g, 2 ≤ length g) gs
    ∧ result (density_pass hdbscan_fit_predict set_iter ce threshold bi
                questions indices)
      = Ok (foldl (assign_group (λ c, (c + 1)%Z) id dict_set) (0%Z, [])
              gs).
Proof.
  intros Hnd Hlen. unfold density_pass.
  set (texts := group_texts questions indices).
  set (labels := fine_labels hdbscan_fit_predict bi questions indices)
    in *.
  set (clusters := group_clusters labels).
  assert (length indices = length texts) as Htexts
    by (unfold texts, group_texts; by rewrite length_fmap).
  assert (∀ p, p ∈ concat clusters.*2 → p < length indices) as Hb.
  { intros p (ms & Hp & ([k ms'] & -> & He)%list_elem_of_fmap)%elem_of_concat.
    destruct (grouped_entry cluster_key _ _ _ _
                (group_clusters_grouped labels) He) as (_ & _ & Hm).
    apply Hm in Hp as (x & Hx%lookup_lt_Some & _). lia. }
  assert (Forall (λ e : Z * list nat,
                    Forall (λ p, p < length texts) e.2) clusters)
    as Hall.
  { apply Forall_forall. intros e He. apply Forall_forall. intros p Hp.
    rewrite <-Htexts. apply Hb, elem_of_concat. exists e.2.
    split; [done|]. by apply list_elem_of_fmap_2. }
  destruct (stage2_clusters_spec set_iter set_iter_perm ce threshold texts
              indices clusters (0%Z, []) Hall Htexts)
    as (nss & Hfound & Hres).
  exists (key_groups indices clusters nss). split_and!; [| |done].
  - rewrite key_groups_positions.
    destruct (kept_positions_spec (stage2_graph ce threshold texts)
                clusters nss) as [Hp1 Hp2];
      [by eapply grouped_NoDup, group_clusters_grouped|done|].
    apply NoDup_fmap_2_strong; [|done].
    intros p p' Hp Hp'. apply lookup_total_inj; auto.
  - apply Forall_forall. intros g Hg.
    apply elem_of_concat_zip_with in Hg as (i & e & nodess & _ & _ & Hg).
    apply list_elem_of_fmap in Hg as (c & -> & Hc).
    apply elem_of_kept_components in Hc as (nodes & _ & Hl & ->).
    unfold keys_of, members_of. by rewrite !length_fmap.
Qed.

(** X15.  When the fine pass gives two clusters or more, the sub-group
    numbers [try_split_group] returns are 1, 2, ..., k without gaps
    (the fallback, in contrast, keeps the numbers of the cut). *)
Theorem density_numbers_contiguous questions indices bi ce threshold :
  Forall (λ i, i < length questions) indices →
  NoDup indices →
  length (fine_labels hdbscan_fit_predict bi questions indices)
    = length indices →
  2 ≤ size (unique_labels
              (fine_labels hdbscan_fit_predict bi questions indices)) →
  ∀ d,
    result (try_split_group hdbscan_fit_predict linkage_fcluster set_iter
              questions indices bi ce threshold) = Ok (Some d) →
    contiguous_numbers d.
Proof.
  intros Hrange Hnd Hlen Hu d Hres.
  destruct (decide (length indices < 4)) as [Hn|Hn].
  { by rewrite try_split_group_small in Hres by done. }
  rewrite try_split_group_eq in Hres by done.
  rewrite !result_emit_then in Hres.
  rewrite decide_False in Hres by lia.
  destruct (density_pass_groups ce threshold bi questions indices Hnd
              Hlen) as (gs & Hgs & Hbig & Hpass).
  rewrite (bind_ok _ _ _ Hpass) in Hres.
  case_decide as Hd; [|done]. injection Hres as <-.
  set (st := foldl (assign_group (λ c, (c + 1)%Z) id dict_set)
               (0%Z, []) gs) in *.
  assert (NoDup (dict_keys st.2)) as Hkeys
    by by apply NoDup_stage2_assign, NoDup_nil.
  assert (∀ k v, dict_get k st.2 = Some v
                 ↔ ∃ i g, gs !! i = Some g ∧ k ∈ g
                          ∧ v = Z.of_nat (S i)) as Hlook.
  { intros k v. unfold st.
    rewrite (assign_groups_lookup (λ c, (c + 1)%Z) id
               (λ k (d : list (nat * Z)), dict_get k d) dict_set
               (λ k k' v d, dict_get_set k k' v d) _ _ _ _ Hgs).
    cbn [fst snd dict_get]. setoid_rewrite iter_Zsucc.
    unfold id. split.
    - intros [[_ ?]|(i & g & Hi & Hk & ->)]; [done|].
      exists i, g. split_and!; [done..|lia].
    - intros (i & g & Hi & Hk & ->). right. exists i, g.
      split_and!; [done..|lia]. }
  exists (Z.of_nat (length gs)). intros v. unfold dict_values. split.
  - intros ([k v'] & -> & Hin)%list_elem_of_fmap. simpl.
    apply (elem_of_dict _ _ _ Hkeys), Hlook in Hin
      as (i & g & Hi%lookup_lt_Some & _ & ->). lia.
  - intros Hv.
    destruct (lookup_lt_is_Some_2 gs (Z.to_nat v - 1)) as [g Hg]; [lia|].
    rewrite Forall_forall in Hbig.
    assert (2 ≤ length g) as Hglen
      by by eapply Hbig, list_elem_of_lookup_2.
    destruct g as [|k g]; [simpl in Hglen; lia|].
    apply list_elem_of_fmap. exists (k, v). split; [done|].
    apply (elem_of_dict _ _ _ Hkeys), Hlook.
    exists (Z.to_nat v - 1), (k :: g).
    split_and!; [done|apply list_elem_of_here|lia].
Qed.
End DensityNumbers.

Lemma density_numbers_contiguous_witness :
  ∃ d,
    result (try_split_group example_hdbscan example_fcluster elements
              example_questions example_indices id example_cross_encoder
              (7 # 10)) = Ok (Some d)
    ∧ contiguous_numbers d.
Proof.
  eexists. split; [by vm_compute|].
  apply (density_numbers_contiguous example_hdbscan example_fcluster
           elements elements_perm example_questions example_indices id
           example_cross_encoder (7 # 10)).
  - compute_done.
  - compute_done.
  - reflexivity.
  - vm_compute. lia.
  - by vm_compute.
Defined.

(** ** The whole run *)

(** An event that is neither a call to the cross-encoder nor one to the
    hierarchical clustering. *)
Definition no_pair_model (e : event) : Prop :=
  (∀ pairs, e ≠ PredictCall pairs) ∧ (∀ n, e ≠ LinkageCall n).

Definition no_linkage (e : event) : Prop := ∀ n, e ≠ LinkageCall n.

Lemma no_pair_model_no_linkage e : no_pair_model e → no_linkage e.
Proof. by intros [_ ?]. Qed.

Lemma traced_false {A} P (m : M A) : traced (λ _, False) m → traced P m.
Proof. apply traced_impl. done. Qed.

Lemma print_stats_prints format_average questions title :
  traced (λ e, ∃ line, e = PrintLine line)
    (print_stats format_average questions title)
  ∧ result (print_stats format_average questions title) = Ok tt.
Proof.
  unfold print_stats. destruct (similarity_groups questions).
  - split; [|done]. apply traced_emit. by eexists.
  - split; [|done]. repeat constructor; by eexists.
Qed.

Section WholeRun.
Context {embeddings : Type}.
Variable hdbscan_fit_predict : hdbscan_params → embeddings → list Z.
Variable linkage_fcluster : nat → list Q → Q → list Z.
Variable set_iter : gset nat → list nat.
Variable format_average : nat → nat → string.

Lemma find_similarity_groups_no_linkage qwi bi cross_encoder mcs threshold
    use :
  traced no_linkage
    (find_similarity_groups hdbscan_fit_predict set_iter qwi bi
       cross_encoder mcs threshold use)
  ∧ (use = false ∨ cross_encoder = None →
     traced no_pair_model
       (find_similarity_groups hdbscan_fit_predict set_iter qwi bi
          cross_encoder mcs threshold use)).
Proof.
  assert (∀ P,
            P (EncodeCall
                 (prepare_e5_text
                  <$> ((λ d : nat * nat * text, d.2) <$> valid_rows qwi)))
            → P (FitPredictCall (coarse_params mcs)) →
            (∀ cl, traced P
                     (st <- for_each
                              (stage1_cluster_unverified
                                 ((λ d : nat * nat * text, d.1.2)
                                  <$> valid_rows qwi)) cl (0, ∅) ;;
                      ret st.2)) →
            (use = false ∨ cross_encoder = None
             ∨ ∀ ce cl,
                 traced P
                   (st <- for_each
                            (stage1_cluster set_iter ce threshold
                               ((λ d : nat * nat * text, d.2)
                                <$> valid_rows qwi)
                               ((λ d : nat * nat * text, d.1.2)
                                <$> valid_rows qwi)) cl (0, ∅) ;;
                    ret st.2)) →
            traced P
              (find_similarity_groups hdbscan_fit_predict set_iter qwi bi
                 cross_encoder mcs threshold use)) as Hgen.
  { intros P He Hf Hunv Hver. unfold find_similarity_groups.
    destruct qwi; [apply traced_ret|].
    case_decide; [apply traced_ret|].
    apply traced_bind.
    { unfold bi_encoder_encode.
      apply traced_bind; [by apply traced_emit|intros; apply traced_ret]. }
    intros emb. apply traced_bind.
    { unfold fit_predict.
      apply traced_bind; [by apply traced_emit|intros; apply traced_ret]. }
    intros cluster_labels.
    destruct use, cross_encoder as [ce|]; try apply Hunv.
    destruct Hver as [?|[?|Hver]]; [done..|]. apply Hver. }
  assert (∀ P cl,
            traced P
              (st <- for_each
                       (stage1_cluster_unverified
                          ((λ d : nat * nat * text, d.1.2)
                           <$> valid_rows qwi)) cl (0, ∅) ;;
               ret st.2)) as Hunv.
  { intros P cl. apply traced_false.
    apply traced_bind; [|intros; apply traced_ret].
    apply traced_for_each. intros st e.
    apply stage1_cluster_unverified_silent. }
  split.
  - apply Hgen; [done|done|apply Hunv|]. right. right. intros ce cl.
    apply traced_bind; [|intros; apply traced_ret].
    apply traced_for_each. intros st e. unfold stage1_cluster.
    case_decide; [apply traced_ret|].
    apply traced_bind.
    { apply traced_comprehension. intros i. apply traced_index. }
    intros member_texts. destruct (text_pairs _ _); [apply traced_ret|].
    apply traced_bind.
    { unfold predict.
      apply traced_bind; [by apply traced_emit|intros; apply traced_ret]. }
    intros scores. apply traced_bind; [|intros; apply traced_ret].
    apply traced_for_each. intros s x.
    apply traced_false, stage1_start_silent.
  - intros Hoff. apply Hgen; [done|done|apply Hunv|].
    destruct Hoff; auto.
Qed.

Lemma run_stage1_no_linkage questions bi cross_encoder mcs threshold use :
  traced no_linkage
    (run_stage1 hdbscan_fit_predict set_iter questions bi cross_encoder
       mcs threshold use)
  ∧ (use = false ∨ cross_encoder = None →
     traced no_pair_model
       (run_stage1 hdbscan_fit_predict set_iter questions bi
          cross_encoder mcs threshold use)).
Proof.
  assert (∀ P,
            (∀ line, P (PrintLine line)) →
            traced P
              (find_similarity_groups hdbscan_fit_predict set_iter
                 (stage1_candidates questions) bi cross_encoder mcs
                 threshold use) →
            traced P
              (run_stage1 hdbscan_fit_predict set_iter questions bi
                 cross_encoder mcs threshold use)) as Hgen.
  { intros P Hprint Hfind. unfold run_stage1.
    repeat (apply traced_bind; [by apply traced_emit|intros _]).
    apply traced_bind; [exact Hfind|]. intros m.
    apply traced_bind; [by apply traced_emit|intros _].
    apply traced_ret. }
  destruct (find_similarity_groups_no_linkage
              (stage1_candidates questions) bi cross_encoder mcs threshold
              use) as [H1 H2].
  split; [by apply Hgen|]. intros Hoff. apply Hgen; [done|by apply H2].
Qed.

(** X16.  When the run is started without the cross-encoder, or with
    refinement switched off, Stage 2 does not run: the records are
    those Stage 1 leaves and the hierarchical clustering is never
    called; without the cross-encoder no pair is ever scored either,
    even when refinement was asked for. *)
Theorem main_without_refinement questions bi ce no_cross_encoder
    no_refine mcs threshold refine_threshold refine_ce_threshold :
  no_cross_encoder = true ∨ no_refine = true →
  let run := main_stages format_average hdbscan_fit_predict
               linkage_fcluster set_iter questions bi ce no_cross_encoder
               no_refine mcs threshold refine_threshold
               refine_ce_threshold in
  (∀ r1,
     result (run_stage1 hdbscan_fit_predict set_iter questions bi
               (if no_cross_encoder then None else Some ce) mcs threshold
               (negb no_cross_encoder)) = Ok r1 →
     result run = Ok r1.1)
  ∧ Forall no_linkage (trace run)
  ∧ (no_cross_encoder = true → Forall no_pair_model (trace run)).
Proof.
  intros Hoff run.
  assert (run
          = (r1 <- run_stage1 hdbscan_fit_predict set_iter questions bi
                     (if no_cross_encoder then None else Some ce) mcs
                     threshold (negb no_cross_encoder) ;;
             print_stats format_average r1.1 "After Stage 1" ;;;
             ret r1.1)) as ->.
  { unfold run, main_stages. apply bind_ext. intros r1.
    apply bind_ext. intros _.
    destruct Hoff as [->| ->]; [by destruct no_refine|].
    by destruct no_cross_encoder. }
  destruct (run_stage1_no_linkage questions bi
              (if no_cross_encoder then None else Some ce) mcs threshold
              (negb no_cross_encoder)) as [H1 H2].
  split_and!.
  - intros r1 Hr1. rewrite (bind_ok _ _ _ Hr1).
    by rewrite (bind_ok _ _ tt)
      by apply (print_stats_prints format_average).
  - apply traced_bind; [done|]. intros r1.
    apply traced_bind; [|intros; apply traced_ret].
    eapply traced_impl; [|apply (print_stats_prints format_average)].
    by intros e [line ->].
  - intros ->. apply traced_bind; [apply H2; by right|]. intros r1.
    apply traced_bind; [|intros; apply traced_ret].
    eapply traced_impl; [|apply (print_stats_prints format_average)].
    by intros e [line ->].
Qed.
End WholeRun.

Lemma relabel_same_content m questions :
  Forall2 same_content questions (relabel m questions).
Proof.
  apply Forall2_same_length_lookup. split; [by rewrite length_relabel|].
  intros i q q' Hq Hq'. rewrite lookup_relabel, Hq in Hq'.
  by injection Hq' as <-.
Qed.

Lemma same_content_trans (l1 l2 l3 : list question) :
  Forall2 same_content l1 l2 → Forall2 same_content l2 l3 →
  Forall2 same_content l1 l3.
Proof.
  intros H12 H23. apply Forall2_same_length_lookup. split.
  { by rewrite (Forall2_length _ _ _ H12), (Forall2_length _ _ _ H23). }
  intros i q1 q3 H1 H3.
  destruct (Forall2_lookup_l _ _ _ _ _ H12 H1) as (q2 & H2 & [? ?]).
  destruct (Forall2_lookup_lr _ _ _ _ _ _ H23 H2 H3) as [? ?].
  split; congruence.
Qed.

Section WholeRunInvariants.
Context {embeddings : Type}.
Variable hdbscan_fit_predict : hdbscan_params → embeddings → list Z.
Variable linkage_fcluster : nat → list Q → Q → list Z.
Variable set_iter : gset nat → list nat.
Hypothesis set_iter_perm : ∀ s, set_iter s ≡ₚ elements s.
Variable format_average : nat → nat → string.

Lemma run_stage2_same_content bi ce threshold questions refine_threshold
    questions' :
  (∀ texts, length (hdbscan_fit_predict fine_params (bi texts))
            = length texts) →
  (∀ n scores t, length (linkage_fcluster n scores t) = n) →
  result (run_stage2 hdbscan_fit_predict linkage_fcluster set_iter
            questions bi ce refine_threshold threshold)
  = Ok (questions', tt) →
  Forall2 same_content questions questions'.
Proof.
  intros Hfit Hcut Hres.
  destruct (run_stage2_records hdbscan_fit_predict linkage_fcluster
              set_iter set_iter_perm bi ce threshold Hfit Hcut questions
              refine_threshold) as (q2 & Hres2 & Hlen & Hrec).
  rewrite Hres in Hres2. injection Hres2 as <-.
  apply Forall2_same_length_lookup. split; [done|].
  intros i q q' Hq Hq'.
  destruct (Hrec i q Hq) as (q0 & Hq0 & Hcase).
  assert (q0 = q') as -> by congruence.
  destruct Hcase as [->|(g & _ & _ & _ & [->|[n ->]])]; done.
Qed.

(** X17.  Whatever the options, when the clusterer and the cut label
    every row the run from the first stage to the last statistics ends
    without an error, with as many records as it started with, each
    with the success flag and the payload it had, and with every label
    on two records or more. *)
Theorem main_stages_invariants questions bi ce no_cross_encoder no_refine
    mcs threshold refine_threshold refine_ce_threshold :
  (∀ p texts, length (hdbscan_fit_predict p (bi texts)) = length texts) →
  (∀ n scores t, length (linkage_fcluster n scores t) = n) →
  ∃ questions',
    result (main_stages format_average hdbscan_fit_predict
              linkage_fcluster set_iter questions bi ce no_cross_encoder
              no_refine mcs threshold refine_threshold
              refine_ce_threshold) = Ok questions'
    ∧ length questions' = length questions
    ∧ Forall2 same_content questions questions'
    ∧ min_group_size questions'.
Proof.
  intros Hfit Hcut.
  set (cross_encoder := if no_cross_encoder then None else Some ce).
  destruct (find_similarity_groups_total hdbscan_fit_predict set_iter
              set_iter_perm (stage1_candidates questions) bi cross_encoder
              mcs threshold (negb no_cross_encoder)
              (NoDup_stage1_candidates questions))
    as (m & Hres & Hmin & Hkeys).
  { unfold stage1_cluster_labels. by rewrite Hfit, length_fmap. }
  assert (result (run_stage1 hdbscan_fit_predict set_iter questions bi
                    cross_encoder mcs threshold (negb no_cross_encoder))
          = Ok (relabel m questions, tt)) as Hres1
    by by rewrite run_stage1_result, Hres.
  pose proof (relabel_min_group_size questions m Hmin Hkeys) as Hmin1.
  unfold main_stages. fold cross_encoder.
  rewrite (bind_ok _ _ _ Hres1). cbn [fst].
  rewrite (bind_ok _ _ tt) by apply (print_stats_prints format_average).
  assert (result (ret (relabel m questions))
          = Ok (relabel m questions)
          ∧ length (relabel m questions) = length questions
          ∧ Forall2 same_content questions (relabel m questions)
          ∧ min_group_size (relabel m questions)) as Hstage1.
  { split_and!; [done|apply length_relabel|apply relabel_same_content|
                 done]. }
  destruct no_refine; [by eexists|].
  unfold cross_encoder. destruct no_cross_encoder; [by eexists|].
  destruct (run_stage2_spec hdbscan_fit_predict linkage_fcluster set_iter
              set_iter_perm bi ce (Hfit fine_params) Hcut
              (relabel m questions) refine_threshold refine_ce_threshold)
    as (q2 & Hres2 & Hlen2 & _ & Hkeep & _).
  pose proof (run_stage2_same_content bi ce refine_ce_threshold
                (relabel m questions) refine_threshold q2
                (Hfit fine_params) Hcut Hres2) as Hsame.
  rewrite (bind_ok _ _ _ Hres2). cbn [fst].
  rewrite (bind_ok _ _ tt) by apply (print_stats_prints format_average).
  exists q2. split_and!.
  - done.
  - by rewrite Hlen2, length_relabel.
  - eapply same_content_trans; [apply relabel_same_content|done].
  - by apply Hkeep.
Qed.
End WholeRunInvariants.

Lemma main_without_refinement_witness :
  Forall no_pair_model
    (trace (main_stages example_format_average example_hdbscan
              example_fcluster elements example_collection id
              example_cross_encoder true false 2 (7 # 10) 10 (85 # 100))).
Proof.
  destruct (main_without_refinement example_hdbscan example_fcluster
              elements example_format_average example_collection id
              example_cross_encoder true false 2 (7 # 10) 10 (85 # 100))
    as (_ & _ & Hquiet).
  - by left.
  - by apply Hquiet.
Defined.

Lemma main_stages_invariants_witness :
  ∃ questions',
    result (main_stages example_format_average example_total_hdbscan
              example_total_fcluster elements example_collection id
              example_cross_encoder false false 2 (7 # 10) 2 (85 # 100))
    = Ok questions'
    ∧ length questions' = length example_collection
    ∧ Forall2 same_content example_collection questions'
    ∧ min_group_size questions'.
Proof.
  apply (main_stages_invariants example_total_hdbscan
           example_total_fcluster elements elements_perm
           example_format_average example_collection id
           example_cross_encoder false false 2 (7 # 10) 2 (85 # 100)).
  - apply example_total_hdbscan_length.
  - apply example_total_fcluster_length.
Defined.

(** ** Stage 1 without the cross-encoder *)

Lemma NoDup_concat_index {A} (ls : list (list A)) i j li lj x :
  NoDup (concat ls) → ls !! i = Some li → ls !! j = Some lj →
  x ∈ li → x ∈ lj → i = j.
Proof.
  revert i j. induction ls as [|l ls IH]; intros i j Hnd Hi Hj Hxi Hxj;
    [done|].
  cbn [concat] in Hnd. apply NoDup_app in Hnd as (_ & Hdisj & Hnd).
  destruct i as [|i], j as [|j]; simplify_eq/=; [done| | |].
  - exfalso. apply (Hdisj x Hxi). apply elem_of_concat. exists lj.
    split; [done|]. by eapply list_elem_of_lookup_2.
  - exfalso. apply (Hdisj x Hxj). apply elem_of_concat. exists li.
    split; [done|]. by eapply list_elem_of_lookup_2.
  - f_equal. by eapply IH.
Qed.

Lemma cluster_key_Some label c :
  cluster_key label = Some c ↔ label = c ∧ (0 ≤ label)%Z.
Proof. unfold cluster_key. case_decide; naive_solver. Qed.

Section Stage1Unverified.
Context {embeddings : Type}.
Variable hdbscan_fit_predict : hdbscan_params → embeddings → list Z.
Variable set_iter : gset nat → list nat.

(** X18.  Without the cross-encoder Stage 1 takes the clusters of the
    density clustering as they are: a valid row gets a label exactly
    when its cluster label is not noise and another row has the same
    cluster label, and two labelled rows get the same group label
    exactly when they have the same cluster label. *)
Theorem stage1_unverified_groups qwi bi cross_encoder mcs threshold use :
  NoDup qwi.*1 →
  2 ≤ length (valid_rows qwi) →
  length (stage1_cluster_labels hdbscan_fit_predict bi mcs qwi)
    = length (stage1_valid_texts qwi) →
  use = false ∨ cross_encoder = None →
  let cluster_labels :=
    stage1_cluster_labels hdbscan_fit_predict bi mcs qwi in
  let original_indices := stage1_original_indices qwi in
  ∃ m,
    result (find_similarity_groups hdbscan_fit_predict set_iter qwi bi
              cross_encoder mcs threshold use) = Ok m
    ∧ (∀ p, p < length original_indices →
         is_Some (m !! (original_indices !!! p))
         ↔ ∃ c, cluster_labels !! p = Some c ∧ (0 ≤ c)%Z
                ∧ ∃ p', p' ≠ p ∧ cluster_labels !! p' = Some c)
    ∧ (∀ p p' L L',
         p < length original_indices → p' < length original_indices →
         m !! (original_indices !!! p) = Some L →
         m !! (original_indices !!! p') = Some L' →
         L = L' ↔ cluster_labels !! p = cluster_labels !! p')
    ∧ (∀ k, is_Some (m !! k) → k ∈ original_indices).
Proof.
  intros Hnd Hrows Hlen Hoff labels orig.
  set (clusters := stage1_clusters hdbscan_fit_predict bi mcs qwi).
  pose proof (group_clusters_grouped labels) as Hg.
  fold (stage1_clusters hdbscan_fit_predict bi mcs qwi) in Hg.
  fold clusters in Hg.
  assert (length labels = length orig) as Hlen'.
  { unfold labels, orig. by rewrite Hlen, stage1_lengths. }
  assert (NoDup orig) as Horig by by apply NoDup_stage1_original_indices.
  assert (∀ p, p ∈ concat clusters.*2 → p < length orig) as Hb.
  { intros p (ms & Hp & (e & -> & He)%list_elem_of_fmap)%elem_of_concat.
    unfold orig. rewrite stage1_lengths.
    by eapply stage1_clusters_below. }
  set (gs := keys_of orig <$> filter (λ c, 2 ≤ length c) clusters.*2).
  assert (NoDup (concat gs)) as Hgs.
  { apply NoDup_concat_fmap_filter; [done| |done].
    by eapply grouped_NoDup. }
  set (m := (foldl (assign_group S sim_group_label gmap_set) (0, ∅)
               gs).2).
  assert (result (find_similarity_groups hdbscan_fit_predict set_iter qwi
                    bi cross_encoder mcs threshold use) = Ok m) as Hres.
  { assert (result (st <- for_each (stage1_cluster_unverified orig)
                            clusters (0, ∅) ;; ret st.2) = Ok m) as Hrun.
    { by rewrite (bind_ok _ _ _
                    (stage1_unverified_run orig clusters (0, ∅)
                       (stage1_clusters_in_range hdbscan_fit_predict bi
                          mcs qwi Hlen))). }
    unfold find_similarity_groups.
    destruct qwi as [|q0 qwi0]; [simpl in Hrows; lia|].
    rewrite decide_False by lia.
    rewrite (bind_ok _ _ _ (result_encode _ _)).
    rewrite (bind_ok _ _ _ (result_fit_predict _ _ _)).
    destruct use, cross_encoder; naive_solver. }
  assert (∀ k L, m !! k = Some L
                 ↔ ∃ i g, gs !! i = Some g ∧ k ∈ g
                          ∧ L = sim_group_label (S i)) as Hlook.
  { intros k L. unfold m.
    rewrite (assign_groups_lookup S sim_group_label
               (λ k (d : gmap nat string), d !! k) gmap_set
               gmap_get_set _ _ _ _ Hgs).
    cbn [fst snd]. rewrite lookup_empty.
    setoid_rewrite iter_S. setoid_rewrite Nat.add_0_r. naive_solver. }
  (* the groups are the clusters of two rows or more *)
  assert (∀ g, g ∈ gs
               ↔ ∃ lbl c, (lbl, c) ∈ clusters ∧ 2 ≤ length c
                          ∧ g = keys_of orig c) as Hgroups.
  { intros g. unfold gs. rewrite list_elem_of_fmap. split.
    - intros (c & -> & [Hc ([lbl c'] & -> & Hin)%list_elem_of_fmap]
                       %list_elem_of_filter).
      by exists lbl, c'.
    - intros (lbl & c & Hin & Hc & ->). exists c. split; [done|].
      apply list_elem_of_filter. split; [done|].
      by apply (list_elem_of_fmap_2 snd) in Hin. }
  assert (∀ lbl c p, (lbl, c) ∈ clusters → p < length orig →
            orig !!! p ∈ keys_of orig c ↔ p ∈ c) as Hkey.
  { intros lbl c p Hin Hp. unfold keys_of. rewrite list_elem_of_fmap.
    split; [|intros; by exists p].
    intros (p' & Heq & Hp').
    apply lookup_total_inj in Heq; [by subst|done|done|].
    apply Hb, elem_of_concat. exists c. split; [done|].
    by apply (list_elem_of_fmap_2 snd) in Hin. }
  assert (∀ lbl c p, (lbl, c) ∈ clusters →
            p ∈ c ↔ labels !! p = Some lbl ∧ (0 ≤ lbl)%Z) as Hmem.
  { intros lbl c p Hin.
    destruct (grouped_entry cluster_key _ _ _ _ Hg Hin) as (_ & _ & Hm).
    rewrite Hm. split.
    - intros (x & Hx & [-> ?]%cluster_key_Some). done.
    - intros [Hx ?]. exists lbl. split; [done|].
      by apply cluster_key_Some. }
  (* the label of a row, when it has one *)
  assert (∀ p L, p < length orig →
            m !! (orig !!! p) = Some L
            ↔ ∃ i lbl c, gs !! i = Some (keys_of orig c)
                         ∧ (lbl, c) ∈ clusters ∧ 2 ≤ length c
                         ∧ labels !! p = Some lbl ∧ (0 ≤ lbl)%Z
                         ∧ L = sim_group_label (S i)) as Hrow.
  { intros p L Hp. rewrite Hlook. split.
    - intros (i & g & Hi & Hk & ->).
      assert (g ∈ gs) as Hin by by eapply list_elem_of_lookup_2.
      apply Hgroups in Hin as (lbl & c & Hin & Hc & ->).
      apply (Hkey lbl c p Hin Hp), (Hmem lbl c p Hin) in Hk as [? ?].
      by exists i, lbl, c.
    - intros (i & lbl & c & Hi & Hin & Hc & Hl & Hpos & ->).
      exists i, (keys_of orig c). split_and!; [done| |done].
      apply (Hkey lbl c p Hin Hp), (Hmem lbl c p Hin). done. }
  exists m. split_and!; [done| | |].
  - intros p Hp. split.
    + intros [L (i & lbl & c & Hi & Hin & Hc & Hl & Hpos & _)%Hrow];
        [|done].
      exists lbl. split_and!; [done..|].
      destruct (grouped_entry cluster_key _ _ _ _ Hg Hin) as (Hndc & _).
      destruct (two_elements c p Hndc Hc) as (p' & Hp' & Hne).
      { by apply (Hmem lbl c p Hin). }
      exists p'. split; [done|]. by apply (Hmem lbl c p' Hin) in Hp' as [? _].
    + intros (lbl & Hl & Hpos & p' & Hne & Hl').
      destruct Hg as [Hkeys Hall]. destruct (Hall lbl) as (_ & Hm & _).
      assert (∀ x, labels !! x = Some lbl →
                x ∈ default [] (dict_get lbl clusters)) as Hin.
      { intros x Hx. apply Hm. exists lbl. split; [done|].
        by apply cluster_key_Some. }
      destruct (dict_get lbl clusters) as [c|] eqn:Hget.
      2:{ by apply Hin, elem_of_nil in Hl. }
      simpl in Hin. apply dict_get_Some_elem in Hget.
      assert (keys_of orig c ∈ gs) as Hgin.
      { apply Hgroups. exists lbl, c. split_and!; [done| |done].
        apply (NoDup_two c p p'); auto. }
      apply list_elem_of_lookup in Hgin as [i Hi].
      exists (sim_group_label (S i)). apply Hrow; [done|].
      exists i, lbl, c. split_and!; try done.
      apply (NoDup_two c p p'); auto.
  - intros p p' L L' Hp Hp'
      (i & lbl & c & Hi & Hin & Hc & Hl & Hpos & ->)%Hrow
      (i' & lbl' & c' & Hi' & Hin' & Hc' & Hl' & Hpos' & ->)%Hrow;
      [|done..].
    split.
    + intros Heq%sim_group_label_inj. injection Heq as <-.
      rewrite Hi in Hi'. injection Hi' as Heq.
      assert (p' ∈ c) as Hpc.
      { apply (Hkey lbl c p' Hin Hp'). rewrite Heq.
        apply (Hkey lbl' c' p' Hin' Hp'), (Hmem lbl' c' p' Hin'). done. }
      apply (Hmem lbl c p' Hin) in Hpc as [? _]. congruence.
    + intros Heq. rewrite Hl, Hl' in Heq. injection Heq as <-.
      assert (orig !!! p ∈ keys_of orig c) as H1
        by by apply (Hkey lbl c p Hin Hp), (Hmem lbl c p Hin).
      assert (orig !!! p ∈ keys_of orig c') as H2
        by by apply (Hkey lbl c' p Hin' Hp), (Hmem lbl c' p Hin').
      by rewrite (NoDup_concat_index gs i i' _ _ _ Hgs Hi Hi' H1 H2).
  - intros k [L (i & g & Hi & Hk & _)%Hlook].
    assert (g ∈ gs) as Hin by by eapply list_elem_of_lookup_2.
    apply Hgroups in Hin as (lbl & c & Hin & Hc & ->).
    unfold keys_of in Hk. apply list_elem_of_fmap in Hk as (p & -> & Hp).
    apply list_elem_of_lookup_total_2, Hb, elem_of_concat.
    exists c. split; [done|]. by apply (list_elem_of_fmap_2 snd) in Hin.
Qed.
End Stage1Unverified.

Lemma stage1_unverified_groups_witness :
  ∃ m : gmap nat string,
    result (find_similarity_groups example_hdbscan elements
              (enumerate example_questions) id None 2 (7 # 10) false) = Ok m
    ∧ ∀ k, is_Some (m !! k) →
           k ∈ stage1_original_indices (enumerate example_questions).
Proof.
  destruct (stage1_unverified_groups example_hdbscan elements
              (enumerate example_questions) id None 2 (7 # 10) false)
    as (m & Hres & _ & _ & Hkeys).
  - compute_done.
  - vm_compute. lia.
  - by vm_compute.
  - by left.
  - by exists m.
Defined.

(** ** What [try_split_group] returns *)

Lemma NoDup_four {A} (l : list A) a b c d :
  NoDup l → NoDup [a; b; c; d] →
  a ∈ l → b ∈ l → c ∈ l → d ∈ l → 4 ≤ length l.
Proof.
  intros Hl Habcd Ha Hb Hc Hd.
  assert ([a; b; c; d] ⊆+ l) as Hsub.
  { apply NoDup_submseteq; [done|]. intros x Hx.
    repeat (apply elem_of_cons in Hx as [->|Hx]; [done|]).
    by apply elem_of_nil in Hx. }
  by apply submseteq_length in Hsub.
Qed.

Section SplitResult.
Context {embeddings : Type}.
Variable hdbscan_fit_predict : hdbscan_params → embeddings → list Z.
Variable linkage_fcluster : nat → list Q → Q → list Z.
Variable set_iter : gset nat → list nat.
Hypothesis set_iter_perm : ∀ s, set_iter s ≡ₚ elements s.

(** X19.  [try_split_group] returns without an error, and a split it
    returns is well formed, on either path: it numbers only records of
    the group, each at most once, it uses two numbers or more, each on
    two records or more, so it keeps at least four records; a group of
    fewer than four records gets no split. *)
Theorem try_split_group_well_formed questions indices bi ce threshold :
  Forall (λ i, i < length questions) indices →
  NoDup indices →
  length (fine_labels hdbscan_fit_predict bi questions indices)
    = length indices →
  length (fallback_labels linkage_fcluster ce threshold
            (group_texts questions indices) (length indices))
    = length indices →
  ∃ r,
    result (try_split_group hdbscan_fit_predict linkage_fcluster set_iter
              questions indices bi ce threshold) = Ok r
    ∧ (length indices < 4 → r = None)
    ∧ ∀ d, r = Some d →
        NoDup (dict_keys d)
        ∧ (∀ k, k ∈ dict_keys d → k ∈ indices)
        ∧ 1 < distinct_values d
        ∧ (∀ k v, (k, v) ∈ d → ∃ k', k' ≠ k ∧ (k', v) ∈ d)
        ∧ 4 ≤ length d.
Proof.
  intros Hrange Hnd Hfine Hfall.
  destruct (try_split_group_spec hdbscan_fit_predict linkage_fcluster
              set_iter set_iter_perm questions indices bi ce threshold
              Hrange Hnd Hfine Hfall) as (r & Hres & Hr).
  exists r. split_and!; [done| |].
  - intros Hn. rewrite try_split_group_small in Hres by done.
    by injection Hres as <-.
  - intros d ->. destruct (Hr d eq_refl) as [(Hkeys & Hsub & Hpartner) Hd].
    split_and!; [done..|].
    destruct (distinct_values_two d Hd)
      as (k1 & v1 & k2 & v2 & H1 & H2 & Hne).
    destruct (Hpartner k1 v1 H1) as (k1' & Hk1 & H1').
    destruct (Hpartner k2 v2 H2) as (k2' & Hk2 & H2').
    assert (∀ k v k' v', (k, v) ∈ d → (k', v') ∈ d → v ≠ v' → k ≠ k')
      as Hdiff.
    { intros k v k' v' Hin Hin' Hv ->.
      apply (elem_of_dict _ _ _ Hkeys) in Hin, Hin'. congruence. }
    assert (k1 ≠ k1') as D0 by congruence.
    assert (k2 ≠ k2') as D5 by congruence.
    assert (k1 ≠ k2) as D1 by by eapply (Hdiff k1 v1 k2 v2).
    assert (k1 ≠ k2') as D2 by by eapply (Hdiff k1 v1 k2' v2).
    assert (k1' ≠ k2) as D3 by by eapply (Hdiff k1' v1 k2 v2).
    assert (k1' ≠ k2') as D4 by by eapply (Hdiff k1' v1 k2' v2).
    rewrite <-(length_fmap fst).
    apply (NoDup_four d.*1 k1 k1' k2 k2'); [done| |..].
    + repeat (apply NoDup_cons; split); [..|apply NoDup_nil];
        rewrite ?not_elem_of_cons; split_and?;
        first [done | by intros ?%elem_of_nil].
    + by apply (list_elem_of_fmap_2 fst) in H1.
    + by apply (list_elem_of_fmap_2 fst) in H1'.
    + by apply (list_elem_of_fmap_2 fst) in H2.
    + by apply (list_elem_of_fmap_2 fst) in H2'.
Qed.
End SplitResult.

Lemma try_split_group_well_formed_witness :
  ∃ r,
    result (try_split_group example_hdbscan example_fcluster elements
              example_questions example_indices id example_cross_encoder
              (7 # 10)) = Ok r
    ∧ ∀ d, r = Some d → 4 ≤ length d.
Proof.
  destruct (try_split_group_well_formed example_hdbscan example_fcluster
              elements elements_perm example_questions example_indices id
              example_cross_encoder (7 # 10))
    as (r & Hres & _ & Hd).
  - compute_done.
  - compute_done.
  - reflexivity.
  - reflexivity.
  - exists r. split; [done|]. intros d Hr. by apply Hd.
Defined.

(** ** Stage 1 with a threshold that no score reaches *)

Section Stage1NoEdges.
Context {embeddings : Type}.
Variable hdbscan_fit_predict : hdbscan_params → embeddings → list Z.
Variable set_iter : gset nat → list nat.
Hypothesis set_iter_perm : ∀ s, set_iter s ≡ₚ elements s.

(** X20.  When the cross-encoder gives no pair a score that reaches the
    threshold, Stage 1 forms no group: every record ends with its label
    cleared, whatever the density clustering found. *)
Theorem stage1_threshold_above_scores questions bi ce mcs threshold :
  length (stage1_cluster_labels hdbscan_fit_predict bi mcs
            (stage1_candidates questions))
    = length (stage1_valid_texts (stage1_candidates questions)) →
  (∀ pairs s, s ∈ ce pairs → Qle_bool threshold s = false) →
  result (run_stage1 hdbscan_fit_predict set_iter questions bi (Some ce)
            mcs threshold true)
  = Ok (set_group_id None <$> questions, tt).
Proof.
  intros Hlen Hlow. rewrite run_stage1_result.
  set (qwi := stage1_candidates questions) in *.
  destruct (decide (length (valid_rows qwi) < 2)) as [Hrows|Hrows].
  { rewrite find_similarity_groups_few_rows by done.
    by rewrite <-relabel_empty. }
  destruct (find_similarity_groups_verified hdbscan_fit_predict set_iter
              set_iter_perm qwi bi ce mcs threshold
              (NoDup_stage1_candidates questions))
    as (m & Hres & _ & Hlab); [lia|done|].
  rewrite Hres. assert (m = ∅) as ->; [|by rewrite relabel_empty].
  apply map_empty. intros k.
  destruct (m !! k) as [L|] eqn:Hk; [|done]. exfalso.
  destruct (Hlab k L Hk) as (e & x & _ & _ & Hne & _).
  apply set_choose_L in Hne as [y Hy].
  change (adj_step (stage1_graph ce threshold (stage1_valid_texts qwi)
                      e.2) x y) in Hy.
  unfold stage1_graph in Hy.
  apply build_adjacency_step in Hy as (s & Hin & Hle).
  assert (s ∈ ce (text_pairs ((λ i, stage1_valid_texts qwi !!! i) <$> e.2)
                    (all_pairs (length e.2)))) as Hs.
  { unfold stage1_scored in Hin. destruct Hin as [Hin|Hin];
      by apply elem_of_zip_r in Hin. }
  rewrite (Hlow _ _ Hs) in Hle. done.
Qed.
End Stage1NoEdges.

Lemma stage1_threshold_above_scores_witness :
  result (run_stage1 example_hdbscan elements example_collection id
            (Some example_cross_encoder) 2 (95 # 100) true)
  = Ok (set_group_id None <$> example_collection, tt).
Proof.
  apply (stage1_threshold_above_scores example_hdbscan elements
           elements_perm example_collection id example_cross_encoder 2
           (95 # 100)).
  - by vm_compute.
  - intros pairs s (p & -> & _)%list_elem_of_fmap. by case_decide.
Defined.

(** ** Stage 1 with a cross-encoder that accepts every pair *)

Section Stage1Accepting.
Context {embeddings : Type}.
Variable hdbscan_fit_predict : hdbscan_params → embeddings → list Z.
Variable set_iter : gset nat → list nat.
Hypothesis set_iter_perm : ∀ s, set_iter s ≡ₚ elements s.

(** When every score reaches the threshold, any two nodes of a cluster
  are joined by an edge. *)
Lemma stage1_graph_complete ce threshold valid_texts members x y :
(∀ pairs, length (ce pairs) = length pairs) →
(∀ pairs s, s ∈ ce pairs → (threshold <= s)%Q) →
x < length members → y < length members → x ≠ y →
adj_step (stage1_graph ce threshold valid_texts members) x y.
Proof.
intros Hce Hacc Hx Hy Hne.
assert (∀ a b, a < b < length members →
          adj_step (stage1_graph ce threshold valid_texts members) a b
          ∧ adj_step (stage1_graph ce threshold valid_texts members) b a)
  as Hedge.
{ intros a b Hab.
  destruct (stage1_graph_edge ce threshold valid_texts members a b Hce Hab)
    as (s & Hget & H1 & H2).
  apply dict_get_Some_elem in Hget. unfold stage1_scored in Hget.
  apply elem_of_zip_r in Hget. apply Hacc in Hget.
  split; [by apply H1|by apply H2]. }
destruct (decide (x < y)).
- destruct (Hedge x y) as [? _]; [lia|done].
- destruct (Hedge y x) as [_ ?]; [lia|done].
Qed.

Lemma stage1_graph_complete_neighbours ce threshold valid_texts members x :
(∀ pairs, length (ce pairs) = length pairs) →
(∀ pairs s, s ∈ ce pairs → (threshold <= s)%Q) →
x < length members →
neighbours (stage1_graph ce threshold valid_texts members) x ≠ ∅
↔ 2 ≤ length members.
Proof.
intros Hce Hacc Hx. split.
- intros Hn. apply set_choose_L in Hn as [y Hy].
  apply stage1_graph_below in Hy. lia.
- intros Hlen.
  assert (∃ y, y < length members ∧ x ≠ y) as (y & Hy & Hne).
  { destruct (decide (x = 0)); [exists 1|exists 0]; lia. }
  pose proof (stage1_graph_complete ce threshold valid_texts members x y
                Hce Hacc Hx Hy Hne) as Hstep.
  unfold adj_step in Hstep. set_solver.
Qed.

(** X21.  A cross-encoder that accepts every pair changes nothing: with
  scores that all reach the threshold, the verified Stage 1 groups the
  rows exactly by their density cluster, as the unverified one does.  A
  valid row gets a label exactly when its cluster label is not noise
  and another row has the same cluster label, and two labelled rows get
  the same group label exactly when they have the same cluster
  label. *)
Theorem stage1_accepting_verification qwi bi ce mcs threshold :
NoDup qwi.*1 →
2 ≤ length (valid_rows qwi) →
length (stage1_cluster_labels hdbscan_fit_predict bi mcs qwi)
  = length (stage1_valid_texts qwi) →
(∀ pairs, length (ce pairs) = length pairs) →
(∀ pairs s, s ∈ ce pairs → (threshold <= s)%Q) →
let cluster_labels :=
  stage1_cluster_labels hdbscan_fit_predict bi mcs qwi in
let original_indices := stage1_original_indices qwi in
∃ m,
  result (find_similarity_groups hdbscan_fit_predict set_iter qwi bi
            (Some ce) mcs threshold true) = Ok m
  ∧ (∀ p, p < length original_indices →
       is_Some (m !! (original_indices !!! p))
       ↔ ∃ c, cluster_labels !! p = Some c ∧ (0 ≤ c)%Z
              ∧ ∃ p', p' ≠ p ∧ cluster_labels !! p' = Some c)
  ∧ (∀ p p' L L',
       p < length original_indices → p' < length original_indices →
       m !! (original_indices !!! p) = Some L →
       m !! (original_indices !!! p') = Some L' →
       L = L' ↔ cluster_labels !! p = cluster_labels !! p').
Proof.
intros Hnd Hrows Hlen Hce Hacc labels orig.
destruct (find_similarity_groups_verified hdbscan_fit_predict set_iter
            set_iter_perm qwi bi ce mcs threshold Hnd Hrows Hlen)
  as (m & Hres & Hm & Hlab).
set (clusters := stage1_clusters hdbscan_fit_predict bi mcs qwi) in *.
set (graph := stage1_graph ce threshold (stage1_valid_texts qwi)) in *.
fold orig in Hm, Hlab.
assert (grouped cluster_key labels clusters) as Hg
  by apply group_clusters_grouped.
assert (NoDup orig) as Horig by by apply NoDup_stage1_original_indices.
assert (∀ e p, e ∈ clusters → p ∈ e.2 → p < length orig) as Hb.
{ intros e p He Hp. unfold orig. rewrite stage1_lengths.
  by eapply stage1_clusters_below. }
assert (∀ lbl c p, (lbl, c) ∈ clusters →
          p ∈ c ↔ labels !! p = Some lbl ∧ (0 ≤ lbl)%Z) as Hmem.
{ intros lbl c p Hin.
  destruct (grouped_entry cluster_key _ _ _ _ Hg Hin) as (_ & _ & Hmm).
  rewrite Hmm. split.
  - intros (x & Hx & [-> ?]%cluster_key_Some). done.
  - intros [Hx ?]. exists lbl. split; [done|].
    by apply cluster_key_Some. }
(* a labelled row is a node of a cluster of two rows or more *)
assert (∀ p L, p < length orig → m !! (orig !!! p) = Some L →
          ∃ lbl c x, (lbl, c) ∈ clusters ∧ x < length c
                     ∧ c !!! x = p ∧ 2 ≤ length c) as Hnode.
{ intros p L Hp HL.
  destruct (Hlab _ _ HL) as ([lbl c] & x & He & Hx & Hn & Hk).
  simpl in *. exists lbl, c, x. split_and!; [done..| |].
  - unfold key_of in Hk. symmetry.
    apply lookup_total_inj in Hk; [done|done|done|].
    apply (Hb (lbl, c)); [done|]. by apply list_elem_of_lookup_total_2.
  - by apply (stage1_graph_complete_neighbours ce threshold (stage1_valid_texts qwi) c x). }
(* every node of such a cluster carries the label of every other *)
assert (∀ lbl c x x' L, (lbl, c) ∈ clusters → x < length c →
          x' < length c → m !! (orig !!! (c !!! x)) = Some L →
          m !! (orig !!! (c !!! x')) = Some L) as Hshare.
{ intros lbl c x x' L He Hx Hx' HL.
  destruct (Hm (lbl, c) x He Hx) as [Hnone Hsome]. simpl in *.
  destruct (decide (x = x')) as [<-|Hne]; [done|].
  destruct Hsome as (L0 & HL0 & Hkeys).
  { apply (stage1_graph_complete_neighbours ce threshold (stage1_valid_texts qwi) c x);
      [done..|lia]. }
  unfold key_of in HL0. rewrite HL in HL0. injection HL0 as <-.
  apply Hkeys. exists x'. split; [|done].
  apply rtc_once.
  by apply (stage1_graph_complete ce threshold (stage1_valid_texts qwi) c x x'). }
exists m. split_and!; [done| |].
- intros p Hp. split.
  + intros [L (lbl & c & x & He & Hx & <- & Hc)%Hnode]; [|done].
    assert (c !!! x ∈ c) as Hin by by apply list_elem_of_lookup_total_2.
    exists lbl. split_and!; [by apply (Hmem lbl c _ He) in Hin as [? ?]..|].
    destruct (grouped_entry cluster_key _ _ _ _ Hg He) as (Hndc & _).
    destruct (two_elements c _ Hndc Hc Hin) as (p' & Hp' & Hne).
    exists p'. split; [done|].
    by apply (Hmem lbl c p' He) in Hp' as [? _].
  + intros (lbl & Hl & Hpos & p' & Hne & Hl').
    destruct Hg as [Hkeys Hall]. destruct (Hall lbl) as (_ & Hmm & _).
    assert (∀ x, labels !! x = Some lbl →
              x ∈ default [] (dict_get lbl clusters)) as Hin.
    { intros x Hx. apply Hmm. exists lbl. split; [done|].
      by apply cluster_key_Some. }
    destruct (dict_get lbl clusters) as [c|] eqn:Hget.
    2:{ by apply Hin, elem_of_nil in Hl. }
    simpl in Hin. apply dict_get_Some_elem in Hget.
    assert (2 ≤ length c) as Hc by (apply (NoDup_two c p p'); auto).
    pose proof (Hin p Hl) as Hpc.
    apply list_elem_of_lookup in Hpc as [x Hx].
    assert (x < length c) as Hxl by by eapply lookup_lt_Some.
    destruct (Hm (lbl, c) x Hget Hxl) as [_ Hsome]. simpl in *.
    destruct Hsome as (L & HL & _).
    { by apply (stage1_graph_complete_neighbours ce threshold (stage1_valid_texts qwi) c x). }
    exists L. unfold key_of in HL.
    by rewrite (list_lookup_total_correct _ _ _ Hx) in HL.
- intros p p' L L' Hp Hp' HL HL'.
  destruct (Hnode p L Hp HL) as (lbl & c & x & He & Hx & Hpx & Hc).
  destruct (Hnode p' L' Hp' HL') as (lbl' & c' & x' & He' & Hx' & Hpx' & Hc').
  assert (p ∈ c) as Hpc
    by (rewrite <-Hpx; by apply list_elem_of_lookup_total_2).
  assert (p' ∈ c') as Hpc'
    by (rewrite <-Hpx'; by apply list_elem_of_lookup_total_2).
  pose proof (proj1 (Hmem lbl c p He) Hpc) as [Hl _].
  pose proof (proj1 (Hmem lbl' c' p' He') Hpc') as [Hl' Hpos'].
  split.
  + intros <-.
    destruct (Hm (lbl, c) x He Hx) as [_ Hsome]. simpl in *.
    destruct Hsome as (L0 & HL0 & Hkeys).
    { by apply (stage1_graph_complete_neighbours ce threshold (stage1_valid_texts qwi) c x). }
    unfold key_of in HL0. rewrite Hpx, HL in HL0. injection HL0 as <-.
    apply Hkeys in HL' as (y & Hxy & Hk).
    assert (y < length c) as Hy.
    { eapply (connected_below (graph c) (length c)); [|exact Hx|exact Hxy].
      intros a b Hab. apply stage1_graph_below in Hab. lia. }
    unfold key_of in Hk.
    apply lookup_total_inj in Hk; [|done|done|].
    2:{ apply (Hb (lbl, c)); [done|].
        by apply list_elem_of_lookup_total_2. }
    assert (p' ∈ c) as Hin
      by (rewrite Hk; by apply list_elem_of_lookup_total_2).
    apply (Hmem lbl c p' He) in Hin as [? _]. congruence.
  + intros Heq. rewrite Hl, Hl' in Heq. injection Heq as <-.
    assert (p' ∈ c) as Hin by by apply (Hmem lbl c p' He).
    apply list_elem_of_lookup in Hin as [y Hy].
    assert (y < length c) as Hyl by by eapply lookup_lt_Some.
    pose proof (Hshare lbl c x y L He Hx Hyl) as Hs.
    rewrite Hpx, (list_lookup_total_correct _ _ _ Hy) in Hs.
    specialize (Hs HL). congruence.
Qed.

End Stage1Accepting.

Lemma stage1_accepting_verification_witness :
  ∃ m,
    result (find_similarity_groups example_hdbscan elements
              (enumerate example_questions) id
              (Some example_cross_encoder) 2 (1 # 2) true) = Ok m
    ∧ ∀ p p' L L',
        p < 5 → p' < 5 →
        m !! (stage1_original_indices (enumerate example_questions) !!! p)
          = Some L →
        m !! (stage1_original_indices (enumerate example_questions) !!! p')
          = Some L' →
        L = L'
        ↔ stage1_cluster_labels example_hdbscan id 2
            (enumerate example_questions) !! p
          = stage1_cluster_labels example_hdbscan id 2
              (enumerate example_questions) !! p'.
Proof.
  destruct (stage1_accepting_verification example_hdbscan elements
              elements_perm (enumerate example_questions) id
              example_cross_encoder 2 (1 # 2))
    as (m & Hres & _ & Hsame).
  - compute_done.
  - vm_compute. lia.
  - reflexivity.
  - apply example_cross_encoder_length.
  - intros pairs s (p & -> & _)%list_elem_of_fmap. by case_decide.
  - exists m. split; [exact Hres|exact Hsame].
Defined.
